(** * NWScript-Npp: the NWScript file parser (src/NWScriptParser.cpp)

    A shallow embedding of [NWScriptParser::ParseFile] and of the two
    member extractors [CreateNWScriptStructureA] / [CreateNWScriptStructureW],
    together with the PCRE2 patterns they are driven by, and the properties
    the specification states about them.

    Beside the parser: the margin helpers of [ControlAnchorMap]
    (src/Utils/AnchorMap.h), and [compileScript], [MakeDependenciesFile]
    and [disassembleBinary] of the compiler front end
    (src/NWScriptCompiler.cpp). *)

From Stdlib Require Import List String Ascii NArith ZArith Arith Bool Lia.
From Stdlib Require Import Permutation Sorted.
Import ListNotations.
Open Scope string_scope.
Open Scope list_scope.

(* ================================================================= *)
(** ** Characters and strings *)

(** A code unit.  [std::string] holds 8-bit units, [std::wstring] (the
    plugin's [generic_string]) 16-bit units; both are kept as [N]. *)
Definition unit_t := N.
Definition text := list unit_t.

Definition ch (a : ascii) : unit_t := N_of_ascii a.

Fixpoint str (s : string) : text :=
  match s with
  | EmptyString => []
  | String a s' => ch a :: str s'
  end.

Definition LF : unit_t := 10%N.
Definition DQUOTE : unit_t := 34%N.
Definition BACKSLASH : unit_t := 92%N.

Definition in_range (lo hi x : unit_t) : bool := (N.leb lo x && N.leb x hi)%bool.

(** PCRE2 character types, without UCP: only ASCII code units belong. *)
Definition is_digit (x : unit_t) : bool := in_range 48%N 57%N x.
Definition is_word (x : unit_t) : bool :=
  (in_range 97%N 122%N x || in_range 65%N 90%N x || is_digit x || N.eqb x 95%N)%bool.
Definition is_space (x : unit_t) : bool :=
  (in_range 9%N 13%N x || N.eqb x 32%N)%bool.

(* ================================================================= *)
(** ** Patterns *)

Inductive ClassItem : Type :=
| CChar (c : unit_t)      (* a literal member *)
| CWord                   (* \w *)
| CDigit                  (* \d *)
| CSpace.                 (* \s *)

Definition item_has (i : ClassItem) (x : unit_t) : bool :=
  match i with
  | CChar c => N.eqb x c
  | CWord => is_word x
  | CDigit => is_digit x
  | CSpace => is_space x
  end.

Inductive Regex : Type :=
| Eps                                   (* the empty pattern *)
| Lit (c : unit_t)                      (* one literal unit *)
| Dot                                   (* .  : anything but a newline *)
| Class (negated : bool) (items : list ClassItem)   (* [...] or [^...] *)
| Seq (a b : Regex)
| Alt (a b : Regex)                     (* a|b, a tried first *)
| Star (lazy : bool) (a : Regex)        (* a* (greedy) or a*? (lazy) *)
| Atomic (a : Regex)                    (* (?>a) *)
| Look (negative : bool) (a : Regex)    (* (?=a) or (?!a) *)
| Capture (name : string) (a : Regex)   (* (?<name>a) *)
| Call (name : string)                  (* \g<name> *)
| Bol                                   (* ^ under PCRE2_MULTILINE *)
| Keep.                                 (* \K *)

(** Derived forms, named after the concrete syntax. *)
Definition Plus (a : Regex) : Regex := Seq a (Star false a).       (* a+  *)
Definition Opt (a : Regex) : Regex := Alt a Eps.                   (* a?  a{0,1} *)
Definition StarP (a : Regex) : Regex := Atomic (Star false a).     (* a*+ *)
Definition PlusP (a : Regex) : Regex := Atomic (Plus a).           (* a++ *)
Definition StarL (a : Regex) : Regex := Star true a.               (* a*? *)

Fixpoint Word (s : text) : Regex :=
  match s with
  | [] => Eps
  | c :: s' => Seq (Lit c) (Word s')
  end.

Fixpoint Cat (l : list Regex) : Regex :=
  match l with
  | [] => Eps
  | [a] => a
  | a :: l' => Seq a (Cat l')
  end.

Fixpoint AltOf (l : list Regex) : Regex :=
  match l with
  | [] => Class false []
  | [a] => a
  | a :: l' => Alt a (AltOf l')
  end.

Definition W : Regex := Class false [CWord].     (* \w *)
Definition S_ : Regex := Class false [CSpace].   (* \s *)
Definition D : Regex := Class false [CDigit].    (* \d *)

(* ================================================================= *)
(** ** Matching

    The matcher follows the backtracking semantics of PCRE2 for the
    constructs the patterns use: alternatives are tried from left to right;
    a greedy repetition tries more rounds first, a lazy one fewer; an atomic
    group, and so a possessive repetition, keeps only the first way its body
    matched; an assertion consumes nothing; a group call leaves the
    captures as they were.  The newline is LF, the default of PCRE2, and
    without PCRE2_UCP the classes \w, \d and \s hold ASCII units only, in
    the 8-bit and in the 16-bit library alike.  This is the matcher
    where PCRE2 reaches none of its resource limits; what a limit that is
    reached does to a match is under Matching within the limits of the
    library, further down. *)

(** A point in a match: [pos] units of the subject are consumed, [prev] is
    the unit just before, [rest] what is left; [start] is where the reported
    match begins (moved by \K); [caps] holds the named groups set so far,
    most recent first, as (start, end) offsets. *)
Record MatchState : Type := mkState {
  pos : nat;
  prev : option unit_t;
  rest : text;
  start : nat;
  caps : list (string * (nat * nat))
}.

Definition advance (st : MatchState) : MatchState :=
  match rest st with
  | [] => st
  | x :: xs => mkState (S (pos st)) (Some x) xs (start st) (caps st)
  end.

Definition eat (p : unit_t -> bool) (st : MatchState) : list MatchState :=
  match rest st with
  | [] => []
  | x :: _ => if p x then [advance st] else []
  end.

Definition class_has (negated : bool) (items : list ClassItem) (x : unit_t) : bool :=
  xorb negated (existsb (fun i => item_has i x) items).

Definition at_bol (st : MatchState) : bool :=
  match prev st with
  | None => true
  | Some x => (N.eqb x LF && negb (match rest st with [] => true | _ => false end))%bool
  end.

Definition with_caps (c : list (string * (nat * nat))) (st : MatchState) : MatchState :=
  mkState (pos st) (prev st) (rest st) (start st) c.

Definition rewind (st st' : MatchState) : MatchState :=
  mkState (pos st) (prev st) (rest st) (start st) (caps st').

Definition set_cap (name : string) (from : nat) (st : MatchState) : MatchState :=
  with_caps ((name, (from, pos st)) :: caps st) st.

Definition keep (st : MatchState) : MatchState :=
  mkState (pos st) (prev st) (rest st) (pos st) (caps st).

(** The outcome of running a pattern from a state: every way it can match,
    in the order a backtracking matcher tries them; [None] when the budget
    for nested group calls ran out. *)
Definition outcomes := option (list MatchState).

Fixpoint collect (f : MatchState -> outcomes) (l : list MatchState) : outcomes :=
  match l with
  | [] => Some []
  | s :: l' =>
      match f s, collect f l' with
      | Some a, Some b => Some (a ++ b)
      | _, _ => None
      end
  end.

Definition first_only (o : outcomes) : outcomes :=
  match o with
  | Some (s :: _) => Some [s]
  | other => other
  end.

(** Unlimited repetition.  An iteration that consumes nothing ends the
    loop (PCRE2 breaks such loops); [n] bounds the iterations and is never
    reached when it starts above the length of [rest]. *)
Fixpoint repeat_ (lazy : bool) (step : MatchState -> outcomes) (n : nat)
    (st : MatchState) : outcomes :=
  match n with
  | 0 => None
  | S n' =>
      match step st with
      | None => None
      | Some l =>
          match collect (fun st' => if Nat.eqb (pos st') (pos st) then Some [st']
                                    else repeat_ lazy step n' st') l with
          | None => None
          | Some more => Some (if lazy then st :: more else more ++ [st])
          end
      end
  end.

Section Exec.
(** The named groups of the pattern, as [\g<name>] finds them. *)
Variable defs : string -> Regex.

Fixpoint exec (fuel : nat) : Regex -> MatchState -> outcomes :=
  match fuel with
  | 0 => fun _ _ => None
  | S fuel' =>
      fix go (r : Regex) (st : MatchState) {struct r} : outcomes :=
        match r with
        | Eps => Some [st]
        | Lit c => Some (eat (N.eqb c) st)
        | Dot => Some (eat (fun x => negb (N.eqb x LF)) st)
        | Class neg items => Some (eat (class_has neg items) st)
        | Seq a b =>
            match go a st with
            | None => None
            | Some l => collect (go b) l
            end
        | Alt a b =>
            match go a st, go b st with
            | Some l1, Some l2 => Some (l1 ++ l2)
            | _, _ => None
            end
        | Star lazy a => repeat_ lazy (go a) (S (List.length (rest st))) st
        | Atomic a => first_only (go a st)
        | Look negative a =>
            match go a st with
            | None => None
            | Some [] => Some (if negative then [st] else [])
            | Some (st' :: _) => Some (if negative then [] else [rewind st st'])
            end
        | Capture name a =>
            option_map (map (set_cap name (pos st))) (go a st)
        | Call name =>
            (* captures set inside a group call revert when it returns *)
            option_map (map (with_caps (caps st))) (exec fuel' (defs name) st)
        | Bol => Some (if at_bol st then [st] else [])
        | Keep => Some [keep st]
        end
  end.
End Exec.

(* ================================================================= *)
(** ** The patterns of NWScriptParser.cpp (ROBUSTREGEXDEFINITIONS)

    Each definition is preceded by the text of the pattern it transcribes.
    Groups that are not named are not captured: the extractors only read
    named groups.  In these comments a blank keeps a star apart from a
    closing parenthesis. *)

(** A compiled pattern: its named groups and the part that is matched.
    A [(?(DEFINE)...)] block only declares groups and matches nothing. *)
Record RegexObj : Type := mkRegex {
  groups : string -> Regex;
  pattern : Regex
}.

Definition Fail : Regex := Class false [].
Definition no_groups (_ : string) : Regex := Fail.

Definition L (a : ascii) : Regex := Lit (ch a).
Definition G (name : string) : Regex := Call name.
Definition Kw (s : string) : Regex := Word (str s).

(** (?>\/\/(?>\n|. * )) *)
Definition commentLine : Regex :=
  Atomic (Cat [L "/"; L "/"; Atomic (Alt (Lit LF) (Star false Dot))]).

(** (?>\/\*(?>.|\n)*?\*\/) *)
Definition comment : Regex :=
  Atomic (Cat [L "/"; L "*"; StarL (Atomic (Alt Dot (Lit LF))); L "*"; L "/"]).

(** (?>\s*+(?>\g<comment>|\g<commentLine>)?\s*+)*+ *)
Definition c : Regex :=
  StarP (Atomic (Cat [StarP S_;
                      Opt (Atomic (Alt (G "comment") (G "commentLine")));
                      StarP S_])).

(** (?>(?!(\/\/|\/\* ))(Q(?:\\.|[^Q\\])*Q|[\w\d.\-]+)), Q the double quote *)
Definition token : Regex :=
  Atomic (Seq (Look true (Alt (Kw "//") (Kw "/*")))
              (Alt (Cat [Lit DQUOTE;
                         Star false (Alt (Seq (Lit BACKSLASH) Dot)
                                         (Class true [CChar DQUOTE; CChar BACKSLASH]));
                         Lit DQUOTE])
                   (Plus (Class false [CWord; CDigit; CChar (ch "."); CChar (ch "-")])))).

Definition value_ : Regex := AltOf [G "token"; G "tokenVector"; G "object"].

(** One element of a vector or of an object, with the comma after it:
    (?>(?>\g<token>|\g<tokenVector>|\g<object>)\g<c>,?\g<c>) *)
Definition ELEMENT : Regex :=
  Atomic (Cat [Atomic value_; G "c"; Opt (L ","); G "c"]).

(** (?>\[\g<c>(?>(?>\g<token>|\g<tokenVector>|\g<object>)\g<c>,?\g<c>)*?\g<c>\]) *)
Definition tokenVector : Regex :=
  Atomic (Cat [L "["; G "c"; StarL ELEMENT; G "c"; L "]"]).

(** (?>\{\g<c>(?>(?>\g<token>|\g<tokenVector>|\g<object>)\g<c>,?\g<c>)*?\g<c>\}) *)
Definition object : Regex :=
  Atomic (Cat [L "{"; G "c"; StarL ELEMENT; G "c"; L "}"]).

(** (?>\g<c>(?>const)?\g<c>(?>\w+)\g<c>(?>\w+)\g<c>
       (?>=\g<c>(?>\g<token>|\g<tokenVector>|\g<object>)){0,1})\g<c> *)
Definition param : Regex :=
  Seq (Atomic (Cat [G "c"; Opt (Atomic (Kw "const")); G "c";
                    Atomic (Plus W); G "c"; Atomic (Plus W); G "c";
                    Opt (Atomic (Cat [L "="; G "c"; Atomic value_]))]))
      (G "c").

(** The (?(DEFINE)...) block every pattern but the engine-structure one
    starts with. *)
Definition BASEREGEX (name : string) : Regex :=
  if String.eqb name "commentLine" then commentLine
  else if String.eqb name "comment" then comment
  else if String.eqb name "c" then c
  else if String.eqb name "token" then token
  else if String.eqb name "tokenVector" then tokenVector
  else if String.eqb name "object" then object
  else if String.eqb name "param" then param
  else Fail.

(** ^\s*+\K(?>#define)\s++(?>ENGINE_STRUCTURE_\d++)\s++(?<name>\w++) *)
Definition ENGINESTRUCTREGEX : RegexObj :=
  mkRegex no_groups
    (Cat [Bol; StarP S_; Keep; Atomic (Kw "#define"); PlusP S_;
          Atomic (Seq (Kw "ENGINE_STRUCTURE_") (PlusP D)); PlusP S_;
          Capture "name" (PlusP W)]).

(** The function pattern after its \K, without the closing [;]:
    (?<type>(?>(?!(return|if|else|switch))\w+))\g<c>(?<name>(?>\w+))\g<c>\(
    (?<parametersString>(?>(?>\g<param>,(?=\g<param>)|\g<param>(?=\))))*+)
    \)\g<c> *)
Definition FUNCTIONSIGNATURE : Regex :=
  Cat [Capture "type"
         (Atomic (Seq (Look true (AltOf [Kw "return"; Kw "if"; Kw "else"; Kw "switch"]))
                      (Plus W)));
       G "c";
       Capture "name" (Atomic (Plus W));
       G "c"; L "(";
       Capture "parametersString"
         (StarP (Atomic (Atomic (Alt (Cat [G "param"; L ","; Look false (G "param")])
                                     (Seq (G "param") (Look false (L ")")))))));
       L ")"; G "c"].

(** Everything of the function pattern but its closing [;]:
    ^\g<comment>*+\K and the signature. *)
Definition FUNCTIONHEADER : Regex :=
  Cat [Bol; StarP (G "comment"); Keep; FUNCTIONSIGNATURE].

Definition FUNCTIONDECLARATIONREGEX : RegexObj :=
  mkRegex BASEREGEX (Seq FUNCTIONHEADER (L ";")).

(** \g<c>(?>const){0,1}\g<c>(?<type>(?>\w+))\g<c>(?<name>(?>\w+))\g<c>
    (?>=\g<c>(?<defaultValue>(?>\g<token>|\g<tokenVector>|\g<object>)))?
    \g<c>(?!,)? *)
Definition FUNTIONPARAMETERREGEX : RegexObj :=
  mkRegex BASEREGEX
    (Cat [G "c"; Opt (Atomic (Kw "const")); G "c";
          Capture "type" (Atomic (Plus W)); G "c";
          Capture "name" (Atomic (Plus W)); G "c";
          Opt (Atomic (Cat [L "="; G "c"; Capture "defaultValue" (Atomic value_)]));
          G "c"; Opt (Look true (L ","))]).

(** ^\g<comment>*+(?>(?>const)?\g<c>^\K(?<type>(?>\w+))\g<c>(?<name>(?>\w+))
    \g<c>=\g<c>(?<value>\g<token>|\g<tokenVector>|\g<object>))\g<c>; *)
Definition CONSTANTREGEX : RegexObj :=
  mkRegex BASEREGEX
    (Cat [Bol; StarP (G "comment");
          Atomic (Cat [Opt (Atomic (Kw "const")); G "c"; Bol; Keep;
                       Capture "type" (Atomic (Plus W)); G "c";
                       Capture "name" (Atomic (Plus W)); G "c";
                       L "="; G "c"; Capture "value" value_]);
          G "c"; L ";"]).

(* ================================================================= *)
(** ** pcre2_match and jpcre2's RegexMatch::match *)

Inductive MatchResult : Type :=
| Matched (m : MatchState)
| NoMatch
| MatchError.

Fixpoint skip (n : nat) (st : MatchState) : MatchState :=
  match n with
  | 0 => st
  | S n' => skip n' (advance st)
  end.

Definition state_at (subject : text) (offset : nat) : MatchState :=
  skip offset (mkState 0 None subject 0 []).

(** Group calls nest no deeper than the subject is long (a vector or an
    object consumes its opening bracket before it calls itself), so this
    budget is not exhausted: [pcre2_match] below is the call where the
    library has all the room a match needs.  [pcre2_match_limited] is the
    call where it has not. *)
Definition depth_budget (subject : text) : nat := List.length subject + 8.

(** One match attempt per start position, leftmost first.  [restricted]
    stands for PCRE2_NOTEMPTY_ATSTART | PCRE2_ANCHORED. *)
Fixpoint scan (re : RegexObj) (fuel : nat) (restricted : bool) (from : nat)
    (n : nat) (st : MatchState) : MatchResult :=
  match n with
  | 0 => NoMatch
  | S n' =>
      match exec (groups re) fuel (pattern re) (keep st) with
      | None => MatchError
      | Some l =>
          match (if restricted
                 then filter (fun m => negb (Nat.eqb (pos m) from)) l
                 else l) with
          | m :: _ => Matched m
          | [] =>
              if restricted then NoMatch
              else match rest st with
                   | [] => NoMatch
                   | _ :: _ => scan re fuel restricted from n' (advance st)
                   end
          end
      end
  end.

Definition pcre2_match (re : RegexObj) (subject : text) (start_offset : nat)
    (restricted : bool) : MatchResult :=
  let st := state_at subject start_offset in
  scan re (depth_budget subject) restricted start_offset
       (S (List.length (rest st))) st.

(** The second and later matches of a "g" match: each starts where the
    one before ended; after an empty match a restricted attempt is made at
    the same place and, failing that, the scan moves on by one unit. *)
Fixpoint match_more (re : RegexObj) (subject : text) (n : nat)
    (ov0 ov1 : nat) : list MatchState :=
  match n with
  | 0 => []
  | S n' =>
      let empty := Nat.eqb ov0 ov1 in
      if (empty && Nat.eqb ov0 (List.length subject))%bool then []
      else match pcre2_match re subject ov1 empty with
           | Matched m => m :: match_more re subject n' (start m) (pos m)
           | NoMatch => if empty then match_more re subject n' ov0 (S ov1) else []
           | MatchError => []
           end
  end.

Definition match_all (re : RegexObj) (subject : text) : list MatchState :=
  match pcre2_match re subject 0 false with
  | Matched m =>
      m :: match_more re subject (2 * S (List.length subject)) (start m) (pos m)
  | _ => []
  end.

Fixpoint lookup_cap (name : string) (l : list (string * (nat * nat)))
    : option (nat * nat) :=
  match l with
  | [] => None
  | (k, v) :: l' => if String.eqb k name then Some v else lookup_cap name l'
  end.

(** An entry of jpcre2's named-substring map: the text a named group
    captured, empty when the group took no part in the match. *)
Definition named (subject : text) (m : MatchState) (name : string) : text :=
  match lookup_cap name (caps m) with
  | Some (from, to) => firstn (to - from) (skipn from subject)
  | None => []
  end.

(* ================================================================= *)
(** ** The parse results (NWScriptParser.h, as NWScriptParser.cpp fills them) *)

Definition generic_string := text.

Inductive MemberID : Type := EngineStruct | Function | Constant.

Record ScriptParamMember : Type := mkParam {
  pType : generic_string;
  pName : generic_string;
  sDefaultValue : generic_string
}.

Record ScriptMember : Type := mkMember {
  mID : MemberID;
  sType : generic_string;
  sName : generic_string;
  sValue : generic_string;
  sParams : list ScriptParamMember
}.

Record ScriptParseResults : Type := mkResults {
  EngineStructuresCount : nat;
  FunctionsCount : nat;
  ConstantsCount : nat;
  Members : list ScriptMember
}.

(** Modelled from the spec: the enumeration of Utf8_16.h is not among the
    sources; its members here are the seven verdicts [ParseFile] compares
    the detector's answer with, and [uniOther] stands for any other answer
    (the spec's Unknown). *)
Inductive UniMode : Type :=
| uni8Bit | uni7Bit | uniCookie
| uni16BE | uni16LE | uni16BE_NoBOM | uni16LE_NoBOM
| uniOther.

(** What [ParseFile] takes from outside NWScriptParser.cpp: the Windows
    path and shell-link services, the file system, the encoding detector
    of Utf8_16.h, the narrow-to-wide conversion and [std::sort]. *)
Record Platform : Type := mkPlatform {
  shell_link_target : generic_string -> option generic_string;
  GetFullPathName : generic_string -> nat * generic_string;
  GetLongPathName : generic_string -> generic_string;
  file_contents : generic_string -> option text;
  determineEncoding : text -> nat -> UniMode;
  str2wstr : text -> generic_string;
  std_sort : (ScriptMember -> ScriptMember -> bool) ->
             list ScriptMember -> list ScriptMember
}.

Definition MAX_PATH : nat := 260.
Definition blockSize : nat := 128 * 1024 + 4.

(** [operator<] of [std::wstring]: lexicographic on the code units. *)
Fixpoint wstring_lt (a b : generic_string) : bool :=
  match a, b with
  | _, [] => false
  | [], _ :: _ => true
  | x :: a', y :: b' =>
      if N.ltb x y then true
      else if N.ltb y x then false
      else wstring_lt a' b'
  end.

(** The comparison [ParseFile] hands to [std::sort]. *)
Definition by_name (a b : ScriptMember) : bool := wstring_lt (sName a) (sName b).

Section Parser.
Variable P : Platform.

(** [ResolveLinkFile]: the path is replaced when it names a shortcut
    that loads, resolves and yields a target. *)
Definition ResolveLinkFile (linkFilePath : generic_string) : generic_string :=
  match shell_link_target P linkFilePath with
  | Some targetFilePath => targetFilePath
  | None => linkFilePath
  end.

(** [FileToBuffer]: the success flag and the contents, which stay as
    they were when the stream does not open. *)
Definition FileToBuffer (fileName : generic_string) (sContents : text)
    : bool * text :=
  match file_contents P fileName with
  | None => (false, sContents)
  | Some bytes => (true, bytes)
  end.

Definition engine_member (subject : text) (m : MatchState) : ScriptMember :=
  mkMember EngineStruct [] (str2wstr P (named subject m "name")) [] [].

Definition param_member (subject : text) (m : MatchState) : ScriptParamMember :=
  mkParam (str2wstr P (named subject m "type"))
          (str2wstr P (named subject m "name"))
          (str2wstr P (named subject m "defaultValue")).

Definition function_member (subject : text) (m : MatchState) : ScriptMember :=
  let parametersString := named subject m "parametersString" in
  let sParams := map (param_member parametersString)
                     (match_all FUNTIONPARAMETERREGEX parametersString) in
  mkMember Function (str2wstr P (named subject m "type"))
           (str2wstr P (named subject m "name")) [] sParams.

Definition constant_member (subject : text) (m : MatchState) : ScriptMember :=
  mkMember Constant (str2wstr P (named subject m "type"))
           (str2wstr P (named subject m "name"))
           (str2wstr P (named subject m "value")) [].

(** [CreateNWScriptStructureA]: three "g" matches over the file, each
    setting its counter and appending one member per match. *)
Definition CreateNWScriptStructureA (sFileContents : text)
    (outParseResults : ScriptParseResults) : ScriptParseResults :=
  let captureGroup := match_all ENGINESTRUCTREGEX sFileContents in
  let r1 := mkResults (List.length captureGroup)
                      (FunctionsCount outParseResults)
                      (ConstantsCount outParseResults)
                      (Members outParseResults
                         ++ map (engine_member sFileContents) captureGroup) in
  let captureGroup := match_all FUNCTIONDECLARATIONREGEX sFileContents in
  let r2 := mkResults (EngineStructuresCount r1)
                      (List.length captureGroup)
                      (ConstantsCount r1)
                      (Members r1
                         ++ map (function_member sFileContents) captureGroup) in
  let captureGroup := match_all CONSTANTREGEX sFileContents in
  mkResults (EngineStructuresCount r2)
            (FunctionsCount r2)
            (List.length captureGroup)
            (Members r2 ++ map (constant_member sFileContents) captureGroup).

(** The bytes taken two by two as [wchar_t] units, low byte first; an odd
    last byte is dropped ([size() / 2] units are assigned). *)
Fixpoint as_wchars (bytes : text) : text :=
  match bytes with
  | lo :: hi :: more => (lo + 256 * hi)%N :: as_wchars more
  | _ => []
  end.

Definition engine_memberW (subject : text) (m : MatchState) : ScriptMember :=
  mkMember EngineStruct [] (named subject m "name") [] [].

Definition param_memberW (subject : text) (m : MatchState) : ScriptParamMember :=
  mkParam (named subject m "type") (named subject m "name")
          (named subject m "defaultValue").

Definition function_memberW (subject : text) (m : MatchState) : ScriptMember :=
  let parametersString := named subject m "parametersString" in
  let sParams := map (param_memberW parametersString)
                     (match_all FUNTIONPARAMETERREGEX parametersString) in
  mkMember Function (named subject m "type") (named subject m "name") [] sParams.

Definition constant_memberW (subject : text) (m : MatchState) : ScriptMember :=
  mkMember Constant (named subject m "type") (named subject m "name")
           (named subject m "value") [].

(** [CreateNWScriptStructureW]: the same three passes over the file read
    as wide characters; the patterns are the same texts, widened. *)
Definition CreateNWScriptStructureW (sFileContents : text)
    (outParseResults : ScriptParseResults) : ScriptParseResults :=
  let sNewFile := as_wchars sFileContents in
  let captureGroup := match_all ENGINESTRUCTREGEX sNewFile in
  let r1 := mkResults (List.length captureGroup)
                      (FunctionsCount outParseResults)
                      (ConstantsCount outParseResults)
                      (Members outParseResults
                         ++ map (engine_memberW sNewFile) captureGroup) in
  let captureGroup := match_all FUNCTIONDECLARATIONREGEX sNewFile in
  let r2 := mkResults (EngineStructuresCount r1)
                      (List.length captureGroup)
                      (ConstantsCount r1)
                      (Members r1
                         ++ map (function_memberW sNewFile) captureGroup) in
  let captureGroup := match_all CONSTANTREGEX sNewFile in
  mkResults (EngineStructuresCount r2)
            (FunctionsCount r2)
            (List.length captureGroup)
            (Members r2 ++ map (constant_memberW sNewFile) captureGroup).

Definition is_narrow (e : UniMode) : bool :=
  match e with uni8Bit | uni7Bit | uniCookie => true | _ => false end.

Definition is_wide (e : UniMode) : bool :=
  match e with
  | uni16BE | uni16LE | uni16BE_NoBOM | uni16LE_NoBOM => true
  | _ => false
  end.

(** The detector's verdict on the sample [ParseFile] hands it: the
    whole buffer, or its first [blockSize] bytes. *)
Definition verdict (sFileContents : text) : UniMode :=
  determineEncoding P sFileContents
    (if Nat.ltb (List.length sFileContents) blockSize
     then List.length sFileContents else blockSize).

(** The dispatch on the verdict: the narrow pass, the wide pass, or
    neither. *)
Definition extract (sFileContents : text)
    (outParseResults : ScriptParseResults) : ScriptParseResults :=
  let encoding := verdict sFileContents in
  if is_narrow encoding
  then CreateNWScriptStructureA sFileContents outParseResults
  else if is_wide encoding
  then CreateNWScriptStructureW sFileContents outParseResults
  else outParseResults.

(** The part of [ParseFile] after the file is read: detection, dispatch
    and the final [std::sort] of the members by name. *)
Definition parse_contents (sFileContents : text)
    (outParseResults : ScriptParseResults) : ScriptParseResults :=
  let r := extract sFileContents outParseResults in
  mkResults (EngineStructuresCount r) (FunctionsCount r) (ConstantsCount r)
            (std_sort P by_name (Members r)).

Definition has_tilde (s : generic_string) : bool := existsb (N.eqb (ch "~")) s.

(** The part of [ParseFile] before the file is read: the name of the
    file to open, or [None] where [ParseFile] returns false.  The assert
    on the length of the long name is not part of a release build and is
    left out. *)
Definition settled_name (sFileName : generic_string) : option generic_string :=
  if Nat.leb (MAX_PATH - 1) (List.length sFileName) then None
  else
    let targetFileName := ResolveLinkFile sFileName in
    let '(getFullPathNameResult, longFileName) := GetFullPathName P targetFileName in
    if Nat.eqb getFullPathNameResult 0 then None
    else if Nat.ltb MAX_PATH getFullPathNameResult then None
    else
      Some (if has_tilde longFileName then GetLongPathName P longFileName
            else longFileName).

(** [ParseFile]: the flag returned and the caller's results object as the
    call leaves it.  The flag of [FileToBuffer] is stored in [success]
    and not looked at again. *)
Definition ParseFile (sFileName : generic_string)
    (outParseResults : ScriptParseResults) : bool * ScriptParseResults :=
  match settled_name sFileName with
  | None => (false, outParseResults)
  | Some targetFileName =>
      let '(success, sFileContents) := FileToBuffer targetFileName [] in
      (true, parse_contents sFileContents outParseResults)
  end.

(** The buffer a call of [ParseFile] works on. *)
Definition buffer_read (sFileName : generic_string) : text :=
  match settled_name sFileName with
  | None => []
  | Some targetFileName => snd (FileToBuffer targetFileName [])
  end.
End Parser.

(* ================================================================= *)
(** ** What the properties are stated with *)

(** [<=] on wide strings, by code unit. *)
Fixpoint wstring_le (a b : generic_string) : bool :=
  match a, b with
  | [], _ => true
  | _ :: _, [] => false
  | x :: a', y :: b' =>
      if N.ltb x y then true
      else if N.ltb y x then false
      else wstring_le a' b'
  end.

(** What the standard asks of [std::sort] for the comparison [by_name]:
    the result is a rearrangement of the input in which no element is
    less than one before it.  Nothing is said of equal elements. *)
Definition sort_conforms (P : Platform) : Prop :=
  forall l : list ScriptMember,
    Permutation l (std_sort P by_name l) /\
    StronglySorted (fun a b => by_name b a = false) (std_sort P by_name l).

(** A sort keeps equal elements in order when, for every name, the records
    of that name come out in the order they went in. *)
Definition same_name (n : generic_string) (m : ScriptMember) : bool :=
  (negb (wstring_lt n (sName m)) && negb (wstring_lt (sName m) n))%bool.

Definition sort_stable (P : Platform) : Prop :=
  forall (l : list ScriptMember) (n : generic_string),
    filter (same_name n) (std_sort P by_name l) = filter (same_name n) l.

Definition kind_eqb (a b : MemberID) : bool :=
  match a, b with
  | EngineStruct, EngineStruct | Function, Function | Constant, Constant => true
  | _, _ => false
  end.

Definition count_kind (k : MemberID) (l : list ScriptMember) : nat :=
  List.length (filter (fun m => kind_eqb (mID m) k) l).

Definition counter_of (k : MemberID) (r : ScriptParseResults) : nat :=
  match k with
  | EngineStruct => EngineStructuresCount r
  | Function => FunctionsCount r
  | Constant => ConstantsCount r
  end.

(** A sorting function that keeps equal elements in order: insertion
    from the right. *)
Fixpoint insert_by (cmp : ScriptMember -> ScriptMember -> bool) (x : ScriptMember)
    (l : list ScriptMember) : list ScriptMember :=
  match l with
  | [] => [x]
  | y :: l' => if cmp y x then y :: insert_by cmp x l' else x :: y :: l'
  end.

Fixpoint insertion_sort (cmp : ScriptMember -> ScriptMember -> bool)
    (l : list ScriptMember) : list ScriptMember :=
  match l with
  | [] => []
  | x :: l' => insert_by cmp x (insertion_sort cmp l')
  end.

(** A detector that only looks for a byte-order mark. *)
Definition sniff_bom (buf : text) (len : nat) : UniMode :=
  match firstn len buf with
  | 255%N :: 254%N :: _ => uni16LE
  | 254%N :: 255%N :: _ => uni16BE
  | 239%N :: 187%N :: 191%N :: _ => uniOther
  | _ => uni8Bit
  end.

(** A platform without shortcuts or short path names, whose narrow-to-wide
    conversion widens each unit. *)
Definition plain_platform (files : generic_string -> option text)
    (sort : (ScriptMember -> ScriptMember -> bool) ->
            list ScriptMember -> list ScriptMember) : Platform :=
  mkPlatform (fun _ => None)
             (fun s => (List.length s, s))
             (fun s => s)
             files
             sniff_bom
             (fun s => s)
             sort.

Definition no_results : ScriptParseResults := mkResults 0 0 0 [].

Definition one_file (name : generic_string) (bytes : text)
    (n : generic_string) : option text :=
  if wstring_le n name && wstring_le name n then Some bytes else None.

(** A narrow text written out as UTF-16, low byte first, after the
    byte-order mark FF FE. *)
Fixpoint utf16le (s : text) : text :=
  match s with
  | [] => []
  | x :: s' => x :: 0%N :: utf16le s'
  end.

Definition with_bom (s : text) : text := 255%N :: 254%N :: utf16le s.

Definition LFs : string := String (ascii_of_nat 10) EmptyString.

Definition all_blank (w : text) : bool := forallb is_space w.

(** Bracketed literals: a bare token, or a vector between square brackets
    whose elements are literals, each with the blanks before and after it,
    separated by commas. *)
#[warnings="-register-all"]
Inductive Literal : Type :=
| LTok (w : text)
| LVec (items : list (text * Literal * text)).

Definition is_bare (x : unit_t) : bool :=
  class_has false [CWord; CDigit; CChar (ch "."); CChar (ch "-")] x.

Fixpoint join_commas (l : list text) : text :=
  match l with
  | [] => []
  | [x] => x
  | x :: l' => x ++ ch "," :: join_commas l'
  end.

Fixpoint render (v : Literal) : text :=
  match v with
  | LTok w => w
  | LVec items =>
      ch "[" ::
      join_commas (map (fun e => match e with
                                 | (pre, x, post) => pre ++ render x ++ post
                                 end) items)
      ++ [ch "]"]
  end.

Fixpoint well_formed (v : Literal) : bool :=
  match v with
  | LTok w => (negb (Nat.eqb (List.length w) 0) && forallb is_bare w)%bool
  | LVec items =>
      forallb (fun e => match e with
                        | (pre, x, post) =>
                            (all_blank pre && well_formed x && all_blank post)%bool
                        end) items
  end.

Fixpoint nesting (v : Literal) : nat :=
  match v with
  | LTok _ => 0
  | LVec items =>
      S (fold_right (fun e n => match e with
                                | (_, x, _) => Nat.max (nesting x) n
                                end) 0 items)
  end.

(** The verdict is one of the narrow or wide classes. *)
Definition classified (P : Platform) (bytes : text) : bool :=
  (is_narrow (verdict P bytes) || is_wide (verdict P bytes))%bool.

(** Sample inputs. *)
Definition a_nss : generic_string := str "a.nss".
Definition b_nss : generic_string := str "b.nss".

Definition stable_platform (bytes : text) : Platform :=
  plain_platform (one_file a_nss bytes) insertion_sort.

Definition fn (ty nm : string) (ps : list ScriptParamMember) : ScriptMember :=
  mkMember Function (str ty) (str nm) [] ps.

Definition cn (ty nm v : string) : ScriptMember :=
  mkMember Constant (str ty) (str nm) (str v) [].

Definition shadowing_script : text :=
  str ("int NAME();" ++ LFs ++ "int NAME = 1;").

Definition utf8_bom : text := [239%N; 187%N; 191%N].

Definition two_line_script : text :=
  str ("int beta();" ++ LFs ++ "int alpha = 1;").

Definition first_line_script : text := str "int f();".

Definition second_line_script : text := str (LFs ++ "int f();").

Definition es (nm : string) : ScriptMember :=
  mkMember EngineStruct [] (str nm) [] [].

(* ================================================================= *)
(** ** What the properties of the patterns are stated with *)

(** ** Shapes of patterns and relations between states *)

(** [st'] lies [k] units further into the subject than [st]. *)
Definition ahead (k : nat) (st st' : MatchState) : Prop :=
  k <= List.length (rest st) /\
  pos st' = pos (skip k st) /\ prev st' = prev (skip k st) /\
  rest st' = rest (skip k st).

(** [st'] lies further into the subject than [st]; its reported start is
    the same unless \K is allowed, its captures unless capturing is. *)
Definition follows (kc cc : bool) (st st' : MatchState) : Prop :=
  (exists k, ahead k st st') /\
  (kc = false -> start st' = start st) /\
  (cc = false -> caps st' = caps st).

(** No \K (unless [kc]) and no named group (unless [cc]) outside group
    calls. *)
Fixpoint shape (kc cc : bool) (r : Regex) : bool :=
  match r with
  | Keep => kc
  | Capture _ a => (cc && shape kc cc a)%bool
  | Seq a b | Alt a b => (shape kc cc a && shape kc cc b)%bool
  | Star _ a | Atomic a | Look _ a => shape kc cc a
  | _ => true
  end.

Definition is_atomic (r : Regex) : bool :=
  match r with Atomic _ => true | _ => false end.

(** Patterns that cannot match in two ways: sequences of atomic groups,
    assertions, single units and calls of atomic groups. *)
Fixpoint det (defs : string -> Regex) (r : Regex) : bool :=
  match r with
  | Seq a b => (det defs a && det defs b)%bool
  | Capture _ a => det defs a
  | Call n => is_atomic (defs n)
  | Alt _ _ | Star _ _ => false
  | _ => true
  end.

(** [st] is a point of the subject: it agrees with the state the matcher
    is in when it starts at offset [pos st]. *)
Definition on_subject (subject : text) (st : MatchState) : Prop :=
  pos st <= List.length subject /\
  prev st = prev (state_at subject (pos st)) /\
  rest st = rest (state_at subject (pos st)).

(** ** Shapes of text *)

(** [r] is empty or begins with a unit outside [p]. *)
Definition stops (p : unit_t -> bool) (r : text) : bool :=
  match r with
  | [] => true
  | x :: _ => negb (p x)
  end.

(** [r] is empty or begins with a unit that is neither blank nor the
    slash that opens a comment. *)
Definition quiet (r : text) : bool :=
  stops (fun x => (is_space x || N.eqb x (ch "/"))%bool) r.

Fixpoint prefix_of (w t : text) : bool :=
  match w, t with
  | [], _ => true
  | _ :: _, [] => false
  | x :: w', y :: t' => (N.eqb x y && prefix_of w' t')%bool
  end.

(** [r] is empty or begins with the comma or the parenthesis that ends a
    parameter. *)
Definition closes (r : text) : bool :=
  match r with
  | [] => true
  | x :: _ => (N.eqb x (ch ",") || N.eqb x (ch ")"))%bool
  end.

(** A name: a non-empty run of word units. *)
Definition is_name (w : text) : bool :=
  (negb (Nat.eqb (List.length w) 0) && forallb is_word w)%bool.

(** The state the parameter pattern is in after the blanks [ws], the
    type, the blanks [sp], the name and the blanks [sp2] of a parameter. *)
Definition after_name (A : MatchState) (ws ty sp nm sp2 : text) : MatchState :=
  let p1 := pos A + List.length ws in
  let p2 := p1 + List.length ty in
  let p3 := p2 + List.length sp in
  let p4 := p3 + List.length nm in
  with_caps (("name", (p3, p4)) :: ("type", (p1, p2)) :: caps A)
            (skip (List.length (ws ++ ty ++ sp ++ nm ++ sp2)) A).

(** A unit a well-formed literal can begin with. *)
Definition opens (x : unit_t) : bool := (is_bare x || N.eqb x (ch "["))%bool.

(** An element of a vector with the blanks around it. *)
Definition element_text (e : text * Literal * text) : text :=
  match e with
  | (pre, x, post) => pre ++ render x ++ post
  end.

(** What is left of the elements of a vector once the blanks before the
    first one are passed. *)
Fixpoint elements_text (items : list (text * Literal * text)) : text :=
  match items with
  | [] => []
  | (_, x, post) :: l =>
      render x ++ post ++
      match l with
      | [] => []
      | (pre', _, _) :: _ => ch "," :: pre' ++ elements_text l
      end
  end.

Definition element_ok (e : text * Literal * text) : bool :=
  match e with
  | (pre, x, post) => (all_blank pre && well_formed x && all_blank post)%bool
  end.

(** The pattern reads the literal [v], followed by [r], to its end. *)
Definition read_whole (fuel : nat) (v : Literal) : Prop :=
  forall (st : MatchState) (r : text),
    rest st = render v ++ r -> stops is_bare r = true ->
    exec BASEREGEX fuel (Atomic value_) st
    = Some [skip (List.length (render v)) st].

(** ** Formal lists *)

(** A parameter as it is written: blanks, type, blanks, name, blanks and,
    if it has a default, an equals sign, blanks and a literal. *)
Record Formal : Type := mkFormal {
  p_ws : text;
  p_type : text;
  p_sp : text;
  p_name : text;
  p_sp2 : text;
  p_default : option (text * Literal)
}.

Definition default_text (p : Formal) : text :=
  match p_default p with
  | None => []
  | Some (sp3, v) => ch "=" :: sp3 ++ render v
  end.

Definition render_param (p : Formal) : text :=
  p_ws p ++ p_type p ++ p_sp p ++ p_name p ++ p_sp2 p ++ default_text p.

Definition well_shaped (p : Formal) : bool :=
  (all_blank (p_ws p)
   && is_name (p_type p) && negb (prefix_of (str "const") (p_type p))
   && all_blank (p_sp p) && negb (Nat.eqb (List.length (p_sp p)) 0)
   && is_name (p_name p)
   && all_blank (p_sp2 p)
   && match p_default p with
      | None => true
      | Some (sp3, v) => all_blank sp3 && well_formed v
      end)%bool.

Definition after_commas (ps : list Formal) : text :=
  List.concat (map (fun p => ch "," :: render_param p) ps).

(** The text between the parentheses of a declaration. *)
Definition render_params (ps : list Formal) : text :=
  match ps with
  | [] => []
  | p :: ps' => render_param p ++ after_commas ps'
  end.

Definition default_value (p : Formal) : text :=
  match p_default p with
  | None => []
  | Some (_, v) => render v
  end.

(** The records the wide and the narrow pass make of a parameter. *)
Definition wide_record (p : Formal) : ScriptParamMember :=
  mkParam (p_type p) (p_name p) (default_value p).

Definition narrow_record (P : Platform) (p : Formal) : ScriptParamMember :=
  mkParam (str2wstr P (p_type p)) (str2wstr P (p_name p))
          (str2wstr P (default_value p)).

(** The match [m] of the parameter pattern in [subject] is the parameter
    [p]: both passes make the expected record of it. *)
Definition matches_param (P : Platform) (subject : text)
    (m : MatchState) (p : Formal) : Prop :=
  param_memberW subject m = wide_record p /\
  param_member P subject m = narrow_record P p.

(** Sample declarations. *)
Definition declaration_script : text :=
  str "void f(int a, vector v = [[1, 2], [3, 4]]);".

Definition declaration_formals : list Formal :=
  [mkFormal [] (str "int") (str " ") (str "a") [] None;
   mkFormal (str " ") (str "vector") (str " ") (str "v") (str " ")
            (Some (str " ",
                   LVec [([], LVec [([], LTok (str "1"), []);
                                    (str " ", LTok (str "2"), [])], []);
                         (str " ", LVec [([], LTok (str "3"), []);
                                         (str " ", LTok (str "4"), [])], [])]))].

Definition blank_state : MatchState := mkState 0 None [] 0 [].

Definition declaration_match : MatchState :=
  Eval vm_compute in
    hd blank_state (match_all FUNCTIONDECLARATIONREGEX declaration_script).

Definition definition_script : text :=
  str ("int g() { return 1; }" ++ LFs ++ "int h();").

Definition definition_header_end : MatchState :=
  Eval vm_compute in
    match exec BASEREGEX (depth_budget definition_script) FUNCTIONHEADER
               (keep (state_at definition_script 0)) with
    | Some (s :: _) => s
    | _ => blank_state
    end.

Definition declaration_h_match : MatchState :=
  Eval vm_compute in
    hd blank_state (match_all FUNCTIONDECLARATIONREGEX definition_script).

(** [m] is a result of a match attempt at some offset of the subject. *)
Definition attempt (re : RegexObj) (subject : text) (m : MatchState) : Prop :=
  exists o l,
    exec (groups re) (depth_budget subject) (pattern re)
         (keep (state_at subject o)) = Some l /\ In m l.

(** A narrow text written out as UTF-16 with the high byte first. *)
Fixpoint utf16be (s : text) : text :=
  match s with
  | [] => []
  | x :: s' => 0%N :: x :: utf16be s'
  end.

(** The byte-order mark FE FF of big-endian UTF-16. *)
Definition bom_be : text := [254%N; 255%N].

(** A unit none of the patterns has a use for: NUL, or one beyond the
    8-bit range. *)
Definition outlandish (x : unit_t) : bool := (N.eqb x 0 || N.leb 256 x)%bool.

(** [r] is empty or begins with such a unit. *)
Definition dull (r : text) : bool := stops (fun x => negb (outlandish x)) r.

Definition is_ascii (x : unit_t) : bool := N.ltb x 128.

(** ** What the named groups hold *)

(** The words the function pattern does not take for a type. *)
Definition reserved : list string := ["return"; "if"; "else"; "switch"].

(** [w] begins with none of them. *)
Definition unreserved (w : text) : bool :=
  forallb (fun k => negb (prefix_of (str k) w)) reserved.

Section Captures.
Variable defs : string -> Regex.
(** What the text of each named group is to satisfy. *)
Variable Q : string -> text -> Prop.

(** The pattern [a] passes over a text that satisfies [Q n], and sets no
    group. *)
Definition reads (n : string) (a : Regex) : Prop :=
  forall fuel st l s,
    exec defs fuel a st = Some l -> In s l ->
    exists w, Q n w /\ rest st = w ++ rest s /\
              pos s = pos st + List.length w /\ caps s = caps st.

(** Every named group of the pattern, outside group calls, either reads
    such a text or is one of which nothing is asked. *)
Inductive captures_ok : Regex -> Prop :=
| ok_Eps : captures_ok Eps
| ok_Lit (x : unit_t) : captures_ok (Lit x)
| ok_Dot : captures_ok Dot
| ok_Class (neg : bool) (items : list ClassItem) : captures_ok (Class neg items)
| ok_Seq (a b : Regex) : captures_ok a -> captures_ok b -> captures_ok (Seq a b)
| ok_Alt (a b : Regex) : captures_ok a -> captures_ok b -> captures_ok (Alt a b)
| ok_Star (lazy : bool) (a : Regex) : captures_ok a -> captures_ok (Star lazy a)
| ok_Atomic (a : Regex) : captures_ok a -> captures_ok (Atomic a)
| ok_Look (negative : bool) (a : Regex) : captures_ok a -> captures_ok (Look negative a)
| ok_Capture_reads (n : string) (a : Regex) : reads n a -> captures_ok (Capture n a)
| ok_Capture_any (n : string) (a : Regex) :
    (forall w, Q n w) -> captures_ok a -> captures_ok (Capture n a)
| ok_Call (n : string) : captures_ok (Call n)
| ok_Bol : captures_ok Bol
| ok_Keep : captures_ok Keep.

(** The groups set so far hold such texts of the subject. *)
Definition caps_ok (subject : text) (cps : list (string * (nat * nat))) : Prop :=
  Forall (fun e => Q (fst e) (firstn (snd (snd e) - fst (snd e))
                                     (skipn (fst (snd e)) subject))) cps.
End Captures.

(** The group [n] is set wherever the pattern matches. *)
Fixpoint sets (n : string) (r : Regex) : bool :=
  match r with
  | Capture n' a => (String.eqb n' n || sets n a)%bool
  | Seq a b => (sets n a || sets n b)%bool
  | Alt a b => (sets n a && sets n b)%bool
  | Atomic a => sets n a
  | _ => false
  end.

(** [m] has the groups of [st] and maybe more. *)
Definition extends (st m : MatchState) : Prop :=
  exists more, caps m = more ++ caps st.

(** What is asked of the groups of the function pattern, and of those of
    the other patterns. *)
Definition function_groups (n : string) (w : text) : Prop :=
  (n = "type" -> is_name w = true /\ unreserved w = true) /\
  (n = "name" -> is_name w = true).

Definition plain_groups (n : string) (w : text) : Prop :=
  (n = "type" -> is_name w = true) /\ (n = "name" -> is_name w = true).

(** A state of a match on the subject whose groups hold what [Q] asks. *)
Definition sound_state (Q : string -> text -> Prop) (subject : text)
    (st : MatchState) : Prop :=
  on_subject subject st /\ caps_ok Q subject (caps st).

(** A member as the patterns allow it to be: the name is an identifier;
    an engine structure has nothing else; a function has an identifier
    for its type that begins with none of the reserved words, no value,
    and parameters whose type and name are identifiers; a constant has an
    identifier for its type and no parameters. *)
Definition well_named (rec : ScriptMember) : Prop :=
  is_name (sName rec) = true /\
  match mID rec with
  | EngineStruct => sType rec = [] /\ sValue rec = [] /\ sParams rec = []
  | Function =>
      is_name (sType rec) = true /\ unreserved (sType rec) = true /\
      sValue rec = [] /\
      Forall (fun q => is_name (pType q) = true /\ is_name (pName q) = true)
             (sParams rec)
  | Constant => is_name (sType rec) = true /\ sParams rec = []
  end.

(** ** Scripts of declarations *)

(** A declaration of nwscript.nss as it is written on its line: an engine
    structure [ws #define sp1 ENGINE_STRUCTURE_digits sp2 name], a function
    [type sp name sp2 ( parameters ) sp3 ;] or a constant
    [type sp name sp2 = sp3 literal sp4 ;]. *)
Inductive Decl : Type :=
| DEngine (ws sp1 digits sp2 nm : text)
| DFunction (ty sp nm sp2 : text) (ps : list Formal) (sp3 : text)
| DConstant (ty sp nm sp2 sp3 : text) (v : Literal) (sp4 : text).

Definition render_decl (d : Decl) : text :=
  match d with
  | DEngine ws sp1 digits sp2 nm =>
      ws ++ str "#define" ++ sp1 ++ str "ENGINE_STRUCTURE_" ++ digits ++ sp2 ++ nm
  | DFunction ty sp nm sp2 ps sp3 =>
      ty ++ sp ++ nm ++ sp2 ++ ch "(" :: render_params ps ++ ch ")" :: sp3 ++ [ch ";"]
  | DConstant ty sp nm sp2 sp3 v sp4 =>
      ty ++ sp ++ nm ++ sp2 ++ ch "=" :: sp3 ++ render v ++ sp4 ++ [ch ";"]
  end.

Definition no_LF (w : text) : bool := forallb (fun x => negb (N.eqb x LF)) w.

(** A non-empty run of digits; a non-empty run of blanks. *)
Definition is_number (w : text) : bool :=
  (negb (Nat.eqb (List.length w) 0) && forallb is_digit w)%bool.

Definition gap (w : text) : bool :=
  (all_blank w && negb (Nat.eqb (List.length w) 0))%bool.

(** The declaration stays on its line and is made of the parts its kind
    asks for. *)
Definition decl_ok (d : Decl) : bool :=
  (no_LF (render_decl d) &&
   match d with
   | DEngine ws sp1 digits sp2 nm =>
       all_blank ws && gap sp1 && is_number digits && gap sp2 && is_name nm
   | DFunction ty sp nm sp2 ps sp3 =>
       is_name ty && unreserved ty && negb (prefix_of (str "const") ty)
       && gap sp && is_name nm && all_blank sp2
       && forallb well_shaped ps && all_blank sp3
   | DConstant ty sp nm sp2 sp3 v sp4 =>
       is_name ty && negb (prefix_of (str "const") ty) && gap sp && is_name nm
       && all_blank sp2 && all_blank sp3 && well_formed v && all_blank sp4
   end)%bool.

(** The member a declaration stands for. *)
Definition record_of (d : Decl) : ScriptMember :=
  match d with
  | DEngine _ _ _ _ nm => mkMember EngineStruct [] nm [] []
  | DFunction ty _ nm _ ps _ => mkMember Function ty nm [] (map wide_record ps)
  | DConstant ty _ nm _ _ v _ => mkMember Constant ty nm (render v) []
  end.

Definition kind_of (d : Decl) : MemberID :=
  match d with
  | DEngine _ _ _ _ _ => EngineStruct
  | DFunction _ _ _ _ _ _ => Function
  | DConstant _ _ _ _ _ _ _ => Constant
  end.

Definition of_kind (k : MemberID) (d : Decl) : bool := kind_eqb (kind_of d) k.

(** The script made of the declarations, one on each line. *)
Definition script (ds : list Decl) : text :=
  List.concat (map (fun d => render_decl d ++ [LF]) ds).

(** The matches of a "g" match from the result of a first [pcre2_match]
    on. *)
Definition matches_from (re : RegexObj) (subject : text) (n : nat)
    (r : MatchResult) : list MatchState :=
  match r with
  | Matched m => m :: match_more re subject n (start m) (pos m)
  | _ => []
  end.

(** One round of the parameter list of the function pattern:
    (?>(?>\g<param>,(?=\g<param>)|\g<param>(?=\)))) *)
Definition PARAMETER : Regex :=
  Atomic (Atomic (Alt (Cat [G "param"; L ","; Look false (G "param")])
                      (Seq (G "param") (Look false (L ")"))))).

(** What the passes make of a script of declarations: the engine
    structures, then the functions, then the constants, each in the order
    of the lines. *)
Definition members_of (ds : list Decl) : list ScriptMember :=
  map record_of (filter (of_kind EngineStruct) ds)
  ++ map record_of (filter (of_kind Function) ds)
  ++ map record_of (filter (of_kind Constant) ds).

Definition results_of (ds : list Decl) (out : ScriptParseResults)
    : ScriptParseResults :=
  mkResults (List.length (filter (of_kind EngineStruct) ds))
            (List.length (filter (of_kind Function) ds))
            (List.length (filter (of_kind Constant) ds))
            (Members out ++ members_of ds).

(** A sample script. *)
Definition sample_declarations : list Decl :=
  [DEngine [] (str " ") (str "0") (str " ") (str "effect");
   DFunction (str "void") (str " ") (str "f") [] declaration_formals [];
   DConstant (str "int") (str " ") (str "N") (str " ") (str " ")
             (LTok (str "18")) []].

(* ================================================================= *)
(** ** Margins of controls (src/Utils/AnchorMap.h)

    The static helpers of [ControlAnchorMap] that are defined in the
    header.  A [LONG] is a 32-bit signed integer, kept as [Z]; sums and
    differences are taken modulo 2^32, as the two's-complement machine
    takes them.  A function that updates a struct through a reference
    returns the updated struct. *)

Module AnchorMap.

Definition LONG_wrap (z : Z) : Z :=
  ((z + 2147483648) mod 4294967296 - 2147483648)%Z.

Definition is_LONG (z : Z) : Prop := (-2147483648 <= z < 2147483648)%Z.

Record RECT : Type := mkRECT { left : Z; top : Z; right : Z; bottom : Z }.

Record OFFSETRECT : Type := mkOFFSETRECT {
  leftMargin : Z;
  topMargin : Z;
  rightMargin : Z;
  bottomMargin : Z
}.

Record POINT : Type := mkPOINT { x : Z; y : Z }.

Definition MARGIN_LEFT : Z := 1.
Definition MARGIN_TOP : Z := 2.
Definition MARGIN_RIGHT : Z := 4.
Definition MARGIN_BOTTOM : Z := 8.
Definition MARGIN_ALL : Z := 15.

Definition INVERT_HORIZONTAL : Z := 1.
Definition INVERT_VERTICAL : Z := 2.
Definition INVERT_BOTH : Z := 3.

(** [flags & mask] taken as a condition. *)
Definition has_flag (flags mask : Z) : bool := negb (Z.eqb (Z.land flags mask) 0).

Definition CopyOffsetRect (target origin : OFFSETRECT) : OFFSETRECT :=
  let target := mkOFFSETRECT (leftMargin origin) (topMargin target)
                             (rightMargin target) (bottomMargin target) in
  let target := mkOFFSETRECT (leftMargin target) (topMargin origin)
                             (rightMargin target) (bottomMargin target) in
  let target := mkOFFSETRECT (leftMargin target) (topMargin target)
                             (rightMargin origin) (bottomMargin target) in
  mkOFFSETRECT (leftMargin target) (topMargin target)
               (rightMargin target) (bottomMargin origin).

Definition applyMargins (margins : OFFSETRECT) (target : RECT) (marginFlags : Z)
    : RECT :=
  let target :=
    if has_flag marginFlags MARGIN_LEFT
    then mkRECT (LONG_wrap (left target + leftMargin margins)) (top target)
                (right target) (bottom target)
    else target in
  let target :=
    if has_flag marginFlags MARGIN_TOP
    then mkRECT (left target) (LONG_wrap (top target + topMargin margins))
                (right target) (bottom target)
    else target in
  let target :=
    if has_flag marginFlags MARGIN_RIGHT
    then mkRECT (left target) (top target)
                (LONG_wrap (right target + rightMargin margins)) (bottom target)
    else target in
  if has_flag marginFlags MARGIN_BOTTOM
  then mkRECT (left target) (top target) (right target)
              (LONG_wrap (bottom target + bottomMargin margins))
  else target.

Definition calculateMargins (a b : RECT) : OFFSETRECT :=
  mkOFFSETRECT (LONG_wrap (left b - left a)) (LONG_wrap (top b - top a))
               (LONG_wrap (right b - right a)) (LONG_wrap (bottom b - bottom a)).

Definition calculateReverseMargins (a b : RECT) : OFFSETRECT :=
  mkOFFSETRECT (LONG_wrap (left a - left b)) (LONG_wrap (top a - top b))
               (LONG_wrap (right a - right b)) (LONG_wrap (bottom a - bottom b)).

Definition invertOffsetRect (marginRect : OFFSETRECT) (flags : Z) : OFFSETRECT :=
  let resultOffset := marginRect in
  let resultOffset :=
    if has_flag flags INVERT_HORIZONTAL
    then mkOFFSETRECT (rightMargin marginRect) (topMargin resultOffset)
                      (leftMargin marginRect) (bottomMargin resultOffset)
    else resultOffset in
  let resultOffset :=
    if has_flag flags INVERT_VERTICAL
    then mkOFFSETRECT (leftMargin resultOffset) (bottomMargin marginRect)
                      (rightMargin resultOffset) (topMargin marginRect)
    else resultOffset in
  CopyOffsetRect marginRect resultOffset.

Definition moveOffsetRect (marginRect : OFFSETRECT) (displacement : POINT)
    : OFFSETRECT :=
  let marginRect :=
    mkOFFSETRECT (leftMargin marginRect)
                 (LONG_wrap (topMargin marginRect + x displacement))
                 (rightMargin marginRect) (bottomMargin marginRect) in
  let marginRect :=
    mkOFFSETRECT (leftMargin marginRect) (topMargin marginRect)
                 (LONG_wrap (rightMargin marginRect + x displacement))
                 (bottomMargin marginRect) in
  let marginRect :=
    mkOFFSETRECT (leftMargin marginRect)
                 (LONG_wrap (topMargin marginRect + y displacement))
                 (rightMargin marginRect) (bottomMargin marginRect) in
  mkOFFSETRECT (leftMargin marginRect) (topMargin marginRect)
               (rightMargin marginRect)
               (LONG_wrap (bottomMargin marginRect + y displacement)).

(** The fields of a struct are [LONG]s. *)
Definition RECT_ok (r : RECT) : Prop :=
  is_LONG (left r) /\ is_LONG (top r) /\ is_LONG (right r) /\ is_LONG (bottom r).

(** The displacements added one after the other. *)
Definition add_points (d1 d2 : POINT) : POINT :=
  mkPOINT (LONG_wrap (x d1 + x d2)) (LONG_wrap (y d1 + y d2)).

End AnchorMap.

(* ================================================================= *)
(** ** The disassembler's output (src/NWScriptCompiler.cpp) *)

(** FORMATDISASMREGEX, compiled with PCRE2_MULTILINE: .+ *)
Definition FORMATDISASMREGEX : RegexObj := mkRegex no_groups (Plus Dot).

(** An entry [0] of jpcre2's numbered-substring vector: the text of the
    whole match. *)
Definition whole (subject : text) (m : MatchState) : text :=
  firstn (pos m - start m) (skipn (start m) subject).

(** What [disassembleBinary] streams into [formatedCode]: the matches of a
    "g" match of the pattern over the generated code, one after the
    other. *)
Definition formatedCode (generatedCode : text) : text :=
  List.concat (map (whole generatedCode)
                   (match_all FORMATDISASMREGEX generatedCode)).

Definition not_LF (x : unit_t) : bool := negb (N.eqb x LF).

Inductive LogType : Type := ConsoleMessage | Info | Warning | Critical.

(** A call of the logger: the message, its type and its code. *)
Record LogEntry : Type := mkLog {
  log_message : text;
  log_type : LogType;
  log_code : text
}.

(** What [disassembleBinary] takes from outside: the disassembler of the
    compiler library, the path of the output file and [bufferToFile]. *)
Record Disassembler : Type := mkDisassembler {
  NscDisassembleScript : text -> text;
  disassembled_path : generic_string;
  bufferToFile : generic_string -> text -> bool
}.

Definition DISASSEMBLY_ERROR : text :=
  str "DISASSEMBLY ERROR: COMPILER INITIALIZATION FAILED!".

Definition console (msg : text) : LogEntry := mkLog msg ConsoleMessage [].

(** [disassembleBinary]: the flag returned, what the logger was given and,
    when [bufferToFile] was called, the path and the text it was called
    with. *)
Definition disassembleBinary (D : Disassembler) (fileContents : text)
    : bool * list LogEntry * option (generic_string * text) :=
  let generatedCode := NscDisassembleScript D fileContents in
  if list_eq_dec N.eq_dec generatedCode DISASSEMBLY_ERROR
  then (false,
        [console [];
         mkLog (str "Disassembler - Compiler Initialization failed!") Critical
               (str "NSC2007");
         console []],
        None)
  else
    let outputPath := disassembled_path D in
    let text_out := formatedCode generatedCode in
    if bufferToFile D outputPath text_out
    then (true, [], Some (outputPath, text_out))
    else (false,
          [console [];
           mkLog (str "Could not write disassembled output file: " ++ outputPath)
                 Critical (str "NSC2008");
           console []],
          Some (outputPath, text_out)).

(* ================================================================= *)
(** ** Compiling a script (src/NWScriptCompiler.cpp) *)

Inductive NscResult : Type :=
| NscResult_Failure
| NscResult_Include
| NscResult_Success
| NscResult_Other.        (* any other status code *)

(** What [NscCompileScript] gives back. *)
Record Compilation : Type := mkCompilation {
  result : NscResult;
  generatedCode : text;
  debugSymbols : text;
  fileDependencies : list text      (* the std::set, in its order *)
}.

(** The settings [compileScript] reads. *)
Record Settings : Type := mkSettings {
  compileVersion : Z;
  optimizeScript : bool;
  compilerFlags : Z;                (* UINT32 *)
  generateSymbols : bool
}.

(** What [compileScript] takes from outside NWScriptCompiler.cpp: the flag
    values and the compiler of the library, the names of the run, the
    suffixes of NWScriptCompiler.h, the narrow-to-wide conversion,
    [bufferToFile], and what [MakeDependenciesView] returns. *)
Record Compiler : Type := mkCompiler {
  NscCompilerFlag_ShowIncludes : Z;
  NscCompilerFlag_GenerateMakeDeps : Z;
  NscCompilerFlag_SuppressWarnings : Z;
  NscCompilerFlag_ShowPreprocessed : Z;
  (* resource reference, source text, game version, bOptimize, flags,
     whether symbols are asked for *)
  NscCompileScript : text -> text -> Z -> bool -> Z -> bool -> Compilation;
  destDir : text;
  sourceName : text;                (* _sourcePath.filename() *)
  sourceStem : text;                (* _sourcePath.stem() *)
  compiledScriptSuffix : text;
  debugSymbolsFileSuffix : text;
  dependencyFileSuffix : text;
  textScriptSuffix : text;
  widen : text -> generic_string;   (* str2wstr *)
  writes : generic_string -> text -> bool;   (* bufferToFile *)
  viewed : list text -> bool        (* MakeDependenciesView *)
}.

(** What a call does that can be seen from outside, in order. *)
Inductive Event : Type :=
| Compiled (bOptimize : bool) (flags : Z)
| Logged (e : LogEntry)
| Written (path : generic_string) (contents : text)
| Viewed (dependencies : list text).

(** A [std::filesystem::path] sent to a stream: between double quotes,
    with a backslash before each double quote and backslash. *)
Definition quoted (s : text) : text :=
  DQUOTE :: flat_map (fun x => if (N.eqb x DQUOTE || N.eqb x BACKSLASH)%bool
                              then [BACKSLASH; x] else [x]) s
  ++ [DQUOTE].

(** A [const char*] sent to a stream: up to the first NUL. *)
Fixpoint c_str (s : text) : text :=
  match s with
  | [] => []
  | x :: s' => if N.eqb x 0 then [] else x :: c_str s'
  end.

Section Compile.
Variable C : Compiler.
Variable S_ : Settings.

Definition output_path (suffix : text) : generic_string :=
  widen C (destDir C ++ [BACKSLASH] ++ sourceStem C ++ suffix).

(** [MakeDependenciesFile]. *)
Definition MakeDependenciesFile (dependencies : list text) : bool * list Event :=
  match dependencies with
  | [] => (true, [])
  | _ :: _ =>
      let sdependencies :=
        quoted (sourceStem C) ++ compiledScriptSuffix C ++ str ": "
        ++ quoted (sourceStem C) ++ textScriptSuffix C
        ++ flat_map (fun dep => str " " ++ BACKSLASH :: LF :: str "    " ++ c_str dep)
                    dependencies
        ++ flat_map (fun dep => LF :: c_str dep ++ [LF]) dependencies in
      let outputPath := output_path (dependencyFileSuffix C) in
      if writes C outputPath sdependencies
      then (true, [Written outputPath sdependencies])
      else (false,
            [Written outputPath sdependencies;
             Logged (console []);
             Logged (mkLog (str "Could not write dependency file: " ++ outputPath)
                           Critical (str "NSC2009"));
             Logged (console [])])
  end.

(** The flags and the optimization switch [compileScript] hands to
    [NscCompileScript]. *)
Definition compile_options (fetchPreprocessorOnly makeDependencyView : bool)
    : Z * bool :=
  let bOptimize := optimizeScript S_ in
  let compilerFlags := compilerFlags S_ in
  let compilerFlags := Z.lor compilerFlags (NscCompilerFlag_ShowIncludes C) in
  let '(compilerFlags, bOptimize) :=
    if fetchPreprocessorOnly
    then
      let compilerFlags :=
        Z.land compilerFlags (Z.lnot (NscCompilerFlag_GenerateMakeDeps C)) in
      let compilerFlags :=
        Z.land compilerFlags (Z.lnot (NscCompilerFlag_SuppressWarnings C)) in
      (Z.lor compilerFlags (NscCompilerFlag_ShowPreprocessed C), false)
    else (compilerFlags, bOptimize) in
  if makeDependencyView
  then
    let compilerFlags := Z.lor compilerFlags (NscCompilerFlag_GenerateMakeDeps C) in
    (Z.lor compilerFlags (NscCompilerFlag_SuppressWarnings C), false)
  else (compilerFlags, bOptimize).

(** [compileScript]: the flag returned and what the call did. *)
Definition compiled (fetchPreprocessorOnly makeDependencyView : bool)
    (fileContents fileResRef : text) : Compilation :=
  let '(flags, bOptimize) :=
    compile_options fetchPreprocessorOnly makeDependencyView in
  NscCompileScript C fileResRef fileContents (compileVersion S_) bOptimize flags
                   (generateSymbols S_).

Definition compileScript (fetchPreprocessorOnly makeDependencyView : bool)
    (fileContents fileResRef : text) : bool * list Event :=
  let '(flags, bOptimize) :=
    compile_options fetchPreprocessorOnly makeDependencyView in
  let out :=
    compiled fetchPreprocessorOnly makeDependencyView fileContents fileResRef in
  let done := [Compiled bOptimize flags] in
  match result out with
  | NscResult_Failure =>
      (false, done ++ [Logged (console []);
                       Logged (console (str "Compilation aborted with errors."));
                       Logged (console [])])
  | NscResult_Include =>
      (true, done ++ [Logged (console (sourceName C
                                       ++ str " is an include file, ignored."))])
  | NscResult_Other =>
      (false, done ++ [Logged (console []);
                       Logged (mkLog (str "Unknown status code") Critical
                                     (str "NSC2004"));
                       Logged (console [])])
  | NscResult_Success =>
      if fetchPreprocessorOnly then (true, done)
      else if makeDependencyView
      then (viewed C (fileDependencies out),
            done ++ [Viewed (fileDependencies out)])
      else
        let outputPath := output_path (compiledScriptSuffix C) in
        if negb (writes C outputPath (generatedCode out))
        then (false,
              done ++ [Written outputPath (generatedCode out);
                       Logged (console []);
                       Logged (mkLog (str "Could not write compiled output file: "
                                      ++ outputPath) Critical (str "NSC2005"));
                       Logged (console [])])
        else
          let done := done ++ [Written outputPath (generatedCode out)] in
          let symbolsPath := output_path (debugSymbolsFileSuffix C) in
          if (generateSymbols S_
              && negb (writes C symbolsPath (debugSymbols out)))%bool
          then (false,
                done ++ [Written symbolsPath (debugSymbols out);
                         Logged (console []);
                         Logged (mkLog
                                   (str "Could not write generated symbols output file: "
                                    ++ symbolsPath) Critical (str "NSC2006"));
                         Logged (console [])])
          else
            let done :=
              if generateSymbols S_
              then done ++ [Written symbolsPath (debugSymbols out)] else done in
            if negb (Z.eqb (Z.land (compilerFlags S_)
                                   (NscCompilerFlag_GenerateMakeDeps C)) 0)
            then let '(ok, more) := MakeDependenciesFile (fileDependencies out) in
                 (ok, done ++ more)
            else (true, done)
  end.
End Compile.

(** Each of the four flags is one bit, and the bits differ. *)
Definition flags_apart (C : Compiler) : Prop :=
  exists i g s p : Z,
    (0 <= i /\ 0 <= g /\ 0 <= s /\ 0 <= p)%Z /\
    i <> g /\ i <> s /\ i <> p /\ g <> s /\ g <> p /\ s <> p /\
    NscCompilerFlag_ShowIncludes C = (2 ^ i)%Z /\
    NscCompilerFlag_GenerateMakeDeps C = (2 ^ g)%Z /\
    NscCompilerFlag_SuppressWarnings C = (2 ^ s)%Z /\
    NscCompilerFlag_ShowPreprocessed C = (2 ^ p)%Z.

(** The flag is set in a word of flags. *)
Definition flag_set (flags mask : Z) : bool := Z.eqb (Z.land flags mask) mask.

Definition is_write (e : Event) : bool :=
  match e with Written _ _ => true | _ => false end.

(** The event is no write that failed. *)
Definition succeeded (C : Compiler) (e : Event) : bool :=
  match e with Written path contents => writes C path contents | _ => true end.

(** A compiler with the flags on bits 0 to 3 whose library always reports
    [r], and whose writes succeed. *)
Definition sample_compiler (r : NscResult) : Compiler :=
  mkCompiler 1 2 4 8
             (fun _ _ _ _ _ _ => mkCompilation r (str "code") (str "symbols") [str "a/b"])
             (str "out") (str "s.nss") (str "s")
             (str ".ncs") (str ".ndb") (str ".d") (str ".nss")
             (fun s => s) (fun _ _ => true) (fun _ => true).

(* ================================================================= *)
(** ** Where on its line a declaration stands *)

(** A group named [n] occurs in the pattern, outside group calls. *)
Fixpoint names (n : string) (r : Regex) : bool :=
  match r with
  | Capture n' a => (String.eqb n' n || names n a)%bool
  | Seq a b | Alt a b => (names n a || names n b)%bool
  | Star _ a | Atomic a | Look _ a => names n a
  | _ => false
  end.

(** Offset [o] is the beginning of the subject or comes right after a
    line feed. *)
Definition begins_line (subject : text) (o : nat) : Prop :=
  o = 0 \/ nth_error subject (o - 1) = Some LF.

(** After [body] comes the first place where a block comment that began
    before [body] can end. *)
Fixpoint closes_first (body : text) : bool :=
  match body with
  | [] => true
  | _ :: body' =>
      (negb (prefix_of (str "*/") (body ++ str "*/")) && closes_first body')%bool
  end.

(** Block comments, one after the other with nothing between them. *)
Inductive only_comments : text -> Prop :=
| no_comment : only_comments []
| one_more (body more : text) :
    closes_first body = true ->
    only_comments more ->
    only_comments (str "/*" ++ body ++ str "*/" ++ more).

(** From [st] to [s] the matcher went over [gap]. *)
Definition went_over (P : text -> Prop) (st s : MatchState) : Prop :=
  exists gap, rest st = gap ++ rest s /\ pos s = pos st + List.length gap /\ P gap.

(** A script whose first constant stands behind the word const. *)
Definition const_script : text :=
  str "const int A = 1;" ++ LF :: str "int N = 18;".

Definition const_script_match : MatchState :=
  mkState 28 (Some (ch ";")) [] 17
          [("value", (25, 27)); ("name", (21, 22)); ("type", (17, 20))].

(** A script with a second declaration on its first line, a declaration
    behind two block comments, and an indented one. *)
Definition lines_script : text :=
  str "int f(); int g();" ++ LF :: str "/* a *//* b */int h();"
  ++ LF :: str " int k();".

(** An engine structure behind other text, and an indented one. *)
Definition engine_script : text :=
  str "x #define ENGINE_STRUCTURE_0 a" ++ LF :: str "  #define ENGINE_STRUCTURE_1 b".

Definition engine_script_match : MatchState :=
  mkState 61 (Some (ch "b")) [] 33 [("name", (60, 61))].

Definition lines_script_match : MatchState :=
  mkState 40 (Some (ch ";")) (LF :: str " int k();") 32
          [("parametersString", (38, 38)); ("name", (36, 37)); ("type", (32, 35))].


(* ================================================================= *)
(** ** std::sort as GNU libstdc++ implements it

    [ParseFile] sorts with [std::sort], whose algorithm the standard
    leaves to the library.  This is the one of GNU libstdc++
    (bits/stl_algo.h and bits/stl_heap.h, GCC 12): introsort, that is
    quicksort on ranges of more than 16 elements, with heap sort when the
    recursion gets deeper than twice the logarithm of the length, and one
    insertion sort at the end.  An iterator is an index into the vector,
    which is a list; each function returns the vector as it leaves it.
    Reading outside the vector, which the library's unguarded loops never
    do on the ranges [std::sort] hands them, ends a loop here. *)

Module libstdcxx.
Section Introsort.
Variable A : Type.
Variable comp : A -> A -> bool.

(** [*(first + i) = x] *)
Definition put (a : list A) (i : nat) (x : A) : list A :=
  if Nat.ltb i (List.length a) then firstn i a ++ x :: skipn (S i) a else a.

(** [comp(i, j)] on two iterators, and on a value and an iterator. *)
Definition comp_at (a : list A) (i j : nat) : bool :=
  match nth_error a i, nth_error a j with
  | Some x, Some y => comp x y
  | _, _ => false
  end.

Definition iter_swap (a : list A) (i j : nat) : list A :=
  match nth_error a i, nth_error a j with
  | Some x, Some y => put (put a i y) j x
  | _, _ => a
  end.

Definition move_median_to_first (a : list A) (result a_ b c : nat) : list A :=
  if comp_at a a_ b
  then if comp_at a b c then iter_swap a result b
       else if comp_at a a_ c then iter_swap a result c
       else iter_swap a result a_
  else if comp_at a a_ c then iter_swap a result a_
  else if comp_at a b c then iter_swap a result c
  else iter_swap a result b.

(** The loop of [__unguarded_linear_insert]: [val] moves down from [last]
    past every element it is less than. *)
Fixpoint linear_insert_loop (val : A) (a : list A) (last : nat) : list A :=
  match last with
  | 0 => put a 0 val
  | S next =>
      match nth_error a next with
      | Some y => if comp val y then linear_insert_loop val (put a last y) next
                  else put a last val
      | None => put a last val
      end
  end.

Definition unguarded_linear_insert (a : list A) (last : nat) : list A :=
  match nth_error a last with
  | Some val => linear_insert_loop val a last
  | None => a
  end.

(** One round of the loop of [__insertion_sort]: the element at [i] goes
    to the front when it is less than the first, and down from [i]
    otherwise. *)
Definition insertion_round (first : nat) (a : list A) (i : nat) : list A :=
  if comp_at a i first
  then match nth_error a i with
       | Some val =>
           firstn first a ++ val :: firstn (i - first) (skipn first a)
           ++ skipn (S i) a
       | None => a
       end
  else unguarded_linear_insert a i.

Definition insertion_sort (a : list A) (first last : nat) : list A :=
  if Nat.eqb first last then a
  else fold_left (insertion_round first) (seq (S first) (last - S first)) a.

Definition unguarded_insertion_sort (a : list A) (first last : nat) : list A :=
  fold_left unguarded_linear_insert (seq first (last - first)) a.

Definition S_threshold : nat := 16.

Definition final_insertion_sort (a : list A) (first last : nat) : list A :=
  if Nat.ltb S_threshold (last - first)
  then unguarded_insertion_sort (insertion_sort a first (first + S_threshold))
                                (first + S_threshold) last
  else insertion_sort a first last.

(** [while (comp(first, pivot)) ++first;] *)
Fixpoint climb (n : nat) (a : list A) (first pivot : nat) : nat :=
  match n with
  | 0 => first
  | S n' => if comp_at a first pivot then climb n' a (S first) pivot else first
  end.

(** [while (comp(pivot, last)) --last;] *)
Fixpoint descend (a : list A) (last pivot : nat) : nat :=
  match last with
  | 0 => 0
  | S last' => if comp_at a pivot last then descend a last' pivot else last
  end.

Fixpoint unguarded_partition (n : nat) (a : list A) (first last pivot : nat)
    : nat * list A :=
  match n with
  | 0 => (first, a)
  | S n' =>
      let first := climb (List.length a) a first pivot in
      let last := last - 1 in
      let last := descend a last pivot in
      if negb (Nat.ltb first last) then (first, a)
      else unguarded_partition n' (iter_swap a first last) (S first) last pivot
  end.

Definition unguarded_partition_pivot (a : list A) (first last : nat)
    : nat * list A :=
  let mid := first + (last - first) / 2 in
  let a := move_median_to_first a first (first + 1) mid (last - 1) in
  unguarded_partition (List.length a) a (first + 1) last first.

(** [__push_heap], with the value compared on the right. *)
Fixpoint push_heap (n : nat) (a : list A) (first holeIndex topIndex : nat)
    (value : A) : list A :=
  match n with
  | 0 => put a (first + holeIndex) value
  | S n' =>
      let parent := (holeIndex - 1) / 2 in
      if (Nat.ltb topIndex holeIndex
          && match nth_error a (first + parent) with
             | Some x => comp x value
             | None => false
             end)%bool
      then match nth_error a (first + parent) with
           | Some x => push_heap n' (put a (first + holeIndex) x) first parent
                                 topIndex value
           | None => a
           end
      else put a (first + holeIndex) value
  end.

(** The first loop of [__adjust_heap]: the hole goes down to the larger
    child; the hole and [secondChild] are the same index after each round. *)
Fixpoint sift_down (n : nat) (a : list A) (first len secondChild : nat)
    : nat * list A :=
  match n with
  | 0 => (secondChild, a)
  | S n' =>
      if Nat.ltb secondChild ((len - 1) / 2)
      then
        let holeIndex := secondChild in
        let secondChild := 2 * (secondChild + 1) in
        let secondChild :=
          if comp_at a (first + secondChild) (first + (secondChild - 1))
          then secondChild - 1 else secondChild in
        match nth_error a (first + secondChild) with
        | Some x => sift_down n' (put a (first + holeIndex) x) first len secondChild
        | None => (secondChild, a)
        end
      else (secondChild, a)
  end.

Definition adjust_heap (a : list A) (first holeIndex len : nat) (value : A)
    : list A :=
  let topIndex := holeIndex in
  let '(secondChild, a) := sift_down len a first len holeIndex in
  let holeIndex := secondChild in
  let '(holeIndex, a) :=
    (* (len - 2) / 2 is signed: -1 when len is 0 *)
    if (Nat.eqb (len mod 2) 0 && Nat.leb 2 len
        && Nat.eqb secondChild ((len - 2) / 2))%bool
    then
      let secondChild := 2 * (secondChild + 1) in
      match nth_error a (first + (secondChild - 1)) with
      | Some x => (secondChild - 1, put a (first + holeIndex) x)
      | None => (holeIndex, a)
      end
    else (holeIndex, a) in
  push_heap len a first holeIndex topIndex value.

Definition pop_heap (a : list A) (first last result : nat) : list A :=
  match nth_error a result, nth_error a first with
  | Some value, Some x => adjust_heap (put a result x) first 0 (last - first) value
  | _, _ => a
  end.

(** The loop of [__make_heap], from [parent] down to 0. *)
Fixpoint make_heap_from (a : list A) (first len parent : nat) : list A :=
  let a := match nth_error a (first + parent) with
           | Some value => adjust_heap a first parent len value
           | None => a
           end in
  match parent with
  | 0 => a
  | S parent' => make_heap_from a first len parent'
  end.

Definition make_heap (a : list A) (first last : nat) : list A :=
  if Nat.ltb (last - first) 2 then a
  else make_heap_from a first (last - first) ((last - first - 2) / 2).

(** [for (i = middle; i < last; ++i) if (comp(i, first)) pop_heap(first, middle, i);] *)
Definition heap_select (a : list A) (first middle last : nat) : list A :=
  fold_left (fun a i => if comp_at a i first then pop_heap a first middle i else a)
            (seq middle (last - middle)) (make_heap a first middle).

Fixpoint sort_heap (n : nat) (a : list A) (first last : nat) : list A :=
  match n with
  | 0 => a
  | S n' =>
      if Nat.ltb 1 (last - first)
      then let last := last - 1 in
           sort_heap n' (pop_heap a first last last) first last
      else a
  end.

Definition partial_sort (a : list A) (first middle last : nat) : list A :=
  let a := heap_select a first middle last in
  sort_heap (List.length a) a first middle.

Fixpoint introsort_loop (n : nat) (a : list A) (first last depth_limit : nat)
    : list A :=
  match n with
  | 0 => a
  | S n' =>
      if Nat.ltb S_threshold (last - first)
      then match depth_limit with
           | 0 => partial_sort a first last last
           | S depth_limit =>
               let '(cut, a) := unguarded_partition_pivot a first last in
               let a := introsort_loop n' a cut last depth_limit in
               introsort_loop n' a first cut depth_limit
           end
      else a
  end.

(** [std::sort(first, last, comp)] on the whole vector. *)
Definition sort (a : list A) : list A :=
  match a with
  | [] => a
  | _ :: _ =>
      let last := List.length a in
      let a := introsort_loop (S last) a 0 last (Nat.log2 last * 2) in
      final_insertion_sort a 0 last
  end.
End Introsort.
End libstdcxx.

(** The platform of the samples with the [std::sort] of libstdc++. *)
Definition gnu_platform (bytes : text) : Platform :=
  plain_platform (one_file a_nss bytes) (libstdcxx.sort ScriptMember).

(** A function NAME, fifteen more functions and a constant NAME. *)
Definition seventeen_script : text :=
  str ("int NAME();" ++ LFs ++ "int o();" ++ LFs ++ "int n();" ++ LFs
       ++ "int m();" ++ LFs ++ "int l();" ++ LFs ++ "int k();" ++ LFs
       ++ "int j();" ++ LFs ++ "int i();" ++ LFs ++ "int h();" ++ LFs
       ++ "int g();" ++ LFs ++ "int f();" ++ LFs ++ "int e();" ++ LFs
       ++ "int d();" ++ LFs ++ "int c();" ++ LFs ++ "int b();" ++ LFs
       ++ "int a();" ++ LFs ++ "int NAME = 1;").

(* ================================================================= *)
(** ** Matching within the limits of the library

    PCRE2 gives up a match attempt that needs more than it is allowed:
    the match, depth and heap limits and, for a pattern compiled for the
    JIT as the patterns of NWScriptParser.cpp are, the JIT stack, which is
    32K when the caller assigns none, and NWScriptParser.cpp assigns none.
    pcre2_match then returns an error (PCRE2_ERROR_JIT_STACKLIMIT and the
    like) and jpcre2's match() returns with the matches it has got.  Which
    attempts are given up is decided by the library and its build, not by
    NWScriptParser.cpp: a value of [Limits] says, for a pattern, a subject
    and an offset, whether the attempt at that offset is given up.
    [scan], [pcre2_match] and [match_all] above are the matcher where no
    attempt is given up. *)
Definition Limits : Type := RegexObj -> text -> nat -> bool.

Definition unlimited : Limits := fun _ _ _ => false.

Fixpoint scan_limited (gives_up : nat -> bool) (re : RegexObj) (fuel : nat)
    (restricted : bool) (from : nat) (n : nat) (st : MatchState) : MatchResult :=
  match n with
  | 0 => NoMatch
  | S n' =>
      if gives_up (pos st) then MatchError
      else
        match exec (groups re) fuel (pattern re) (keep st) with
        | None => MatchError
        | Some l =>
            match (if restricted
                   then filter (fun m => negb (Nat.eqb (pos m) from)) l
                   else l) with
            | m :: _ => Matched m
            | [] =>
                if restricted then NoMatch
                else match rest st with
                     | [] => NoMatch
                     | _ :: _ =>
                         scan_limited gives_up re fuel restricted from n'
                                      (advance st)
                     end
            end
        end
  end.

Definition pcre2_match_limited (x : Limits) (re : RegexObj) (subject : text)
    (start_offset : nat) (restricted : bool) : MatchResult :=
  let st := state_at subject start_offset in
  scan_limited (x re subject) re (depth_budget subject) restricted start_offset
               (S (List.length (rest st))) st.

Fixpoint match_more_limited (x : Limits) (re : RegexObj) (subject : text)
    (n : nat) (ov0 ov1 : nat) : list MatchState :=
  match n with
  | 0 => []
  | S n' =>
      let empty := Nat.eqb ov0 ov1 in
      if (empty && Nat.eqb ov0 (List.length subject))%bool then []
      else match pcre2_match_limited x re subject ov1 empty with
           | Matched m =>
               m :: match_more_limited x re subject n' (start m) (pos m)
           | NoMatch =>
               if empty then match_more_limited x re subject n' ov0 (S ov1)
               else []
           | MatchError => []
           end
  end.

Definition match_all_limited (x : Limits) (re : RegexObj) (subject : text)
    : list MatchState :=
  match pcre2_match_limited x re subject 0 false with
  | Matched m =>
      m :: match_more_limited x re subject (2 * S (List.length subject))
                              (start m) (pos m)
  | _ => []
  end.

(** The two passes with the limits of the 8-bit and of the 16-bit library
    they run on. *)
Section LimitedParser.
Variable x : Limits.
Variable P : Platform.

Definition function_member_limited (subject : text) (m : MatchState)
    : ScriptMember :=
  let parametersString := named subject m "parametersString" in
  let sParams := map (param_member P parametersString)
                     (match_all_limited x FUNTIONPARAMETERREGEX
                                        parametersString) in
  mkMember Function (str2wstr P (named subject m "type"))
           (str2wstr P (named subject m "name")) [] sParams.

Definition CreateNWScriptStructureA_limited (sFileContents : text)
    (outParseResults : ScriptParseResults) : ScriptParseResults :=
  let captureGroup := match_all_limited x ENGINESTRUCTREGEX sFileContents in
  let r1 := mkResults (List.length captureGroup)
                      (FunctionsCount outParseResults)
                      (ConstantsCount outParseResults)
                      (Members outParseResults
                         ++ map (engine_member P sFileContents) captureGroup) in
  let captureGroup :=
    match_all_limited x FUNCTIONDECLARATIONREGEX sFileContents in
  let r2 := mkResults (EngineStructuresCount r1)
                      (List.length captureGroup)
                      (ConstantsCount r1)
                      (Members r1
                         ++ map (function_member_limited sFileContents)
                                captureGroup) in
  let captureGroup := match_all_limited x CONSTANTREGEX sFileContents in
  mkResults (EngineStructuresCount r2)
            (FunctionsCount r2)
            (List.length captureGroup)
            (Members r2 ++ map (constant_member P sFileContents) captureGroup).

Definition function_memberW_limited (subject : text) (m : MatchState)
    : ScriptMember :=
  let parametersString := named subject m "parametersString" in
  let sParams := map (param_memberW parametersString)
                     (match_all_limited x FUNTIONPARAMETERREGEX
                                        parametersString) in
  mkMember Function (named subject m "type") (named subject m "name") [] sParams.

Definition CreateNWScriptStructureW_limited (sFileContents : text)
    (outParseResults : ScriptParseResults) : ScriptParseResults :=
  let sNewFile := as_wchars sFileContents in
  let captureGroup := match_all_limited x ENGINESTRUCTREGEX sNewFile in
  let r1 := mkResults (List.length captureGroup)
                      (FunctionsCount outParseResults)
                      (ConstantsCount outParseResults)
                      (Members outParseResults
                         ++ map (engine_memberW sNewFile) captureGroup) in
  let captureGroup := match_all_limited x FUNCTIONDECLARATIONREGEX sNewFile in
  let r2 := mkResults (EngineStructuresCount r1)
                      (List.length captureGroup)
                      (ConstantsCount r1)
                      (Members r1
                         ++ map (function_memberW_limited sNewFile)
                                captureGroup) in
  let captureGroup := match_all_limited x CONSTANTREGEX sNewFile in
  mkResults (EngineStructuresCount r2)
            (FunctionsCount r2)
            (List.length captureGroup)
            (Members r2 ++ map (constant_memberW sNewFile) captureGroup).
End LimitedParser.

(** [s] is a piece of [t]. *)
Definition part_of (s t : text) : Prop := exists a b, t = a ++ s ++ b.

(** No attempt on [t] or on a piece of it is given up. *)
Definition calm (x : Limits) (t : text) : Prop :=
  forall re s o, part_of s t -> x re s o = false.

(** The limits of a matcher that has room for [levels] nested group calls
    and gives up an attempt that needs more. *)
Definition room_for (levels : nat) : Limits :=
  fun re subject o =>
    match exec (groups re) levels (pattern re) (keep (state_at subject o)) with
    | None => true
    | Some _ => false
    end.

(** A vector of one element, nested [d] deep around the token 1. *)
Fixpoint nested (d : nat) : Literal :=
  match d with
  | 0 => LTok (str "1")
  | S d' => LVec [([], nested d', [])]
  end.

(** The matcher that gives up on the function pattern where the JIT of
    PCRE2 10.42 does with its stack of 32K: where the brackets of a default
    value are nested 128 deep or deeper. *)
Definition jit_32K : Limits := room_for 131.

(** Three declarations, the second with a default value nested 140 deep. *)
Definition deep_formals : list Formal :=
  [mkFormal [] (str "vector") (str " ") (str "v") (str " ")
            (Some (str " ", nested 140))].

Definition deep_script : text :=
  str "void a();" ++ LF :: str "void f(" ++ render_params deep_formals
  ++ str ");" ++ LF :: str "void z();".

(* ================================================================= *)
(** * Properties *)

(** ** The order on names *)

Lemma wstring_lt_irrefl (a : generic_string) : wstring_lt a a = false.
Proof.
  induction a as [|x a IH]; simpl; [reflexivity|].
  rewrite N.ltb_irrefl. exact IH.
Qed.

Lemma wstring_not_lt_le (a b : generic_string) :
  wstring_lt b a = false <-> wstring_le a b = true.
Proof.
  revert b; induction a as [|x a IH]; intros [|y b]; simpl;
    try (split; congruence).
  destruct (N.ltb_spec y x), (N.ltb_spec x y); try lia;
    try (split; congruence).
  apply IH.
Qed.

Lemma wstring_le_trans (a b c : generic_string) :
  wstring_le a b = true -> wstring_le b c = true -> wstring_le a c = true.
Proof.
  revert b c; induction a as [|x a IH]; intros [|y b] [|z c]; simpl;
    try congruence.
  destruct (N.ltb_spec x y), (N.ltb_spec y x), (N.ltb_spec y z),
    (N.ltb_spec z y), (N.ltb_spec x z), (N.ltb_spec z x);
    try lia; try congruence.
  apply IH.
Qed.

Lemma wstring_lt_asym (a b : generic_string) :
  wstring_lt a b = true -> wstring_lt b a = false.
Proof.
  revert b; induction a as [|x a IH]; intros [|y b]; simpl; try congruence.
  destruct (N.ltb_spec x y), (N.ltb_spec y x); try lia; try congruence.
  apply IH.
Qed.

Lemma by_name_asym (a b : ScriptMember) : by_name a b = true -> by_name b a = false.
Proof. apply wstring_lt_asym. Qed.

Lemma by_name_negtrans (a b c : ScriptMember) :
  by_name b a = false -> by_name c b = false -> by_name c a = false.
Proof.
  unfold by_name. rewrite !wstring_not_lt_le. apply wstring_le_trans.
Qed.

(** ** The two sample sorts conform *)

Lemma insert_by_perm (x : ScriptMember) (l : list ScriptMember) :
  Permutation (x :: l) (insert_by by_name x l).
Proof.
  induction l as [|y l IH]; simpl; [reflexivity|].
  destruct (by_name y x); [|reflexivity].
  rewrite perm_swap. now constructor.
Qed.

Lemma insertion_sort_perm (l : list ScriptMember) :
  Permutation l (insertion_sort by_name l).
Proof.
  induction l as [|x l IH]; simpl; [constructor|].
  rewrite <- insert_by_perm. now constructor.
Qed.

Lemma insert_by_sorted (x : ScriptMember) (l : list ScriptMember) :
  StronglySorted (fun a b => by_name b a = false) l ->
  StronglySorted (fun a b => by_name b a = false) (insert_by by_name x l).
Proof.
  induction 1 as [|y l Hs IH Hy]; simpl.
  - repeat constructor.
  - destruct (by_name y x) eqn:E.
    + constructor; [exact IH|].
      rewrite Forall_forall in *. intros z Hz.
      apply (Permutation_in _ (Permutation_sym (insert_by_perm x l))) in Hz.
      destruct Hz as [<-|Hz]; [now apply by_name_asym | now apply Hy].
    + constructor; [now constructor|].
      constructor; [exact E|].
      rewrite Forall_forall in *. intros z Hz.
      apply by_name_negtrans with y; [exact E | now apply Hy].
Qed.

Lemma insertion_sort_sorted (l : list ScriptMember) :
  StronglySorted (fun a b => by_name b a = false) (insertion_sort by_name l).
Proof.
  induction l as [|x l IH]; simpl; [constructor | now apply insert_by_sorted].
Qed.

Lemma plain_insertion_conforms (files : generic_string -> option text) :
  sort_conforms (plain_platform files insertion_sort).
Proof.
  intros l; split; [apply insertion_sort_perm | apply insertion_sort_sorted].
Qed.

(** ** ParseFile, stage by stage *)

Lemma ParseFile_true (P : Platform) (name : generic_string)
    (out out' : ScriptParseResults) :
  ParseFile P name out = (true, out') ->
  out' = parse_contents P (buffer_read P name) out.
Proof.
  unfold ParseFile, buffer_read.
  destruct (settled_name P name) as [t|]; [|discriminate].
  destruct (FileToBuffer P t []) as [ok bytes]; simpl.
  now inversion 1.
Qed.

Lemma ParseFile_false (P : Platform) (name : generic_string)
    (out out' : ScriptParseResults) :
  ParseFile P name out = (false, out') -> out' = out.
Proof.
  unfold ParseFile.
  destruct (settled_name P name) as [t|]; [|now inversion 1].
  destruct (FileToBuffer P t []); discriminate.
Qed.

(** What a dispatch adds: the records of the three passes, in the order
    engine structures, functions, constants, after the members that were
    there; the counters are the lengths of the three runs, or left alone
    when neither pass ran. *)
Lemma extract_shape (P : Platform) (bytes : text) (out : ScriptParseResults) :
  exists E F C : list ScriptMember,
    Forall (fun m => mID m = EngineStruct) E /\
    Forall (fun m => mID m = Function) F /\
    Forall (fun m => mID m = Constant) C /\
    Members (extract P bytes out) = Members out ++ E ++ F ++ C /\
    (classified P bytes = true ->
       EngineStructuresCount (extract P bytes out) = List.length E /\
       FunctionsCount (extract P bytes out) = List.length F /\
       ConstantsCount (extract P bytes out) = List.length C) /\
    (classified P bytes = false ->
       extract P bytes out = out /\ E = [] /\ F = [] /\ C = []).
Proof.
  unfold classified, extract.
  destruct (is_narrow (verdict P bytes)) eqn:En;
    [|destruct (is_wide (verdict P bytes)) eqn:Ew].
  - exists (map (engine_member P bytes) (match_all ENGINESTRUCTREGEX bytes)),
      (map (function_member P bytes) (match_all FUNCTIONDECLARATIONREGEX bytes)),
      (map (constant_member P bytes) (match_all CONSTANTREGEX bytes)).
    repeat split; try (apply Forall_forall; intros m Hm;
      apply in_map_iff in Hm; destruct Hm as [x [<- _]]; reflexivity);
      try discriminate.
    + unfold CreateNWScriptStructureA; simpl. now rewrite <- !app_assoc.
    + unfold CreateNWScriptStructureA; simpl. now rewrite length_map.
    + unfold CreateNWScriptStructureA; simpl. now rewrite length_map.
    + unfold CreateNWScriptStructureA; simpl. now rewrite length_map.
  - set (w := as_wchars bytes).
    exists (map (engine_memberW w) (match_all ENGINESTRUCTREGEX w)),
      (map (function_memberW w) (match_all FUNCTIONDECLARATIONREGEX w)),
      (map (constant_memberW w) (match_all CONSTANTREGEX w)).
    repeat split; try (apply Forall_forall; intros m Hm;
      apply in_map_iff in Hm; destruct Hm as [x [<- _]]; reflexivity);
      try discriminate.
    + unfold CreateNWScriptStructureW; simpl. now rewrite <- !app_assoc.
    + unfold CreateNWScriptStructureW; simpl. now rewrite length_map.
    + unfold CreateNWScriptStructureW; simpl. now rewrite length_map.
    + unfold CreateNWScriptStructureW; simpl. now rewrite length_map.
  - exists [], [], []. repeat split; try constructor; try discriminate.
    now rewrite app_nil_r.
Qed.

(** ** Counting by kind *)

Lemma count_kind_app (k : MemberID) (l1 l2 : list ScriptMember) :
  count_kind k (l1 ++ l2) = count_kind k l1 + count_kind k l2.
Proof. unfold count_kind. now rewrite filter_app, length_app. Qed.

Lemma count_kind_perm (k : MemberID) (l1 l2 : list ScriptMember) :
  Permutation l1 l2 -> count_kind k l1 = count_kind k l2.
Proof.
  unfold count_kind.
  induction 1 as [|x l l' _ IH|x y l|l l' l'' _ IH1 _ IH2]; simpl;
    try destruct (kind_eqb (mID x) k); try destruct (kind_eqb (mID y) k);
    simpl; congruence.
Qed.

Lemma count_kind_all (k k' : MemberID) (l : list ScriptMember) :
  Forall (fun m => mID m = k') l ->
  count_kind k l = if kind_eqb k' k then List.length l else 0.
Proof.
  unfold count_kind. induction 1 as [|x l Hx _ IH]; simpl.
  - now destruct (kind_eqb k' k).
  - rewrite Hx. destruct (kind_eqb k' k); simpl; congruence.
Qed.

(** ** Sorted sequences *)

Lemma sorted_nth (A : Type) (R : A -> A -> Prop) (l : list A) :
  StronglySorted R l ->
  forall i j a b, i < j -> nth_error l i = Some a -> nth_error l j = Some b ->
  R a b.
Proof.
  induction 1 as [|x l Hs IH Hx]; intros i j a b Hij Ha Hb.
  - now destruct i.
  - destruct j as [|j]; [lia|]. simpl in Hb.
    destruct i as [|i]; simpl in Ha.
    + inversion Ha; subst. rewrite Forall_forall in Hx.
      apply Hx. eapply nth_error_In; eauto.
    + apply (IH i j); auto; lia.
Qed.

Lemma wstring_le_antisym (a b : generic_string) :
  wstring_le a b = true -> wstring_le b a = true -> a = b.
Proof.
  revert b; induction a as [|x a IH]; intros [|y b]; simpl; try congruence.
  destruct (N.ltb_spec x y), (N.ltb_spec y x); try lia; try congruence.
  intros H1 H2. assert (x = y) by lia. subst. f_equal. now apply IH.
Qed.

Lemma same_name_eq (n : generic_string) (m : ScriptMember) :
  same_name n m = true <-> n = sName m.
Proof.
  unfold same_name. rewrite andb_true_iff, !negb_true_iff, !wstring_not_lt_le.
  split.
  - intros [H1 H2]. now apply wstring_le_antisym.
  - intros ->. rewrite <- wstring_not_lt_le. split; apply wstring_lt_irrefl.
Qed.

Lemma insert_by_filter (n : generic_string) (x : ScriptMember)
    (l : list ScriptMember) :
  filter (same_name n) (insert_by by_name x l) = filter (same_name n) (x :: l).
Proof.
  induction l as [|y l IH]; [reflexivity|].
  cbn [insert_by]. destruct (by_name y x) eqn:E; [|reflexivity].
  cbn [filter] in *. rewrite IH.
  destruct (same_name n x) eqn:Ex, (same_name n y) eqn:Ey; try reflexivity.
  apply same_name_eq in Ex, Ey. unfold by_name in E.
  rewrite <- Ex, <- Ey, wstring_lt_irrefl in E. discriminate.
Qed.

Lemma insertion_sort_stable (files : generic_string -> option text) :
  sort_stable (plain_platform files insertion_sort).
Proof.
  intros l n; simpl. induction l as [|x l IH]; [reflexivity|].
  cbn [insertion_sort]. rewrite insert_by_filter. cbn [filter]. now rewrite IH.
Qed.

(* ================================================================= *)
(** ** Reading the file *)

Lemma ParseFile_ignores_read_failure (P : Platform) (name target : generic_string)
    (out : ScriptParseResults) :
  settled_name P name = Some target ->
  file_contents P target = None ->
  ParseFile P name out = (true, parse_contents P [] out).
Proof.
  intros Hs Hf. unfold ParseFile, FileToBuffer. now rewrite Hs, Hf.
Qed.

(** C1: a file that cannot be opened is meant to make ParseFile fail
    without extracting.  Here b.nss does not exist: FileToBuffer reports
    failure, yet ParseFile runs the narrow pass on the empty buffer (the
    three counters, 7 on entry, are reset to 0) and returns true. *)
Theorem unreadable_file_reported_as_parsed :
  FileToBuffer (stable_platform []) b_nss [] = (false, []) /\
  ParseFile (stable_platform []) b_nss (mkResults 7 7 7 [])
    = (true, mkResults 0 0 0 []).
Proof. split; vm_compute; reflexivity. Qed.

(* ================================================================= *)
(** ** The dispatch on the verdict *)

(** C2, as the code has it: when the verdict is none of the narrow or wide
    classes neither pass runs; ParseFile still returns true, leaves the
    three counters as they were and only sorts the members already there. *)
Theorem unclassified_buffer_not_extracted (P : Platform) (name : generic_string)
    (out out' : ScriptParseResults) :
  ParseFile P name out = (true, out') ->
  classified P (buffer_read P name) = false ->
  out' = mkResults (EngineStructuresCount out) (FunctionsCount out)
                   (ConstantsCount out) (std_sort P by_name (Members out)).
Proof.
  intros H Hc. apply ParseFile_true in H. subst out'.
  unfold parse_contents.
  destruct (extract_shape P (buffer_read P name) out)
    as (E & F & C & _ & _ & _ & _ & _ & Hn).
  destruct (Hn Hc) as [-> _]. reflexivity.
Qed.

Lemma unclassified_buffer_not_extracted_witness :
  ParseFile (stable_platform (utf8_bom ++ second_line_script)) a_nss
            (mkResults 1 0 0 [es "effect"])
    = (true, mkResults 1 0 0 [es "effect"]) /\
  classified (stable_platform (utf8_bom ++ second_line_script))
             (buffer_read (stable_platform (utf8_bom ++ second_line_script)) a_nss)
    = false /\
  mkResults 1 0 0 [es "effect"]
    = mkResults 1 0 0
        (std_sort (stable_platform (utf8_bom ++ second_line_script)) by_name
                  [es "effect"]).
Proof.
  assert (H1 : ParseFile (stable_platform (utf8_bom ++ second_line_script)) a_nss
                 (mkResults 1 0 0 [es "effect"])
               = (true, mkResults 1 0 0 [es "effect"]))
    by (vm_compute; reflexivity).
  assert (H2 : classified (stable_platform (utf8_bom ++ second_line_script))
                 (buffer_read (stable_platform (utf8_bom ++ second_line_script)) a_nss)
               = false)
    by (vm_compute; reflexivity).
  split; [exact H1|]. split; [exact H2|].
  exact (unclassified_buffer_not_extracted _ _ _ _ H1 H2).
Defined.

(** C2 as stated fails: for a buffer that starts with the UTF-8 mark the
    verdict is none of the seven classes; the narrow pass would find the
    function on its second line, ParseFile finds nothing. *)
Lemma unclassified_buffer_counterexample :
  classified (stable_platform (utf8_bom ++ second_line_script))
             (utf8_bom ++ second_line_script) = false /\
  Members (CreateNWScriptStructureA
             (stable_platform (utf8_bom ++ second_line_script))
             (utf8_bom ++ second_line_script) no_results)
    = [fn "int" "f" []] /\
  ParseFile (stable_platform (utf8_bom ++ second_line_script)) a_nss no_results
    = (true, no_results).
Proof. repeat split; vm_compute; reflexivity. Qed.

(* ================================================================= *)
(** ** The final sort *)

(** C3: after a call of ParseFile that returns true, any two adjacent
    members a, b satisfy a.name <= b.name in the code-unit order of
    std::wstring. *)
Theorem members_sorted_by_name (P : Platform) (name : generic_string)
    (out out' : ScriptParseResults) :
  sort_conforms P ->
  ParseFile P name out = (true, out') ->
  forall (i : nat) (a b : ScriptMember),
    nth_error (Members out') i = Some a ->
    nth_error (Members out') (S i) = Some b ->
    wstring_le (sName a) (sName b) = true.
Proof.
  intros Hs H i a b Ha Hb. apply ParseFile_true in H. subst out'.
  unfold parse_contents in Ha, Hb. cbn [Members] in Ha, Hb.
  destruct (Hs (Members (extract P (buffer_read P name) out))) as [_ Hsorted].
  apply wstring_not_lt_le.
  exact (sorted_nth _ (fun a b => by_name b a = false) _ Hsorted
           i (S i) a b (Nat.lt_succ_diag_r i) Ha Hb).
Qed.

Lemma members_sorted_by_name_witness :
  sort_conforms (stable_platform two_line_script) /\
  ParseFile (stable_platform two_line_script) a_nss no_results
    = (true, mkResults 0 1 1 [cn "int" "alpha" "1"; fn "int" "beta" []]) /\
  nth_error [cn "int" "alpha" "1"; fn "int" "beta" []] 0
    = Some (cn "int" "alpha" "1") /\
  nth_error [cn "int" "alpha" "1"; fn "int" "beta" []] 1
    = Some (fn "int" "beta" []) /\
  wstring_le (sName (cn "int" "alpha" "1")) (sName (fn "int" "beta" [])) = true.
Proof.
  assert (Hs : sort_conforms (stable_platform two_line_script))
    by apply plain_insertion_conforms.
  assert (H : ParseFile (stable_platform two_line_script) a_nss no_results
              = (true, mkResults 0 1 1 [cn "int" "alpha" "1"; fn "int" "beta" []]))
    by (vm_compute; reflexivity).
  split; [exact Hs|]. split; [exact H|].
  split; [reflexivity|]. split; [reflexivity|].
  exact (members_sorted_by_name _ a_nss no_results _ Hs H 0
           (cn "int" "alpha" "1") (fn "int" "beta" []) eq_refl eq_refl).
Defined.




(* ================================================================= *)
(** ** Counters and the members that were already there *)

Lemma parse_contents_counts (P : Platform) (bytes : text)
    (out : ScriptParseResults) :
  sort_conforms P ->
  exists New : list ScriptMember,
    Permutation (Members out ++ New) (Members (parse_contents P bytes out)) /\
    (classified P bytes = true ->
     forall k, counter_of k (parse_contents P bytes out) = count_kind k New) /\
    (classified P bytes = false ->
     New = [] /\
     forall k, counter_of k (parse_contents P bytes out) = counter_of k out).
Proof.
  intros Hs.
  destruct (extract_shape P bytes out) as (E & F & C & HE & HF & HC & Hm & Hy & Hn).
  exists (E ++ F ++ C). split; [|split].
  - unfold parse_contents; cbn [Members]. rewrite <- Hm. apply Hs.
  - intros Hc k. destruct (Hy Hc) as (H1 & H2 & H3).
    rewrite !count_kind_app.
    rewrite (count_kind_all k _ E HE), (count_kind_all k _ F HF),
      (count_kind_all k _ C HC).
    destruct k; simpl; lia.
  - intros Hc. destruct (Hn Hc) as (He & -> & -> & ->).
    split; [reflexivity|]. intros k. unfold parse_contents. rewrite He.
    now destruct k.
Qed.

(** C5, as the code has it: after a call of ParseFile that ran one of the
    two passes, each counter is the number of records of its kind that this
    call added; it is the number of such records in members when the
    results object came in without members, and then a counter of 0 means
    no record of that kind. *)
Theorem counters_count_added_records (P : Platform) (name : generic_string)
    (out out' : ScriptParseResults) :
  sort_conforms P ->
  ParseFile P name out = (true, out') ->
  classified P (buffer_read P name) = true ->
  (forall k, count_kind k (Members out')
             = count_kind k (Members out) + counter_of k out') /\
  (Members out = [] ->
   forall k, counter_of k out' = count_kind k (Members out') /\
             (counter_of k out' = 0 ->
              forall m, In m (Members out') -> mID m <> k)).
Proof.
  intros Hs H Hc. apply ParseFile_true in H. subst out'.
  destruct (parse_contents_counts P (buffer_read P name) out Hs)
    as (New & Hp & Hy & _).
  assert (Hall : forall k,
             count_kind k (Members (parse_contents P (buffer_read P name) out))
             = count_kind k (Members out)
               + counter_of k (parse_contents P (buffer_read P name) out)).
  { intros k. rewrite <- (count_kind_perm k _ _ Hp), count_kind_app.
    now rewrite (Hy Hc k). }
  split; [exact Hall|].
  intros He k. specialize (Hall k). rewrite He in Hall.
  change (count_kind k []) with 0 in Hall.
  split; [lia|].
  intros H0 m Hm Hk. rewrite H0 in Hall. unfold count_kind in Hall.
  assert (Hin : In m (filter (fun m => kind_eqb (mID m) k)
                       (Members (parse_contents P (buffer_read P name) out)))).
  { apply filter_In. split; [exact Hm|]. rewrite Hk. now destruct k. }
  destruct (filter _ _); [contradiction | discriminate].
Qed.

Lemma counters_count_added_records_witness :
  sort_conforms (stable_platform two_line_script) /\
  ParseFile (stable_platform two_line_script) a_nss (mkResults 5 5 5 [es "effect"])
    = (true, mkResults 0 1 1
               [cn "int" "alpha" "1"; fn "int" "beta" []; es "effect"]) /\
  classified (stable_platform two_line_script)
             (buffer_read (stable_platform two_line_script) a_nss) = true /\
  (forall k, count_kind k [cn "int" "alpha" "1"; fn "int" "beta" []; es "effect"]
             = count_kind k [es "effect"]
               + counter_of k (mkResults 0 1 1
                   [cn "int" "alpha" "1"; fn "int" "beta" []; es "effect"])) /\
  ([es "effect"] = [] ->
   forall k,
     counter_of k (mkResults 0 1 1
                     [cn "int" "alpha" "1"; fn "int" "beta" []; es "effect"])
     = count_kind k [cn "int" "alpha" "1"; fn "int" "beta" []; es "effect"] /\
     (counter_of k (mkResults 0 1 1
                      [cn "int" "alpha" "1"; fn "int" "beta" []; es "effect"]) = 0 ->
      forall m, In m [cn "int" "alpha" "1"; fn "int" "beta" []; es "effect"] ->
                mID m <> k)).
Proof.
  assert (Hs : sort_conforms (stable_platform two_line_script))
    by apply plain_insertion_conforms.
  assert (H : ParseFile (stable_platform two_line_script) a_nss
                (mkResults 5 5 5 [es "effect"])
              = (true, mkResults 0 1 1
                         [cn "int" "alpha" "1"; fn "int" "beta" []; es "effect"]))
    by (vm_compute; reflexivity).
  assert (Hc : classified (stable_platform two_line_script)
                 (buffer_read (stable_platform two_line_script) a_nss) = true)
    by (vm_compute; reflexivity).
  split; [exact Hs|]. split; [exact H|]. split; [exact Hc|].
  exact (counters_count_added_records _ a_nss _ _ Hs H Hc).
Defined.

(** C5 as stated fails: a results object that comes in with one function
    record goes out, after an empty file is parsed, with that record and a
    function counter of 0. *)
Lemma counters_counterexample :
  ParseFile (stable_platform []) a_nss (mkResults 0 1 0 [fn "int" "old" []])
    = (true, mkResults 0 0 0 [fn "int" "old" []]) /\
  counter_of Function (mkResults 0 0 0 [fn "int" "old" []]) = 0 /\
  count_kind Function (Members (mkResults 0 0 0 [fn "int" "old" []])) = 1.
Proof. repeat split; vm_compute; reflexivity. Qed.

(** C10, as the code has it: ParseFile does not clear the results object:
    every member that was there is there after the call, and a call that
    returns true leaves the old members and the newly extracted ones,
    rearranged by the sort.  When the verdict is narrow or wide the three
    counters are set to the numbers of newly extracted records; otherwise
    nothing is extracted and the counters stay as they were.  A call that
    returns false leaves the object untouched. *)
Theorem existing_members_kept (P : Platform) (name : generic_string)
    (out out' : ScriptParseResults) (ret : bool) :
  sort_conforms P ->
  ParseFile P name out = (ret, out') ->
  (forall m, In m (Members out) -> In m (Members out')) /\
  (ret = true ->
   exists New : list ScriptMember,
     Permutation (Members out ++ New) (Members out') /\
     (classified P (buffer_read P name) = true ->
      forall k, counter_of k out' = count_kind k New) /\
     (classified P (buffer_read P name) = false ->
      New = [] /\ forall k, counter_of k out' = counter_of k out)) /\
  (ret = false -> out' = out).
Proof.
  intros Hs H. destruct ret.
  - apply ParseFile_true in H. subst out'.
    destruct (parse_contents_counts P (buffer_read P name) out Hs)
      as (New & Hp & Hy & Hn).
    split; [|split; [|discriminate]].
    + intros m Hm. apply (Permutation_in m Hp). apply in_or_app. now left.
    + intros _. exists New. split; [exact Hp | split; [exact Hy | exact Hn]].
  - apply ParseFile_false in H. subst out'.
    split; [auto|]. split; [discriminate | reflexivity].
Qed.

Lemma existing_members_kept_witness :
  sort_conforms (stable_platform two_line_script) /\
  ParseFile (stable_platform two_line_script) a_nss (mkResults 5 5 5 [es "effect"])
    = (true, mkResults 0 1 1
               [cn "int" "alpha" "1"; fn "int" "beta" []; es "effect"]) /\
  In (es "effect") [cn "int" "alpha" "1"; fn "int" "beta" []; es "effect"].
Proof.
  assert (Hs : sort_conforms (stable_platform two_line_script))
    by apply plain_insertion_conforms.
  assert (H : ParseFile (stable_platform two_line_script) a_nss
                (mkResults 5 5 5 [es "effect"])
              = (true, mkResults 0 1 1
                         [cn "int" "alpha" "1"; fn "int" "beta" []; es "effect"]))
    by (vm_compute; reflexivity).
  split; [exact Hs|]. split; [exact H|].
  exact (proj1 (existing_members_kept _ a_nss _ _ _ Hs H)
               (es "effect") (or_introl eq_refl)).
Defined.

(** C10 as stated fails: on a buffer with the UTF-8 mark neither pass
    runs; the call returns true having extracted nothing, and the
    engine-structure counter still reads 1. *)
Lemma existing_members_counterexample :
  ParseFile (stable_platform (utf8_bom ++ second_line_script)) a_nss
            (mkResults 1 0 0 [es "effect"])
    = (true, mkResults 1 0 0 [es "effect"]) /\
  classified (stable_platform (utf8_bom ++ second_line_script))
             (utf8_bom ++ second_line_script) = false.
Proof. split; vm_compute; reflexivity. Qed.

(* ================================================================= *)
(** ** Narrow and wide *)

(** C9: a file in UTF-16 with the mark FF FE is meant to yield the members
    of the same text stored narrow.  With the declaration on the first
    line the narrow file yields the function f; the wide file, sent to the
    wide pass, yields nothing: the mark stays in the subject as its first
    unit, so the line start is not where the declaration starts. *)
Theorem wide_first_line_lost :
  ParseFile (stable_platform first_line_script) a_nss no_results
    = (true, mkResults 0 1 0 [fn "int" "f" []]) /\
  verdict (stable_platform (with_bom first_line_script))
          (with_bom first_line_script) = uni16LE /\
  ParseFile (stable_platform (with_bom first_line_script)) a_nss no_results
    = (true, no_results) /\
  ParseFile (stable_platform (with_bom second_line_script)) a_nss no_results
    = (true, mkResults 0 1 0 [fn "int" "f" []]).
Proof. repeat split; vm_compute; reflexivity. Qed.

(* ================================================================= *)
(** * The patterns at work *)

(* ================================================================= *)
(** ** The matcher, one construct at a time *)

Section ExecEquations.
Variable defs : string -> Regex.
Variable f : nat.

Lemma exec_Eps st : exec defs (S f) Eps st = Some [st].
Proof. reflexivity. Qed.

Lemma exec_Lit x st : exec defs (S f) (Lit x) st = Some (eat (N.eqb x) st).
Proof. reflexivity. Qed.

Lemma exec_Class neg items st :
  exec defs (S f) (Class neg items) st = Some (eat (class_has neg items) st).
Proof. reflexivity. Qed.

Lemma exec_Seq a b st :
  exec defs (S f) (Seq a b) st
  = match exec defs (S f) a st with
    | None => None
    | Some l => collect (exec defs (S f) b) l
    end.
Proof. reflexivity. Qed.

Lemma exec_Alt a b st :
  exec defs (S f) (Alt a b) st
  = match exec defs (S f) a st, exec defs (S f) b st with
    | Some l1, Some l2 => Some (l1 ++ l2)
    | _, _ => None
    end.
Proof. reflexivity. Qed.

Lemma exec_Star lazy a st :
  exec defs (S f) (Star lazy a) st
  = repeat_ lazy (exec defs (S f) a) (S (List.length (rest st))) st.
Proof. reflexivity. Qed.

Lemma exec_Atomic a st :
  exec defs (S f) (Atomic a) st = first_only (exec defs (S f) a st).
Proof. reflexivity. Qed.

Lemma exec_Look negative a st :
  exec defs (S f) (Look negative a) st
  = match exec defs (S f) a st with
    | None => None
    | Some [] => Some (if negative then [st] else [])
    | Some (st' :: _) => Some (if negative then [] else [rewind st st'])
    end.
Proof. reflexivity. Qed.

Lemma exec_Capture name a st :
  exec defs (S f) (Capture name a) st
  = option_map (map (set_cap name (pos st))) (exec defs (S f) a st).
Proof. reflexivity. Qed.

Lemma exec_Call name st :
  exec defs (S f) (Call name) st
  = option_map (map (with_caps (caps st))) (exec defs f (defs name) st).
Proof. reflexivity. Qed.

Lemma exec_Bol st : exec defs (S f) Bol st = Some (if at_bol st then [st] else []).
Proof. reflexivity. Qed.

Lemma exec_Keep st : exec defs (S f) Keep st = Some [keep st].
Proof. reflexivity. Qed.
End ExecEquations.

Lemma collect_one (g : MatchState -> outcomes) (s : MatchState) :
  collect g [s] = g s.
Proof.
  simpl. destruct (g s) as [l|]; [|reflexivity]. now rewrite app_nil_r.
Qed.

Lemma collect_app (g : MatchState -> outcomes) (l1 l2 : list MatchState) :
  collect g (l1 ++ l2)
  = match collect g l1, collect g l2 with
    | Some a, Some b => Some (a ++ b)
    | _, _ => None
    end.
Proof.
  induction l1 as [|s l1 IH]; simpl.
  - now destruct (collect g l2).
  - rewrite IH. destruct (g s), (collect g l1), (collect g l2);
      try reflexivity. now rewrite app_assoc.
Qed.

Lemma collect_some (g : MatchState -> outcomes) (l r : list MatchState) :
  collect g l = Some r ->
  forall m, In m r <-> exists s l', In s l /\ g s = Some l' /\ In m l'.
Proof.
  revert r; induction l as [|s l IH]; simpl; intros r H m.
  - inversion H; subst. split; [contradiction|]. now intros (s & l' & [] & _).
  - destruct (g s) as [a|] eqn:Ea; [|discriminate].
    destruct (collect g l) as [b|]; [|discriminate].
    inversion H; subst. rewrite in_app_iff. split.
    + intros [Hm|Hm].
      * exists s, a. auto.
      * apply (IH b eq_refl) in Hm. destruct Hm as (s' & l' & Hs & Hg & Hm).
        exists s', l'. auto.
    + intros (s' & l' & [<-|Hs] & Hg & Hm).
      * left. congruence.
      * right. apply (IH b eq_refl). eauto.
Qed.

(** ** Moving along the subject *)

Lemma skip_add (j k : nat) (st : MatchState) : skip (j + k) st = skip k (skip j st).
Proof. revert st; induction j as [|j IH]; intros st; simpl; [reflexivity | apply IH]. Qed.

Lemma skip_S (k : nat) (st : MatchState) : skip (S k) st = advance (skip k st).
Proof. rewrite <- Nat.add_1_r, skip_add. reflexivity. Qed.

Lemma advance_caps st : caps (advance st) = caps st.
Proof. unfold advance. now destruct (rest st). Qed.

Lemma advance_start st : start (advance st) = start st.
Proof. unfold advance. now destruct (rest st). Qed.

Lemma skip_caps k st : caps (skip k st) = caps st.
Proof. revert st; induction k as [|k IH]; intros st; simpl; [reflexivity|]. now rewrite IH, advance_caps. Qed.

Lemma skip_start k st : start (skip k st) = start st.
Proof. revert st; induction k as [|k IH]; intros st; simpl; [reflexivity|]. now rewrite IH, advance_start. Qed.

Lemma skip_rest k st : rest (skip k st) = skipn k (rest st).
Proof.
  revert st; induction k as [|k IH]; intros st; simpl; [reflexivity|].
  rewrite IH. unfold advance. destruct (rest st) as [|x xs] eqn:E; simpl.
  - rewrite E. now destruct k.
  - reflexivity.
Qed.

Lemma skip_pos k st : k <= List.length (rest st) -> pos (skip k st) = pos st + k.
Proof.
  revert st; induction k as [|k IH]; intros st Hk; simpl; [lia|].
  unfold advance. destruct (rest st) as [|x xs] eqn:E; simpl in Hk; [lia|].
  rewrite IH; simpl; lia.
Qed.

Lemma skip_pos_le k st : pos st <= pos (skip k st).
Proof.
  revert st; induction k as [|k IH]; intros st; simpl; [lia|].
  etransitivity; [|apply IH]. unfold advance. destruct (rest st); simpl; lia.
Qed.

(** States that agree on where they are behave alike as starting points. *)
Lemma skip_point k st st' :
  pos st = pos st' -> prev st = prev st' -> rest st = rest st' ->
  pos (skip k st) = pos (skip k st') /\ prev (skip k st) = prev (skip k st') /\
  rest (skip k st) = rest (skip k st').
Proof.
  revert st st'; induction k as [|k IH]; intros st st' Hp Hv Hr; simpl; [auto|].
  apply IH; unfold advance; rewrite Hr; destruct (rest st') eqn:E; simpl.
  all: congruence.
Qed.

Lemma ahead_refl st : ahead 0 st st.
Proof. unfold ahead; simpl. repeat split; lia. Qed.

Lemma ahead_trans j k a b c : ahead j a b -> ahead k b c -> ahead (j + k) a c.
Proof.
  intros (Hj & Hp & Hv & Hr) (Hk & Hp' & Hv' & Hr').
  destruct (skip_point k b (skip j a) Hp Hv Hr) as (E1 & E2 & E3).
  rewrite Hr, skip_rest, length_skipn in Hk.
  unfold ahead. rewrite skip_add. repeat split; try congruence. lia.
Qed.

Lemma ahead_advance st x xs : rest st = x :: xs -> ahead 1 st (advance st).
Proof. intros E. unfold ahead; simpl. rewrite E; simpl. repeat split; lia. Qed.

Lemma ahead_pos k st st' : ahead k st st' -> pos st' = pos st + k.
Proof. intros (Hk & Hp & _). rewrite Hp. now apply skip_pos. Qed.

Lemma follows_refl kc cc st : follows kc cc st st.
Proof. split; [exists 0; apply ahead_refl | auto]. Qed.

Lemma follows_trans kc cc a b c :
  follows kc cc a b -> follows kc cc b c -> follows kc cc a c.
Proof.
  intros ([j Hj] & Hs & Hc) ([k Hk] & Hs' & Hc').
  split; [exists (j + k); eapply ahead_trans; eauto|].
  split; intros E; [rewrite Hs', Hs | rewrite Hc', Hc]; auto.
Qed.

Lemma follows_pos kc cc st st' : follows kc cc st st' -> pos st <= pos st'.
Proof. intros ([k Hk] & _). rewrite (ahead_pos _ _ _ Hk). lia. Qed.

Lemma eat_follows kc cc p st :
  Forall (follows kc cc st) (eat p st).
Proof.
  unfold eat. destruct (rest st) as [|x xs] eqn:E; [constructor|].
  destruct (p x); constructor; [|constructor].
  split; [exists 1; eapply ahead_advance; eauto|].
  split; intros _; [apply advance_start | apply advance_caps].
Qed.

Lemma collect_follows kc cc (g : MatchState -> outcomes) st l r :
  Forall (follows kc cc st) l ->
  (forall s r', follows kc cc st s -> g s = Some r' -> Forall (follows kc cc s) r') ->
  collect g l = Some r -> Forall (follows kc cc st) r.
Proof.
  intros Hl Hg Hc. apply Forall_forall. intros m Hm.
  apply (collect_some _ _ _ Hc) in Hm. destruct Hm as (s & l' & Hs & Hgs & Hm).
  rewrite Forall_forall in Hl. specialize (Hl s Hs).
  specialize (Hg s l' Hl Hgs). rewrite Forall_forall in Hg.
  eapply follows_trans; eauto.
Qed.

Lemma repeat_follows kc cc lazy (step : MatchState -> outcomes) :
  (forall s r, step s = Some r -> Forall (follows kc cc s) r) ->
  forall n st l, repeat_ lazy step n st = Some l -> Forall (follows kc cc st) l.
Proof.
  intros Hstep. induction n as [|n IH]; intros st l H; [discriminate|].
  simpl in H. destruct (step st) as [r|] eqn:Er; [|discriminate].
  destruct (collect _ r) as [more|] eqn:Ec; [|discriminate].
  assert (Hmore : Forall (follows kc cc st) more).
  { eapply collect_follows; [apply (Hstep _ _ Er) | | exact Ec].
    intros s r' _ Hs. cbv beta in Hs. destruct (Nat.eqb (pos s) (pos st)).
    - inversion Hs; subst. constructor; [apply follows_refl | constructor].
    - now apply IH. }
  inversion H; subst. destruct lazy.
  - constructor; [apply follows_refl | exact Hmore].
  - apply Forall_app. split; [exact Hmore|].
    constructor; [apply follows_refl | constructor].
Qed.

Section Follows.
Variable defs : string -> Regex.
Variable kc : bool.
Hypothesis defs_shape : forall n, shape kc true (defs n) = true.

Lemma follows_call cc st st' :
  follows kc true st st' -> follows kc cc st (with_caps (caps st) st').
Proof.
  intros ([k Hk] & Hs & _). split; [exists k; exact Hk|]. split; auto.
Qed.

Lemma exec_follows :
  forall fuel cc r st l,
    shape kc cc r = true -> exec defs fuel r st = Some l ->
    Forall (follows kc cc st) l.
Proof.
  induction fuel as [|f IHf]; [discriminate|].
  intros cc r. induction r as [| x | | neg items | a IHa b IHb | a IHa b IHb
                              | lazy a IHa | a IHa | negative a IHa
                              | name a IHa | name | | ]; intros st l Hsh H.
  - inversion H; subst. constructor; [apply follows_refl | constructor].
  - inversion H; subst. apply eat_follows.
  - inversion H; subst. apply eat_follows.
  - inversion H; subst. apply eat_follows.
  - rewrite exec_Seq in H. simpl in Hsh. apply andb_true_iff in Hsh.
    destruct Hsh as [Ha Hb].
    destruct (exec defs (S f) a st) as [la|] eqn:Ea; [|discriminate].
    eapply collect_follows; [apply (IHa _ _ Ha Ea) | | exact H].
    intros s r' _ Hs. now apply IHb.
  - rewrite exec_Alt in H. simpl in Hsh. apply andb_true_iff in Hsh.
    destruct Hsh as [Ha Hb].
    destruct (exec defs (S f) a st) as [la|] eqn:Ea; [|discriminate].
    destruct (exec defs (S f) b st) as [lb|] eqn:Eb; [|discriminate].
    inversion H; subst. apply Forall_app. split; [now apply IHa | now apply IHb].
  - rewrite exec_Star in H. simpl in Hsh.
    eapply repeat_follows; [|exact H]. intros s r Hs. now apply IHa.
  - rewrite exec_Atomic in H. simpl in Hsh.
    destruct (exec defs (S f) a st) as [[|s la]|] eqn:Ea; simpl in H;
      inversion H; subst; [constructor|].
    specialize (IHa _ _ Hsh Ea). inversion IHa; subst.
    constructor; [assumption | constructor].
  - rewrite exec_Look in H. simpl in Hsh.
    destruct (exec defs (S f) a st) as [[|s la]|] eqn:Ea; [| |discriminate];
      inversion H; subst; destruct negative.
    + constructor; [apply follows_refl | constructor].
    + constructor.
    + constructor.
    + specialize (IHa _ _ Hsh Ea). inversion IHa as [|? ? (_ & Hs & Hc) _]; subst.
      constructor; [|constructor].
      split; [exists 0; unfold ahead; simpl; repeat split; lia|].
      split; [reflexivity | exact Hc].
  - rewrite exec_Capture in H. simpl in Hsh. apply andb_true_iff in Hsh.
    destruct Hsh as [-> Ha].
    destruct (exec defs (S f) a st) as [la|] eqn:Ea; [|discriminate].
    inversion H; subst. specialize (IHa _ _ Ha Ea).
    apply Forall_forall. intros m Hm. apply in_map_iff in Hm.
    destruct Hm as (s & <- & Hs). rewrite Forall_forall in IHa.
    destruct (IHa s Hs) as ([k Hk] & Hst & _).
    split; [exists k; exact Hk|]. split; [exact Hst | discriminate].
  - rewrite exec_Call in H.
    destruct (exec defs f (defs name) st) as [lb|] eqn:Eb; [|discriminate].
    inversion H; subst. specialize (IHf true _ _ _ (defs_shape name) Eb).
    apply Forall_forall. intros m Hm. apply in_map_iff in Hm.
    destruct Hm as (s & <- & Hs). rewrite Forall_forall in IHf.
    apply follows_call. auto.
  - rewrite exec_Bol in H. inversion H; subst.
    destruct (at_bol st); constructor; [apply follows_refl | constructor].
  - rewrite exec_Keep in H. inversion H; subst. simpl in Hsh.
    constructor; [|constructor].
    split; [exists 0; unfold ahead; simpl; repeat split; lia|].
    split; [congruence | reflexivity].
Qed.
End Follows.

(** ** Patterns with at most one way to match *)

Lemma det_at_most_one (defs : string -> Regex) (fuel : nat) :
  forall r st l,
    det defs r = true -> exec defs fuel r st = Some l -> List.length l <= 1.
Proof.
  destruct fuel as [|f]; [discriminate|].
  induction r as [| x | | neg items | a IHa b IHb | a IHa b IHb
                 | lazy a IHa | a IHa | negative a IHa
                 | name a IHa | name | | ]; intros st l Hd H;
    try discriminate.
  - inversion H; subst. simpl; lia.
  - inversion H; subst. unfold eat. destruct (rest st); [simpl; lia|].
    destruct (N.eqb x u); simpl; lia.
  - inversion H; subst. unfold eat. destruct (rest st); [simpl; lia|].
    destruct (negb _); simpl; lia.
  - inversion H; subst. unfold eat. destruct (rest st); [simpl; lia|].
    destruct (class_has _ _ _); simpl; lia.
  - rewrite exec_Seq in H. simpl in Hd. apply andb_true_iff in Hd.
    destruct Hd as [Ha Hb].
    destruct (exec defs (S f) a st) as [la|] eqn:Ea; [|discriminate].
    specialize (IHa _ _ Ha Ea). destruct la as [|s [|s' la]]; simpl in IHa; [| |lia].
    + inversion H; subst. simpl; lia.
    + rewrite collect_one in H. now apply (IHb s).
  - rewrite exec_Atomic in H.
    destruct (exec defs (S f) a st) as [[|s la]|]; inversion H; simpl; lia.
  - rewrite exec_Look in H.
    destruct (exec defs (S f) a st) as [[|s la]|]; inversion H;
      destruct negative; simpl; lia.
  - rewrite exec_Capture in H. simpl in Hd.
    destruct (exec defs (S f) a st) as [la|] eqn:Ea; [|discriminate].
    inversion H; subst. rewrite length_map. now apply (IHa st).
  - rewrite exec_Call in H. simpl in Hd.
    destruct (defs name) as [| | | | | | | a | | | | | ]; try discriminate.
    destruct f as [|f']; [discriminate|]. rewrite exec_Atomic in H.
    destruct (exec defs (S f') a st) as [[|s la]|]; inversion H; simpl; lia.
  - rewrite exec_Bol in H. inversion H. destruct (at_bol st); simpl; lia.
  - inversion H; simpl; lia.
Qed.

(** ** Points of the subject *)

Lemma state_at_pos subject o :
  o <= List.length subject -> pos (state_at subject o) = o.
Proof. intros H. unfold state_at. rewrite skip_pos; simpl; lia. Qed.

Lemma state_at_rest subject o : rest (state_at subject o) = skipn o subject.
Proof. unfold state_at. now rewrite skip_rest. Qed.

Lemma state_at_caps subject o : caps (state_at subject o) = [].
Proof. unfold state_at. now rewrite skip_caps. Qed.

Lemma state_at_beyond subject o :
  List.length subject <= o -> state_at subject o = state_at subject (List.length subject).
Proof.
  intros H. replace o with (List.length subject + (o - List.length subject)) by lia.
  unfold state_at. rewrite skip_add.
  generalize (o - List.length subject). intros k.
  assert (E : rest (skip (List.length subject) (mkState 0 None subject 0 [])) = []).
  { rewrite skip_rest. simpl. apply skipn_all. }
  revert E. generalize (skip (List.length subject) (mkState 0 None subject 0 [])).
  induction k as [|k IH]; intros st E; simpl; [reflexivity|].
  unfold advance at 1. rewrite E. now apply IH.
Qed.

Lemma state_at_on_subject subject o : on_subject subject (state_at subject o).
Proof.
  destruct (Nat.le_gt_cases o (List.length subject)) as [H|H].
  - unfold on_subject. rewrite state_at_pos by exact H. auto.
  - rewrite state_at_beyond by lia. unfold on_subject.
    rewrite state_at_pos by lia. auto.
Qed.

Lemma on_subject_length subject st :
  on_subject subject st -> pos st + List.length (rest st) = List.length subject.
Proof.
  intros (Hp & _ & Hr). rewrite Hr, state_at_rest, length_skipn. lia.
Qed.

Lemma ahead_on_subject subject k st st' :
  on_subject subject st -> ahead k st st' -> on_subject subject st'.
Proof.
  intros Hon Hk. pose proof (on_subject_length _ _ Hon) as Hlen.
  pose proof (ahead_pos _ _ _ Hk) as Hpos.
  destruct Hon as (Hp & Hv & Hr). destruct Hk as (Hle & Hp' & Hv' & Hr').
  destruct (skip_point k st (state_at subject (pos st)) ) as (E1 & E2 & E3).
  - now rewrite state_at_pos.
  - exact Hv.
  - exact Hr.
  - assert (Es : skip k (state_at subject (pos st)) = state_at subject (pos st')).
    { unfold state_at. rewrite <- skip_add. now rewrite Hpos. }
    rewrite Es in E2, E3. unfold on_subject. rewrite Hpos in *.
    repeat split; [lia | congruence | congruence].
Qed.

Lemma keep_on_subject subject st :
  on_subject subject st -> caps st = [] ->
  keep st = keep (state_at subject (pos st)).
Proof.
  intros (Hp & Hv & Hr) Hc. unfold keep.
  rewrite state_at_pos by exact Hp. rewrite <- Hv, <- Hr, state_at_caps, Hc.
  reflexivity.
Qed.

Lemma keep_on_subject' subject st : on_subject subject st -> on_subject subject (keep st).
Proof. intros H. exact H. Qed.

(** ** Where the matches of a "g" match come from *)

Lemma scan_sound re subject restricted from n o m :
  scan re (depth_budget subject) restricted from n (state_at subject o) = Matched m ->
  attempt re subject m.
Proof.
  revert o; induction n as [|n IH]; intros o H; [discriminate|].
  simpl in H.
  destruct (exec (groups re) (depth_budget subject) (pattern re)
              (keep (state_at subject o))) as [l|] eqn:E; [|discriminate].
  destruct (if restricted then filter _ l else l) as [|m' l'] eqn:El.
  - destruct restricted; [discriminate|].
    destruct (rest (state_at subject o)); [discriminate|].
    assert (Es : advance (state_at subject o) = state_at subject (S o)).
    { unfold state_at. now rewrite skip_S. }
    rewrite Es in H. now apply (IH (S o)).
  - inversion H; subst m'. exists o, l. split; [exact E|].
    destruct restricted.
    + assert (Hin : In m (filter (fun m0 => negb (Nat.eqb (pos m0) from)) l))
        by (rewrite El; now left).
      apply filter_In in Hin. tauto.
    + subst l. now left.
Qed.

Lemma pcre2_match_sound re subject o restricted m :
  pcre2_match re subject o restricted = Matched m -> attempt re subject m.
Proof. unfold pcre2_match. apply scan_sound. Qed.

Lemma match_more_sound re subject n :
  forall ov0 ov1 m, In m (match_more re subject n ov0 ov1) -> attempt re subject m.
Proof.
  induction n as [|n IH]; intros ov0 ov1 m H; [contradiction|].
  simpl in H.
  destruct (Nat.eqb ov0 ov1 && Nat.eqb ov0 (List.length subject))%bool;
    [contradiction|].
  destruct (pcre2_match re subject ov1 (Nat.eqb ov0 ov1)) as [m'| |] eqn:E.
  - destruct H as [<-|H]; [eapply pcre2_match_sound; eauto | eapply IH; eauto].
  - destruct (Nat.eqb ov0 ov1); [eapply IH; eauto | contradiction].
  - contradiction.
Qed.

Lemma match_all_sound re subject m :
  In m (match_all re subject) -> attempt re subject m.
Proof.
  unfold match_all.
  destruct (pcre2_match re subject 0 false) as [m'| |] eqn:E; try contradiction.
  intros [<-|H]; [eapply pcre2_match_sound; eauto | eapply match_more_sound; eauto].
Qed.

(** ** Declarations and definitions *)

Lemma BASEREGEX_shape (n : string) : shape false true (BASEREGEX n) = true.
Proof.
  unfold BASEREGEX.
  repeat match goal with |- context [String.eqb ?a ?b] => destruct (String.eqb a b) end;
    reflexivity.
Qed.

Lemma depth_budget_S subject : depth_budget subject = S (List.length subject + 7).
Proof. unfold depth_budget. lia. Qed.

(** What the header yields from an attempt it yields from the place where
    \K put the start of the match. *)
Lemma header_from_start subject o l :
  exec BASEREGEX (depth_budget subject) FUNCTIONHEADER (keep (state_at subject o))
    = Some l ->
  forall st, In st l ->
    exec BASEREGEX (depth_budget subject) FUNCTIONSIGNATURE
         (keep (state_at subject (start st))) = Some l.
Proof.
  rewrite depth_budget_S. set (f := List.length subject + 7).
  set (A := keep (state_at subject o)).
  assert (HA : on_subject subject A) by apply state_at_on_subject.
  assert (HcA : caps A = []) by apply state_at_caps.
  unfold FUNCTIONHEADER. cbn [Cat]. intros H st Hst.
  rewrite exec_Seq, exec_Bol in H.
  destruct (at_bol A); [|inversion H; subst; contradiction].
  rewrite collect_one, exec_Seq in H.
  destruct (exec BASEREGEX (S f) (StarP (G "comment")) A) as [la|] eqn:Ea;
    [|discriminate].
  pose proof (det_at_most_one BASEREGEX (S f) (StarP (G "comment")) A la
                eq_refl Ea) as Hone.
  pose proof (exec_follows BASEREGEX false BASEREGEX_shape (S f) false
                (StarP (G "comment")) A la eq_refl Ea) as Hfol.
  destruct la as [|s [|s' la]]; simpl in Hone; [| |lia].
  - inversion H; subst. contradiction.
  - rewrite collect_one, exec_Seq, exec_Keep, collect_one in H.
    inversion Hfol as [|? ? ([k Hk] & _ & Hcs) _]; subst.
    assert (Hs : on_subject subject s) by (eapply ahead_on_subject; eauto).
    rewrite (keep_on_subject subject s Hs) in H by (rewrite Hcs; auto).
    pose proof (exec_follows BASEREGEX false BASEREGEX_shape (S f) true
                  FUNCTIONSIGNATURE _ l eq_refl H) as Hfol'.
    rewrite Forall_forall in Hfol'. destruct (Hfol' st Hst) as (_ & Hstart & _).
    rewrite (Hstart eq_refl). destruct Hs as (Hp & _).
    change (start (keep (state_at subject (pos s))))
      with (pos (state_at subject (pos s))).
    rewrite (state_at_pos subject (pos s) Hp). exact H.
Qed.

Lemma FUNCTIONHEADER_det : det BASEREGEX FUNCTIONHEADER = true.
Proof. reflexivity. Qed.

(** C7: where the header of a function (everything the function pattern
    asks for before its closing semicolon) is followed by an opening brace,
    no match of the function pattern, and so no function record, starts
    where that header starts. *)
Theorem definition_with_body_not_extracted (subject : text) (o : nat)
    (l : list MatchState) (st1 : MatchState) (body : text) :
  exec BASEREGEX (depth_budget subject) FUNCTIONHEADER
       (keep (state_at subject o)) = Some l ->
  In st1 l ->
  rest st1 = ch "{" :: body ->
  forall m, In m (match_all FUNCTIONDECLARATIONREGEX subject) ->
            start m <> start st1.
Proof.
  intros Hh Hst1 Hbrace m Hm Hstart.
  apply match_all_sound in Hm. destruct Hm as (o' & l' & He & Hin).
  cbn [groups pattern FUNCTIONDECLARATIONREGEX] in He.
  rewrite depth_budget_S in He. rewrite exec_Seq in He.
  rewrite <- depth_budget_S in He.
  destruct (exec BASEREGEX (depth_budget subject) FUNCTIONHEADER
              (keep (state_at subject o'))) as [lh|] eqn:Eh; [|discriminate].
  apply (collect_some _ _ _ He) in Hin. destruct Hin as (s & ls & Hs & Hsemi & Hmls).
  rewrite depth_budget_S in Hsemi. unfold L in Hsemi. rewrite exec_Lit in Hsemi.
  inversion Hsemi; subst ls. clear Hsemi.
  unfold eat in Hmls. destruct (rest s) as [|x xs] eqn:Ers; [contradiction|].
  match type of Hmls with
  | context [N.eqb ?a x] => destruct (N.eqb a x) eqn:Ex; [|contradiction]
  end.
  destruct Hmls as [<-|[]].
  rewrite advance_start in Hstart.
  pose proof (header_from_start subject o l Hh st1 Hst1) as E1.
  pose proof (header_from_start subject o' lh Eh s Hs) as E2.
  rewrite Hstart, E1 in E2. inversion E2; subst lh.
  pose proof (det_at_most_one BASEREGEX _ FUNCTIONHEADER _ _ FUNCTIONHEADER_det Hh)
    as Hone.
  destruct l as [|a [|b l]]; simpl in Hone; [contradiction| |lia].
  destruct Hst1 as [<-|[]]. destruct Hs as [<-|[]].
  rewrite Hbrace in Ers. inversion Ers; subst x. vm_compute in Ex. discriminate.
Qed.

(** ** A larger budget changes nothing *)

Lemma collect_mono (g g' : MatchState -> outcomes) :
  forall l r,
    (forall s r', In s l -> g s = Some r' -> g' s = Some r') ->
    collect g l = Some r -> collect g' l = Some r.
Proof.
  induction l as [|s l IH]; intros r Hg H; [exact H|].
  simpl in *. destruct (g s) as [a|] eqn:Ea; [|discriminate].
  destruct (collect g l) as [b|] eqn:Eb; [|discriminate].
  rewrite (Hg s a (or_introl eq_refl) Ea).
  rewrite (IH b); [exact H | | reflexivity].
  intros s' r' Hs. apply Hg. now right.
Qed.

Lemma repeat_mono lazy (step step' : MatchState -> outcomes) :
  (forall s r, step s = Some r -> step' s = Some r) ->
  forall n st l, repeat_ lazy step n st = Some l -> repeat_ lazy step' n st = Some l.
Proof.
  intros Hstep. induction n as [|n IH]; intros st l H; [discriminate|].
  simpl in *. destruct (step st) as [r|] eqn:Er; [|discriminate].
  rewrite (Hstep _ _ Er).
  destruct (collect _ r) as [more|] eqn:Ec; [|discriminate].
  erewrite collect_mono; [exact H | | exact Ec].
  intros s r' _ Hs. cbv beta in *.
  destruct (Nat.eqb (pos s) (pos st)); [exact Hs | now apply IH].
Qed.

Lemma exec_mono_S (defs : string -> Regex) :
  forall fuel r st l,
    exec defs fuel r st = Some l -> exec defs (S fuel) r st = Some l.
Proof.
  induction fuel as [|f IHf]; [discriminate|].
  induction r as [| x | | neg items | a IHa b IHb | a IHa b IHb
                 | lazy a IHa | a IHa | negative a IHa
                 | name a IHa | name | | ]; intros st l H;
    try exact H.
  - rewrite exec_Seq in *.
    destruct (exec defs (S f) a st) as [la|] eqn:Ea; [|discriminate].
    rewrite (IHa _ _ Ea). eapply collect_mono; [|exact H].
    intros s r' _. apply IHb.
  - rewrite exec_Alt in *.
    destruct (exec defs (S f) a st) as [la|] eqn:Ea; [|discriminate].
    destruct (exec defs (S f) b st) as [lb|] eqn:Eb; [|discriminate].
    now rewrite (IHa _ _ Ea), (IHb _ _ Eb).
  - rewrite exec_Star in *. eapply repeat_mono; [|exact H]. intros s r. apply IHa.
  - rewrite exec_Atomic in *.
    destruct (exec defs (S f) a st) as [la|] eqn:Ea; [|discriminate].
    now rewrite (IHa _ _ Ea).
  - rewrite exec_Look in *.
    destruct (exec defs (S f) a st) as [la|] eqn:Ea; [|discriminate].
    now rewrite (IHa _ _ Ea).
  - rewrite exec_Capture in *.
    destruct (exec defs (S f) a st) as [la|] eqn:Ea; [|discriminate].
    now rewrite (IHa _ _ Ea).
  - rewrite exec_Call in *.
    destruct (exec defs f (defs name) st) as [la|] eqn:Ea; [|discriminate].
    now rewrite (IHf _ _ _ Ea).
Qed.

Lemma exec_mono (defs : string -> Regex) (fuel fuel' : nat) r st l :
  fuel <= fuel' -> exec defs fuel r st = Some l -> exec defs fuel' r st = Some l.
Proof.
  induction 1 as [|k _ IH]; [auto|]. intros H. apply exec_mono_S. auto.
Qed.

(** ** Runs of units of one class *)

Lemma with_caps_same st' cps : caps st' = cps -> with_caps cps st' = st'.
Proof. intros <-. now destruct st'. Qed.

Lemma pos_advance_neq st x xs :
  rest st = x :: xs -> Nat.eqb (pos (advance st)) (pos st) = false.
Proof.
  intros E. unfold advance. rewrite E. cbn [pos]. apply Nat.eqb_neq. lia.
Qed.

Lemma repeat_run (p : unit_t -> bool) (step : MatchState -> outcomes) :
  (forall s, step s = Some (eat p s)) ->
  forall w n st r,
    rest st = w ++ r -> forallb p w = true -> stops p r = true ->
    List.length (rest st) < n ->
    exists l', repeat_ false step n st = Some (skip (List.length w) st :: l').
Proof.
  intros Hstep. induction w as [|x w IH]; intros n st r Hr Hw Hstop Hn.
  - destruct n as [|n]; [lia|]. simpl in *. rewrite Hstep. unfold eat.
    rewrite Hr. exists []. destruct r as [|y r]; [reflexivity|].
    simpl in Hstop. apply negb_true_iff in Hstop. now rewrite Hstop.
  - destruct n as [|n]; [lia|]. simpl in Hw. apply andb_true_iff in Hw.
    destruct Hw as [Hx Hw]. simpl in Hr.
    destruct (IH n (advance st) r) as [l' Hl'].
    + unfold advance. now rewrite Hr.
    + exact Hw.
    + exact Hstop.
    + unfold advance. rewrite Hr in *. simpl in *. lia.
    + cbn [repeat_]. rewrite Hstep. unfold eat at 1. rewrite Hr, Hx.
      rewrite collect_one, (pos_advance_neq st x (w ++ r) Hr), Hl'.
      eexists. cbn [List.length skip]. reflexivity.
Qed.

Section Runs.
Variable defs : string -> Regex.
Variable f : nat.
Variables (neg : bool) (items : list ClassItem).

Lemma exec_run_star st w r :
  rest st = w ++ r -> forallb (class_has neg items) w = true ->
  stops (class_has neg items) r = true ->
  exec defs (S f) (StarP (Class neg items)) st = Some [skip (List.length w) st].
Proof.
  intros Hr Hw Hs. unfold StarP. rewrite exec_Atomic, exec_Star.
  destruct (repeat_run (class_has neg items) (exec defs (S f) (Class neg items)) (fun s => eq_refl)
              w (S (List.length (rest st))) st r Hr Hw Hs (Nat.lt_succ_diag_r _))
    as [l' ->].
  reflexivity.
Qed.

Lemma exec_run_plus st w r :
  w <> [] ->
  rest st = w ++ r -> forallb (class_has neg items) w = true ->
  stops (class_has neg items) r = true ->
  exec defs (S f) (Atomic (Plus (Class neg items))) st
  = Some [skip (List.length w) st].
Proof.
  intros Hne Hr Hw Hs. destruct w as [|x w]; [contradiction|].
  simpl in Hw. apply andb_true_iff in Hw. destruct Hw as [Hx Hw]. simpl in Hr.
  unfold Plus. rewrite exec_Atomic, exec_Seq, exec_Class. unfold eat at 1.
  rewrite Hr, Hx, collect_one, exec_Star.
  destruct (repeat_run (class_has neg items) (exec defs (S f) (Class neg items)) (fun s => eq_refl)
              w (S (List.length (rest (advance st)))) (advance st) r)
    as [l' ->]; auto.
  unfold advance. now rewrite Hr.
Qed.

Lemma exec_run_none st :
  stops (class_has neg items) (rest st) = true ->
  exec defs (S f) (Atomic (Plus (Class neg items))) st = Some [].
Proof.
  intros Hs. unfold Plus. rewrite exec_Atomic, exec_Seq, exec_Class. unfold eat.
  destruct (rest st) as [|x xs]; [reflexivity|].
  simpl in Hs. apply negb_true_iff in Hs. now rewrite Hs.
Qed.
End Runs.

(** ** Keywords *)

Lemma exec_Word (defs : string -> Regex) (f : nat) :
  forall w st,
    exec defs (S f) (Word w) st
    = Some (if prefix_of w (rest st) then [skip (List.length w) st] else []).
Proof.
  induction w as [|x w IH]; intros st; [reflexivity|].
  cbn [Word]. rewrite exec_Seq, exec_Lit. unfold eat.
  destruct (rest st) as [|y ys] eqn:E; [reflexivity|].
  cbn [prefix_of]. destruct (N.eqb x y); [|reflexivity].
  rewrite collect_one, IH. unfold advance at 1. rewrite E. cbn [rest].
  reflexivity.
Qed.

(** ** Blanks and comments between tokens *)

Lemma is_space_class x : class_has false [CSpace] x = is_space x.
Proof. unfold class_has; simpl. now rewrite orb_false_r. Qed.

Lemma quiet_no_space r : quiet r = true -> stops (class_has false [CSpace]) r = true.
Proof.
  destruct r as [|x r]; [reflexivity|]. unfold quiet; simpl.
  rewrite negb_true_iff, orb_false_iff, orb_false_r. intros [H _].
  now rewrite negb_true_iff.
Qed.

Lemma quiet_no_slash r st :
  quiet r = true -> rest st = r -> eat (N.eqb (ch "/")) st = [].
Proof.
  intros Hq Hr. unfold eat. rewrite Hr. destruct r as [|x r]; [reflexivity|].
  unfold quiet in Hq; simpl in Hq.
  rewrite negb_true_iff, orb_false_iff in Hq. destruct Hq as [_ H].
  assert (H' : N.eqb (ch "/") x = false) by (rewrite N.eqb_sym; exact H).
  now rewrite H'.
Qed.

Lemma forallb_blank bl :
  forallb is_space bl = true -> forallb (class_has false [CSpace]) bl = true.
Proof.
  intros H. rewrite forallb_forall in *. intros x Hx. rewrite is_space_class. auto.
Qed.

(** One round of the loop in [c]: the blanks are passed, no comment
    follows. *)
Lemma exec_c_round f st bl r :
  rest st = bl ++ r -> forallb is_space bl = true -> quiet r = true ->
  exec BASEREGEX (S (S f))
       (Atomic (Cat [StarP S_;
                     Opt (Atomic (Alt (G "comment") (G "commentLine")));
                     StarP S_])) st
  = Some [skip (List.length bl) st].
Proof.
  intros Hr Hb Hq. cbn [Cat]. rewrite exec_Atomic, exec_Seq.
  unfold S_ at 1.
  rewrite (exec_run_star BASEREGEX (S f) false [CSpace] st bl r Hr
             (forallb_blank bl Hb) (quiet_no_space r Hq)).
  set (s1 := skip (List.length bl) st).
  assert (Hs1 : rest s1 = r).
  { unfold s1. rewrite skip_rest, Hr, skipn_app, skipn_all, Nat.sub_diag. reflexivity. }
  rewrite collect_one, exec_Seq. unfold Opt at 1.
  rewrite exec_Alt, exec_Atomic, exec_Alt. unfold G.
  rewrite !exec_Call.
  change (BASEREGEX "comment") with comment.
  change (BASEREGEX "commentLine") with commentLine.
  unfold comment, commentLine. cbn [Cat]. unfold L.
  rewrite !exec_Atomic, !exec_Seq, !exec_Lit.
  rewrite (quiet_no_slash r s1 Hq Hs1). cbn [collect first_only option_map map app].
  rewrite exec_Eps. cbn [app]. rewrite collect_one.
  unfold S_.
  rewrite (exec_run_star BASEREGEX (S f) false [CSpace] s1 [] r Hs1 eq_refl
             (quiet_no_space r Hq)).
  reflexivity.
Qed.

(** A loop whose body moves once and then stays put. *)
Lemma repeat_settles (step : MatchState -> outcomes) (n : nat) (st s1 : MatchState) :
  step st = Some [s1] -> step s1 = Some [s1] ->
  List.length (rest st) < n ->
  (pos s1 = pos st \/ rest st <> []) ->
  first_only (repeat_ false step n st) = Some [s1].
Proof.
  intros Hstep Hstep1 Hn Hcase. destruct n as [|n]; [lia|].
  cbn [repeat_]. rewrite Hstep, collect_one.
  destruct (Nat.eqb (pos s1) (pos st)) eqn:Ep; [reflexivity|].
  destruct Hcase as [E|Hne]; [apply Nat.eqb_neq in Ep; contradiction|].
  destruct n as [|n]; [destruct (rest st); [contradiction | simpl in Hn; lia]|].
  cbn [repeat_]. rewrite Hstep1, collect_one, Nat.eqb_refl. reflexivity.
Qed.

Lemma exec_c_blanks f st bl r :
  rest st = bl ++ r -> forallb is_space bl = true -> quiet r = true ->
  exec BASEREGEX (S (S (S f))) (G "c") st = Some [skip (List.length bl) st].
Proof.
  intros Hr Hb Hq. unfold G. rewrite exec_Call.
  change (BASEREGEX "c") with c. unfold c, StarP at 1.
  rewrite exec_Atomic, exec_Star.
  set (s1 := skip (List.length bl) st).
  assert (Hs1 : rest s1 = [] ++ r).
  { unfold s1. rewrite skip_rest, Hr, skipn_app, skipn_all, Nat.sub_diag. reflexivity. }
  assert (Hc1 : with_caps (caps st) s1 = s1).
  { apply with_caps_same. unfold s1. apply skip_caps. }
  erewrite repeat_settles.
  - cbn [option_map map]. now rewrite Hc1.
  - exact (exec_c_round f st bl r Hr Hb Hq).
  - exact (exec_c_round f s1 [] r Hs1 eq_refl Hq).
  - lia.
  - destruct bl as [|b bl]; [left; reflexivity | right; rewrite Hr; discriminate].
Qed.

Lemma exec_c_quiet f st :
  quiet (rest st) = true ->
  exec BASEREGEX (S (S (S f))) (G "c") st = Some [st].
Proof. intros Hq. apply (exec_c_blanks f st [] (rest st) eq_refl eq_refl Hq). Qed.

(** ** The head of a parameter: blanks, type, blanks, name *)

Lemma skip_over st w r :
  rest st = w ++ r ->
  rest (skip (List.length w) st) = r /\
  pos (skip (List.length w) st) = pos st + List.length w.
Proof.
  intros Hr. split.
  - rewrite skip_rest, Hr, skipn_app, skipn_all, Nat.sub_diag. reflexivity.
  - apply skip_pos. rewrite Hr, length_app. lia.
Qed.

Lemma advance_with_caps cps st : advance (with_caps cps st) = with_caps cps (advance st).
Proof. destruct st as [p v r s cs]. unfold advance, with_caps; simpl. now destruct r. Qed.

Lemma skip_with_caps k cps st : skip k (with_caps cps st) = with_caps cps (skip k st).
Proof.
  revert st; induction k as [|k IH]; intros st; simpl; [reflexivity|].
  now rewrite advance_with_caps, IH.
Qed.

Lemma set_cap_skip name from k st :
  k <= List.length (rest st) ->
  set_cap name from (skip k st)
  = with_caps ((name, (from, pos st + k)) :: caps st) (skip k st).
Proof.
  intros Hk. unfold set_cap. rewrite skip_pos by exact Hk. now rewrite skip_caps.
Qed.

Lemma is_word_class x : class_has false [CWord] x = is_word x.
Proof. unfold class_has; simpl. now rewrite orb_false_r. Qed.

Lemma forallb_word w :
  forallb is_word w = true -> forallb (class_has false [CWord]) w = true.
Proof.
  intros H. rewrite forallb_forall in *. intros x Hx. rewrite is_word_class. auto.
Qed.

Lemma is_name_inv w :
  is_name w = true -> w <> [] /\ forallb (class_has false [CWord]) w = true.
Proof.
  unfold is_name. rewrite andb_true_iff. intros [Hn Hw]. split.
  - intros ->. discriminate.
  - now apply forallb_word.
Qed.

Lemma name_head_quiet w r : is_name w = true -> quiet (w ++ r) = true.
Proof.
  destruct w as [|x w]; [discriminate|]. unfold is_name; simpl.
  rewrite andb_true_iff. intros [Hx _]. unfold quiet; simpl.
  revert Hx. unfold is_word, is_space, is_digit, in_range.
  repeat match goal with |- context [N.leb ?a ?b] => destruct (N.leb_spec a b) end;
    repeat match goal with |- context [N.eqb ?a ?b] => destruct (N.eqb_spec a b) end;
    simpl; try congruence; try lia.
Qed.

Lemma prefix_of_app w : forall a x b,
  prefix_of w (a ++ x :: b) = true -> prefix_of w a = true \/ In x w.
Proof.
  induction w as [|y w IH]; intros a x b H; [now left|].
  destruct a as [|z a]; simpl in *.
  - apply andb_true_iff in H. destruct H as [H _]. apply N.eqb_eq in H. auto.
  - apply andb_true_iff in H. destruct H as [Hz H]. rewrite Hz. simpl.
    destruct (IH _ _ _ H); auto.
Qed.

Lemma no_const_prefix ty sp r :
  prefix_of (str "const") ty = false -> all_blank sp = true -> sp <> [] ->
  prefix_of (str "const") (ty ++ sp ++ r) = false.
Proof.
  intros Hty Hsp Hne. destruct sp as [|x sp]; [contradiction|].
  destruct (prefix_of (str "const") (ty ++ (x :: sp) ++ r)) eqn:E; [|reflexivity].
  apply prefix_of_app in E. destruct E as [E|E]; [congruence|].
  simpl in Hsp. apply andb_true_iff in Hsp. destruct Hsp as [Hx _].
  simpl in E. repeat destruct E as [<-|E]; try discriminate. contradiction.
Qed.

Section ParamHead.
Variables (f : nat) (K : Regex) (A : MatchState).
Variables (ws ty sp nm sp2 tail : text).
Hypothesis HA : rest A = ws ++ ty ++ sp ++ nm ++ sp2 ++ tail.
Hypothesis Hws : all_blank ws = true.
Hypothesis Hty : is_name ty = true.
Hypothesis Hconst : prefix_of (str "const") ty = false.
Hypothesis Hsp : all_blank sp = true.
Hypothesis Hsp_ne : sp <> [].
Hypothesis Hnm : is_name nm = true.
Hypothesis Hsp2 : all_blank sp2 = true.
Hypothesis Hstop : stops (class_has false [CWord]) (sp2 ++ tail) = true.
Hypothesis Htail : quiet tail = true.

Lemma blank_stops_word x r :
  all_blank (x :: r) = true -> forall r', stops (class_has false [CWord]) ((x :: r) ++ r') = true.
Proof.
  intros H r'. simpl in H. apply andb_true_iff in H. destruct H as [Hx _].
  cbn [app stops]. rewrite is_word_class.
  revert Hx. unfold is_word, is_space, is_digit, in_range.
  repeat match goal with |- context [N.leb ?a ?b] => destruct (N.leb_spec a b) end;
    repeat match goal with |- context [N.eqb ?a ?b] => destruct (N.eqb_spec a b) end;
    simpl; try congruence; try lia.
Qed.

Lemma exec_param_head :
  exec BASEREGEX (S (S (S f)))
       (Seq (G "c")
       (Seq (Opt (Atomic (Kw "const")))
       (Seq (G "c")
       (Seq (Capture "type" (Atomic (Plus W)))
       (Seq (G "c")
       (Seq (Capture "name" (Atomic (Plus W)))
       (Seq (G "c") K))))))) A
  = exec BASEREGEX (S (S (S f))) K (after_name A ws ty sp nm sp2).
Proof.
  destruct (is_name_inv ty Hty) as [Hty_ne Hty_w].
  destruct (is_name_inv nm Hnm) as [Hnm_ne Hnm_w].
  (* blanks before the type *)
  rewrite exec_Seq.
  rewrite (exec_c_blanks f A ws (ty ++ sp ++ nm ++ sp2 ++ tail) HA Hws
             (name_head_quiet ty _ Hty)).
  destruct (skip_over A ws _ HA) as [Hr1 Hp1].
  set (s1 := skip (List.length ws) A) in *.
  rewrite collect_one.
  (* no const *)
  rewrite exec_Seq. unfold Opt at 1, Kw.
  rewrite exec_Alt, exec_Atomic, exec_Word, Hr1.
  rewrite (no_const_prefix ty sp _ Hconst Hsp Hsp_ne).
  rewrite exec_Eps. cbn [first_only app]. rewrite collect_one.
  rewrite exec_Seq.
  rewrite (exec_c_quiet f s1) by (rewrite Hr1; apply (name_head_quiet ty _ Hty)).
  rewrite collect_one.
  (* the type *)
  rewrite exec_Seq, exec_Capture. unfold W.
  rewrite (exec_run_plus BASEREGEX (S (S f)) false [CWord] s1 ty
             (sp ++ nm ++ sp2 ++ tail) Hty_ne Hr1 Hty_w).
  2:{ destruct sp as [|x sp']; [contradiction|]. now apply blank_stops_word. }
  cbn [option_map map].
  destruct (skip_over s1 ty _ Hr1) as [Hr2 Hp2].
  rewrite set_cap_skip by (rewrite Hr1, length_app; lia).
  set (s2 := with_caps _ (skip (List.length ty) s1)).
  assert (Hrest2 : rest s2 = sp ++ nm ++ sp2 ++ tail) by exact Hr2.
  rewrite collect_one.
  (* blanks before the name *)
  rewrite exec_Seq.
  rewrite (exec_c_blanks f s2 sp (nm ++ sp2 ++ tail) Hrest2 Hsp
             (name_head_quiet nm _ Hnm)).
  destruct (skip_over s2 sp _ Hrest2) as [Hr3 Hp3].
  set (s3 := skip (List.length sp) s2) in *.
  rewrite collect_one.
  (* the name *)
  rewrite exec_Seq, exec_Capture.
  rewrite (exec_run_plus BASEREGEX (S (S f)) false [CWord] s3 nm
             (sp2 ++ tail) Hnm_ne Hr3 Hnm_w Hstop).
  cbn [option_map map].
  destruct (skip_over s3 nm _ Hr3) as [Hr4 Hp4].
  rewrite set_cap_skip by (rewrite Hr3, length_app; lia).
  set (s4 := with_caps _ (skip (List.length nm) s3)).
  assert (Hrest4 : rest s4 = sp2 ++ tail) by exact Hr4.
  rewrite collect_one.
  (* blanks after the name *)
  rewrite exec_Seq.
  rewrite (exec_c_blanks f s4 sp2 tail Hrest4 Hsp2 Htail).
  rewrite collect_one.
  f_equal.
  unfold after_name, s4, s3, s2, s1.
  rewrite !skip_with_caps, !length_app, !skip_add.
  unfold with_caps; cbn [pos prev rest start caps].
  rewrite !skip_caps, !skip_start.
  subst s4 s3 s2 s1. cbn [pos with_caps] in *.
  rewrite !skip_with_caps in *. cbn [pos with_caps] in *.
  f_equal. repeat f_equal; lia.
Qed.
End ParamHead.

(** ** Parameters without a default *)

Lemma slice (subject : text) (o : nat) (pre w r : text) :
  skipn o subject = pre ++ w ++ r ->
  firstn (o + List.length pre + List.length w - (o + List.length pre))
         (skipn (o + List.length pre) subject) = w.
Proof.
  intros H. rewrite (Nat.add_comm o), <- skipn_skipn, H.
  rewrite skipn_app, skipn_all, Nat.sub_diag. simpl.
  replace (List.length pre + o + List.length w - (List.length pre + o))
    with (List.length w + 0) by lia.
  rewrite firstn_app_2. simpl. apply app_nil_r.
Qed.

Lemma closes_quiet tail : closes tail = true -> quiet tail = true.
Proof.
  destruct tail as [|x r]; [reflexivity|]. unfold closes, quiet; simpl.
  repeat match goal with |- context [N.eqb ?a ?b] => destruct (N.eqb_spec a b) end;
    subst; simpl; try congruence; reflexivity.
Qed.

Lemma closes_stops_word tail :
  closes tail = true -> stops (class_has false [CWord]) tail = true.
Proof.
  destruct tail as [|x r]; [reflexivity|]. unfold closes; simpl.
  repeat match goal with |- context [N.eqb ?a ?b] => destruct (N.eqb_spec a b) end;
    subst; simpl; try congruence; reflexivity.
Qed.

Lemma closes_no_equals tail st :
  closes tail = true -> rest st = tail -> eat (N.eqb (ch "=")) st = [].
Proof.
  intros Hc Hr. unfold eat. rewrite Hr. destruct tail as [|x r]; [reflexivity|].
  unfold closes in Hc.
  destruct (N.eqb_spec (ch "=") x) as [<-|]; [discriminate | reflexivity].
Qed.

Lemma stops_after_blanks sp2 tail :
  all_blank sp2 = true -> stops (class_has false [CWord]) tail = true ->
  stops (class_has false [CWord]) (sp2 ++ tail) = true.
Proof.
  intros Hb Ht. destruct sp2 as [|x sp2]; [exact Ht|].
  now apply blank_stops_word.
Qed.

Lemma skipn_nonempty (subject : text) (o : nat) (x : unit_t) (r : text) :
  skipn o subject = x :: r -> o < List.length subject.
Proof.
  intros H. destruct (Nat.lt_ge_cases o (List.length subject)) as [|Hge]; [assumption|].
  rewrite skipn_all2 in H by exact Hge. discriminate.
Qed.

Lemma name_nonempty w r : is_name w = true -> exists x r', w ++ r = x :: r'.
Proof. destruct w as [|x w]; [discriminate|]. intros _. now exists x, (w ++ r). Qed.

(** The first attempt of a search that starts at [o] decides it when it
    matches. *)
Lemma pcre2_match_first re subject o m l :
  exec (groups re) (depth_budget subject) (pattern re)
       (keep (state_at subject o)) = Some (m :: l) ->
  pcre2_match re subject o false = Matched m.
Proof.
  intros H. unfold pcre2_match. cbn [scan]. now rewrite H.
Qed.

Lemma param_offset (subject : text) (o : nat) (ws ty r : text) :
  skipn o subject = ws ++ ty ++ r -> is_name ty = true ->
  o <= List.length subject.
Proof.
  intros Hsub Hty. destruct (name_nonempty ty r Hty) as (x & r' & E).
  rewrite E in Hsub.
  destruct (Nat.le_gt_cases o (List.length subject)) as [|Hgt]; [assumption|].
  rewrite skipn_all2 in Hsub by lia. destruct ws; discriminate.
Qed.

Section NoDefault.
Variables (subject : text) (o : nat).
Variables (ws ty sp nm sp2 tail : text).
Hypothesis Hsub : skipn o subject = ws ++ ty ++ sp ++ nm ++ sp2 ++ tail.
Hypothesis Hws : all_blank ws = true.
Hypothesis Hty : is_name ty = true.
Hypothesis Hconst : prefix_of (str "const") ty = false.
Hypothesis Hsp : all_blank sp = true.
Hypothesis Hsp_ne : sp <> [].
Hypothesis Hnm : is_name nm = true.
Hypothesis Hsp2 : all_blank sp2 = true.
Hypothesis Htail : closes tail = true.

Lemma exec_param_no_default :
  exists l,
    exec BASEREGEX (depth_budget subject) (pattern FUNTIONPARAMETERREGEX)
         (keep (state_at subject o))
    = Some (after_name (keep (state_at subject o)) ws ty sp nm sp2 :: l).
Proof.
  set (A := keep (state_at subject o)).
  assert (HA : rest A = ws ++ ty ++ sp ++ nm ++ sp2 ++ tail).
  { unfold A, keep; cbn [rest]. now rewrite state_at_rest. }
  unfold depth_budget. rewrite Nat.add_comm. cbn [Nat.add].
  cbn [pattern FUNTIONPARAMETERREGEX Cat].
  rewrite (exec_param_head _ _ A ws ty sp nm sp2 tail HA Hws Hty Hconst Hsp
             Hsp_ne Hnm Hsp2
             (stops_after_blanks sp2 tail Hsp2 (closes_stops_word tail Htail))
             (closes_quiet tail Htail)).
  set (s := after_name A ws ty sp nm sp2).
  assert (Hs : rest s = tail).
  { unfold s, after_name, with_caps; cbn [rest]. rewrite skip_rest, HA.
    rewrite !app_assoc, skipn_app, skipn_all, Nat.sub_diag. reflexivity. }
  rewrite exec_Seq. unfold Opt at 1. cbn [Cat].
  rewrite exec_Alt, exec_Atomic, exec_Seq. unfold L at 1. rewrite exec_Lit.
  rewrite (closes_no_equals tail s Htail Hs).
  cbn [collect first_only]. rewrite exec_Eps. cbn [app].
  rewrite collect_one, exec_Seq.
  rewrite (exec_c_quiet _ s) by (rewrite Hs; now apply closes_quiet).
  rewrite collect_one. unfold Opt, L.
  rewrite exec_Alt, exec_Look, exec_Lit, exec_Eps.
  destruct (eat (N.eqb (ch ",")) s); eexists; reflexivity.
Qed.
End NoDefault.

Lemma lookup_cap_app (k : string) (more rest' : list (string * (nat * nat))) :
  lookup_cap k more = None -> lookup_cap k (more ++ rest') = lookup_cap k rest'.
Proof.
  induction more as [|[k' v'] more' IH]; [reflexivity|].
  simpl. destruct (String.eqb k' k); [discriminate | apply IH].
Qed.

Lemma after_name_named (subject : text) (o : nat) (ws ty sp nm sp2 tail : text)
    (more : list (string * (nat * nat))) (m : MatchState) :
  o <= List.length subject ->
  skipn o subject = ws ++ ty ++ sp ++ nm ++ sp2 ++ tail ->
  caps m = more ++ caps (after_name (keep (state_at subject o)) ws ty sp nm sp2) ->
  lookup_cap "type" more = None -> lookup_cap "name" more = None ->
  named subject m "type" = ty /\ named subject m "name" = nm /\
  lookup_cap "defaultValue" (caps m) = lookup_cap "defaultValue" more.
Proof.
  intros Ho Hsub Hm Ht Hn. unfold named. rewrite Hm. unfold after_name.
  cbn [caps with_caps keep pos]. rewrite (state_at_pos subject o Ho).
  rewrite (lookup_cap_app "type" _ _ Ht), (lookup_cap_app "name" _ _ Hn).
  rewrite state_at_caps.
  cbn [lookup_cap String.eqb Ascii.eqb Bool.eqb].
  split; [|split].
  - apply (slice subject o ws ty (sp ++ nm ++ sp2 ++ tail) Hsub).
  - replace (o + List.length ws + List.length ty + List.length sp)
      with (o + List.length (ws ++ ty ++ sp)) by (rewrite !length_app; lia).
    apply (slice subject o (ws ++ ty ++ sp) nm (sp2 ++ tail)).
    now rewrite <- !app_assoc.
  - destruct (lookup_cap "defaultValue" more) eqn:E.
    + clear Ht Hn Hm. induction more as [|[k' v'] more' IH]; [discriminate|].
      simpl in *. destruct (String.eqb k' "defaultValue"); [exact E | now apply IH].
    + now rewrite (lookup_cap_app _ _ _ E).
Qed.

Lemma parameter_without_default (P : Platform) (subject : text) (o : nat)
    (ws ty sp nm sp2 tail : text) :
  skipn o subject = ws ++ ty ++ sp ++ nm ++ sp2 ++ tail ->
  all_blank ws = true ->
  is_name ty = true -> prefix_of (str "const") ty = false ->
  all_blank sp = true -> sp <> [] ->
  is_name nm = true ->
  all_blank sp2 = true ->
  closes tail = true ->
  exists (m : MatchState) (l : list MatchState),
    exec BASEREGEX (depth_budget subject) (pattern FUNTIONPARAMETERREGEX)
         (keep (state_at subject o)) = Some (m :: l) /\
    start m = o /\
    pos m = o + List.length (ws ++ ty ++ sp ++ nm ++ sp2) /\
    param_memberW subject m = mkParam ty nm [] /\
    param_member P subject m
    = mkParam (str2wstr P ty) (str2wstr P nm) (str2wstr P []).
Proof.
  intros Hsub Hws Hty Hconst Hsp Hsp_ne Hnm Hsp2 Htail.
  pose proof (param_offset subject o ws ty _ Hsub Hty) as Ho.
  destruct (exec_param_no_default subject o ws ty sp nm sp2 tail Hsub Hws Hty
              Hconst Hsp Hsp_ne Hnm Hsp2 Htail) as [l Hl].
  set (m := after_name (keep (state_at subject o)) ws ty sp nm sp2) in *.
  exists m, l. split; [exact Hl|].
  destruct (after_name_named subject o ws ty sp nm sp2 tail [] m Ho Hsub
              eq_refl eq_refl eq_refl) as (Et & En & Ed).
  assert (Edv : named subject m "defaultValue" = []).
  { unfold named. now rewrite Ed. }
  split; [|split; [|split]].
  - unfold m, after_name, with_caps; cbn [start]. rewrite skip_start.
    cbn [keep start]. now apply state_at_pos.
  - unfold m, after_name, with_caps; cbn [pos].
    rewrite skip_pos.
    + cbn [keep pos]. now rewrite state_at_pos.
    + cbn [keep rest]. rewrite state_at_rest, Hsub, !length_app. lia.
  - unfold param_memberW. now rewrite Et, En, Edv.
  - unfold param_member. now rewrite Et, En, Edv.
Qed.

(** ** Bracketed literals *)

Lemma Literal_rect' (Q : Literal -> Prop) :
  (forall w, Q (LTok w)) ->
  (forall items, Forall (fun e => Q (snd (fst e))) items -> Q (LVec items)) ->
  forall v, Q v.
Proof.
  intros Htok Hvec. fix IH 1. intros [w|items]; [apply Htok|].
  apply Hvec. induction items as [|[[pre x] post] items IHl]; constructor;
    [apply IH | exact IHl].
Qed.

Lemma is_bare_facts x :
  is_bare x = true ->
  is_space x = false /\
  x <> ch "/" /\ x <> DQUOTE /\ x <> ch "[" /\ x <> ch "{" /\
  x <> ch "]" /\ x <> ch ",".
Proof.
  intros H.
  assert (Hs : is_space x = false).
  { revert H. unfold is_bare, class_has, item_has, is_word, is_space, is_digit,
      in_range; simpl.
    repeat match goal with |- context [N.leb ?a ?b] => destruct (N.leb_spec a b) end;
      repeat match goal with |- context [N.eqb ?a ?b] => destruct (N.eqb_spec a b) end;
      simpl; try congruence; try lia. }
  split; [exact Hs|].
  repeat split; intros ->; vm_compute in H; discriminate.
Qed.

Lemma opens_facts x :
  opens x = true ->
  is_space x = false /\
  x <> ch "/" /\ x <> DQUOTE /\ x <> ch "{" /\ x <> ch "]" /\ x <> ch ",".
Proof.
  unfold opens. rewrite orb_true_iff. intros [H|H].
  - destruct (is_bare_facts x H) as (H1 & H2 & H3 & H4 & H5 & H6 & H7). auto 10.
  - apply N.eqb_eq in H. subst x.
    repeat split; try reflexivity; intros E; vm_compute in E; discriminate.
Qed.

Lemma render_head v :
  well_formed v = true -> exists x t, render v = x :: t /\ opens x = true.
Proof.
  destruct v as [w|items]; simpl.
  - rewrite andb_true_iff. intros [Hn Hw]. destruct w as [|x w]; [discriminate|].
    simpl in Hw. apply andb_true_iff in Hw. destruct Hw as [Hx _].
    exists x, w. split; [reflexivity|]. unfold opens. now rewrite Hx.
  - intros _. eexists _, _. split; [reflexivity|]. reflexivity.
Qed.

Lemma opens_quiet x t : opens x = true -> quiet (x :: t) = true.
Proof.
  intros H. destruct (opens_facts x H) as (Hs & Hsl & _).
  apply N.eqb_neq in Hsl. unfold quiet, stops. now rewrite Hs, Hsl.
Qed.

Lemma eat_other c st x t :
  rest st = x :: t -> x <> c -> eat (N.eqb c) st = [].
Proof.
  intros Hr Hne. unfold eat. rewrite Hr.
  destruct (N.eqb_spec c x); [congruence | reflexivity].
Qed.

Lemma eat_same c st t :
  rest st = c :: t -> eat (N.eqb c) st = [advance st].
Proof. intros Hr. unfold eat. now rewrite Hr, N.eqb_refl. Qed.

Lemma prefix_of_other (w : text) (c x : unit_t) (t : text) :
  x <> c -> prefix_of (c :: w) (x :: t) = false.
Proof.
  intros H. cbn [prefix_of]. destruct (N.eqb_spec c x); [congruence | reflexivity].
Qed.

(** A token that begins with neither a slash nor a quote is a bare run. *)
Lemma exec_token_at f st x t :
  rest st = x :: t -> x <> ch "/" -> x <> DQUOTE ->
  exec BASEREGEX (S (S f)) (G "token") st
  = option_map (map (with_caps (caps st)))
      (exec BASEREGEX (S f)
         (Atomic (Plus (Class false [CWord; CDigit; CChar (ch "."); CChar (ch "-")])))
         st).
Proof.
  intros Hr Hsl Hdq. unfold G. rewrite exec_Call.
  change (BASEREGEX "token") with token. unfold token.
  rewrite exec_Atomic, exec_Seq, exec_Look, exec_Alt. unfold Kw.
  rewrite !exec_Word, Hr.
  change (str "//") with (ch "/" :: str "/").
  change (str "/*") with (ch "/" :: str "*").
  rewrite !(prefix_of_other _ (ch "/") x t Hsl). cbn [app].
  rewrite collect_one, exec_Alt. cbn [Cat].
  rewrite exec_Seq, exec_Lit, (eat_other DQUOTE st x t Hr Hdq).
  cbn [collect]. rewrite exec_Atomic.
  destruct (exec BASEREGEX (S f) (Plus _) st); reflexivity.
Qed.

Lemma exec_vector_none f st x t :
  rest st = x :: t -> x <> ch "[" ->
  exec BASEREGEX (S (S f)) (G "tokenVector") st = Some [].
Proof.
  intros Hr Hne. unfold G. rewrite exec_Call.
  change (BASEREGEX "tokenVector") with tokenVector. unfold tokenVector.
  cbn [Cat]. unfold L at 1.
  rewrite exec_Atomic, exec_Seq, exec_Lit, (eat_other _ st x t Hr Hne).
  reflexivity.
Qed.

Lemma exec_object_none f st x t :
  rest st = x :: t -> x <> ch "{" ->
  exec BASEREGEX (S (S f)) (G "object") st = Some [].
Proof.
  intros Hr Hne. unfold G. rewrite exec_Call.
  change (BASEREGEX "object") with object. unfold object.
  cbn [Cat]. unfold L at 1.
  rewrite exec_Atomic, exec_Seq, exec_Lit, (eat_other _ st x t Hr Hne).
  reflexivity.
Qed.

(** No value begins with a closing bracket. *)
Lemma exec_value_none f st t :
  rest st = ch "]" :: t ->
  exec BASEREGEX (S (S f)) (Atomic value_) st = Some [].
Proof.
  intros Hr. unfold value_. cbn [AltOf].
  rewrite exec_Atomic, !exec_Alt.
  rewrite (exec_token_at f st _ t Hr) by (intros E; vm_compute in E; discriminate).
  rewrite (exec_vector_none f st _ t Hr) by (intros E; vm_compute in E; discriminate).
  rewrite (exec_object_none f st _ t Hr) by (intros E; vm_compute in E; discriminate).
  rewrite exec_run_none by (rewrite Hr; reflexivity).
  reflexivity.
Qed.

(** A bare token is a value, read to its end. *)
Lemma exec_value_token f st w r :
  w <> [] -> forallb is_bare w = true -> stops is_bare r = true ->
  rest st = w ++ r ->
  exec BASEREGEX (S (S f)) (Atomic value_) st = Some [skip (List.length w) st].
Proof.
  intros Hne Hw Hs Hr. destruct w as [|x w'] eqn:Ew; [contradiction|].
  rewrite <- Ew in *.
  assert (Hx : is_bare x = true).
  { rewrite Ew in Hw. simpl in Hw. now apply andb_true_iff in Hw. }
  destruct (is_bare_facts x Hx) as (_ & H1 & H2 & H3 & H4 & _).
  assert (Hr' : rest st = x :: (w' ++ r)) by (rewrite Hr, Ew; reflexivity).
  unfold value_. cbn [AltOf]. rewrite exec_Atomic, !exec_Alt.
  rewrite (exec_token_at f st x _ Hr' H1 H2).
  rewrite (exec_vector_none f st x _ Hr' H3).
  rewrite (exec_object_none f st x _ Hr' H4).
  rewrite (exec_run_plus BASEREGEX f false _ st w r) by (subst w; auto; discriminate).
  cbn [option_map map app first_only].
  now rewrite with_caps_same by apply skip_caps.
Qed.

Lemma render_nonempty v : well_formed v = true -> render v <> [].
Proof.
  intros H. destruct (render_head v H) as (x & t & E & _). rewrite E. discriminate.
Qed.

Lemma blank_quiet_after (b r : text) :
  all_blank b = true -> stops is_bare r = true -> stops is_bare (b ++ r) = true.
Proof.
  intros Hb Hr. destruct b as [|x b]; [exact Hr|].
  simpl in Hb. apply andb_true_iff in Hb. destruct Hb as [Hx _].
  cbn [app stops]. destruct (is_bare x) eqn:E; [|reflexivity].
  destruct (is_bare_facts x E) as [Hs _]. congruence.
Qed.

(** One round of the loop of a vector: the element, the blanks after it
    and, if one follows, the comma and the blanks after that. *)
Lemma exec_element f st (rx post pre' t : text) (comma : bool) :
  exec BASEREGEX (S (S (S f))) (Atomic value_) st
    = Some [skip (List.length rx) st] ->
  all_blank post = true -> all_blank pre' = true ->
  rest st = rx ++ post ++ (if comma then ch "," :: pre' ++ t else ch "]" :: t) ->
  (comma = true -> quiet t = true) ->
  exec BASEREGEX (S (S (S f))) ELEMENT st
  = Some [skip (List.length (rx ++ post)
                + (if comma then S (List.length pre') else 0)) st].
Proof.
  intros Hv Hpost Hpre Hr Hq. unfold ELEMENT. cbn [Cat].
  rewrite exec_Atomic, exec_Seq, Hv, collect_one.
  destruct (skip_over st rx _ Hr) as [Hr1 Hp1].
  set (s1 := skip (List.length rx) st) in *.
  rewrite exec_Seq.
  rewrite (exec_c_blanks f s1 post _ Hr1 Hpost) by now destruct comma.
  destruct (skip_over s1 post _ Hr1) as [Hr2 Hp2].
  set (s2 := skip (List.length post) s1) in *.
  assert (Es2 : s2 = skip (List.length (rx ++ post)) st).
  { unfold s2, s1. now rewrite length_app, skip_add. }
  rewrite collect_one, exec_Seq. unfold Opt, L.
  rewrite exec_Alt, exec_Lit, exec_Eps.
  destruct comma.
  - rewrite (eat_same _ s2 _ Hr2). cbn [app collect].
    assert (Hr3 : rest (advance s2) = pre' ++ t).
    { unfold advance. now rewrite Hr2. }
    rewrite (exec_c_blanks f (advance s2) pre' t Hr3 Hpre) by auto.
    rewrite (exec_c_quiet f s2) by (rewrite Hr2; reflexivity).
    cbn [app first_only]. rewrite Es2.
    change (skip (List.length pre') (advance (skip (List.length (rx ++ post)) st)))
      with (skip (List.length pre') (skip 1 (skip (List.length (rx ++ post)) st))).
    rewrite <- !skip_add. repeat f_equal; lia.
  - rewrite (eat_other _ s2 _ t Hr2) by (intros E; vm_compute in E; discriminate).
    cbn [app]. rewrite collect_one.
    rewrite (exec_c_quiet f s2) by (rewrite Hr2; reflexivity).
    cbn [first_only]. now rewrite Nat.add_0_r, Es2.
Qed.

Lemma element_ok_inv (pre : text) (x : Literal) (post : text) :
  element_ok (pre, x, post) = true ->
  all_blank pre = true /\ well_formed x = true /\ all_blank post = true.
Proof.
  unfold element_ok. rewrite !andb_true_iff. tauto.
Qed.

Lemma elements_text_head (items : list (text * Literal * text)) (r : text) :
  Forall (fun e => element_ok e = true) items ->
  exists x t, elements_text items ++ ch "]" :: r = x :: t /\
              (opens x = true \/ x = ch "]").
Proof.
  intros H. destruct items as [|[[pre v] post] items]; [exists (ch "]"), r; auto|].
  inversion H as [|? ? Hv _]; subst.
  destruct (element_ok_inv _ _ _ Hv) as (_ & Hwf & _).
  destruct (render_head v Hwf) as (x & t & E & Ho).
  cbn [elements_text]. rewrite E. simpl. eauto.
Qed.

Lemma elements_text_quiet (items : list (text * Literal * text)) (r : text) :
  Forall (fun e => element_ok e = true) items ->
  quiet (elements_text items ++ ch "]" :: r) = true.
Proof.
  intros H. destruct (elements_text_head items r H) as (x & t & -> & [Ho| ->]).
  - now apply opens_quiet.
  - reflexivity.
Qed.

(** The lazy loop of a vector stops at every element boundary; only the
    last one is followed by the closing bracket. *)
Lemma exec_elements f :
  forall items : list (text * Literal * text),
    Forall (fun e => element_ok e = true /\ read_whole (S (S (S f))) (snd (fst e)))
           items ->
    forall (n : nat) (s : MatchState) (r : text),
      rest s = elements_text items ++ ch "]" :: r ->
      List.length (rest s) < n ->
      exists l,
        repeat_ true (exec BASEREGEX (S (S (S f))) ELEMENT) n s = Some l /\
        collect (exec BASEREGEX (S (S (S f))) (Seq (G "c") (L "]"))) l
        = Some [skip (List.length (elements_text items) + 1) s].
Proof.
  assert (Hclose : forall s t, rest s = ch "]" :: t ->
            exec BASEREGEX (S (S (S f))) (Seq (G "c") (L "]")) s = Some [advance s]).
  { intros s t Hs. rewrite exec_Seq.
    rewrite (exec_c_quiet f s) by (rewrite Hs; reflexivity).
    rewrite collect_one. unfold L. now rewrite exec_Lit, (eat_same _ s t Hs). }
  assert (Hopen : forall s x t, rest s = x :: t -> opens x = true ->
            exec BASEREGEX (S (S (S f))) (Seq (G "c") (L "]")) s = Some []).
  { intros s x t Hs Ho. rewrite exec_Seq.
    rewrite (exec_c_quiet f s) by (rewrite Hs; now apply opens_quiet).
    rewrite collect_one. unfold L. rewrite exec_Lit.
    destruct (opens_facts x Ho) as (_ & _ & _ & _ & Hb & _).
    now rewrite (eat_other _ s x t Hs Hb). }
  induction items as [|[[pre v] post] items IH]; intros Hall n s r Hr Hn.
  - cbn [elements_text app] in Hr. destruct n as [|n]; [lia|].
    cbn [repeat_]. unfold ELEMENT at 1. cbn [Cat].
    rewrite exec_Atomic, exec_Seq, (exec_value_none (S f) s r Hr).
    cbn [collect first_only]. eexists. split; [reflexivity|].
    rewrite collect_one. cbn [elements_text List.length Nat.add skip].
    now apply (Hclose s r).
  - inversion Hall as [|? ? [Hok Hread] Hall']; subst. cbn [fst snd] in Hread.
    destruct (element_ok_inv _ _ _ Hok) as (_ & Hwf & Hpost).
    assert (Hoks : Forall (fun e => element_ok e = true) items).
    { eapply Forall_impl; [|exact Hall']. now intros a [Ha _]. }
    destruct n as [|n]; [lia|].
    set (comma := match items with [] => false | _ => true end).
    set (pre' := match items with [] => [] | (p', _, _) :: _ => p' end).
    set (t := match items with
              | [] => r
              | _ => elements_text items ++ ch "]" :: r
              end).
    assert (Hpre' : all_blank pre' = true).
    { unfold pre'. destruct items as [|[[p' v'] q'] items']; [reflexivity|].
      inversion Hoks as [|? ? Hv' _]; subst.
      now destruct (element_ok_inv _ _ _ Hv'). }
    assert (Hr' : rest s = render v ++ post
                           ++ (if comma then ch "," :: pre' ++ t else ch "]" :: t)).
    { rewrite Hr. unfold comma, pre', t. cbn [elements_text].
      destruct items as [|[[p' v'] q'] items'];
        repeat (rewrite <- app_assoc; cbn [app]); reflexivity. }
    assert (Hstop : stops is_bare
                      (post ++ (if comma then ch "," :: pre' ++ t else ch "]" :: t))
                    = true).
    { apply blank_quiet_after; [exact Hpost | now destruct comma]. }
    assert (Hq : comma = true -> quiet t = true).
    { unfold comma, t. destruct items as [|e items']; [discriminate|].
      intros _. now apply elements_text_quiet. }
    pose proof (exec_element f s (render v) post pre' t comma
                  (Hread s _ Hr' Hstop) Hpost Hpre' Hr' Hq) as Hstep.
    set (k := List.length (render v ++ post)
              + (if comma then S (List.length pre') else 0)) in *.
    set (s' := skip k s) in *.
    set (w := (render v ++ post) ++ (if comma then ch "," :: pre' else [])).
    assert (Hsplit : rest s = w ++ (elements_text items ++ ch "]" :: r)).
    { rewrite Hr. unfold w, comma, pre'. cbn [elements_text].
      destruct items as [|[[p' v'] q'] items'];
        repeat (rewrite <- app_assoc; cbn [app]); reflexivity. }
    assert (Hklen : List.length w = k).
    { unfold w, k. rewrite length_app. destruct comma; simpl; lia. }
    destruct (skip_over s _ _ Hsplit) as [Hrs' Hps']. rewrite Hklen in Hrs', Hps'.
    fold s' in Hrs', Hps'.
    assert (Hkpos : 0 < k).
    { unfold k. rewrite length_app. pose proof (render_nonempty v Hwf).
      destruct (render v); [contradiction | simpl; lia]. }
    destruct (IH Hall' n s' r Hrs') as (l & Hl & Hcl).
    { rewrite Hrs'. rewrite Hsplit, length_app, Hklen in Hn. lia. }
    cbn [repeat_]. rewrite Hstep, collect_one.
    replace (Nat.eqb (pos s') (pos s)) with false
      by (symmetry; apply Nat.eqb_neq; lia).
    rewrite Hl. eexists. split; [reflexivity|].
    cbn [collect].
    destruct (render_head v Hwf) as (x & tx & Ex & Ho).
    assert (Hrx : rest s = x :: (tx ++ post
                     ++ (if comma then ch "," :: pre' ++ t else ch "]" :: t)))
      by (rewrite Hr', Ex; reflexivity).
    rewrite (Hopen s x _ Hrx Ho).
    rewrite Hcl. cbn [app]. f_equal. f_equal.
    unfold s'. rewrite <- skip_add. f_equal.
    rewrite <- Hklen. unfold w, comma, pre'. cbn [elements_text].
    destruct items as [|[[p' v'] q'] items'].
    + repeat (rewrite length_app || cbn [List.length elements_text]). lia.
    + repeat (rewrite length_app || cbn [List.length elements_text]). lia.
Qed.

Lemma nesting_item (e : text * Literal * text) (items : list (text * Literal * text)) :
  In e items ->
  nesting (snd (fst e))
  <= fold_right (fun e n => match e with
                            | (_, x, _) => Nat.max (nesting x) n
                            end) 0 items.
Proof.
  induction items as [|[[p y] q] items IH]; [contradiction|].
  intros [<-|H]; simpl; [lia|]. specialize (IH H). lia.
Qed.

Lemma join_elements (pre : text) (x : Literal) (post : text)
    (items : list (text * Literal * text)) :
  join_commas (map element_text ((pre, x, post) :: items))
  = pre ++ elements_text ((pre, x, post) :: items).
Proof.
  revert pre x post; induction items as [|[[p' x'] q'] items IH]; intros pre x post.
  - cbn [map join_commas element_text elements_text]. now rewrite app_nil_r.
  - change (join_commas (map element_text ((pre, x, post) :: (p', x', q') :: items)))
      with (element_text (pre, x, post)
              ++ ch "," :: join_commas (map element_text ((p', x', q') :: items))).
    rewrite IH. cbn [element_text elements_text].
    repeat (rewrite <- app_assoc; cbn [app]). reflexivity.
Qed.

Lemma render_vector (items : list (text * Literal * text)) :
  render (LVec items) = ch "[" :: join_commas (map element_text items) ++ [ch "]"].
Proof. reflexivity. Qed.

(** A well-formed literal is read as a value to its very end, whatever
    commas, brackets and blanks it holds. *)
Lemma exec_value_literal :
  forall v, well_formed v = true ->
  forall fuel, nesting v + 3 <= fuel -> read_whole fuel v.
Proof.
  induction v as [w|items IH] using Literal_rect'; intros Hwf fuel Hfuel st r Hr Hstop.
  - destruct fuel as [|[|f]]; try (simpl in Hfuel; lia).
    simpl in Hwf. apply andb_true_iff in Hwf. destruct Hwf as [Hn Hw].
    apply (exec_value_token f st w r); auto.
    intros ->. discriminate.
  - destruct fuel as [|[|[|[|g]]]]; try (simpl in Hfuel; lia).
    rewrite render_vector in *.
    assert (Hr0 : rest st = ch "[" :: (join_commas (map element_text items) ++ ch "]" :: r)).
    { rewrite Hr. simpl. now rewrite <- app_assoc. }
    assert (Hall : Forall (fun e => element_ok e = true
                                    /\ read_whole (S (S (S g))) (snd (fst e))) items).
    { cbn [well_formed] in Hwf. rewrite forallb_forall in Hwf.
      rewrite Forall_forall in *. intros e He. split; [exact (Hwf e He)|].
      apply IH; auto.
      - specialize (Hwf e He). destruct e as [[p x] q]. cbn [fst snd].
        now destruct (element_ok_inv p x q Hwf) as (_ & H & _).
      - pose proof (nesting_item e items He). cbn [nesting] in Hfuel. lia. }
    assert (Hoks : Forall (fun e => element_ok e = true) items).
    { eapply Forall_impl; [|exact Hall]. now intros a [Ha _]. }
    unfold value_. cbn [AltOf]. rewrite exec_Atomic, !exec_Alt.
    rewrite (exec_token_at _ st _ _ Hr0) by (intros E; vm_compute in E; discriminate).
    rewrite exec_run_none by (rewrite Hr0; reflexivity).
    rewrite (exec_object_none _ st _ _ Hr0) by (intros E; vm_compute in E; discriminate).
    unfold G at 1. rewrite exec_Call.
    change (BASEREGEX "tokenVector") with tokenVector. unfold tokenVector.
    cbn [Cat]. unfold L at 1.
    rewrite exec_Atomic, exec_Seq, exec_Lit, (eat_same _ st _ Hr0), collect_one.
    set (pre := match items with [] => [] | (p, _, _) :: _ => p end).
    assert (Hpre : all_blank pre = true).
    { unfold pre. destruct items as [|[[p x] q] items']; [reflexivity|].
      inversion Hoks as [|? ? Hv' _]; subst.
      now destruct (element_ok_inv _ _ _ Hv'). }
    assert (Hr1 : rest (advance st) = pre ++ (elements_text items ++ ch "]" :: r)).
    { unfold advance. rewrite Hr0. cbn [rest]. unfold pre.
      destruct items as [|[[p x] q] items']; [reflexivity|].
      rewrite join_elements. now rewrite <- app_assoc. }
    rewrite exec_Seq.
    rewrite (exec_c_blanks g (advance st) pre _ Hr1 Hpre)
      by now apply elements_text_quiet.
    destruct (skip_over (advance st) pre _ Hr1) as [Hr2 Hp2].
    set (s0 := skip (List.length pre) (advance st)) in *.
    rewrite collect_one, exec_Seq. unfold StarL. rewrite exec_Star.
    destruct (exec_elements g items Hall (S (List.length (rest s0)))
                s0 r Hr2 (Nat.lt_succ_diag_r _)) as (l & Hl & Hcl).
    rewrite Hl, Hcl. cbn [first_only option_map map app].
    rewrite with_caps_same.
    + f_equal. f_equal. unfold s0.
      change (advance st) with (skip 1 st). rewrite <- !skip_add. f_equal.
      cbn [List.length]. rewrite length_app. cbn [List.length]. unfold pre.
      destruct items as [|[[p x] q] items']; [reflexivity|].
      rewrite join_elements, length_app. lia.
    + unfold s0. now rewrite !skip_caps, advance_caps.
Qed.

Lemma nesting_le_length (v : Literal) : nesting v <= List.length (render v).
Proof.
  induction v as [w|items IH] using Literal_rect'; [simpl; lia|].
  rewrite render_vector. cbn [nesting List.length]. rewrite length_app.
  assert (fold_right (fun e n => match e with
                                 | (_, x, _) => Nat.max (nesting x) n
                                 end) 0 items
          <= List.length (join_commas (map element_text items))); [|simpl; lia].
  induction items as [|[[p x] q] items IHl]; [simpl; lia|].
  inversion IH as [|? ? Hx Hxs]; subst. specialize (IHl Hxs).
  cbn [fst snd] in Hx. cbn [fold_right]. rewrite join_elements.
  destruct items as [|[[p' x'] q'] items'].
  - cbn [elements_text fold_right]. rewrite !length_app. lia.
  - rewrite join_elements in IHl. cbn [elements_text].
    cbn [elements_text] in IHl.
    repeat (rewrite length_app in * || cbn [List.length] in * ). lia.
Qed.

(** ** Parameters with a bracketed default *)

Section WithDefault.
Variables (subject : text) (o : nat).
Variables (ws ty sp nm sp2 sp3 tail : text) (v : Literal).
Hypothesis Hsub :
  skipn o subject
  = ws ++ ty ++ sp ++ nm ++ sp2 ++ (ch "=" :: sp3 ++ render v ++ tail).
Hypothesis Hws : all_blank ws = true.
Hypothesis Hty : is_name ty = true.
Hypothesis Hconst : prefix_of (str "const") ty = false.
Hypothesis Hsp : all_blank sp = true.
Hypothesis Hsp_ne : sp <> [].
Hypothesis Hnm : is_name nm = true.
Hypothesis Hsp2 : all_blank sp2 = true.
Hypothesis Hsp3 : all_blank sp3 = true.
Hypothesis Hv : well_formed v = true.
Hypothesis Htail : closes tail = true.

Lemma default_budget : nesting v + 3 <= depth_budget subject.
Proof.
  pose proof (nesting_le_length v) as Hn.
  assert (Hlen : List.length (skipn o subject) <= List.length subject)
    by (rewrite length_skipn; lia).
  rewrite Hsub in Hlen. rewrite !length_app in Hlen. simpl in Hlen.
  rewrite !length_app in Hlen. unfold depth_budget. lia.
Qed.

Lemma exec_param_default :
  exists m l,
    exec BASEREGEX (depth_budget subject) (pattern FUNTIONPARAMETERREGEX)
         (keep (state_at subject o)) = Some (m :: l) /\
    start m = start (keep (state_at subject o)) /\
    pos m = pos (keep (state_at subject o))
            + List.length (ws ++ ty ++ sp ++ nm ++ sp2 ++ ch "=" :: sp3)
            + List.length (render v) /\
    caps m
    = ("defaultValue",
       (pos (keep (state_at subject o))
          + List.length (ws ++ ty ++ sp ++ nm ++ sp2 ++ ch "=" :: sp3),
        pos (keep (state_at subject o))
          + List.length (ws ++ ty ++ sp ++ nm ++ sp2 ++ ch "=" :: sp3)
          + List.length (render v)))
      :: caps (after_name (keep (state_at subject o)) ws ty sp nm sp2).
Proof.
  pose proof default_budget as Hbudget.
  set (A := keep (state_at subject o)) in *.
  assert (HA : rest A = ws ++ ty ++ sp ++ nm ++ sp2 ++ (ch "=" :: sp3 ++ render v ++ tail)).
  { unfold A, keep; cbn [rest]. now rewrite state_at_rest. }
  assert (Hf : depth_budget subject = S (S (S (List.length subject + 5))))
    by (unfold depth_budget; lia).
  rewrite Hf in *. set (f := List.length subject + 5) in *.
  cbn [pattern FUNTIONPARAMETERREGEX Cat].
  rewrite (exec_param_head _ _ A ws ty sp nm sp2 _ HA Hws Hty Hconst Hsp
             Hsp_ne Hnm Hsp2).
  2:{ apply stops_after_blanks; [exact Hsp2 | reflexivity]. }
  2:{ reflexivity. }
  set (s := after_name A ws ty sp nm sp2).
  assert (Hs : rest s = ch "=" :: sp3 ++ render v ++ tail).
  { unfold s, after_name, with_caps; cbn [rest]. rewrite skip_rest, HA.
    rewrite !app_assoc, skipn_app, skipn_all, Nat.sub_diag. reflexivity. }
  assert (Hps : pos s = pos A + List.length (ws ++ ty ++ sp ++ nm ++ sp2)).
  { unfold s, after_name, with_caps; cbn [pos]. apply skip_pos.
    rewrite HA, !length_app. lia. }
  (* the equals sign and the blanks after it *)
  rewrite exec_Seq. unfold Opt at 1. cbn [Cat].
  rewrite exec_Alt, exec_Atomic, exec_Seq. unfold L at 1.
  rewrite exec_Lit, (eat_same _ s _ Hs), collect_one.
  set (e1 := advance s).
  assert (He1 : rest e1 = sp3 ++ render v ++ tail).
  { unfold e1, advance. now rewrite Hs. }
  assert (Hpe1 : pos e1 = S (pos s)).
  { unfold e1, advance. now rewrite Hs. }
  destruct (render_head v Hv) as (x & t & Ex & Ho).
  rewrite exec_Seq.
  rewrite (exec_c_blanks f e1 sp3 (render v ++ tail) He1 Hsp3)
    by (rewrite Ex; now apply opens_quiet).
  destruct (skip_over e1 sp3 _ He1) as [He2 Hpe2].
  set (e2 := skip (List.length sp3) e1) in *.
  rewrite collect_one, exec_Capture.
  (* the literal *)
  rewrite (exec_value_literal v Hv (S (S (S f))) Hbudget e2 tail He2)
    by (destruct tail as [|y tl]; [reflexivity|];
        unfold closes in Htail; apply orb_true_iff in Htail;
        destruct Htail as [E|E]; apply N.eqb_eq in E; subst y; reflexivity).
  destruct (skip_over e2 (render v) _ He2) as [He3 Hpe3].
  cbn [option_map map first_only].
  rewrite set_cap_skip by (rewrite He2, length_app; lia).
  set (m := with_caps _ (skip (List.length (render v)) e2)).
  assert (Hm : rest m = tail) by exact He3.
  rewrite exec_Eps. cbn [app collect].
  assert (Hend : forall z, quiet (rest z) = true ->
            exists l, exec BASEREGEX (S (S (S f)))
                        (Seq (G "c") (Opt (Look true (L ",")))) z = Some (z :: l)).
  { intros z Hz. rewrite exec_Seq, (exec_c_quiet f z Hz), collect_one.
    unfold Opt, L. rewrite exec_Alt, exec_Look, exec_Lit, exec_Eps.
    destruct (eat (N.eqb (ch ",")) z); eexists; reflexivity. }
  destruct (Hend m) as [lm Hlm]; [rewrite Hm; now apply closes_quiet|].
  destruct (Hend s) as [ls Hls]; [rewrite Hs; reflexivity|].
  rewrite Hlm, Hls. exists m, (lm ++ (s :: ls) ++ []).
  assert (Hpe2' : pos e2 = pos A + List.length (ws ++ ty ++ sp ++ nm ++ sp2 ++ ch "=" :: sp3)).
  { rewrite Hpe2, Hpe1, Hps.
    repeat (rewrite length_app || cbn [List.length]). lia. }
  split; [reflexivity|]. split; [|split].
  - unfold m. cbn [with_caps start]. rewrite skip_start. unfold e2.
    rewrite skip_start. unfold e1. rewrite advance_start.
    unfold s, after_name. cbn [with_caps start]. now rewrite skip_start.
  - unfold m. cbn [with_caps pos]. now rewrite Hpe3, Hpe2'.
  - unfold m. cbn [with_caps caps]. f_equal.
    + f_equal. rewrite Hpe2, Hpe1, Hps.
      repeat (rewrite length_app || cbn [List.length]). f_equal; lia.
    + unfold e2. rewrite skip_caps. unfold e1. now rewrite advance_caps.
Qed.
End WithDefault.

Lemma parameter_with_default (P : Platform) (subject : text) (o : nat)
    (ws ty sp nm sp2 sp3 tail : text) (v : Literal) :
  skipn o subject
  = ws ++ ty ++ sp ++ nm ++ sp2 ++ (ch "=" :: sp3 ++ render v ++ tail) ->
  all_blank ws = true ->
  is_name ty = true -> prefix_of (str "const") ty = false ->
  all_blank sp = true -> sp <> [] ->
  is_name nm = true ->
  all_blank sp2 = true -> all_blank sp3 = true ->
  well_formed v = true ->
  closes tail = true ->
  exists (m : MatchState) (l : list MatchState),
    exec BASEREGEX (depth_budget subject) (pattern FUNTIONPARAMETERREGEX)
         (keep (state_at subject o)) = Some (m :: l) /\
    start m = o /\
    pos m = o + List.length (ws ++ ty ++ sp ++ nm ++ sp2 ++ ch "=" :: sp3)
            + List.length (render v) /\
    param_memberW subject m = mkParam ty nm (render v) /\
    param_member P subject m
    = mkParam (str2wstr P ty) (str2wstr P nm) (str2wstr P (render v)).
Proof.
  intros Hsub Hws Hty Hconst Hsp Hsp_ne Hnm Hsp2 Hsp3 Hv Htail.
  pose proof (param_offset subject o ws ty _ Hsub Hty) as Ho.
  destruct (exec_param_default subject o ws ty sp nm sp2 sp3 tail v Hsub Hws
              Hty Hconst Hsp Hsp_ne Hnm Hsp2 Hsp3 Hv Htail)
    as (m & l & Hex & Hstart & Hpos & Hcaps).
  exists m, l. split; [exact Hex|].
  assert (HposA : pos (keep (state_at subject o)) = o)
    by (cbn [keep pos]; now apply state_at_pos).
  rewrite HposA in Hcaps, Hpos.
  destruct (after_name_named subject o ws ty sp nm sp2 _
              [("defaultValue",
                (o + List.length (ws ++ ty ++ sp ++ nm ++ sp2 ++ ch "=" :: sp3),
                 o + List.length (ws ++ ty ++ sp ++ nm ++ sp2 ++ ch "=" :: sp3)
                   + List.length (render v)))]
              m Ho Hsub Hcaps eq_refl eq_refl) as (Et & En & _).
  assert (Edv : named subject m "defaultValue" = render v).
  { unfold named. rewrite Hcaps.
    cbn [lookup_cap String.eqb Ascii.eqb Bool.eqb].
    apply (slice subject o (ws ++ ty ++ sp ++ nm ++ sp2 ++ ch "=" :: sp3)
             (render v) tail).
    rewrite Hsub. repeat (rewrite <- app_assoc; cbn [app]). reflexivity. }
  split; [|split; [|split]].
  - rewrite Hstart. cbn [keep start]. now apply state_at_pos.
  - exact Hpos.
  - unfold param_memberW. now rewrite Et, En, Edv.
  - unfold param_member. now rewrite Et, En, Edv.
Qed.

(** ** Whole parameter lists *)

Lemma well_shaped_inv (p : Formal) :
  well_shaped p = true ->
  all_blank (p_ws p) = true /\ is_name (p_type p) = true /\
  prefix_of (str "const") (p_type p) = false /\
  all_blank (p_sp p) = true /\ p_sp p <> [] /\
  is_name (p_name p) = true /\ all_blank (p_sp2 p) = true /\
  match p_default p with
  | None => True
  | Some (sp3, v) => all_blank sp3 = true /\ well_formed v = true
  end.
Proof.
  unfold well_shaped. rewrite !andb_true_iff, !negb_true_iff.
  intros (((((((H1 & H2) & H3) & H4) & H5) & H6) & H7) & H8).
  repeat split; auto.
  - intros E. rewrite E in H5. discriminate.
  - destruct (p_default p) as [[sp3 v]|]; [|exact I].
    now apply andb_true_iff in H8.
Qed.

(** The search that starts at a well-shaped parameter matches it. *)
Lemma exec_parameter (P : Platform) (subject : text) (o : nat) (p : Formal)
    (tail : text) :
  well_shaped p = true ->
  skipn o subject = render_param p ++ tail ->
  closes tail = true ->
  exists (m : MatchState) (l : list MatchState),
    exec BASEREGEX (depth_budget subject) (pattern FUNTIONPARAMETERREGEX)
         (keep (state_at subject o)) = Some (m :: l) /\
    start m = o /\
    pos m = o + List.length (render_param p) /\
    param_memberW subject m = wide_record p /\
    param_member P subject m = narrow_record P p.
Proof.
  intros Hp Hsub Htail.
  destruct (well_shaped_inv p Hp) as (H1 & H2 & H3 & H4 & H5 & H6 & H7 & H8).
  unfold render_param, default_text, wide_record, narrow_record, default_value in *.
  destruct (p_default p) as [[sp3 v]|].
  - destruct H8 as [H8 H9].
    destruct (parameter_with_default P subject o (p_ws p) (p_type p) (p_sp p)
                (p_name p) (p_sp2 p) sp3 tail v) as (m & l & Hm);
      auto.
    + rewrite Hsub. repeat (rewrite <- app_assoc; cbn [app]). reflexivity.
    + exists m, l. destruct Hm as (E1 & E2 & E3 & E4 & E5).
      repeat split; auto. rewrite E3.
      repeat (rewrite length_app || cbn [List.length]). lia.
  - destruct (parameter_without_default P subject o (p_ws p) (p_type p) (p_sp p)
                (p_name p) (p_sp2 p) tail) as (m & l & Hm);
      auto.
    + rewrite Hsub. repeat (rewrite <- app_assoc; cbn [app]). reflexivity.
    + exists m, l. destruct Hm as (E1 & E2 & E3 & E4 & E5).
      repeat split; auto. rewrite E3.
      repeat (rewrite length_app || cbn [List.length]). lia.
Qed.

(** Where no name can start the parameter pattern does not match. *)
Lemma exec_parameter_none (f : nat) (st : MatchState) :
  quiet (rest st) = true ->
  stops (class_has false [CWord]) (rest st) = true ->
  prefix_of (str "const") (rest st) = false ->
  exec BASEREGEX (S (S (S f))) (pattern FUNTIONPARAMETERREGEX) st = Some [].
Proof.
  intros Hq Hs Hc. cbn [pattern FUNTIONPARAMETERREGEX Cat].
  rewrite exec_Seq, (exec_c_quiet f st Hq), collect_one.
  rewrite exec_Seq. unfold Opt at 1, Kw.
  rewrite exec_Alt, exec_Atomic, exec_Word, Hc, exec_Eps.
  cbn [first_only app]. rewrite collect_one.
  rewrite exec_Seq, (exec_c_quiet f st Hq), collect_one.
  rewrite exec_Seq, exec_Capture. unfold W.
  rewrite (exec_run_none BASEREGEX (S (S f)) false [CWord] st Hs).
  reflexivity.
Qed.

Lemma after_commas_closes (ps : list Formal) : closes (after_commas ps) = true.
Proof. destruct ps; reflexivity. Qed.

Lemma render_param_length (p : Formal) :
  well_shaped p = true -> 0 < List.length (render_param p).
Proof.
  intros Hp. destruct (well_shaped_inv p Hp) as (_ & H2 & _).
  unfold render_param. rewrite !length_app.
  destruct (p_type p); [discriminate | simpl; lia].
Qed.

Lemma skipn_S_cons (subject : text) (e : nat) (x : unit_t) (t : text) :
  skipn e subject = x :: t -> skipn (S e) subject = t.
Proof.
  intros H. change (S e) with (1 + e). rewrite <- skipn_skipn, H. reflexivity.
Qed.

Lemma depth_budget_SSS subject :
  depth_budget subject = S (S (S (List.length subject + 5))).
Proof. unfold depth_budget. lia. Qed.

Lemma advance_state_at subject e : advance (state_at subject e) = state_at subject (S e).
Proof. unfold state_at. now rewrite skip_S. Qed.

Lemma pcre2_match_at_end (subject : text) (e : nat) :
  skipn e subject = [] ->
  pcre2_match FUNTIONPARAMETERREGEX subject e false = NoMatch.
Proof.
  intros He. unfold pcre2_match. rewrite state_at_rest, He. cbn [List.length scan].
  cbn [groups FUNTIONPARAMETERREGEX]. rewrite depth_budget_SSS.
  rewrite exec_parameter_none;
    cbn [keep rest]; rewrite state_at_rest, He; reflexivity.
Qed.

Lemma pcre2_match_at_comma (P : Platform) (subject : text) (e : nat) (p : Formal)
    (tail : text) :
  well_shaped p = true ->
  skipn e subject = ch "," :: render_param p ++ tail ->
  closes tail = true ->
  exists m : MatchState,
    pcre2_match FUNTIONPARAMETERREGEX subject e false = Matched m /\
    start m = S e /\ pos m = S e + List.length (render_param p) /\
    matches_param P subject m p.
Proof.
  intros Hp He Htail.
  destruct (exec_parameter P subject (S e) p tail Hp
              (skipn_S_cons _ _ _ _ He) Htail) as (m & l & Hex & Hs & Hpos & Hw & Hn).
  exists m. split; [|split; [exact Hs | split; [exact Hpos | split; assumption]]].
  unfold pcre2_match. rewrite state_at_rest, He. cbn [List.length scan].
  cbn [groups FUNTIONPARAMETERREGEX]. rewrite depth_budget_SSS.
  rewrite exec_parameter_none;
    try (cbn [keep rest]; rewrite state_at_rest, He; reflexivity).
  rewrite state_at_rest, He, advance_state_at.
  rewrite <- depth_budget_SSS.
  change BASEREGEX with (groups FUNTIONPARAMETERREGEX) in Hex.
  cbn [groups FUNTIONPARAMETERREGEX] in Hex. now rewrite Hex.
Qed.

Lemma skipn_more (subject : text) (e k : nat) (w t : text) :
  skipn e subject = w ++ t -> List.length w = k -> skipn (e + k) subject = t.
Proof.
  intros H <-. rewrite Nat.add_comm, <- skipn_skipn, H.
  now rewrite skipn_app, skipn_all, Nat.sub_diag.
Qed.

Lemma match_more_params (P : Platform) (subject : text) :
  forall (ps : list Formal) (n e ov0 : nat),
    Forall (fun p => well_shaped p = true) ps ->
    skipn e subject = after_commas ps ->
    ov0 < e -> List.length ps < n ->
    Forall2 (matches_param P subject)
            (match_more FUNTIONPARAMETERREGEX subject n ov0 e) ps.
Proof.
  induction ps as [|p ps IH]; intros n e ov0 Hall He Hlt Hn.
  - destruct n as [|n]; [simpl in Hn; lia|]. cbn [match_more].
    replace (Nat.eqb ov0 e) with false by (symmetry; apply Nat.eqb_neq; lia).
    cbn [andb]. rewrite (pcre2_match_at_end subject e He). constructor.
  - destruct n as [|n]; [simpl in Hn; lia|]. cbn [match_more].
    replace (Nat.eqb ov0 e) with false by (symmetry; apply Nat.eqb_neq; lia).
    cbn [andb]. inversion Hall as [|? ? Hp Hps]; subst.
    assert (He' : skipn e subject = ch "," :: render_param p ++ after_commas ps)
      by exact He.
    destruct (pcre2_match_at_comma P subject e p (after_commas ps) Hp He'
                (after_commas_closes ps)) as (m & Hm & Hs & Hpos & Hrec).
    rewrite Hm. constructor; [exact Hrec|].
    apply IH; [exact Hps | | | simpl in Hn; lia].
    + rewrite Hpos. apply (skipn_more subject (S e) _ (render_param p)); [|reflexivity].
      now apply skipn_S_cons with (x := ch ",").
    + rewrite Hs, Hpos. pose proof (render_param_length p Hp). lia.
Qed.

(** A "g" match over a list of well-shaped parameters finds them all, in
    order, and nothing else. *)
Lemma match_all_params (P : Platform) (ps : list Formal) :
  Forall (fun p => well_shaped p = true) ps ->
  Forall2 (matches_param P (render_params ps))
          (match_all FUNTIONPARAMETERREGEX (render_params ps)) ps.
Proof.
  intros Hall. destruct ps as [|p ps].
  - cbn [render_params]. unfold match_all.
    rewrite (pcre2_match_at_end [] 0 eq_refl). constructor.
  - inversion Hall as [|? ? Hp Hps]; subst.
    set (subject := render_params (p :: ps)).
    destruct (exec_parameter P subject 0 p (after_commas ps) Hp eq_refl
                (after_commas_closes ps)) as (m & l & Hex & Hs & Hpos & Hw & Hn).
    unfold match_all.
    rewrite (pcre2_match_first FUNTIONPARAMETERREGEX subject 0 m l Hex).
    constructor; [split; assumption|].
    apply match_more_params; [exact Hps | | | ].
    + rewrite Hpos. apply (skipn_more subject 0 _ (render_param p)); reflexivity.
    + rewrite Hs, Hpos. pose proof (render_param_length p Hp). lia.
    + unfold subject, render_params. rewrite length_app.
      assert (List.length ps <= List.length (after_commas ps)); [|lia].
      clear. induction ps as [|q ps IH]; [simpl; lia|].
      unfold after_commas in *. cbn [map List.concat].
      rewrite length_app. cbn [List.length]. lia.
Qed.

Lemma Forall2_nth (A B : Type) (R : A -> B -> Prop) (l : list A) (l' : list B) :
  Forall2 R l l' ->
  forall i b, nth_error l' i = Some b ->
  exists a, nth_error l i = Some a /\ R a b.
Proof.
  induction 1 as [|a b l l' Hab _ IH]; intros i y Hy.
  - now destruct i.
  - destruct i as [|i]; simpl in *.
    + inversion Hy; subst. eauto.
    + now apply IH.
Qed.

Lemma Forall2_length_eq (A B : Type) (R : A -> B -> Prop) (l : list A) (l' : list B) :
  Forall2 R l l' -> List.length l = List.length l'.
Proof. induction 1; simpl; congruence. Qed.

Lemma matches_param_records (P : Platform) (subject : text)
    (l : list MatchState) (ps : list Formal) :
  Forall2 (matches_param P subject) l ps ->
  map (param_memberW subject) l = map wide_record ps /\
  map (param_member P subject) l = map (narrow_record P) ps.
Proof.
  induction 1 as [|m p l ps [Hw Hn] _ [E1 E2]]; [split; reflexivity|].
  cbn [map]. rewrite Hw, Hn, E1, E2. split; reflexivity.
Qed.

(** The parameters both passes make of a function match whose parameter
    list is a list of well-shaped parameters: one record each, in order. *)
Lemma function_parameters (P : Platform) (subject : text) (m : MatchState)
    (ps : list Formal) :
  named subject m "parametersString" = render_params ps ->
  Forall (fun p => well_shaped p = true) ps ->
  sParams (function_memberW subject m) = map wide_record ps /\
  sParams (function_member P subject m) = map (narrow_record P) ps.
Proof.
  intros Hps Hall. unfold function_memberW, function_member. cbn [sParams].
  rewrite Hps. apply matches_param_records. now apply match_all_params.
Qed.



Lemma definition_with_body_not_extracted_witness :
  exec BASEREGEX (depth_budget definition_script) FUNCTIONHEADER
       (keep (state_at definition_script 0)) = Some [definition_header_end] /\
  In definition_header_end [definition_header_end] /\
  rest definition_header_end = ch "{" :: str (" return 1; }" ++ LFs ++ "int h();") /\
  In declaration_h_match (match_all FUNCTIONDECLARATIONREGEX definition_script) /\
  start declaration_h_match <> start definition_header_end.
Proof.
  assert (H1 : exec BASEREGEX (depth_budget definition_script) FUNCTIONHEADER
                 (keep (state_at definition_script 0))
               = Some [definition_header_end]) by (vm_compute; reflexivity).
  assert (H2 : In declaration_h_match
                 (match_all FUNCTIONDECLARATIONREGEX definition_script))
    by (vm_compute; left; reflexivity).
  split; [exact H1|]. split; [left; reflexivity|]. split; [reflexivity|].
  split; [exact H2|].
  exact (definition_with_body_not_extracted definition_script 0 _
           definition_header_end _ H1 (or_introl eq_refl) eq_refl
           declaration_h_match H2).
Defined.
(** ** Where ParseFile fails *)

(** X1: ParseFile fails exactly when the name given has MAX_PATH - 1
    units or more, or GetFullPathName answers 0 or more than MAX_PATH for
    the resolved name; then the results object is as it was.  What the
    file holds, and whether it could be read, never makes it fail. *)
Theorem ParseFile_fails_on_the_path_only (P : Platform) (name : generic_string)
    (out : ScriptParseResults) :
  (fst (ParseFile P name out) = false <->
     MAX_PATH - 1 <= List.length name \/
     fst (GetFullPathName P (ResolveLinkFile P name)) = 0 \/
     MAX_PATH < fst (GetFullPathName P (ResolveLinkFile P name))) /\
  (fst (ParseFile P name out) = false -> snd (ParseFile P name out) = out).
Proof.
  unfold ParseFile, settled_name.
  destruct (Nat.leb_spec (MAX_PATH - 1) (List.length name)) as [Hl|Hl].
  - simpl. split; [split; auto|reflexivity].
  - destruct (GetFullPathName P (ResolveLinkFile P name)) as [n long] eqn:Eg.
    cbn [fst].
    destruct (Nat.eqb_spec n 0) as [Hn|Hn].
    + simpl. split; [split; auto|reflexivity].
    + destruct (Nat.ltb_spec MAX_PATH n) as [Hm|Hm].
      * simpl. split; [split; auto|reflexivity].
      * destruct (FileToBuffer P _ []) as [ok bytes]. cbn [fst snd].
        split; [split; [discriminate|]|discriminate].
        intros [H|[H|H]]; lia.
Qed.

(** ** Subjects without a unit the patterns know *)

Lemma outlandish_other (x c : unit_t) :
  outlandish x = true -> (0 < c)%N -> (c < 256)%N -> x <> c.
Proof.
  unfold outlandish. rewrite orb_true_iff, N.eqb_eq, N.leb_le. lia.
Qed.

Lemma outlandish_not_word (x : unit_t) : outlandish x = true -> is_word x = false.
Proof.
  unfold outlandish, is_word, is_digit, in_range.
  rewrite orb_true_iff, N.eqb_eq, N.leb_le. intros [->|H]; [reflexivity|].
  rewrite !orb_false_iff, !andb_false_iff, !N.leb_gt, N.eqb_neq. lia.
Qed.

Lemma outlandish_not_space (x : unit_t) : outlandish x = true -> is_space x = false.
Proof.
  unfold outlandish, is_space, in_range.
  rewrite orb_true_iff, N.eqb_eq, N.leb_le. intros [->|H]; [reflexivity|].
  rewrite !orb_false_iff, !andb_false_iff, !N.leb_gt, N.eqb_neq. lia.
Qed.

Lemma dull_quiet (r : text) : dull r = true -> quiet r = true.
Proof.
  destruct r as [|x r]; [reflexivity|]. unfold dull, quiet, stops.
  rewrite !negb_true_iff, negb_false_iff. intros H.
  rewrite (outlandish_not_space x H). simpl. apply N.eqb_neq.
  apply outlandish_other; [exact H|reflexivity|reflexivity].
Qed.

Lemma dull_no_word (r : text) :
  dull r = true -> stops (class_has false [CWord]) r = true.
Proof.
  destruct r as [|x r]; [reflexivity|]. unfold dull, stops.
  rewrite !negb_true_iff, negb_false_iff. intros H.
  rewrite is_word_class. now apply outlandish_not_word.
Qed.

Lemma dull_no_keyword (r : text) (a : ascii) (w : string) :
  dull r = true -> (0 < ch a)%N -> prefix_of (str (String a w)) r = false.
Proof.
  destruct r as [|x r]; [reflexivity|]. unfold dull, stops.
  rewrite negb_true_iff, negb_false_iff. intros H Ha.
  cbn [str]. apply prefix_of_other.
  apply outlandish_other; [exact H|exact Ha|].
  unfold ch. pose proof (N_ascii_bounded a). exact H0.
Qed.

Lemma exec_engine_dull (f : nat) (st : MatchState) :
  dull (rest st) = true ->
  exec no_groups (S f) (pattern ENGINESTRUCTREGEX) st = Some [].
Proof.
  intros Hd. cbn [pattern ENGINESTRUCTREGEX Cat].
  rewrite exec_Seq, exec_Bol. destruct (at_bol st); [|reflexivity].
  rewrite collect_one, exec_Seq. unfold S_.
  rewrite (exec_run_star no_groups f false [CSpace] st [] (rest st) eq_refl eq_refl)
    by (apply quiet_no_space, dull_quiet, Hd).
  cbn [List.length skip]. rewrite collect_one, exec_Seq, exec_Keep, collect_one.
  rewrite exec_Seq, exec_Atomic. unfold Kw. rewrite exec_Word.
  change (rest (keep st)) with (rest st).
  rewrite (dull_no_keyword (rest st) "#" "define" Hd) by reflexivity.
  reflexivity.
Qed.

Lemma exec_comments_none (f : nat) (st : MatchState) :
  quiet (rest st) = true ->
  exec BASEREGEX (S (S f)) (StarP (G "comment")) st = Some [st].
Proof.
  intros Hq. unfold StarP. rewrite exec_Atomic, exec_Star.
  cbn [repeat_]. unfold G. rewrite exec_Call.
  change (BASEREGEX "comment") with comment. unfold comment. cbn [Cat].
  rewrite exec_Atomic, exec_Seq. unfold L at 1. rewrite exec_Lit.
  rewrite (quiet_no_slash (rest st) st Hq eq_refl). reflexivity.
Qed.

Lemma exec_function_dull (f : nat) (st : MatchState) :
  dull (rest st) = true ->
  exec BASEREGEX (S (S f)) (pattern FUNCTIONDECLARATIONREGEX) st = Some [].
Proof.
  intros Hd. cbn [pattern FUNCTIONDECLARATIONREGEX].
  rewrite exec_Seq. unfold FUNCTIONHEADER. cbn [Cat].
  rewrite exec_Seq, exec_Bol. destruct (at_bol st); [|reflexivity].
  rewrite collect_one, exec_Seq, (exec_comments_none f st (dull_quiet _ Hd)).
  rewrite collect_one, exec_Seq, exec_Keep, collect_one.
  unfold FUNCTIONSIGNATURE. cbn [Cat].
  rewrite exec_Seq, exec_Capture, exec_Atomic, exec_Seq, exec_Look.
  cbn [AltOf]. rewrite !exec_Alt. unfold Kw. rewrite !exec_Word.
  change (rest (keep st)) with (rest st).
  rewrite (dull_no_keyword (rest st) "r" "eturn" Hd) by reflexivity.
  rewrite (dull_no_keyword (rest st) "i" "f" Hd) by reflexivity.
  rewrite (dull_no_keyword (rest st) "e" "lse" Hd) by reflexivity.
  rewrite (dull_no_keyword (rest st) "s" "witch" Hd) by reflexivity.
  cbn [app]. rewrite collect_one.
  pose proof (exec_run_none BASEREGEX (S f) false [CWord] (keep st)
                (dull_no_word _ Hd)) as Hn.
  rewrite exec_Atomic in Hn. unfold W.
  destruct (exec BASEREGEX (S (S f)) (Plus (Class false [CWord])) (keep st))
    as [[|s l]|]; try discriminate.
  reflexivity.
Qed.

Lemma exec_constant_dull (f : nat) (st : MatchState) :
  dull (rest st) = true ->
  exec BASEREGEX (S (S (S f))) (pattern CONSTANTREGEX) st = Some [].
Proof.
  intros Hd. cbn [pattern CONSTANTREGEX Cat].
  rewrite exec_Seq, exec_Bol. destruct (at_bol st) eqn:Eb; [|reflexivity].
  rewrite collect_one, exec_Seq, (exec_comments_none (S f) st (dull_quiet _ Hd)).
  rewrite collect_one, exec_Seq, exec_Atomic, exec_Seq.
  unfold Opt at 1. rewrite exec_Alt, exec_Atomic, exec_Eps. unfold Kw.
  rewrite exec_Word, (dull_no_keyword (rest st) "c" "onst" Hd) by reflexivity.
  cbn [first_only app]. rewrite collect_one, exec_Seq.
  rewrite (exec_c_quiet f st (dull_quiet _ Hd)).
  rewrite collect_one, exec_Seq, exec_Bol, Eb, collect_one.
  rewrite exec_Seq, exec_Keep, collect_one, exec_Seq, exec_Capture.
  unfold W.
  rewrite (exec_run_none BASEREGEX (S (S f)) false [CWord] (keep st)
             (dull_no_word _ Hd)).
  reflexivity.
Qed.

(** ** A "g" match that finds nothing *)

Lemma scan_nothing (re : RegexObj) (subject : text) :
  (forall o, exec (groups re) (depth_budget subject) (pattern re)
                  (keep (state_at subject o)) = Some []) ->
  forall from n o,
    scan re (depth_budget subject) false from n (state_at subject o) = NoMatch.
Proof.
  intros H from n. induction n as [|n IH]; intros o; [reflexivity|].
  cbn [scan]. rewrite H.
  destruct (rest (state_at subject o)); [reflexivity|].
  rewrite advance_state_at. apply IH.
Qed.

Lemma match_all_nothing (re : RegexObj) (subject : text) :
  (forall o, exec (groups re) (depth_budget subject) (pattern re)
                  (keep (state_at subject o)) = Some []) ->
  match_all re subject = [].
Proof.
  intros H. unfold match_all, pcre2_match. now rewrite scan_nothing.
Qed.

Lemma dull_at (subject : text) (o : nat) :
  forallb outlandish subject = true ->
  dull (rest (keep (state_at subject o))) = true.
Proof.
  intros H. change (rest (keep (state_at subject o))) with (rest (state_at subject o)).
  rewrite state_at_rest.
  destruct (skipn o subject) as [|x r] eqn:E; [reflexivity|].
  unfold dull, stops. rewrite negb_involutive.
  rewrite forallb_forall in H. apply H.
  rewrite <- (firstn_skipn o subject). apply in_or_app. right.
  rewrite E. now left.
Qed.

Lemma passes_find_nothing (subject : text) :
  forallb outlandish subject = true ->
  match_all ENGINESTRUCTREGEX subject = [] /\
  match_all FUNCTIONDECLARATIONREGEX subject = [] /\
  match_all CONSTANTREGEX subject = [].
Proof.
  intros H. repeat split; apply match_all_nothing; intros o;
    rewrite depth_budget_SSS.
  - apply exec_engine_dull, dull_at, H.
  - apply exec_function_dull, dull_at, H.
  - apply exec_constant_dull, dull_at, H.
Qed.

Lemma as_wchars_utf16be (s : text) :
  forallb outlandish (as_wchars (utf16be s)) = true.
Proof.
  induction s as [|x s IH]; [reflexivity|].
  cbn [utf16be as_wchars forallb]. rewrite IH, andb_true_r.
  unfold outlandish. rewrite orb_true_iff, N.eqb_eq, N.leb_le. lia.
Qed.

(** X2: When the detector answers with a wide class for a text stored with the
    high byte first, with or without its mark, the wide pass reads every
    unit with its bytes swapped and finds nothing: the three counters are
    set to 0 and no member is added. *)
Theorem big_endian_text_yields_nothing (P : Platform) (s : text) (mark : bool)
    (out : ScriptParseResults) :
  is_wide (verdict P ((if mark then bom_be else []) ++ utf16be s)) = true ->
  extract P ((if mark then bom_be else []) ++ utf16be s) out
  = mkResults 0 0 0 (Members out).
Proof.
  intros Hw. unfold extract. rewrite Hw.
  assert (Hn : is_narrow (verdict P ((if mark then bom_be else []) ++ utf16be s))
               = false)
    by (destruct (verdict P _); try discriminate; reflexivity).
  rewrite Hn. unfold CreateNWScriptStructureW.
  assert (Hd : forallb outlandish
                 (as_wchars ((if mark then bom_be else []) ++ utf16be s)) = true).
  { destruct mark; cbn [bom_be app as_wchars forallb]; rewrite as_wchars_utf16be;
      reflexivity. }
  destruct (passes_find_nothing _ Hd) as (-> & -> & ->).
  cbn. now rewrite !app_nil_r.
Qed.

Lemma big_endian_text_yields_nothing_witness :
  is_wide (verdict (stable_platform []) (bom_be ++ utf16be first_line_script))
    = true /\
  extract (stable_platform []) (bom_be ++ utf16be first_line_script)
          (mkResults 3 2 1 [es "effect"])
  = mkResults 0 0 0 [es "effect"].
Proof.
  split; [reflexivity|].
  exact (big_endian_text_yields_nothing (stable_platform []) first_line_script true
           (mkResults 3 2 1 [es "effect"]) eq_refl).
Defined.

(** ** The narrow and the wide pass on the same text *)

Lemma as_wchars_utf16le (s tail : text) :
  List.length tail <= 1 -> as_wchars (utf16le s ++ tail) = s.
Proof.
  intros Ht. induction s as [|x s IH].
  - destruct tail as [|a [|b tail]]; [reflexivity|reflexivity|simpl in Ht; lia].
  - cbn [utf16le app as_wchars]. rewrite IH. f_equal. lia.
Qed.

Lemma forallb_firstn (p : unit_t -> bool) (k : nat) (l : text) :
  forallb p l = true -> forallb p (firstn k l) = true.
Proof.
  revert k; induction l as [|x l IH]; intros [|k]; simpl; auto.
  rewrite !andb_true_iff. intros [Hx Hl]. auto.
Qed.

Lemma forallb_skipn (p : unit_t -> bool) (k : nat) (l : text) :
  forallb p l = true -> forallb p (skipn k l) = true.
Proof.
  revert k; induction l as [|x l IH]; intros [|k]; simpl; auto.
  rewrite !andb_true_iff. intros [Hx Hl]. auto.
Qed.

Lemma named_forallb (p : unit_t -> bool) (subject : text) (m : MatchState)
    (n : string) :
  forallb p subject = true -> forallb p (named subject m n) = true.
Proof.
  intros H. unfold named. destruct (lookup_cap n (caps m)) as [[a b]|]; [|reflexivity].
  now apply forallb_firstn, forallb_skipn.
Qed.

Lemma passes_agree (P : Platform) (s tail : text)
    (out : ScriptParseResults) :
  (forall t, forallb is_ascii t = true -> str2wstr P t = t) ->
  forallb is_ascii s = true ->
  List.length tail <= 1 ->
  CreateNWScriptStructureW (utf16le s ++ tail) out
  = CreateNWScriptStructureA P s out.
Proof.
  intros Hconv Hs Ht.
  unfold CreateNWScriptStructureW, CreateNWScriptStructureA.
  rewrite (as_wchars_utf16le s tail Ht). cbn.
  assert (Hn : forall m n, str2wstr P (named s m n) = named s m n)
    by (intros m n; apply Hconv, named_forallb, Hs).
  assert (He : map (engine_member P s) (match_all ENGINESTRUCTREGEX s)
               = map (engine_memberW s) (match_all ENGINESTRUCTREGEX s)).
  { apply map_ext. intros m. unfold engine_member, engine_memberW. now rewrite Hn. }
  assert (Hc : map (constant_member P s) (match_all CONSTANTREGEX s)
               = map (constant_memberW s) (match_all CONSTANTREGEX s)).
  { apply map_ext. intros m. unfold constant_member, constant_memberW.
    now rewrite !Hn. }
  assert (Hf : map (function_member P s) (match_all FUNCTIONDECLARATIONREGEX s)
               = map (function_memberW s) (match_all FUNCTIONDECLARATIONREGEX s)).
  { apply map_ext. intros m. unfold function_member, function_memberW.
    rewrite !Hn. f_equal. apply map_ext. intros q.
    unfold param_member, param_memberW.
    rewrite !Hconv; [reflexivity| | |];
      apply named_forallb, named_forallb, Hs. }
  now rewrite He, Hc, Hf.
Qed.

(** X3: A text of ASCII units stored as UTF-16 with the low byte first and
    without a mark, even with a stray byte after it, goes through the wide
    pass to the results the narrow pass makes of the text itself, when the
    narrow-to-wide conversion leaves ASCII as it is. *)
Theorem wide_pass_agrees_with_narrow (P : Platform) (s tail : text)
    (out : ScriptParseResults) :
  (forall t, forallb is_ascii t = true -> str2wstr P t = t) ->
  forallb is_ascii s = true ->
  List.length tail <= 1 ->
  CreateNWScriptStructureW (utf16le s ++ tail) out
  = CreateNWScriptStructureA P s out.
Proof. apply passes_agree. Qed.

Lemma wide_pass_agrees_with_narrow_witness :
  CreateNWScriptStructureW (utf16le shadowing_script ++ [59%N])
                           no_results
  = CreateNWScriptStructureA (stable_platform []) shadowing_script no_results.
Proof.
  apply (wide_pass_agrees_with_narrow (stable_platform []) shadowing_script [59%N]
           no_results).
  - intros t _. reflexivity.
  - vm_compute. reflexivity.
  - simpl. lia.
Defined.

(** ** Whatever holds along a match *)

Lemma collect_rel (R : MatchState -> MatchState -> Prop)
    (g : MatchState -> outcomes) (st : MatchState) (l r : list MatchState) :
  (forall a b c, R a b -> R b c -> R a c) ->
  Forall (R st) l ->
  (forall s r', R st s -> g s = Some r' -> Forall (R s) r') ->
  collect g l = Some r -> Forall (R st) r.
Proof.
  intros Ht Hl Hg Hc. apply Forall_forall. intros m Hm.
  apply (collect_some _ _ _ Hc) in Hm. destruct Hm as (s & l' & Hs & Hgs & Hm).
  rewrite Forall_forall in Hl. specialize (Hl s Hs).
  specialize (Hg s l' Hl Hgs). rewrite Forall_forall in Hg.
  eapply Ht; eauto.
Qed.

Lemma repeat_rel (R : MatchState -> MatchState -> Prop) (lazy : bool)
    (step : MatchState -> outcomes) :
  (forall a, R a a) -> (forall a b c, R a b -> R b c -> R a c) ->
  (forall s r, step s = Some r -> Forall (R s) r) ->
  forall n st l, repeat_ lazy step n st = Some l -> Forall (R st) l.
Proof.
  intros Hr Ht Hstep. induction n as [|n IH]; intros st l H; [discriminate|].
  simpl in H. destruct (step st) as [r|] eqn:Er; [|discriminate].
  destruct (collect _ r) as [more|] eqn:Ec; [|discriminate].
  assert (Hmore : Forall (R st) more).
  { eapply collect_rel; [exact Ht | apply (Hstep _ _ Er) | | exact Ec].
    intros s r' _ Hs. cbv beta in Hs. destruct (Nat.eqb (pos s) (pos st)).
    - inversion Hs; subst. constructor; [apply Hr | constructor].
    - now apply IH. }
  inversion H; subst. destruct lazy.
  - constructor; [apply Hr | exact Hmore].
  - apply Forall_app. split; [exact Hmore|].
    constructor; [apply Hr | constructor].
Qed.

Lemma shape_any (r : Regex) : shape true true r = true.
Proof.
  induction r; simpl; try reflexivity; try assumption;
    now rewrite ?IHr1, ?IHr2.
Qed.

Lemma exec_on_subject (defs : string -> Regex) (subject : text) (fuel : nat)
    (r : Regex) (st : MatchState) (l : list MatchState) :
  on_subject subject st -> exec defs fuel r st = Some l ->
  Forall (on_subject subject) l.
Proof.
  intros Hs H.
  pose proof (exec_follows defs true (fun n => shape_any (defs n)) fuel true r st l
                (shape_any r) H) as Hf.
  apply Forall_forall. intros m Hm. rewrite Forall_forall in Hf.
  destruct (Hf m Hm) as ([k Hk] & _). eapply ahead_on_subject; eauto.
Qed.

Section CapsOk.
Variable defs : string -> Regex.
Variable Q : string -> text -> Prop.
Variable subject : text.

Lemma exec_caps_ok (f : nat) :
  forall r, captures_ok defs Q r ->
  forall st l, sound_state Q subject st -> exec defs (S f) r st = Some l ->
  Forall (sound_state Q subject) l.
Proof.
  assert (Hsub : forall r st l, sound_state Q subject st -> exec defs (S f) r st = Some l ->
                 Forall (on_subject subject) l)
    by (intros r st l [Hs _] H; eapply exec_on_subject; eauto).
  induction 1 as [| x | | neg items | a b Ha IHa Hb IHb | a b Ha IHa Hb IHb
                 | lazy a Ha IHa | a Ha IHa | negative a Ha IHa
                 | n a Hr | n a Hq Ha IHa | n | | ]; intros st l Hst H.
  - inversion H; subst. constructor; [exact Hst | constructor].
  - pose proof (Hsub _ _ _ Hst H) as Ho. inversion H; subst.
    apply Forall_forall. intros m Hm. split.
    + rewrite Forall_forall in Ho. now apply Ho.
    + unfold eat in Hm. destruct (rest st); [contradiction|].
      destruct (N.eqb x u); [|contradiction]. destruct Hm as [<-|[]].
      rewrite advance_caps. apply Hst.
  - pose proof (Hsub _ _ _ Hst H) as Ho. inversion H; subst.
    apply Forall_forall. intros m Hm. split.
    + rewrite Forall_forall in Ho. now apply Ho.
    + unfold eat in Hm. destruct (rest st); [contradiction|].
      destruct (negb _); [|contradiction]. destruct Hm as [<-|[]].
      rewrite advance_caps. apply Hst.
  - pose proof (Hsub _ _ _ Hst H) as Ho. inversion H; subst.
    apply Forall_forall. intros m Hm. split.
    + rewrite Forall_forall in Ho. now apply Ho.
    + unfold eat in Hm. destruct (rest st); [contradiction|].
      destruct (class_has _ _ _); [|contradiction]. destruct Hm as [<-|[]].
      rewrite advance_caps. apply Hst.
  - rewrite exec_Seq in H.
    destruct (exec defs (S f) a st) as [la|] eqn:Ea; [|discriminate].
    specialize (IHa _ _ Hst Ea).
    apply Forall_forall. intros m Hm.
    apply (collect_some _ _ _ H) in Hm. destruct Hm as (s & l' & Hs & Hbs & Hm).
    rewrite Forall_forall in IHa.
    specialize (IHb s l' (IHa s Hs) Hbs). rewrite Forall_forall in IHb. now apply IHb.
  - rewrite exec_Alt in H.
    destruct (exec defs (S f) a st) as [la|] eqn:Ea; [|discriminate].
    destruct (exec defs (S f) b st) as [lb|] eqn:Eb; [|discriminate].
    inversion H; subst. apply Forall_app.
    split; [apply (IHa st); assumption | apply (IHb st); assumption].
  - rewrite exec_Star in H.
    pose proof (repeat_rel (fun s m => sound_state Q subject s -> sound_state Q subject m) lazy
                  (exec defs (S f) a)) as Hrep.
    assert (Hall : Forall (fun m => sound_state Q subject st -> sound_state Q subject m) l).
    { eapply Hrep; [auto | auto | | exact H].
      intros s r Hs. apply Forall_forall. intros m Hm Hss.
      specialize (IHa s r Hss Hs). rewrite Forall_forall in IHa. now apply IHa. }
    apply Forall_forall. intros m Hm. rewrite Forall_forall in Hall. now apply Hall.
  - rewrite exec_Atomic in H.
    destruct (exec defs (S f) a st) as [[|s la]|] eqn:Ea; simpl in H;
      inversion H; subst; [constructor|].
    specialize (IHa _ _ Hst Ea). inversion IHa; subst.
    constructor; [assumption | constructor].
  - rewrite exec_Look in H.
    destruct (exec defs (S f) a st) as [[|s la]|] eqn:Ea; [| |discriminate];
      inversion H; subst; destruct negative.
    + constructor; [exact Hst | constructor].
    + constructor.
    + constructor.
    + specialize (IHa _ _ Hst Ea). inversion IHa as [|? ? [_ Hc] _]; subst.
      constructor; [|constructor]. split; [apply Hst | exact Hc].
  - pose proof (Hsub _ _ _ Hst H) as Ho. rewrite exec_Capture in H.
    destruct (exec defs (S f) a st) as [la|] eqn:Ea; [|discriminate].
    inversion H; subst.
    apply Forall_forall. intros m Hm. split.
    + rewrite Forall_forall in Ho. now apply Ho.
    + apply in_map_iff in Hm. destruct Hm as (s & <- & Hs).
      destruct (Hr _ _ _ _ Ea Hs) as (w & Hq & Hrest & Hpos & Hcaps).
      unfold set_cap, with_caps; cbn [caps]. constructor.
      * cbn [fst snd]. destruct Hst as [(_ & _ & Hrs) _].
        rewrite state_at_rest in Hrs. rewrite <- Hrs, Hrest, Hpos.
        replace (pos st + List.length w - pos st) with (List.length w + 0) by lia.
        rewrite firstn_app_2. cbn [firstn]. now rewrite app_nil_r.
      * rewrite Hcaps. apply Hst.
  - pose proof (Hsub _ _ _ Hst H) as Ho. rewrite exec_Capture in H.
    destruct (exec defs (S f) a st) as [la|] eqn:Ea; [|discriminate].
    inversion H; subst. specialize (IHa _ _ Hst Ea).
    apply Forall_forall. intros m Hm. split.
    + rewrite Forall_forall in Ho. now apply Ho.
    + apply in_map_iff in Hm. destruct Hm as (s & <- & Hs).
      rewrite Forall_forall in IHa. destruct (IHa s Hs) as [_ Hc].
      unfold set_cap, with_caps; cbn [caps]. constructor; [apply Hq | exact Hc].
  - pose proof (Hsub _ _ _ Hst H) as Ho. rewrite exec_Call in H.
    destruct (exec defs f (defs n) st) as [lb|] eqn:Eb; [|discriminate].
    inversion H; subst.
    apply Forall_forall. intros m Hm. split.
    + rewrite Forall_forall in Ho. now apply Ho.
    + apply in_map_iff in Hm. destruct Hm as (s & <- & Hs). apply Hst.
  - rewrite exec_Bol in H. inversion H; subst.
    destruct (at_bol st); constructor; [exact Hst | constructor].
  - rewrite exec_Keep in H. inversion H; subst.
    constructor; [|constructor]. destruct Hst as [Ho Hc].
    split; [now apply keep_on_subject' | exact Hc].
Qed.
End CapsOk.

(** ** The groups a match is sure to set *)

Lemma extends_refl (st : MatchState) : extends st st.
Proof. now exists []. Qed.

Lemma extends_trans (a b c : MatchState) : extends a b -> extends b c -> extends a c.
Proof.
  intros [m1 H1] [m2 H2]. exists (m2 ++ m1). now rewrite H2, H1, app_assoc.
Qed.

Lemma lookup_cap_more (n : string) (more more' : list (string * (nat * nat))) :
  lookup_cap n more <> None -> lookup_cap n (more' ++ more) <> None.
Proof.
  induction more' as [|[k v] more' IH]; simpl; auto.
  intros H. destruct (String.eqb k n); [discriminate | auto].
Qed.

Lemma lookup_cap_front (n : string) (more more' : list (string * (nat * nat))) :
  lookup_cap n more' <> None -> lookup_cap n (more' ++ more) <> None.
Proof.
  induction more' as [|[k v] more' IH]; simpl; [congruence|].
  destruct (String.eqb k n); auto.
Qed.

Lemma exec_sets (defs : string -> Regex) (f : nat) (n : string) :
  forall r st l, exec defs (S f) r st = Some l ->
  Forall (fun m => exists more, caps m = more ++ caps st /\
                   (sets n r = true -> lookup_cap n more <> None)) l.
Proof.
  induction r as [| x | | neg items | a IHa b IHb | a IHa b IHb
                 | lazy a IHa | a IHa | negative a IHa
                 | name a IHa | name | | ]; intros st l H.
  - inversion H; subst. constructor; [|constructor].
    exists []. split; [reflexivity | discriminate].
  - inversion H; subst. apply Forall_forall. intros m Hm.
    unfold eat in Hm. destruct (rest st); [contradiction|].
    destruct (N.eqb x u); [|contradiction]. destruct Hm as [<-|[]].
    exists []. rewrite advance_caps. split; [reflexivity | discriminate].
  - inversion H; subst. apply Forall_forall. intros m Hm.
    unfold eat in Hm. destruct (rest st); [contradiction|].
    destruct (negb _); [|contradiction]. destruct Hm as [<-|[]].
    exists []. rewrite advance_caps. split; [reflexivity | discriminate].
  - inversion H; subst. apply Forall_forall. intros m Hm.
    unfold eat in Hm. destruct (rest st); [contradiction|].
    destruct (class_has _ _ _); [|contradiction]. destruct Hm as [<-|[]].
    exists []. rewrite advance_caps. split; [reflexivity | discriminate].
  - rewrite exec_Seq in H.
    destruct (exec defs (S f) a st) as [la|] eqn:Ea; [|discriminate].
    specialize (IHa _ _ Ea).
    apply Forall_forall. intros m Hm.
    apply (collect_some _ _ _ H) in Hm. destruct Hm as (s & l' & Hs & Hbs & Hm).
    rewrite Forall_forall in IHa. destruct (IHa s Hs) as (m1 & Hc1 & Hs1).
    specialize (IHb s l' Hbs). rewrite Forall_forall in IHb.
    destruct (IHb m Hm) as (m2 & Hc2 & Hs2).
    exists (m2 ++ m1). split; [now rewrite Hc2, Hc1, app_assoc|].
    simpl. rewrite orb_true_iff. intros [Hx|Hx].
    + now apply lookup_cap_more, Hs1.
    + now apply lookup_cap_front, Hs2.
  - rewrite exec_Alt in H.
    destruct (exec defs (S f) a st) as [la|] eqn:Ea; [|discriminate].
    destruct (exec defs (S f) b st) as [lb|] eqn:Eb; [|discriminate].
    inversion H; subst. simpl. apply Forall_app. split.
    + eapply Forall_impl; [|apply (IHa _ _ Ea)]. intros m (more & Hc & Hs).
      exists more. split; [exact Hc|]. rewrite andb_true_iff. intros [Hx _]. auto.
    + eapply Forall_impl; [|apply (IHb _ _ Eb)]. intros m (more & Hc & Hs).
      exists more. split; [exact Hc|]. rewrite andb_true_iff. intros [_ Hx]. auto.
  - rewrite exec_Star in H.
    pose proof (repeat_rel extends lazy (exec defs (S f) a) extends_refl
                  extends_trans) as Hrep.
    assert (Hall : Forall (extends st) l).
    { eapply Hrep; [|exact H]. intros s r Hs.
      eapply Forall_impl; [|apply (IHa _ _ Hs)]. intros m (more & Hc & _).
      now exists more. }
    eapply Forall_impl; [|exact Hall]. intros m [more Hc].
    exists more. split; [exact Hc | discriminate].
  - rewrite exec_Atomic in H.
    destruct (exec defs (S f) a st) as [[|s la]|] eqn:Ea; simpl in H;
      inversion H; subst; [constructor|].
    specialize (IHa _ _ Ea). inversion IHa; subst.
    constructor; [assumption | constructor].
  - rewrite exec_Look in H.
    destruct (exec defs (S f) a st) as [[|s la]|] eqn:Ea; [| |discriminate];
      inversion H; subst; destruct negative.
    + constructor; [|constructor]. exists []. split; [reflexivity | discriminate].
    + constructor.
    + constructor.
    + specialize (IHa _ _ Ea). inversion IHa as [|? ? (more & Hc & _) _]; subst.
      constructor; [|constructor]. exists more. split; [exact Hc | discriminate].
  - rewrite exec_Capture in H.
    destruct (exec defs (S f) a st) as [la|] eqn:Ea; [|discriminate].
    inversion H; subst. specialize (IHa _ _ Ea).
    apply Forall_forall. intros m Hm. apply in_map_iff in Hm.
    destruct Hm as (s & <- & Hs). rewrite Forall_forall in IHa.
    destruct (IHa s Hs) as (more & Hc & Hset).
    exists ((name, (pos st, pos s)) :: more). split.
    + unfold set_cap, with_caps; cbn [caps]. now rewrite Hc.
    + intros Hx. cbn [sets] in Hx. cbn [lookup_cap].
      destruct (String.eqb name n); [discriminate|]. now apply Hset.
  - rewrite exec_Call in H.
    destruct (exec defs f (defs name) st) as [lb|] eqn:Eb; [|discriminate].
    inversion H; subst.
    apply Forall_forall. intros m Hm. apply in_map_iff in Hm.
    destruct Hm as (s & <- & Hs). exists []. split; [reflexivity | discriminate].
  - rewrite exec_Bol in H. inversion H; subst.
    destruct (at_bol st); constructor; [|constructor].
    exists []. split; [reflexivity | discriminate].
  - rewrite exec_Keep in H. inversion H; subst.
    constructor; [|constructor]. exists []. split; [reflexivity | discriminate].
Qed.

(** ** Names *)

Lemma longest_run (p : unit_t -> bool) (r : text) :
  exists w r', r = w ++ r' /\ forallb p w = true /\ stops p r' = true.
Proof.
  induction r as [|x r IH]; [now exists [], []|].
  destruct (p x) eqn:E.
  - destruct IH as (w & r' & -> & Hw & Hs). exists (x :: w), r'.
    simpl. now rewrite E.
  - exists [], (x :: r). simpl. now rewrite E.
Qed.

Lemma exec_word_run (defs : string -> Regex) (f : nat) (st : MatchState)
    (l : list MatchState) (s : MatchState) :
  exec defs (S f) (Atomic (Plus W)) st = Some l -> In s l ->
  exists w, is_name w = true /\ rest st = w ++ rest s /\
            pos s = pos st + List.length w /\ caps s = caps st.
Proof.
  unfold W. intros H Hin.
  destruct (longest_run (class_has false [CWord]) (rest st))
    as (w & r' & Hr & Hw & Hs).
  destruct w as [|x w].
  - simpl in Hr. rewrite exec_run_none in H by (now rewrite Hr).
    inversion H; subst. contradiction.
  - rewrite (exec_run_plus defs f false [CWord] st (x :: w) r') in H;
      [|discriminate|exact Hr|exact Hw|exact Hs].
    destruct (skip_over st (x :: w) r' Hr) as [Hrest Hpos].
    pose proof (skip_caps (List.length (x :: w)) st) as Hcaps.
    remember (skip (List.length (x :: w)) st) as s' eqn:Es'.
    inversion H; subst l. destruct Hin as [<-|[]].
    exists (x :: w). rewrite Hrest.
    split; [|now repeat split].
    unfold is_name. cbn [List.length Nat.eqb negb andb].
    rewrite forallb_forall in Hw. apply forallb_forall. intros y Hy.
    rewrite <- is_word_class. now apply Hw.
Qed.

Lemma reads_word (defs : string -> Regex) (Q : string -> text -> Prop) (n : string) :
  (forall w, is_name w = true -> Q n w) -> reads defs Q n (Atomic (Plus W)).
Proof.
  intros HQ [|f] st l s H Hin; [discriminate|].
  destruct (exec_word_run defs f st l s H Hin) as (w & Hw & Hrest).
  exists w. split; [now apply HQ | exact Hrest].
Qed.

Lemma prefix_of_app_false (k w r : text) :
  prefix_of k (w ++ r) = false -> prefix_of k w = false.
Proof.
  revert w; induction k as [|x k IH]; intros [|y w]; simpl; auto.
  destruct (N.eqb x y); simpl; auto.
Qed.

Lemma reads_guarded (defs : string -> Regex) (Q : string -> text -> Prop)
    (n : string) :
  (forall w, is_name w = true -> unreserved w = true -> Q n w) ->
  reads defs Q n
    (Atomic (Seq (Look true (AltOf [Kw "return"; Kw "if"; Kw "else"; Kw "switch"]))
                 (Plus W))).
Proof.
  intros HQ [|f] st l s H Hin; [discriminate|].
  rewrite exec_Atomic, exec_Seq, exec_Look in H. cbn [AltOf] in H.
  rewrite !exec_Alt in H. unfold Kw in H. rewrite !exec_Word in H.
  destruct (prefix_of (str "return") (rest st)) eqn:E1;
    [inversion H; subst; contradiction|].
  destruct (prefix_of (str "if") (rest st)) eqn:E2;
    [inversion H; subst; contradiction|].
  destruct (prefix_of (str "else") (rest st)) eqn:E3;
    [inversion H; subst; contradiction|].
  destruct (prefix_of (str "switch") (rest st)) eqn:E4;
    [inversion H; subst; contradiction|].
  cbn [app] in H. rewrite collect_one, <- exec_Atomic in H.
  destruct (exec_word_run defs f st l s H Hin) as (w & Hw & Hrest & Hmore).
  exists w. split; [|now split].
  apply HQ; [exact Hw|]. rewrite Hrest in E1, E2, E3, E4.
  unfold unreserved, reserved. cbn [forallb].
  now rewrite (prefix_of_app_false _ _ _ E1), (prefix_of_app_false _ _ _ E2),
    (prefix_of_app_false _ _ _ E3), (prefix_of_app_false _ _ _ E4).
Qed.

Ltac groups_tac :=
  repeat first
    [ apply ok_Seq | apply ok_Alt | apply ok_Star | apply ok_Atomic | apply ok_Look
    | apply ok_Call | apply ok_Bol | apply ok_Keep | apply ok_Eps | apply ok_Lit
    | apply ok_Dot | apply ok_Class ].

Lemma ENGINESTRUCTREGEX_groups :
  captures_ok no_groups plain_groups (pattern ENGINESTRUCTREGEX).
Proof.
  cbn [pattern ENGINESTRUCTREGEX Cat]. groups_tac.
  apply ok_Capture_reads, reads_word. intros w Hw. split; auto.
Qed.

Lemma FUNCTIONDECLARATIONREGEX_groups :
  captures_ok BASEREGEX function_groups (pattern FUNCTIONDECLARATIONREGEX).
Proof.
  cbn [pattern FUNCTIONDECLARATIONREGEX]. unfold FUNCTIONHEADER, FUNCTIONSIGNATURE.
  cbn [Cat]. groups_tac.
  - apply ok_Capture_reads, reads_guarded. intros w Hw Hu. split; auto; discriminate.
  - apply ok_Capture_reads, reads_word. intros w Hw. split; auto; discriminate.
  - apply ok_Capture_any; [intros w; split; discriminate|]. groups_tac.
Qed.

Lemma FUNTIONPARAMETERREGEX_groups :
  captures_ok BASEREGEX plain_groups (pattern FUNTIONPARAMETERREGEX).
Proof.
  cbn [pattern FUNTIONPARAMETERREGEX Cat]. groups_tac.
  - apply ok_Capture_reads, reads_word. intros w Hw. split; auto; discriminate.
  - apply ok_Capture_reads, reads_word. intros w Hw. split; auto.
  - apply ok_Capture_any; [intros w; split; discriminate|]. groups_tac.
Qed.

Lemma CONSTANTREGEX_groups :
  captures_ok BASEREGEX plain_groups (pattern CONSTANTREGEX).
Proof.
  cbn [pattern CONSTANTREGEX Cat]. groups_tac.
  - apply ok_Capture_reads, reads_word. intros w Hw. split; auto; discriminate.
  - apply ok_Capture_reads, reads_word. intros w Hw. split; auto.
  - apply ok_Capture_any; [intros w; split; discriminate|]. groups_tac.
Qed.

Lemma lookup_cap_In (n : string) (cps : list (string * (nat * nat))) (v : nat * nat) :
  lookup_cap n cps = Some v -> In (n, v) cps.
Proof.
  induction cps as [|[k u] cps IH]; simpl; [discriminate|].
  destruct (String.eqb_spec k n) as [->|_].
  - inversion 1; subst. now left.
  - auto.
Qed.

(** In every match of a "g" match, a group the pattern is sure to set
    holds a text of the kind asked of it. *)
Lemma match_groups (re : RegexObj) (Q : string -> text -> Prop) (subject : text)
    (m : MatchState) (n : string) :
  captures_ok (groups re) Q (pattern re) -> sets n (pattern re) = true ->
  In m (match_all re subject) ->
  Q n (named subject m n).
Proof.
  intros Hok Hset Hm. apply match_all_sound in Hm.
  destruct Hm as (o & l & He & Hin). rewrite depth_budget_S in He.
  assert (Hst : sound_state Q subject (keep (state_at subject o))).
  { split; [apply keep_on_subject', state_at_on_subject|].
    change (caps (keep (state_at subject o))) with (caps (state_at subject o)).
    rewrite state_at_caps. constructor. }
  pose proof (exec_caps_ok (groups re) Q subject _ _ Hok _ _ Hst He) as Hall.
  rewrite Forall_forall in Hall. destruct (Hall m Hin) as [_ Hc].
  pose proof (exec_sets (groups re) _ n _ _ _ He) as Hs.
  rewrite Forall_forall in Hs. destruct (Hs m Hin) as (more & Hcaps & Hlook).
  change (caps (keep (state_at subject o))) with (caps (state_at subject o)) in Hcaps.
  rewrite state_at_caps, app_nil_r in Hcaps. subst more.
  specialize (Hlook Hset). unfold named.
  destruct (lookup_cap n (caps m)) as [[a b]|] eqn:El; [|congruence].
  apply lookup_cap_In in El. unfold caps_ok in Hc. rewrite Forall_forall in Hc.
  exact (Hc _ El).
Qed.

Lemma engine_match_named (subject : text) (m : MatchState) :
  In m (match_all ENGINESTRUCTREGEX subject) ->
  is_name (named subject m "name") = true.
Proof.
  intros H.
  now apply (match_groups ENGINESTRUCTREGEX plain_groups subject m "name"
               ENGINESTRUCTREGEX_groups eq_refl H).
Qed.

Lemma function_match_named (subject : text) (m : MatchState) :
  In m (match_all FUNCTIONDECLARATIONREGEX subject) ->
  is_name (named subject m "type") = true /\
  unreserved (named subject m "type") = true /\
  is_name (named subject m "name") = true.
Proof.
  intros H.
  pose proof (match_groups FUNCTIONDECLARATIONREGEX function_groups subject m "type"
                FUNCTIONDECLARATIONREGEX_groups eq_refl H) as [H1 _].
  pose proof (match_groups FUNCTIONDECLARATIONREGEX function_groups subject m "name"
                FUNCTIONDECLARATIONREGEX_groups eq_refl H) as [_ H2].
  destruct (H1 eq_refl). auto.
Qed.

Lemma parameter_match_named (subject : text) (m : MatchState) :
  In m (match_all FUNTIONPARAMETERREGEX subject) ->
  is_name (named subject m "type") = true /\
  is_name (named subject m "name") = true.
Proof.
  intros H.
  pose proof (match_groups FUNTIONPARAMETERREGEX plain_groups subject m "type"
                FUNTIONPARAMETERREGEX_groups eq_refl H) as [H1 _].
  pose proof (match_groups FUNTIONPARAMETERREGEX plain_groups subject m "name"
                FUNTIONPARAMETERREGEX_groups eq_refl H) as [_ H2].
  auto.
Qed.

Lemma constant_match_named (subject : text) (m : MatchState) :
  In m (match_all CONSTANTREGEX subject) ->
  is_name (named subject m "type") = true /\
  is_name (named subject m "name") = true.
Proof.
  intros H.
  pose proof (match_groups CONSTANTREGEX plain_groups subject m "type"
                CONSTANTREGEX_groups eq_refl H) as [H1 _].
  pose proof (match_groups CONSTANTREGEX plain_groups subject m "name"
                CONSTANTREGEX_groups eq_refl H) as [_ H2].
  auto.
Qed.

Lemma wide_members_named (bytes : text) (out : ScriptParseResults)
    (rec : ScriptMember) :
  In rec (Members (CreateNWScriptStructureW bytes out)) ->
  In rec (Members out) \/ well_named rec.
Proof.
  unfold CreateNWScriptStructureW. cbn [Members].
  rewrite !in_app_iff, !in_map_iff.
  intros [[[H|(m & <- & Hm)]|(m & <- & Hm)]|(m & <- & Hm)]; [now left| | |]; right.
  - split; [apply (engine_match_named _ _ Hm)|]. cbn. auto.
  - destruct (function_match_named _ _ Hm) as (Ht & Hu & Hn).
    split; [exact Hn|]. cbn. repeat split; auto.
    apply Forall_forall. intros q Hq. apply in_map_iff in Hq.
    destruct Hq as (m' & <- & Hm'). exact (parameter_match_named _ _ Hm').
  - destruct (constant_match_named _ _ Hm) as (Ht & Hn).
    split; [exact Hn|]. cbn. auto.
Qed.

Lemma narrow_members_named (P : Platform) (bytes : text) (out : ScriptParseResults)
    (rec : ScriptMember) :
  (forall t, is_name t = true -> str2wstr P t = t) ->
  In rec (Members (CreateNWScriptStructureA P bytes out)) ->
  In rec (Members out) \/ well_named rec.
Proof.
  intros Hconv. unfold CreateNWScriptStructureA. cbn [Members].
  rewrite !in_app_iff, !in_map_iff.
  intros [[[H|(m & <- & Hm)]|(m & <- & Hm)]|(m & <- & Hm)]; [now left| | |]; right.
  - pose proof (engine_match_named _ _ Hm) as Hn.
    unfold well_named, engine_member. cbn. rewrite (Hconv _ Hn). auto.
  - destruct (function_match_named _ _ Hm) as (Ht & Hu & Hn).
    unfold well_named, function_member. cbn.
    rewrite (Hconv _ Hn), (Hconv _ Ht). repeat split; auto.
    apply Forall_forall. intros q Hq. apply in_map_iff in Hq.
    destruct Hq as (m' & <- & Hm').
    destruct (parameter_match_named _ _ Hm') as (Ht' & Hn').
    unfold param_member. cbn. now rewrite (Hconv _ Hn'), (Hconv _ Ht').
  - destruct (constant_match_named _ _ Hm) as (Ht & Hn).
    unfold well_named, constant_member. cbn.
    rewrite (Hconv _ Hn), (Hconv _ Ht). auto.
Qed.

(** X4: Whatever the file holds, every member ParseFile adds has an
    identifier for its name, and the fields its kind allows: the narrow and
    the wide pass alike, when the narrow-to-wide conversion leaves
    identifiers as they are. *)
Theorem members_are_well_named (P : Platform) (name : generic_string)
    (out out' : ScriptParseResults) (rec : ScriptMember) :
  sort_conforms P ->
  (forall t, is_name t = true -> str2wstr P t = t) ->
  ParseFile P name out = (true, out') ->
  In rec (Members out') ->
  In rec (Members out) \/ well_named rec.
Proof.
  intros Hs Hconv H Hin. apply ParseFile_true in H. subst out'.
  unfold parse_contents in Hin. cbn [Members] in Hin.
  destruct (Hs (Members (extract P (buffer_read P name) out))) as [Hperm _].
  apply (Permutation_in _ (Permutation_sym Hperm)) in Hin.
  unfold extract in Hin.
  destruct (is_narrow _); [now apply (narrow_members_named P _ _ _ Hconv Hin)|].
  destruct (is_wide _); [now apply (wide_members_named _ _ _ Hin)|].
  now left.
Qed.

Lemma members_are_well_named_witness :
  sort_conforms (stable_platform declaration_script) /\
  ParseFile (stable_platform declaration_script) a_nss no_results
    = (true, mkResults 0 1 0
               [fn "void" "f"
                   [mkParam (str "int") (str "a") [];
                    mkParam (str "vector") (str "v") (str "[[1, 2], [3, 4]]")]]) /\
  well_named (fn "void" "f"
                 [mkParam (str "int") (str "a") [];
                  mkParam (str "vector") (str "v") (str "[[1, 2], [3, 4]]")]).
Proof.
  assert (Hs : sort_conforms (stable_platform declaration_script))
    by apply plain_insertion_conforms.
  assert (H : ParseFile (stable_platform declaration_script) a_nss no_results
              = (true, mkResults 0 1 0
                   [fn "void" "f"
                       [mkParam (str "int") (str "a") [];
                        mkParam (str "vector") (str "v") (str "[[1, 2], [3, 4]]")]]))
    by (vm_compute; reflexivity).
  split; [exact Hs|]. split; [exact H|].
  destruct (members_are_well_named (stable_platform declaration_script) a_nss
              no_results _ _ Hs (fun t _ => eq_refl) H (or_introl eq_refl))
    as [[]|Hw].
  exact Hw.
Defined.

(** ** A "g" match, line by line *)

Lemma match_all_from (re : RegexObj) (subject : text) :
  match_all re subject
  = matches_from re subject (2 * S (List.length subject))
                 (pcre2_match re subject 0 false).
Proof. reflexivity. Qed.

Lemma match_more_from (re : RegexObj) (subject : text) (n ov0 ov1 : nat) :
  ov0 <> ov1 ->
  match_more re subject (S n) ov0 ov1
  = matches_from re subject n (pcre2_match re subject ov1 false).
Proof.
  intros H. cbn [match_more]. apply Nat.eqb_neq in H. rewrite H. cbn [andb].
  now destruct (pcre2_match re subject ov1 false).
Qed.

Lemma scan_from (re : RegexObj) (fuel from from' : nat) :
  forall n st, scan re fuel false from n st = scan re fuel false from' n st.
Proof.
  induction n as [|n IH]; intros st; [reflexivity|].
  cbn [scan]. destruct (exec _ _ _ _) as [[|m l]|]; try reflexivity.
  destruct (rest st); [reflexivity | apply IH].
Qed.

Lemma scan_step (re : RegexObj) (fuel from n : nat) (st : MatchState) (x : unit_t)
    (r : text) :
  exec (groups re) fuel (pattern re) (keep st) = Some [] ->
  rest st = x :: r ->
  scan re fuel false from (S n) st = scan re fuel false from n (advance st).
Proof. intros He Hr. cbn [scan]. now rewrite He, Hr. Qed.

Lemma pcre2_match_skip (re : RegexObj) (subject : text) (o : nat) (x : unit_t)
    (r : text) :
  exec (groups re) (depth_budget subject) (pattern re) (keep (state_at subject o))
    = Some [] ->
  skipn o subject = x :: r ->
  pcre2_match re subject o false = pcre2_match re subject (S o) false.
Proof.
  intros He Hs. unfold pcre2_match.
  rewrite !state_at_rest, Hs, (skipn_S_cons _ _ _ _ Hs).
  rewrite (scan_step re _ o _ _ x r He) by (now rewrite state_at_rest).
  rewrite advance_state_at. apply scan_from.
Qed.

Lemma pcre2_match_skip_many (re : RegexObj) (subject : text) (o : nat) :
  forall j,
    j <= List.length (skipn o subject) ->
    (forall k, k < j ->
       exec (groups re) (depth_budget subject) (pattern re)
            (keep (state_at subject (o + k))) = Some []) ->
    pcre2_match re subject o false = pcre2_match re subject (o + j) false.
Proof.
  induction j as [|j IH]; intros Hj Hk; [now rewrite Nat.add_0_r|].
  rewrite IH; [|lia|intros k Hlt; apply Hk; lia].
  replace (o + S j) with (S (o + j)) by lia.
  destruct (skipn (o + j) subject) as [|x r] eqn:E.
  - exfalso. assert (Hl : List.length (skipn (o + j) subject) = 0) by now rewrite E.
    rewrite length_skipn in Hl, Hj. lia.
  - apply (pcre2_match_skip re subject (o + j) x r); [apply Hk; lia | exact E].
Qed.

Lemma pcre2_match_end (re : RegexObj) (subject : text) (e : nat) :
  skipn e subject = [] ->
  exec (groups re) (depth_budget subject) (pattern re) (keep (state_at subject e))
    = Some [] ->
  pcre2_match re subject e false = NoMatch.
Proof.
  intros Hs He. unfold pcre2_match. rewrite state_at_rest, Hs.
  cbn [scan List.length]. now rewrite He, state_at_rest, Hs.
Qed.

Lemma state_at_prev (subject : text) (o : nat) (x : unit_t) (r : text) :
  skipn o subject = x :: r -> prev (state_at subject (S o)) = Some x.
Proof.
  intros H. rewrite <- advance_state_at. unfold advance.
  now rewrite state_at_rest, H.
Qed.

Lemma skipn_inside (w r : text) :
  forall j, j < List.length w ->
  exists x r', skipn j (w ++ r) = x :: r' /\ In x w.
Proof.
  induction w as [|y w IH]; intros j Hj; [simpl in Hj; lia|].
  destruct j as [|j].
  - exists y, (w ++ r). split; [reflexivity | now left].
  - destruct (IH j) as (x & r' & E & Hin); [simpl in Hj; lia|].
    exists x, r'. split; [exact E | now right].
Qed.

Lemma skipn_skipn_add (A : Type) (a b : nat) (l : list A) :
  skipn b (skipn a l) = skipn (a + b) l.
Proof.
  revert l; induction a as [|a IH]; intros l; [reflexivity|].
  destruct l as [|x l]; [now rewrite !skipn_nil|]. apply IH.
Qed.

(** Inside a line no position is the start of a line. *)
Lemma inside_line (subject : text) (e : nat) (w tl : text) (k : nat) :
  skipn e subject = w ++ tl -> no_LF w = true ->
  0 < k -> k <= List.length w ->
  at_bol (state_at subject (e + k)) = false.
Proof.
  intros Hs Hw Hk Hkw. destruct k as [|k]; [lia|].
  destruct (skipn_inside w tl k) as (x & r' & E & Hin); [lia|].
  assert (Hsk : skipn (e + k) subject = x :: r')
    by now rewrite <- skipn_skipn_add, Hs.
  replace (e + S k) with (S (e + k)) by lia.
  unfold at_bol. rewrite (state_at_prev _ _ _ _ Hsk).
  unfold no_LF in Hw. rewrite forallb_forall in Hw. specialize (Hw x Hin).
  apply negb_true_iff in Hw. now rewrite Hw.
Qed.

Section Lines.
Variable re : RegexObj.
Variable member : text -> MatchState -> ScriptMember.
Variable hits : Decl -> bool.

Hypothesis not_at_bol :
  forall f st, at_bol st = false ->
    exec (groups re) (S f) (pattern re) (keep st) = Some [].
Hypothesis at_end :
  forall f st, rest st = [] ->
    exec (groups re) (S (S (S f))) (pattern re) (keep st) = Some [].
Hypothesis miss :
  forall subject e d tl,
    decl_ok d = true -> hits d = false ->
    skipn e subject = render_decl d ++ LF :: tl ->
    exec (groups re) (depth_budget subject) (pattern re) (keep (state_at subject e))
    = Some [].
Hypothesis hit :
  forall subject e d tl,
    decl_ok d = true -> hits d = true ->
    skipn e subject = render_decl d ++ LF :: tl ->
    at_bol (state_at subject e) = true ->
    exists m l,
      exec (groups re) (depth_budget subject) (pattern re)
           (keep (state_at subject e)) = Some (m :: l) /\
      e <= start m /\ start m < pos m /\
      pos m = e + List.length (render_decl d) /\
      member subject m = record_of d.

Lemma decl_no_LF (d : Decl) : decl_ok d = true -> no_LF (render_decl d) = true.
Proof. unfold decl_ok. rewrite andb_true_iff. tauto. Qed.

Lemma past_line (subject : text) (e j : nat) (d : Decl) (tl : text) :
  decl_ok d = true ->
  skipn e subject = render_decl d ++ LF :: tl ->
  0 < j -> j <= List.length (render_decl d) ->
  pcre2_match re subject (e + j) false
  = pcre2_match re subject (e + S (List.length (render_decl d))) false.
Proof.
  intros Hd Hs Hj Hjl.
  replace (e + S (List.length (render_decl d)))
    with ((e + j) + (S (List.length (render_decl d)) - j)) by lia.
  apply pcre2_match_skip_many.
  - rewrite <- skipn_skipn_add, Hs, length_skipn, length_app.
    cbn [List.length]. lia.
  - intros k Hk. rewrite depth_budget_S. apply not_at_bol.
    replace (e + j + k) with (e + (j + k)) by lia.
    apply (inside_line subject e (render_decl d) (LF :: tl));
      [exact Hs | now apply decl_no_LF | lia | lia].
Qed.

Lemma lines_from (subject : text) :
  forall (ds : list Decl) (e n : nat),
    forallb decl_ok ds = true ->
    skipn e subject = script ds ->
    (prev (state_at subject e) = None \/ prev (state_at subject e) = Some LF) ->
    List.length ds <= n ->
    map (member subject)
        (matches_from re subject n (pcre2_match re subject e false))
    = map record_of (filter hits ds).
Proof.
  induction ds as [|d ds IH]; intros e n Hok Hs Hb Hn.
  - rewrite (pcre2_match_end re subject e Hs); [reflexivity|].
    rewrite depth_budget_SSS. apply at_end. now rewrite state_at_rest.
  - cbn [forallb] in Hok. apply andb_true_iff in Hok. destruct Hok as [Hd Hds].
    unfold script in Hs. cbn [map List.concat] in Hs.
    rewrite <- app_assoc in Hs. cbn [app] in Hs. fold (script ds) in Hs.
    set (len := List.length (render_decl d)) in *.
    assert (Hnext : skipn (e + S len) subject = script ds).
    { rewrite <- skipn_skipn_add, Hs.
      replace (S len) with (List.length (render_decl d ++ [LF]))
        by (rewrite length_app; simpl; lia).
      change (render_decl d ++ LF :: script ds)
        with (render_decl d ++ [LF] ++ script ds).
      now rewrite app_assoc, skipn_app, skipn_all, Nat.sub_diag. }
    assert (Hprev : prev (state_at subject (e + S len)) = Some LF).
    { replace (e + S len) with (S (e + len)) by lia.
      apply (state_at_prev subject (e + len) LF (script ds)).
      rewrite <- skipn_skipn_add, Hs. unfold len.
      now rewrite skipn_app, skipn_all, Nat.sub_diag. }
    assert (Hbol : at_bol (state_at subject e) = true).
    { unfold at_bol. destruct Hb as [-> | ->]; [reflexivity|].
      rewrite state_at_rest, Hs. destruct (render_decl d); reflexivity. }
    cbn [filter]. destruct (hits d) eqn:Eh.
    + destruct (hit subject e d (script ds) Hd Eh Hs Hbol)
        as (m & l & He & Hle & Hlt & Hpos & Hrec).
      rewrite (pcre2_match_first re subject e m l He).
      cbn [matches_from map]. rewrite Hrec. f_equal.
      destruct n as [|n]; [simpl in Hn; lia|].
      rewrite match_more_from by lia. rewrite Hpos. fold len in Hpos |- *.
      assert (Hlen : 0 < len) by lia.
      rewrite (past_line subject e len d (script ds) Hd Hs Hlen (Nat.le_refl _)).
      apply IH; auto. simpl in Hn. lia.
    + assert (Hskip : pcre2_match re subject e false
                      = pcre2_match re subject (e + S len) false).
      { pose proof (miss subject e d (script ds) Hd Eh Hs) as Hm.
        destruct (skipn e subject) as [|x r] eqn:Ex.
        - destruct (render_decl d); discriminate.
        - rewrite (pcre2_match_skip re subject e x r Hm Ex).
          destruct (Nat.eq_dec len 0) as [E0|E0].
          + rewrite E0. f_equal. lia.
          + replace (S e) with (e + 1) by lia. rewrite <- Ex in Hs.
            apply (past_line subject e 1 d (script ds) Hd Hs); fold len; lia. }
      rewrite Hskip. apply IH; auto. simpl in Hn. lia.
Qed.

Lemma lines_matches (ds : list Decl) :
  forallb decl_ok ds = true ->
  map (member (script ds)) (match_all re (script ds))
  = map record_of (filter hits ds).
Proof.
  intros Hok. rewrite match_all_from.
  apply (lines_from (script ds) ds 0); auto.
  assert (Hl : List.length ds <= List.length (script ds)).
  { clear. induction ds as [|d ds IH]; [simpl; lia|].
    unfold script in *. cbn [map List.concat]. rewrite !length_app. simpl. lia. }
  lia.
Qed.
End Lines.

(** ** Lines the engine-structure pattern takes *)

Lemma prefix_of_same (w r : text) : prefix_of w (w ++ r) = true.
Proof. induction w as [|x w IH]; [reflexivity|]. simpl. now rewrite N.eqb_refl. Qed.

Lemma is_digit_class (x : unit_t) : class_has false [CDigit] x = is_digit x.
Proof. unfold class_has. simpl. now rewrite orb_false_r. Qed.

Lemma gap_inv (w : text) : gap w = true -> all_blank w = true /\ w <> [].
Proof.
  unfold gap. rewrite andb_true_iff, negb_true_iff, Nat.eqb_neq.
  intros [H1 H2]. split; [exact H1|]. intros ->. now apply H2.
Qed.

Lemma blank_head (w r : text) :
  all_blank w = true -> w <> [] ->
  exists x t, w ++ r = x :: t /\ is_space x = true.
Proof.
  destruct w as [|x w]; [contradiction|]. intros H _. simpl in H.
  apply andb_true_iff in H. exists x, (w ++ r). now split.
Qed.

Lemma space_not_digit (x : unit_t) : is_space x = true -> is_digit x = false.
Proof.
  unfold is_space, is_digit, in_range.
  repeat match goal with |- context [N.leb ?a ?b] => destruct (N.leb_spec a b) end;
    repeat match goal with |- context [N.eqb ?a ?b] => destruct (N.eqb_spec a b) end;
    simpl; try congruence; try lia.
Qed.

Lemma space_not_word (x : unit_t) : is_space x = true -> is_word x = false.
Proof.
  unfold is_space, is_word, is_digit, in_range.
  repeat match goal with |- context [N.leb ?a ?b] => destruct (N.leb_spec a b) end;
    repeat match goal with |- context [N.eqb ?a ?b] => destruct (N.eqb_spec a b) end;
    simpl; try congruence; try lia.
Qed.

Lemma exec_Seq_one (defs : string -> Regex) (f : nat) (a b : Regex)
    (st s : MatchState) :
  exec defs (S f) a st = Some [s] ->
  exec defs (S f) (Seq a b) st = exec defs (S f) b s.
Proof. intros H. now rewrite exec_Seq, H, collect_one. Qed.

Lemma exec_Seq_none (defs : string -> Regex) (f : nat) (a b : Regex)
    (st : MatchState) :
  exec defs (S f) a st = Some [] -> exec defs (S f) (Seq a b) st = Some [].
Proof. intros H. now rewrite exec_Seq, H. Qed.

Section EngineLine.
Variables (f : nat) (A : MatchState) (ws sp1 dg sp2 nm tail : text).
Hypothesis HA :
  rest A = ws ++ str "#define" ++ sp1 ++ str "ENGINE_STRUCTURE_" ++ dg ++ sp2
              ++ nm ++ tail.
Hypothesis Hbol : at_bol A = true.
Hypothesis Hws : all_blank ws = true.
Hypothesis Hsp1 : gap sp1 = true.
Hypothesis Hdg : is_number dg = true.
Hypothesis Hsp2 : gap sp2 = true.
Hypothesis Hnm : is_name nm = true.
Hypothesis Htail : stops (class_has false [CWord]) tail = true.

Lemma exec_engine_line :
  exists m,
    exec no_groups (S f) (pattern ENGINESTRUCTREGEX) A = Some [m] /\
    start m = pos A + List.length ws /\
    pos m = pos A + List.length (ws ++ str "#define" ++ sp1
                                   ++ str "ENGINE_STRUCTURE_" ++ dg ++ sp2 ++ nm) /\
    caps m = ("name",
              (pos A + List.length (ws ++ str "#define" ++ sp1
                                      ++ str "ENGINE_STRUCTURE_" ++ dg ++ sp2),
               pos A + List.length (ws ++ str "#define" ++ sp1
                                      ++ str "ENGINE_STRUCTURE_" ++ dg ++ sp2)
               + List.length nm)) :: caps A.
Proof.
  destruct (gap_inv sp1 Hsp1) as [Hb1 Hn1].
  destruct (gap_inv sp2 Hsp2) as [Hb2 Hn2].
  destruct (is_name_inv nm Hnm) as [Hnm_ne Hnm_w].
  assert (Hdg' : dg <> [] /\ forallb (class_has false [CDigit]) dg = true).
  { unfold is_number in Hdg. apply andb_true_iff in Hdg. destruct Hdg as [H1 H2].
    split.
    - intros ->. discriminate.
    - rewrite forallb_forall in H2. apply forallb_forall. intros x Hx.
      rewrite is_digit_class. now apply H2. }
  destruct Hdg' as [Hdg_ne Hdg_d].
  cbn [pattern ENGINESTRUCTREGEX Cat].
  rewrite exec_Seq, exec_Bol, Hbol, collect_one.
  (* the blanks before #define *)
  unfold S_ at 1.
  rewrite (exec_Seq_one _ _ _ _ _ (skip (List.length ws) A)
             (exec_run_star no_groups f false [CSpace] A ws _ HA
                (forallb_blank ws Hws) eq_refl)).
  destruct (skip_over A ws _ HA) as [Hr1 Hp1].
  set (s1 := skip (List.length ws) A) in *.
  rewrite exec_Seq, exec_Keep, collect_one.
  set (k1 := keep s1).
  assert (Hrk : rest k1 = str "#define" ++ sp1 ++ str "ENGINE_STRUCTURE_" ++ dg
                          ++ sp2 ++ nm ++ tail) by exact Hr1.
  (* #define *)
  rewrite exec_Seq, exec_Atomic. unfold Kw. rewrite exec_Word, Hrk, prefix_of_same.
  cbn [first_only]. rewrite collect_one.
  destruct (skip_over k1 (str "#define") _ Hrk) as [Hr2 Hp2].
  set (s2 := skip (List.length (str "#define")) k1) in *.
  (* blanks *)
  unfold PlusP at 1, S_ at 1.
  rewrite (exec_Seq_one _ _ _ _ _ (skip (List.length sp1) s2)
             (exec_run_plus no_groups f false [CSpace] s2 sp1 _ Hn1 Hr2
                (forallb_blank sp1 Hb1) eq_refl)).
  destruct (skip_over s2 sp1 _ Hr2) as [Hr3 Hp3].
  set (s3 := skip (List.length sp1) s2) in *.
  (* ENGINE_STRUCTURE_ and its number *)
  destruct (blank_head sp2 (nm ++ tail) Hb2 Hn2) as (x2 & t2 & Ex2 & Hx2).
  rewrite exec_Seq, exec_Atomic, exec_Seq, exec_Word, Hr3, prefix_of_same.
  rewrite collect_one.
  destruct (skip_over s3 (str "ENGINE_STRUCTURE_") _ Hr3) as [Hr4 Hp4].
  set (s4 := skip (List.length (str "ENGINE_STRUCTURE_")) s3) in *.
  unfold PlusP at 1, D.
  rewrite (exec_run_plus no_groups f false [CDigit] s4 dg _ Hdg_ne Hr4 Hdg_d)
    by (rewrite Ex2; cbn [stops]; rewrite is_digit_class;
        now rewrite (space_not_digit x2 Hx2)).
  cbn [first_only]. rewrite collect_one.
  destruct (skip_over s4 dg _ Hr4) as [Hr5 Hp5].
  set (s5 := skip (List.length dg) s4) in *.
  (* blanks *)
  unfold PlusP at 1, S_ at 1.
  rewrite (exec_Seq_one _ _ _ _ _ (skip (List.length sp2) s5)
             (exec_run_plus no_groups f false [CSpace] s5 sp2 _ Hn2 Hr5
                (forallb_blank sp2 Hb2)
                (quiet_no_space _ (name_head_quiet nm tail Hnm)))).
  destruct (skip_over s5 sp2 _ Hr5) as [Hr6 Hp6].
  set (s6 := skip (List.length sp2) s5) in *.
  (* the name *)
  rewrite exec_Capture. unfold PlusP, W.
  rewrite (exec_run_plus no_groups f false [CWord] s6 nm tail Hnm_ne Hr6 Hnm_w Htail).
  destruct (skip_over s6 nm _ Hr6) as [Hr7 Hp7].
  cbn [option_map map]. eexists. split; [reflexivity|].
  unfold set_cap, with_caps; cbn [start pos caps].
  rewrite Hp7, Hp6, Hp5, Hp4, Hp3, Hp2.
  change (pos k1) with (pos s1). rewrite Hp1.
  unfold s6, s5, s4, s3, s2. rewrite !skip_start, !skip_caps.
  change (start k1) with (pos s1). change (caps k1) with (caps s1).
  unfold s1 at 2. rewrite skip_caps, Hp1.
  repeat (rewrite length_app || cbn [List.length]).
  split; [reflexivity|]. split; [lia|].
  f_equal. f_equal. f_equal; lia.
Qed.
End EngineLine.

(** ** The parameter group of the function pattern *)

Lemma blank_then_stops_word (sp r : text) :
  all_blank sp = true -> sp <> [] -> stops (class_has false [CWord]) (sp ++ r) = true.
Proof.
  intros Hb Hn. destruct (blank_head sp r Hb Hn) as (x & t & -> & Hx).
  cbn [stops]. now rewrite is_word_class, (space_not_word x Hx).
Qed.

Section GroupHead.
Variables (f : nat) (K : Regex) (A : MatchState).
Variables (ws ty sp nm sp2 tail : text).
Hypothesis HA : rest A = ws ++ ty ++ sp ++ nm ++ sp2 ++ tail.
Hypothesis Hws : all_blank ws = true.
Hypothesis Hty : is_name ty = true.
Hypothesis Hconst : prefix_of (str "const") ty = false.
Hypothesis Hsp : all_blank sp = true.
Hypothesis Hsp_ne : sp <> [].
Hypothesis Hnm : is_name nm = true.
Hypothesis Hsp2 : all_blank sp2 = true.
Hypothesis Hstop : stops (class_has false [CWord]) (sp2 ++ tail) = true.
Hypothesis Htail : quiet tail = true.

Lemma exec_group_head :
  exec BASEREGEX (S (S (S f)))
       (Seq (G "c")
       (Seq (Opt (Atomic (Kw "const")))
       (Seq (G "c")
       (Seq (Atomic (Plus W))
       (Seq (G "c")
       (Seq (Atomic (Plus W))
       (Seq (G "c") K))))))) A
  = exec BASEREGEX (S (S (S f))) K
         (skip (List.length (ws ++ ty ++ sp ++ nm ++ sp2)) A).
Proof.
  destruct (is_name_inv ty Hty) as [Hty_ne Hty_w].
  destruct (is_name_inv nm Hnm) as [Hnm_ne Hnm_w].
  rewrite (exec_Seq_one _ _ _ _ _ _
             (exec_c_blanks f A ws _ HA Hws (name_head_quiet ty _ Hty))).
  destruct (skip_over A ws _ HA) as [Hr1 _].
  set (s1 := skip (List.length ws) A) in *.
  rewrite exec_Seq. unfold Opt at 1, Kw.
  rewrite exec_Alt, exec_Atomic, exec_Word, Hr1.
  rewrite (no_const_prefix ty sp _ Hconst Hsp Hsp_ne).
  rewrite exec_Eps. cbn [first_only app]. rewrite collect_one.
  rewrite (exec_Seq_one _ _ _ _ _ s1)
    by (apply exec_c_quiet; rewrite Hr1; apply (name_head_quiet ty _ Hty)).
  unfold W.
  rewrite (exec_Seq_one _ _ _ _ _ _
             (exec_run_plus BASEREGEX (S (S f)) false [CWord] s1 ty _ Hty_ne Hr1
                Hty_w (blank_then_stops_word sp _ Hsp Hsp_ne))).
  destruct (skip_over s1 ty _ Hr1) as [Hr2 _].
  set (s2 := skip (List.length ty) s1) in *.
  rewrite (exec_Seq_one _ _ _ _ _ _
             (exec_c_blanks f s2 sp _ Hr2 Hsp (name_head_quiet nm _ Hnm))).
  destruct (skip_over s2 sp _ Hr2) as [Hr3 _].
  set (s3 := skip (List.length sp) s2) in *.
  rewrite (exec_Seq_one _ _ _ _ _ _
             (exec_run_plus BASEREGEX (S (S f)) false [CWord] s3 nm _ Hnm_ne Hr3
                Hnm_w Hstop)).
  destruct (skip_over s3 nm _ Hr3) as [Hr4 _].
  set (s4 := skip (List.length nm) s3) in *.
  rewrite (exec_Seq_one _ _ _ _ _ _ (exec_c_blanks f s4 sp2 tail Hr4 Hsp2 Htail)).
  f_equal. unfold s4, s3, s2, s1. rewrite <- !skip_add. f_equal.
  rewrite !length_app. lia.
Qed.
End GroupHead.

Lemma closes_stops_bare (tail : text) : closes tail = true -> stops is_bare tail = true.
Proof.
  destruct tail as [|y tl]; [reflexivity|]. unfold closes.
  rewrite orb_true_iff, !N.eqb_eq. intros [->| ->]; reflexivity.
Qed.

(** The parameter group reads a well-shaped parameter to its end. *)
Lemma exec_param_group (f : nat) (st : MatchState) (p : Formal) (tail : text) :
  well_shaped p = true ->
  rest st = render_param p ++ tail ->
  closes tail = true ->
  List.length (render_param p) <= f ->
  exec BASEREGEX (S (S (S (S f)))) (G "param") st
  = Some [skip (List.length (render_param p)) st].
Proof.
  intros Hp Hr Hc Hf.
  destruct (well_shaped_inv p Hp) as (Hws & Hty & Hconst & Hsp & Hsp_ne & Hnm & Hsp2 & Hd).
  unfold G. rewrite exec_Call. change (BASEREGEX "param") with param.
  unfold param. cbn [Cat]. rewrite exec_Seq, exec_Atomic.
  unfold render_param, default_text in Hr.
  destruct (p_default p) as [[sp3 v]|] eqn:Ed.
  - destruct Hd as [Hsp3 Hv].
    rewrite <- !app_assoc in Hr. cbn [app] in Hr. rewrite <- !app_assoc in Hr.
    rewrite (exec_group_head f _ st (p_ws p) (p_type p) (p_sp p) (p_name p) (p_sp2 p)
               (ch "=" :: sp3 ++ render v ++ tail) Hr Hws Hty Hconst Hsp Hsp_ne Hnm Hsp2);
      [|apply stops_after_blanks; [exact Hsp2 | reflexivity]|reflexivity].
    set (head := p_ws p ++ p_type p ++ p_sp p ++ p_name p ++ p_sp2 p) in *.
    assert (Hr' : rest st = head ++ ch "=" :: sp3 ++ render v ++ tail)
      by (unfold head; now rewrite <- !app_assoc).
    destruct (skip_over st head _ Hr') as [Hs _].
    set (s := skip (List.length head) st) in *.
    unfold Opt at 1. cbn [Cat].
    rewrite exec_Alt, exec_Atomic, exec_Seq. unfold L at 1.
    rewrite exec_Lit, (eat_same _ s _ Hs), collect_one.
    assert (He1 : rest (advance s) = sp3 ++ render v ++ tail)
      by (unfold advance; now rewrite Hs).
    destruct (render_head v Hv) as (x & t & Ex & Ho).
    rewrite (exec_Seq_one _ _ _ _ _ _
               (exec_c_blanks f (advance s) sp3 _ He1 Hsp3
                  ltac:(rewrite Ex; now apply opens_quiet))).
    destruct (skip_over (advance s) sp3 _ He1) as [He2 _].
    set (e2 := skip (List.length sp3) (advance s)) in *.
    assert (Hbudget : nesting v + 3 <= S (S (S f))).
    { pose proof (nesting_le_length v) as Hn.
      unfold render_param, default_text in Hf. rewrite Ed in Hf.
      rewrite !length_app in Hf. cbn [List.length] in Hf.
      rewrite !length_app in Hf. lia. }
    rewrite (exec_value_literal v Hv (S (S (S f))) Hbudget e2 tail He2
               (closes_stops_bare tail Hc)).
    destruct (skip_over e2 (render v) _ He2) as [He3 _].
    set (m := skip (List.length (render v)) e2) in *.
    rewrite exec_Eps. cbn [first_only app collect].
    rewrite (exec_c_quiet f m) by (rewrite He3; now apply closes_quiet).
    cbn [app option_map map]. f_equal. f_equal.
    rewrite with_caps_same.
    + unfold m, e2, s. rewrite <- advance_state_at || idtac.
      change (advance (skip (List.length head) st))
        with (skip 1 (skip (List.length head) st)).
      rewrite <- !skip_add. f_equal. unfold render_param, default_text, head.
      rewrite Ed. repeat (rewrite length_app || cbn [List.length]). lia.
    + unfold m, e2. rewrite !skip_caps, advance_caps. unfold s. apply skip_caps.
  - rewrite app_nil_r in Hr. rewrite <- !app_assoc in Hr.
    rewrite (exec_group_head f _ st (p_ws p) (p_type p) (p_sp p) (p_name p) (p_sp2 p)
               tail Hr Hws Hty Hconst Hsp Hsp_ne Hnm Hsp2
               (stops_after_blanks _ _ Hsp2 (closes_stops_word tail Hc))
               (closes_quiet tail Hc)).
    set (head := p_ws p ++ p_type p ++ p_sp p ++ p_name p ++ p_sp2 p) in *.
    assert (Hr' : rest st = head ++ tail)
      by (unfold head; now rewrite <- !app_assoc).
    destruct (skip_over st head _ Hr') as [Hs _].
    set (s := skip (List.length head) st) in *.
    unfold Opt at 1. cbn [Cat].
    rewrite exec_Alt, exec_Atomic, exec_Seq. unfold L at 1.
    rewrite exec_Lit, (closes_no_equals tail s Hc Hs).
    cbn [collect first_only]. rewrite exec_Eps. cbn [app first_only collect].
    rewrite (exec_c_quiet f s) by (rewrite Hs; now apply closes_quiet).
    cbn [app option_map map]. f_equal. f_equal.
    rewrite with_caps_same by (unfold s; apply skip_caps).
    unfold s, render_param, default_text, head. rewrite Ed, app_nil_r. reflexivity.
Qed.

Lemma exec_param_group_none (f : nat) (st : MatchState) :
  quiet (rest st) = true ->
  stops (class_has false [CWord]) (rest st) = true ->
  prefix_of (str "const") (rest st) = false ->
  exec BASEREGEX (S (S (S (S f)))) (G "param") st = Some [].
Proof.
  intros Hq Hw Hc. unfold G. rewrite exec_Call. change (BASEREGEX "param") with param.
  unfold param. cbn [Cat]. rewrite exec_Seq, exec_Atomic.
  rewrite (exec_Seq_one _ _ _ _ _ st (exec_c_quiet f st Hq)).
  rewrite exec_Seq. unfold Opt at 1, Kw.
  rewrite exec_Alt, exec_Atomic, exec_Word, Hc, exec_Eps.
  cbn [first_only app]. rewrite collect_one.
  rewrite (exec_Seq_one _ _ _ _ _ st (exec_c_quiet f st Hq)).
  unfold W.
  rewrite (exec_Seq_none _ _ _ _ _ (exec_run_none BASEREGEX _ false [CWord] st Hw)).
  reflexivity.
Qed.

Lemma paren_closes_group (f : nat) (st : MatchState) (tl : text) :
  rest st = ch ")" :: tl ->
  exec BASEREGEX (S (S (S (S f)))) (G "param") st = Some [].
Proof.
  intros H. apply exec_param_group_none; rewrite H; reflexivity.
Qed.

Lemma rewind_skip (k : nat) (st : MatchState) : rewind st (skip k st) = st.
Proof. unfold rewind. rewrite skip_caps. now destruct st. Qed.

Lemma rewind_advance (st : MatchState) : rewind st (advance st) = st.
Proof. unfold rewind. rewrite advance_caps. now destruct st. Qed.

Section Parameters.
Variable f : nat.

Lemma exec_PARAMETER_more (s : MatchState) (p q : Formal) (tail : text) :
  well_shaped p = true -> well_shaped q = true ->
  rest s = render_param p ++ ch "," :: render_param q ++ tail ->
  closes tail = true ->
  List.length (rest s) <= f ->
  exec BASEREGEX (S (S (S (S f)))) PARAMETER s = Some [skip (List.length (render_param p) + 1) s].
Proof.
  intros Hp Hq Hr Hc Hf. unfold PARAMETER. cbn [Cat].
  assert (Hlen : List.length (render_param p) <= f /\ List.length (render_param q) <= f).
  { rewrite Hr in Hf. rewrite length_app in Hf. cbn [List.length] in Hf.
    rewrite length_app in Hf. lia. }
  destruct Hlen as [Hlp Hlq].
  pose proof (exec_param_group f s p _ Hp Hr eq_refl Hlp) as Hg.
  destruct (skip_over s (render_param p) _ Hr) as [Hr1 _].
  set (s1 := skip (List.length (render_param p)) s) in *.
  assert (Hr2 : rest (advance s1) = render_param q ++ tail)
    by (unfold advance; now rewrite Hr1).
  rewrite !exec_Atomic, exec_Alt.
  rewrite (exec_Seq_one _ _ _ _ _ _ Hg).
  rewrite exec_Seq. unfold L at 1. rewrite exec_Lit, (eat_same _ s1 _ Hr1), collect_one.
  rewrite exec_Look, (exec_param_group f (advance s1) q _ Hq Hr2 Hc Hlq).
  rewrite rewind_skip.
  rewrite (exec_Seq_one _ _ _ _ _ _ Hg).
  rewrite exec_Look. unfold L. rewrite exec_Lit.
  rewrite (eat_other _ s1 _ _ Hr1) by discriminate.
  cbn [app first_only]. f_equal. f_equal.
  unfold s1. change (advance (skip (List.length (render_param p)) s))
    with (skip 1 (skip (List.length (render_param p)) s)).
  now rewrite <- skip_add.
Qed.

Lemma exec_PARAMETER_last (s : MatchState) (p : Formal) (tl : text) :
  well_shaped p = true ->
  rest s = render_param p ++ ch ")" :: tl ->
  List.length (rest s) <= f ->
  exec BASEREGEX (S (S (S (S f)))) PARAMETER s = Some [skip (List.length (render_param p)) s].
Proof.
  intros Hp Hr Hf. unfold PARAMETER. cbn [Cat].
  assert (Hlp : List.length (render_param p) <= f)
    by (rewrite Hr, length_app in Hf; lia).
  pose proof (exec_param_group f s p _ Hp Hr eq_refl Hlp) as Hg.
  destruct (skip_over s (render_param p) _ Hr) as [Hr1 _].
  set (s1 := skip (List.length (render_param p)) s) in *.
  rewrite !exec_Atomic, exec_Alt.
  rewrite (exec_Seq_one _ _ _ _ _ _ Hg).
  rewrite exec_Seq. unfold L at 1.
  rewrite exec_Lit, (eat_other _ s1 _ _ Hr1) by discriminate.
  cbn [collect].
  rewrite (exec_Seq_one _ _ _ _ _ _ Hg).
  rewrite exec_Look. unfold L. rewrite exec_Lit, (eat_same _ s1 _ Hr1).
  now rewrite rewind_advance.
Qed.

Lemma exec_PARAMETER_none (s : MatchState) (tl : text) :
  rest s = ch ")" :: tl -> exec BASEREGEX (S (S (S (S f)))) PARAMETER s = Some [].
Proof.
  intros Hr. unfold PARAMETER. cbn [Cat].
  rewrite !exec_Atomic, exec_Alt.
  now rewrite !(exec_Seq_none _ _ _ _ _ (paren_closes_group f s tl Hr)).
Qed.

Lemma params_loop (tl : text) :
  forall (ps : list Formal) (p : Formal) (s : MatchState) (n : nat),
    Forall (fun q => well_shaped q = true) (p :: ps) ->
    rest s = render_param p ++ after_commas ps ++ ch ")" :: tl ->
    List.length (rest s) <= f ->
    List.length (rest s) < n ->
    exists l,
      repeat_ false (exec BASEREGEX (S (S (S (S f)))) PARAMETER) n s
      = Some (skip (List.length (render_param p ++ after_commas ps)) s :: l).
Proof.
  induction ps as [|q ps IH]; intros p s n Hall Hr Hf Hn.
  - inversion Hall as [|? ? Hp _]; subst. cbn [after_commas map List.concat app] in *.
    rewrite app_nil_r.
    destruct n as [|n]; [lia|]. cbn [repeat_].
    rewrite (exec_PARAMETER_last s p tl Hp Hr Hf). cbn [collect].
    destruct (skip_over s (render_param p) _ Hr) as [Hr1 Hp1].
    set (s1 := skip (List.length (render_param p)) s) in *.
    pose proof (render_param_length p Hp) as Hpos.
    replace (Nat.eqb (pos s1) (pos s)) with false
      by (symmetry; apply Nat.eqb_neq; lia).
    destruct n as [|n]; [rewrite Hr, length_app in Hn; lia|].
    cbn [repeat_]. rewrite (exec_PARAMETER_none s1 tl Hr1). cbn [collect app].
    eexists. reflexivity.
  - inversion Hall as [|? ? Hp Hrest]; subst.
    inversion Hrest as [|? ? Hq _]; subst.
    unfold after_commas in Hr. cbn [map List.concat] in Hr.
    fold (after_commas ps) in Hr. rewrite <- app_assoc in Hr. cbn [app] in Hr.
    destruct n as [|n]; [lia|]. cbn [repeat_].
    rewrite (exec_PARAMETER_more s p q (after_commas ps ++ ch ")" :: tl) Hp Hq);
      [|rewrite Hr; now rewrite <- ?app_assoc| |exact Hf].
    2:{ destruct ps as [|q' ps']; reflexivity. }
    cbn [collect].
    assert (Hr' : rest s = (render_param p ++ [ch ","])
                           ++ render_param q ++ after_commas ps ++ ch ")" :: tl)
      by (rewrite Hr, <- app_assoc; reflexivity).
    destruct (skip_over s _ _ Hr') as [Hr2 Hp2].
    rewrite length_app in Hr2, Hp2. cbn [List.length] in Hr2, Hp2.
    set (s2 := skip (List.length (render_param p) + 1) s) in *.
    replace (Nat.eqb (pos s2) (pos s)) with false
      by (symmetry; apply Nat.eqb_neq; lia).
    assert (Hlt : List.length (rest s2) < List.length (rest s)).
    { rewrite Hr2, Hr'. rewrite !length_app. cbn [List.length]. lia. }
    destruct (IH q s2 n Hrest Hr2) as [l Hl]; [lia | lia |].
    rewrite Hl, app_nil_r. cbn [app]. eexists. f_equal. f_equal.
    unfold s2. rewrite <- skip_add. f_equal.
    unfold after_commas. cbn [map List.concat]. fold (after_commas ps).
    repeat (rewrite length_app || cbn [List.length]). lia.
Qed.

Lemma exec_parameters (s : MatchState) (ps : list Formal) (tl : text) :
  Forall (fun q => well_shaped q = true) ps ->
  rest s = render_params ps ++ ch ")" :: tl ->
  List.length (rest s) <= f ->
  exec BASEREGEX (S (S (S (S f)))) (StarP PARAMETER) s
  = Some [skip (List.length (render_params ps)) s].
Proof.
  intros Hall Hr Hf. unfold StarP. rewrite exec_Atomic, exec_Star.
  destruct ps as [|p ps].
  - cbn [render_params app] in Hr. cbn [repeat_].
    now rewrite (exec_PARAMETER_none s tl Hr).
  - cbn [render_params] in Hr. rewrite <- app_assoc in Hr.
    destruct (params_loop tl ps p s (S (List.length (rest s))) Hall Hr Hf)
      as [l Hl]; [lia|].
    rewrite Hl. reflexivity.
Qed.
End Parameters.

(** ** A type and a name *)

Section TypeName.
Variables (f : nat) (T K : Regex) (B : MatchState).
Variables (ty sp nm sp2 tail : text).
Hypothesis HB : rest B = ty ++ sp ++ nm ++ sp2 ++ tail.
Hypothesis HT :
  exec BASEREGEX (S (S (S f))) T B = Some [skip (List.length ty) B].
Hypothesis Hsp : all_blank sp = true.
Hypothesis Hnm : is_name nm = true.
Hypothesis Hsp2 : all_blank sp2 = true.
Hypothesis Hstop : stops (class_has false [CWord]) (sp2 ++ tail) = true.
Hypothesis Htail : quiet tail = true.

Lemma exec_type_name :
  exec BASEREGEX (S (S (S f)))
       (Seq (Capture "type" T)
       (Seq (G "c")
       (Seq (Capture "name" (Atomic (Plus W)))
       (Seq (G "c") K)))) B
  = exec BASEREGEX (S (S (S f))) K (after_name B [] ty sp nm sp2).
Proof.
  destruct (is_name_inv nm Hnm) as [Hnm_ne Hnm_w].
  rewrite exec_Seq, exec_Capture, HT.
  cbn [option_map map].
  destruct (skip_over B ty _ HB) as [Hr2 Hp2].
  rewrite set_cap_skip by (rewrite HB, length_app; lia).
  set (s2 := with_caps _ (skip (List.length ty) B)).
  assert (Hrest2 : rest s2 = sp ++ nm ++ sp2 ++ tail) by exact Hr2.
  rewrite collect_one.
  rewrite exec_Seq.
  rewrite (exec_c_blanks f s2 sp (nm ++ sp2 ++ tail) Hrest2 Hsp
             (name_head_quiet nm _ Hnm)).
  destruct (skip_over s2 sp _ Hrest2) as [Hr3 Hp3].
  set (s3 := skip (List.length sp) s2) in *.
  rewrite collect_one.
  rewrite exec_Seq, exec_Capture. unfold W.
  rewrite (exec_run_plus BASEREGEX (S (S f)) false [CWord] s3 nm
             (sp2 ++ tail) Hnm_ne Hr3 Hnm_w Hstop).
  cbn [option_map map].
  destruct (skip_over s3 nm _ Hr3) as [Hr4 Hp4].
  rewrite set_cap_skip by (rewrite Hr3, length_app; lia).
  set (s4 := with_caps _ (skip (List.length nm) s3)).
  assert (Hrest4 : rest s4 = sp2 ++ tail) by exact Hr4.
  rewrite collect_one.
  rewrite exec_Seq.
  rewrite (exec_c_blanks f s4 sp2 tail Hrest4 Hsp2 Htail).
  rewrite collect_one.
  f_equal.
  unfold after_name, s4, s3, s2.
  rewrite !skip_with_caps. cbn [app List.length].
  rewrite !length_app, !skip_add.
  unfold with_caps; cbn [pos prev rest start caps].
  rewrite ?skip_caps, ?skip_start.
  subst s4 s3 s2. cbn [pos with_caps] in *.
  rewrite ?skip_with_caps in *. cbn [pos with_caps] in *.
  f_equal. f_equal; [f_equal; f_equal; lia | f_equal; f_equal; f_equal; lia].
Qed.
End TypeName.

Lemma after_name_facts (A : MatchState) (ws ty sp nm sp2 tail : text) :
  rest A = ws ++ ty ++ sp ++ nm ++ sp2 ++ tail ->
  rest (after_name A ws ty sp nm sp2) = tail /\
  pos (after_name A ws ty sp nm sp2)
  = pos A + List.length (ws ++ ty ++ sp ++ nm ++ sp2) /\
  start (after_name A ws ty sp nm sp2) = start A.
Proof.
  intros HA.
  assert (HA' : rest A = (ws ++ ty ++ sp ++ nm ++ sp2) ++ tail)
    by (now rewrite HA, <- !app_assoc).
  destruct (skip_over A _ _ HA') as [Hr Hp].
  unfold after_name, with_caps; cbn [rest pos start].
  rewrite skip_start. auto.
Qed.

Lemma advance_over (st : MatchState) (x : unit_t) (r : text) :
  rest st = x :: r ->
  rest (advance st) = r /\ pos (advance st) = S (pos st).
Proof. intros H. unfold advance. rewrite H. now split. Qed.

(** ** The words a function type does not begin with *)

Lemma exec_guard (defs : string -> Regex) (f : nat) (st : MatchState) :
  exec defs (S f)
       (Look true (AltOf [Kw "return"; Kw "if"; Kw "else"; Kw "switch"])) st
  = Some (if unreserved (rest st) then [st] else []).
Proof.
  rewrite exec_Look. cbn [AltOf]. rewrite !exec_Alt. unfold Kw. rewrite !exec_Word.
  unfold unreserved, reserved. cbn [forallb].
  destruct (prefix_of (str "return") (rest st)); [reflexivity|].
  destruct (prefix_of (str "if") (rest st)); [reflexivity|].
  destruct (prefix_of (str "else") (rest st)); [reflexivity|].
  destruct (prefix_of (str "switch") (rest st)); reflexivity.
Qed.

Lemma keyword_then_blank (k : string) (ty sp r : text) :
  forallb is_word (str k) = true ->
  prefix_of (str k) ty = false -> all_blank sp = true -> sp <> [] ->
  prefix_of (str k) (ty ++ sp ++ r) = false.
Proof.
  intros Hk Hp Hb Hn. destruct (blank_head sp r Hb Hn) as (x & t & -> & Hx).
  destruct (prefix_of (str k) (ty ++ x :: t)) eqn:E; [|reflexivity].
  apply prefix_of_app in E. destruct E as [E|E]; [congruence|].
  rewrite forallb_forall in Hk. specialize (Hk x E).
  rewrite (space_not_word x Hx) in Hk. discriminate.
Qed.

Lemma unreserved_rest (ty sp r : text) :
  unreserved ty = true -> all_blank sp = true -> sp <> [] ->
  unreserved (ty ++ sp ++ r) = true.
Proof.
  unfold unreserved, reserved. cbn [forallb].
  rewrite !andb_true_iff, !negb_true_iff. intros (H1 & H2 & H3 & H4 & _) Hb Hn.
  repeat split; apply keyword_then_blank; auto.
Qed.

Lemma exec_guarded_type (f : nat) (st : MatchState) (ty r : text) :
  rest st = ty ++ r -> is_name ty = true ->
  stops (class_has false [CWord]) r = true ->
  exec BASEREGEX (S f)
       (Atomic (Seq (Look true (AltOf [Kw "return"; Kw "if"; Kw "else"; Kw "switch"]))
                    (Plus W))) st
  = Some (if unreserved (rest st) then [skip (List.length ty) st] else []).
Proof.
  intros Hr Hty Hs. destruct (is_name_inv ty Hty) as [Hne Hw].
  rewrite exec_Atomic, exec_Seq, exec_guard.
  destruct (unreserved (rest st)); [|reflexivity].
  rewrite collect_one, <- exec_Atomic. unfold W.
  apply (exec_run_plus BASEREGEX f false [CWord] st ty r Hne Hr Hw Hs).
Qed.

Lemma exec_comments_absent (f : nat) (st : MatchState) :
  eat (N.eqb (ch "/")) st = [] ->
  exec BASEREGEX (S (S f)) (StarP (G "comment")) st = Some [st].
Proof.
  intros Hq. unfold StarP. rewrite exec_Atomic, exec_Star.
  cbn [repeat_]. unfold G. rewrite exec_Call.
  change (BASEREGEX "comment") with comment. unfold comment. cbn [Cat].
  rewrite exec_Atomic, exec_Seq. unfold L at 1. rewrite exec_Lit, Hq. reflexivity.
Qed.

(** ** Lines the function pattern takes *)

Lemma FUNCTIONSIGNATURE_parts :
  FUNCTIONSIGNATURE
  = Seq (Capture "type"
           (Atomic (Seq (Look true (AltOf [Kw "return"; Kw "if"; Kw "else";
                                           Kw "switch"]))
                        (Plus W))))
    (Seq (G "c")
    (Seq (Capture "name" (Atomic (Plus W)))
    (Seq (G "c")
    (Seq (L "(")
    (Seq (Capture "parametersString" (StarP PARAMETER))
    (Seq (L ")") (G "c"))))))).
Proof. reflexivity. Qed.

Section FunctionLine.
Variables (f : nat) (A : MatchState).
Variables (ty sp nm sp2 : text) (ps : list Formal) (sp3 tail : text).
Hypothesis HA :
  rest A = ty ++ sp ++ nm ++ sp2
           ++ ch "(" :: render_params ps ++ ch ")" :: sp3 ++ ch ";" :: tail.
Hypothesis Hbol : at_bol A = true.
Hypothesis Hty : is_name ty = true.
Hypothesis Hres : unreserved ty = true.
Hypothesis Hsp : gap sp = true.
Hypothesis Hnm : is_name nm = true.
Hypothesis Hsp2 : all_blank sp2 = true.
Hypothesis Hps : Forall (fun q => well_shaped q = true) ps.
Hypothesis Hsp3 : all_blank sp3 = true.
Hypothesis Hf : List.length (rest A) <= f.

Lemma exec_function_line :
  exists m,
    exec BASEREGEX (S (S (S (S f)))) (pattern FUNCTIONDECLARATIONREGEX) A = Some [m] /\
    start m = pos A /\
    pos m = pos A + List.length (ty ++ sp ++ nm ++ sp2
                                 ++ ch "(" :: render_params ps
                                 ++ ch ")" :: sp3 ++ [ch ";"]) /\
    caps m = ("parametersString",
              (pos A + List.length (ty ++ sp ++ nm ++ sp2) + 1,
               pos A + List.length (ty ++ sp ++ nm ++ sp2) + 1
               + List.length (render_params ps)))
             :: caps (after_name (keep A) [] ty sp nm sp2).
Proof.
  destruct (gap_inv sp Hsp) as [Hb Hn].
  cbn [pattern FUNCTIONDECLARATIONREGEX]. rewrite exec_Seq.
  unfold FUNCTIONHEADER. cbn [Cat].
  rewrite exec_Seq, exec_Bol, Hbol, collect_one.
  rewrite (exec_Seq_one _ _ _ _ _ A)
    by (apply exec_comments_absent, quiet_no_slash with (r := rest A);
        [rewrite HA; apply (name_head_quiet ty _ Hty) | reflexivity]).
  rewrite exec_Seq, exec_Keep, collect_one.
  set (k := keep A).
  assert (Hk : rest k = ty ++ sp ++ nm ++ sp2
                        ++ ch "(" :: render_params ps
                        ++ ch ")" :: sp3 ++ ch ";" :: tail) by exact HA.
  rewrite FUNCTIONSIGNATURE_parts.
  rewrite (exec_type_name (S f) _ _ k ty sp nm sp2 _ Hk);
    [|rewrite (exec_guarded_type _ k ty _ Hk Hty
                 (blank_then_stops_word sp _ Hb Hn)), Hk,
        (unreserved_rest ty sp _ Hres Hb Hn); reflexivity
     |exact Hb|exact Hnm|exact Hsp2
     |apply stops_after_blanks; [exact Hsp2 | reflexivity]|reflexivity].
  destruct (after_name_facts k [] ty sp nm sp2 _ Hk) as (Hr1 & Hp1 & Hs1).
  set (s := after_name k [] ty sp nm sp2) in *.
  (* the parenthesis and the parameters *)
  rewrite exec_Seq. unfold L at 1. rewrite exec_Lit, (eat_same _ s _ Hr1), collect_one.
  destruct (advance_over s _ _ Hr1) as [Hr2 Hp2].
  set (s' := advance s) in *.
  rewrite exec_Seq, exec_Capture.
  rewrite (exec_parameters f s' ps _ Hps Hr2)
    by (rewrite Hr2; rewrite HA in Hf;
        repeat (rewrite length_app in Hf || cbn [List.length] in Hf);
        repeat (rewrite length_app || cbn [List.length]); lia).
  cbn [option_map map]. rewrite collect_one.
  destruct (skip_over s' (render_params ps) _ Hr2) as [Hr3 Hp3].
  rewrite set_cap_skip by (rewrite Hr2, length_app; lia).
  set (s3 := with_caps _ (skip (List.length (render_params ps)) s')).
  assert (Hrest3 : rest s3 = ch ")" :: sp3 ++ ch ";" :: tail) by exact Hr3.
  rewrite exec_Seq. unfold L at 1.
  rewrite exec_Lit, (eat_same _ s3 _ Hrest3), collect_one.
  destruct (advance_over s3 _ _ Hrest3) as [Hr4 Hp4].
  rewrite (exec_c_blanks (S f) (advance s3) sp3 _ Hr4 Hsp3 eq_refl).
  destruct (skip_over (advance s3) sp3 _ Hr4) as [Hr5 Hp5].
  rewrite collect_one. unfold L. rewrite exec_Lit, (eat_same _ _ _ Hr5).
  destruct (advance_over _ _ _ Hr5) as [Hr6 Hp6].
  eexists. split; [reflexivity|].
  rewrite advance_start, skip_start, advance_start, advance_caps, skip_caps,
    advance_caps.
  rewrite Hp6, Hp5, Hp4.
  unfold s3. cbn [with_caps start pos caps].
  rewrite skip_start, Hp3, Hp2, Hp1. unfold s'. rewrite advance_start, advance_caps, Hs1.
  change (start k) with (pos A). change (pos k) with (pos A).
  cbn [app] in *.
  split; [reflexivity|]. split.
  - repeat (rewrite length_app || cbn [List.length]). lia.
  - f_equal. f_equal. f_equal; lia.
Qed.
End FunctionLine.

(** ** Lines the constant pattern takes *)

Lemma atomic_first (defs : string -> Regex) (f : nat) (a : Regex)
    (st x : MatchState) :
  exec defs (S f) (Atomic a) st = Some [x] ->
  exists l, exec defs (S f) a st = Some (x :: l).
Proof.
  rewrite exec_Atomic. destruct (exec defs (S f) a st) as [[|y l]|]; simpl;
    try discriminate.
  inversion 1; subst. now exists l.
Qed.

Lemma CONSTANTREGEX_parts :
  pattern CONSTANTREGEX
  = Seq Bol
    (Seq (StarP (G "comment"))
    (Seq (Atomic
            (Seq (Opt (Atomic (Kw "const")))
            (Seq (G "c")
            (Seq Bol
            (Seq Keep
            (Seq (Capture "type" (Atomic (Plus W)))
            (Seq (G "c")
            (Seq (Capture "name" (Atomic (Plus W)))
            (Seq (G "c")
            (Seq (L "=") (Seq (G "c") (Capture "value" value_))))))))))))
    (Seq (G "c") (L ";")))).
Proof. reflexivity. Qed.

Section ConstantLine.
Variables (f : nat) (A : MatchState).
Variables (ty sp nm sp2 sp3 : text) (v : Literal) (sp4 tail : text).
Hypothesis HA :
  rest A = ty ++ sp ++ nm ++ sp2
           ++ ch "=" :: sp3 ++ render v ++ sp4 ++ ch ";" :: tail.
Hypothesis Hbol : at_bol A = true.
Hypothesis Hty : is_name ty = true.
Hypothesis Hconst : prefix_of (str "const") ty = false.
Hypothesis Hsp : gap sp = true.
Hypothesis Hnm : is_name nm = true.
Hypothesis Hsp2 : all_blank sp2 = true.
Hypothesis Hsp3 : all_blank sp3 = true.
Hypothesis Hv : well_formed v = true.
Hypothesis Hsp4 : all_blank sp4 = true.
Hypothesis Hf : nesting v <= f.

Lemma exec_constant_line :
  exists m,
    exec BASEREGEX (S (S (S f))) (pattern CONSTANTREGEX) A = Some [m] /\
    start m = pos A /\
    pos m = pos A + List.length (ty ++ sp ++ nm ++ sp2
                                 ++ ch "=" :: sp3 ++ render v ++ sp4 ++ [ch ";"]) /\
    caps m = ("value",
              (pos A + List.length (ty ++ sp ++ nm ++ sp2) + 1 + List.length sp3,
               pos A + List.length (ty ++ sp ++ nm ++ sp2) + 1 + List.length sp3
               + List.length (render v)))
             :: caps (after_name (keep A) [] ty sp nm sp2).
Proof.
  destruct (gap_inv sp Hsp) as [Hb Hn].
  destruct (is_name_inv ty Hty) as [Hty_ne Hty_w].
  assert (Hq : quiet (rest A) = true)
    by (rewrite HA; apply (name_head_quiet ty _ Hty)).
  rewrite CONSTANTREGEX_parts.
  rewrite exec_Seq, exec_Bol, Hbol, collect_one.
  rewrite (exec_Seq_one _ _ _ _ _ A)
    by (apply exec_comments_absent, quiet_no_slash with (r := rest A); auto).
  rewrite exec_Seq, exec_Atomic.
  (* no const, nothing between *)
  rewrite exec_Seq. unfold Opt at 1, Kw.
  assert (Hnp : prefix_of (str "const") (rest A) = false)
    by (rewrite HA; apply (no_const_prefix ty sp _ Hconst Hb Hn)).
  rewrite exec_Alt, exec_Atomic, exec_Word, Hnp.
  rewrite exec_Eps. cbn [first_only app]. rewrite collect_one.
  rewrite (exec_Seq_one _ _ _ _ _ A (exec_c_quiet f A Hq)).
  rewrite exec_Seq, exec_Bol, Hbol, collect_one.
  rewrite exec_Seq, exec_Keep, collect_one.
  set (k := keep A).
  assert (Hk : rest k = ty ++ sp ++ nm ++ sp2
                        ++ ch "=" :: sp3 ++ render v ++ sp4 ++ ch ";" :: tail)
    by exact HA.
  unfold W at 1.
  rewrite (exec_type_name f _ _ k ty sp nm sp2 _ Hk
             (exec_run_plus BASEREGEX _ false [CWord] k ty _ Hty_ne Hk Hty_w
                (blank_then_stops_word sp _ Hb Hn))
             Hb Hnm Hsp2);
    [|apply stops_after_blanks; [exact Hsp2 | reflexivity]|reflexivity].
  destruct (after_name_facts k [] ty sp nm sp2 _ Hk) as (Hr1 & Hp1 & Hs1).
  set (s := after_name k [] ty sp nm sp2) in *.
  (* the equals sign and the value *)
  rewrite exec_Seq. unfold L at 1. rewrite exec_Lit, (eat_same _ s _ Hr1), collect_one.
  destruct (advance_over s _ _ Hr1) as [Hr2 Hp2].
  destruct (render_head v Hv) as (x & t & Ex & Ho).
  rewrite (exec_Seq_one _ _ _ _ _ _
             (exec_c_blanks f (advance s) sp3 _ Hr2 Hsp3
                ltac:(rewrite Ex; now apply opens_quiet))).
  destruct (skip_over (advance s) sp3 _ Hr2) as [Hr3 Hp3].
  set (e2 := skip (List.length sp3) (advance s)) in *.
  assert (Hread : exec BASEREGEX (S (S (S f))) (Atomic value_) e2
                  = Some [skip (List.length (render v)) e2]).
  { apply (exec_value_literal v Hv (S (S (S f))) ltac:(lia) e2
             (sp4 ++ ch ";" :: tail) Hr3).
    apply blank_quiet_after; [exact Hsp4 | reflexivity]. }
  destruct (atomic_first _ _ _ _ _ Hread) as [lv Hlv].
  rewrite exec_Capture, Hlv. cbn [option_map map first_only].
  destruct (skip_over e2 (render v) _ Hr3) as [Hr4 Hp4].
  rewrite set_cap_skip by (rewrite Hr3, length_app; lia).
  set (m1 := with_caps _ (skip (List.length (render v)) e2)).
  assert (Hm1 : rest m1 = sp4 ++ ch ";" :: tail) by exact Hr4.
  rewrite collect_one.
  rewrite (exec_Seq_one _ _ _ _ _ _ (exec_c_blanks f m1 sp4 _ Hm1 Hsp4 eq_refl)).
  destruct (skip_over m1 sp4 _ Hm1) as [Hr5 Hp5].
  unfold L. rewrite exec_Lit, (eat_same _ _ _ Hr5).
  destruct (advance_over _ _ _ Hr5) as [Hr6 Hp6].
  eexists. split; [reflexivity|].
  rewrite advance_start, skip_start, advance_caps, skip_caps.
  rewrite Hp6, Hp5.
  unfold m1. cbn [with_caps start pos caps].
  rewrite skip_start, Hp4, Hp3, Hp2, Hp1. unfold e2.
  rewrite skip_start, skip_caps, advance_start, advance_caps, Hs1.
  change (start k) with (pos A). change (pos k) with (pos A).
  cbn [app] in *.
  split; [reflexivity|]. split.
  - repeat (rewrite length_app || cbn [List.length]). lia.
  - f_equal. f_equal. f_equal; lia.
Qed.
End ConstantLine.

(** ** Lines a pattern passes over *)

Lemma eat_stops (p : unit_t -> bool) (st : MatchState) :
  stops p (rest st) = true -> eat p st = [].
Proof.
  unfold eat, stops. destruct (rest st) as [|x r]; [reflexivity|].
  rewrite negb_true_iff. now intros ->.
Qed.

Lemma name_head (w r : text) :
  is_name w = true -> exists x t, w ++ r = x :: t /\ is_word x = true.
Proof.
  destruct w as [|x w]; [discriminate|]. unfold is_name. cbn.
  rewrite andb_true_iff. intros [Hx _]. now exists x, (w ++ r).
Qed.

Lemma word_not (c x : unit_t) : is_word c = false -> is_word x = true -> x <> c.
Proof. intros Hc Hx ->. congruence. Qed.

Lemma exec_engine_other (f : nat) (A : MatchState) (w r : text) :
  rest A = w ++ r -> is_name w = true ->
  exec no_groups (S f) (pattern ENGINESTRUCTREGEX) A = Some [].
Proof.
  intros HA Hw. destruct (name_head w r Hw) as (x & t & E & Hx).
  cbn [pattern ENGINESTRUCTREGEX Cat].
  rewrite exec_Seq, exec_Bol. destruct (at_bol A); [|reflexivity].
  rewrite collect_one. unfold S_.
  rewrite (exec_Seq_one _ _ _ _ _ A)
    by (apply (exec_run_star no_groups f false [CSpace] A [] (rest A) eq_refl eq_refl);
        rewrite HA; apply quiet_no_space, (name_head_quiet w r Hw)).
  rewrite exec_Seq, exec_Keep, collect_one.
  rewrite exec_Seq, exec_Atomic. unfold Kw. rewrite exec_Word.
  change (rest (keep A)) with (rest A). rewrite HA, E. cbn [str].
  rewrite prefix_of_other by (apply word_not; [reflexivity | exact Hx]).
  reflexivity.
Qed.

Lemma exec_plus_none (defs : string -> Regex) (f : nat) (st : MatchState) :
  stops (class_has false [CWord]) (rest st) = true ->
  exec defs (S f) (Plus W) st = Some [].
Proof.
  intros H. unfold Plus, W. rewrite exec_Seq, exec_Class.
  now rewrite (eat_stops _ st H).
Qed.

(** The function pattern takes nothing where the line does not begin with
    a word unit. *)
Lemma exec_function_other (f : nat) (A : MatchState) :
  stops (class_has false [CWord]) (rest A) = true ->
  eat (N.eqb (ch "/")) A = [] ->
  exec BASEREGEX (S (S f)) (pattern FUNCTIONDECLARATIONREGEX) A = Some [].
Proof.
  intros Hw Hs. cbn [pattern FUNCTIONDECLARATIONREGEX].
  rewrite exec_Seq. unfold FUNCTIONHEADER. cbn [Cat].
  rewrite exec_Seq, exec_Bol. destruct (at_bol A); [|reflexivity].
  rewrite collect_one.
  rewrite (exec_Seq_one _ _ _ _ _ A (exec_comments_absent f A Hs)).
  rewrite exec_Seq, exec_Keep, collect_one, FUNCTIONSIGNATURE_parts.
  rewrite exec_Seq, exec_Capture, exec_Atomic, exec_Seq, exec_guard.
  destruct (unreserved (rest (keep A))); [|reflexivity].
  rewrite collect_one, (exec_plus_none BASEREGEX _ (keep A) Hw). reflexivity.
Qed.

(** Nor where a type and a name are followed by something else than an
    opening parenthesis. *)
Lemma exec_function_not_paren (f : nat) (A : MatchState)
    (ty sp nm sp2 : text) (x : unit_t) (tail : text) :
  rest A = ty ++ sp ++ nm ++ sp2 ++ x :: tail ->
  is_name ty = true -> gap sp = true -> is_name nm = true ->
  all_blank sp2 = true ->
  is_word x = false -> is_space x = false -> x <> ch "/" -> x <> ch "(" ->
  exec BASEREGEX (S (S (S f))) (pattern FUNCTIONDECLARATIONREGEX) A = Some [].
Proof.
  intros HA Hty Hsp Hnm Hsp2 Hxw Hxs Hx1 Hx2.
  destruct (gap_inv sp Hsp) as [Hb Hn].
  assert (Hq : quiet (x :: tail) = true).
  { unfold quiet, stops. rewrite Hxs. cbn [orb]. apply negb_true_iff.
    now apply N.eqb_neq. }
  assert (Hstop : stops (class_has false [CWord]) (x :: tail) = true)
    by (cbn [stops]; now rewrite is_word_class, Hxw).
  cbn [pattern FUNCTIONDECLARATIONREGEX].
  rewrite exec_Seq. unfold FUNCTIONHEADER. cbn [Cat].
  rewrite exec_Seq, exec_Bol. destruct (at_bol A); [|reflexivity].
  rewrite collect_one.
  rewrite (exec_Seq_one _ _ _ _ _ A)
    by (apply exec_comments_absent, quiet_no_slash with (r := rest A);
        [rewrite HA; apply (name_head_quiet ty _ Hty) | reflexivity]).
  rewrite exec_Seq, exec_Keep, collect_one.
  set (k := keep A).
  assert (Hk : rest k = ty ++ sp ++ nm ++ sp2 ++ x :: tail) by exact HA.
  rewrite FUNCTIONSIGNATURE_parts.
  pose proof (exec_guarded_type (S (S f)) k ty _ Hk Hty
                (blank_then_stops_word sp _ Hb Hn)) as HT.
  destruct (unreserved (rest k)).
  - rewrite (exec_type_name f _ _ k ty sp nm sp2 _ Hk HT Hb Hnm Hsp2
               (stops_after_blanks _ _ Hsp2 Hstop) Hq).
    destruct (after_name_facts k [] ty sp nm sp2 _ Hk) as (Hr1 & _).
    rewrite exec_Seq. unfold L at 1.
    rewrite exec_Lit, (eat_other _ _ _ _ Hr1 Hx2). reflexivity.
  - rewrite exec_Seq, exec_Capture, HT. reflexivity.
Qed.

(** The constant pattern takes nothing where the first thing on the line
    is not a word unit. *)
Lemma exec_constant_other (f : nat) (A : MatchState) (ws : text) (x : unit_t)
    (r : text) :
  rest A = ws ++ x :: r -> all_blank ws = true ->
  is_word x = false -> is_space x = false -> x <> ch "/" ->
  exec BASEREGEX (S (S (S f))) (pattern CONSTANTREGEX) A = Some [].
Proof.
  intros HA Hws Hxw Hxs Hx.
  assert (Hq : quiet (x :: r) = true).
  { unfold quiet, stops. rewrite Hxs. cbn [orb]. apply negb_true_iff.
    now apply N.eqb_neq. }
  assert (Hhead : exists y t, rest A = y :: t /\ is_word y = false /\ y <> ch "/").
  { destruct ws as [|y ws].
    - exists x, r. auto.
    - exists y, (ws ++ x :: r). split; [exact HA|].
      cbn in Hws. apply andb_true_iff in Hws. destruct Hws as [Hy _].
      split; [now apply space_not_word|]. intros ->. discriminate. }
  destruct Hhead as (y & t & Ey & Hyw & Hy).
  rewrite CONSTANTREGEX_parts.
  rewrite exec_Seq, exec_Bol. destruct (at_bol A); [|reflexivity].
  rewrite collect_one.
  rewrite (exec_Seq_one _ _ _ _ _ A)
    by (apply exec_comments_absent, (eat_other _ A y t Ey Hy)).
  apply exec_Seq_none. rewrite exec_Atomic.
  rewrite exec_Seq. unfold Opt at 1, Kw.
  rewrite exec_Alt, exec_Atomic, exec_Word, Ey. cbn [str].
  rewrite prefix_of_other by (intros ->; discriminate).
  rewrite exec_Eps. cbn [first_only app]. rewrite collect_one.
  rewrite (exec_Seq_one _ _ _ _ _ _ (exec_c_blanks f A ws _ HA Hws Hq)).
  destruct (skip_over A ws _ HA) as [Hr1 _].
  set (s1 := skip (List.length ws) A) in *.
  rewrite exec_Seq, exec_Bol. destruct (at_bol s1); [|reflexivity].
  rewrite collect_one, exec_Seq, exec_Keep, collect_one.
  rewrite exec_Seq, exec_Capture. unfold W.
  rewrite (exec_run_none BASEREGEX _ false [CWord] (keep s1)); [reflexivity|].
  change (rest (keep s1)) with (rest s1). rewrite Hr1. cbn [stops].
  now rewrite is_word_class, Hxw.
Qed.

(** Nor where a type and a name are followed by something else than an
    equals sign. *)
Lemma exec_constant_not_equals (f : nat) (A : MatchState)
    (ty sp nm sp2 : text) (x : unit_t) (tail : text) :
  rest A = ty ++ sp ++ nm ++ sp2 ++ x :: tail ->
  is_name ty = true -> prefix_of (str "const") ty = false ->
  gap sp = true -> is_name nm = true -> all_blank sp2 = true ->
  is_word x = false -> is_space x = false -> x <> ch "/" -> x <> ch "=" ->
  exec BASEREGEX (S (S (S f))) (pattern CONSTANTREGEX) A = Some [].
Proof.
  intros HA Hty Hconst Hsp Hnm Hsp2 Hxw Hxs Hx1 Hx2.
  destruct (gap_inv sp Hsp) as [Hb Hn].
  destruct (is_name_inv ty Hty) as [Hty_ne Hty_w].
  assert (Hq : quiet (x :: tail) = true).
  { unfold quiet, stops. rewrite Hxs. cbn [orb]. apply negb_true_iff.
    now apply N.eqb_neq. }
  assert (Hstop : stops (class_has false [CWord]) (x :: tail) = true)
    by (cbn [stops]; now rewrite is_word_class, Hxw).
  assert (HqA : quiet (rest A) = true)
    by (rewrite HA; apply (name_head_quiet ty _ Hty)).
  assert (Hnp : prefix_of (str "const") (rest A) = false)
    by (rewrite HA; apply (no_const_prefix ty sp _ Hconst Hb Hn)).
  rewrite CONSTANTREGEX_parts.
  rewrite exec_Seq, exec_Bol. destruct (at_bol A) eqn:Hbol; [|reflexivity].
  rewrite collect_one.
  rewrite (exec_Seq_one _ _ _ _ _ A)
    by (apply exec_comments_absent, quiet_no_slash with (r := rest A); auto).
  apply exec_Seq_none. rewrite exec_Atomic.
  rewrite exec_Seq. unfold Opt at 1, Kw.
  rewrite exec_Alt, exec_Atomic, exec_Word, Hnp.
  rewrite exec_Eps. cbn [first_only app]. rewrite collect_one.
  rewrite (exec_Seq_one _ _ _ _ _ A (exec_c_quiet f A HqA)).
  rewrite exec_Seq, exec_Bol, Hbol, collect_one.
  rewrite exec_Seq, exec_Keep, collect_one.
  set (k := keep A).
  assert (Hk : rest k = ty ++ sp ++ nm ++ sp2 ++ x :: tail) by exact HA.
  unfold W at 1.
  rewrite (exec_type_name f _ _ k ty sp nm sp2 _ Hk
             (exec_run_plus BASEREGEX _ false [CWord] k ty _ Hty_ne Hk Hty_w
                (blank_then_stops_word sp _ Hb Hn))
             Hb Hnm Hsp2 (stops_after_blanks _ _ Hsp2 Hstop) Hq).
  destruct (after_name_facts k [] ty sp nm sp2 _ Hk) as (Hr1 & _).
  rewrite exec_Seq. unfold L at 1.
  rewrite exec_Lit, (eat_other _ _ _ _ Hr1 Hx2). reflexivity.
Qed.

(** ** The three patterns over a script of declarations *)

Lemma decl_ok_engine (ws sp1 dg sp2 nm : text) :
  decl_ok (DEngine ws sp1 dg sp2 nm) = true ->
  all_blank ws = true /\ gap sp1 = true /\ is_number dg = true /\
  gap sp2 = true /\ is_name nm = true.
Proof. unfold decl_ok. rewrite !andb_true_iff. tauto. Qed.

Lemma decl_ok_function (ty sp nm sp2 : text) (ps : list Formal) (sp3 : text) :
  decl_ok (DFunction ty sp nm sp2 ps sp3) = true ->
  is_name ty = true /\ unreserved ty = true /\
  prefix_of (str "const") ty = false /\ gap sp = true /\
  is_name nm = true /\ all_blank sp2 = true /\
  Forall (fun q => well_shaped q = true) ps /\ all_blank sp3 = true.
Proof.
  unfold decl_ok. rewrite !andb_true_iff, negb_true_iff, forallb_forall, Forall_forall.
  tauto.
Qed.

Lemma decl_ok_constant (ty sp nm sp2 sp3 : text) (v : Literal) (sp4 : text) :
  decl_ok (DConstant ty sp nm sp2 sp3 v sp4) = true ->
  is_name ty = true /\ prefix_of (str "const") ty = false /\ gap sp = true /\
  is_name nm = true /\ all_blank sp2 = true /\ all_blank sp3 = true /\
  well_formed v = true /\ all_blank sp4 = true.
Proof. unfold decl_ok. rewrite !andb_true_iff, negb_true_iff. tauto. Qed.

Lemma at_line_start (subject : text) (e : nat) (x : unit_t) (r : text) :
  skipn e subject = x :: r ->
  pos (keep (state_at subject e)) = e /\
  rest (keep (state_at subject e)) = x :: r /\
  caps (keep (state_at subject e)) = [] /\
  e <= List.length subject.
Proof.
  intros H. pose proof (skipn_nonempty subject e x r H) as Hlt.
  change (pos (keep (state_at subject e))) with (pos (state_at subject e)).
  change (rest (keep (state_at subject e))) with (rest (state_at subject e)).
  change (caps (keep (state_at subject e))) with (caps (state_at subject e)).
  rewrite state_at_pos by lia. rewrite state_at_rest, state_at_caps.
  repeat split; auto; lia.
Qed.

Lemma suffix_length (subject : text) (e : nat) :
  List.length (skipn e subject) <= List.length subject.
Proof. rewrite length_skipn. lia. Qed.

(** *** Engine structures *)

Lemma engine_not_at_bol (f : nat) (st : MatchState) :
  at_bol st = false ->
  exec (groups ENGINESTRUCTREGEX) (S f) (pattern ENGINESTRUCTREGEX) (keep st) = Some [].
Proof.
  intros H. cbn [pattern groups ENGINESTRUCTREGEX Cat]. rewrite exec_Seq, exec_Bol.
  change (at_bol (keep st)) with (at_bol st). now rewrite H.
Qed.

Lemma engine_at_end (f : nat) (st : MatchState) :
  rest st = [] ->
  exec (groups ENGINESTRUCTREGEX) (S (S (S f))) (pattern ENGINESTRUCTREGEX) (keep st)
  = Some [].
Proof.
  intros H. apply exec_engine_dull. change (rest (keep st)) with (rest st).
  now rewrite H.
Qed.

Lemma engine_miss (subject : text) (e : nat) (d : Decl) (tl : text) :
  decl_ok d = true -> of_kind EngineStruct d = false ->
  skipn e subject = render_decl d ++ LF :: tl ->
  exec (groups ENGINESTRUCTREGEX) (depth_budget subject) (pattern ENGINESTRUCTREGEX)
       (keep (state_at subject e)) = Some [].
Proof.
  intros Hd Hk Hs. rewrite depth_budget_S.
  destruct d as [ws sp1 dg sp2 nm | ty sp nm sp2 ps sp3 | ty sp nm sp2 sp3 v sp4];
    [discriminate| |].
  - destruct (decl_ok_function _ _ _ _ _ _ Hd) as (Hty & _).
    apply (exec_engine_other _ _ ty
             (sp ++ nm ++ sp2 ++ ch "(" :: render_params ps
                ++ ch ")" :: sp3 ++ [ch ";"] ++ LF :: tl)); [|exact Hty].
    change (rest (keep (state_at subject e))) with (rest (state_at subject e)).
    rewrite state_at_rest, Hs. cbn [render_decl].
    repeat (rewrite <- app_assoc || rewrite <- app_comm_cons). reflexivity.
  - destruct (decl_ok_constant _ _ _ _ _ _ _ Hd) as (Hty & _).
    apply (exec_engine_other _ _ ty
             (sp ++ nm ++ sp2 ++ ch "=" :: sp3 ++ render v ++ sp4
                ++ [ch ";"] ++ LF :: tl)); [|exact Hty].
    change (rest (keep (state_at subject e))) with (rest (state_at subject e)).
    rewrite state_at_rest, Hs. cbn [render_decl].
    repeat (rewrite <- app_assoc || rewrite <- app_comm_cons). reflexivity.
Qed.

Lemma engine_hit (subject : text) (e : nat) (d : Decl) (tl : text) :
  decl_ok d = true -> of_kind EngineStruct d = true ->
  skipn e subject = render_decl d ++ LF :: tl ->
  at_bol (state_at subject e) = true ->
  exists m l,
    exec (groups ENGINESTRUCTREGEX) (depth_budget subject)
         (pattern ENGINESTRUCTREGEX) (keep (state_at subject e)) = Some (m :: l) /\
    e <= start m /\ start m < pos m /\
    pos m = e + List.length (render_decl d) /\
    engine_memberW subject m = record_of d.
Proof.
  intros Hd Hk Hs Hbol.
  destruct d as [ws sp1 dg sp2 nm | ty sp nm sp2 ps sp3 | ty sp nm sp2 sp3 v sp4];
    [|discriminate|discriminate].
  destruct (decl_ok_engine _ _ _ _ _ Hd) as (Hws & Hsp1 & Hdg & Hsp2 & Hnm).
  cbn [render_decl] in *.
  assert (Hs' : skipn e subject
                = ws ++ str "#define" ++ sp1 ++ str "ENGINE_STRUCTURE_" ++ dg
                     ++ sp2 ++ nm ++ LF :: tl)
    by (rewrite Hs; now rewrite <- !app_assoc).
  assert (Hne : exists x r, skipn e subject = x :: r)
    by (rewrite Hs'; destruct ws; eexists; eexists; reflexivity).
  destruct Hne as (x & r & Ex).
  destruct (at_line_start subject e x r Ex) as (Hp & Hr & Hc & Hle).
  rewrite <- Ex, Hs' in Hr. rewrite depth_budget_S.
  destruct (exec_engine_line (List.length subject + 7)
              (keep (state_at subject e)) ws sp1 dg sp2 nm
              (LF :: tl) Hr Hbol Hws Hsp1 Hdg Hsp2 Hnm eq_refl)
    as (m & He & Hst & Hpos & Hcaps).
  exists m, []. split; [exact He|]. rewrite Hp in *.
  destruct (is_name_inv nm Hnm) as [Hne _].
  assert (Hlen : 0 < List.length nm) by (destruct nm; [contradiction | simpl; lia]).
  split; [lia|]. split; [rewrite Hst, Hpos; rewrite !length_app; lia|].
  split; [exact Hpos|].
  unfold engine_memberW, named. rewrite Hcaps, Hc. cbn [lookup_cap String.eqb].
  cbn [record_of]. f_equal.
  set (pre := ws ++ str "#define" ++ sp1 ++ str "ENGINE_STRUCTURE_" ++ dg ++ sp2).
  apply (slice subject e pre nm (LF :: tl)).
  unfold pre. now rewrite Hs', <- !app_assoc.
Qed.

(** *** Functions *)

Lemma function_not_at_bol (f : nat) (st : MatchState) :
  at_bol st = false ->
  exec (groups FUNCTIONDECLARATIONREGEX) (S f) (pattern FUNCTIONDECLARATIONREGEX)
       (keep st) = Some [].
Proof.
  intros H. cbn [pattern groups FUNCTIONDECLARATIONREGEX].
  rewrite exec_Seq. unfold FUNCTIONHEADER. cbn [Cat]. rewrite exec_Seq, exec_Bol.
  change (at_bol (keep st)) with (at_bol st). now rewrite H.
Qed.

Lemma function_at_end (f : nat) (st : MatchState) :
  rest st = [] ->
  exec (groups FUNCTIONDECLARATIONREGEX) (S (S (S f)))
       (pattern FUNCTIONDECLARATIONREGEX) (keep st) = Some [].
Proof.
  intros H. apply exec_function_dull. change (rest (keep st)) with (rest st).
  now rewrite H.
Qed.

Lemma depth_budget_SSSS (subject : text) :
  depth_budget subject = S (S (S (S (List.length subject + 4)))).
Proof. unfold depth_budget. lia. Qed.

Lemma function_miss (subject : text) (e : nat) (d : Decl) (tl : text) :
  decl_ok d = true -> of_kind Function d = false ->
  skipn e subject = render_decl d ++ LF :: tl ->
  exec (groups FUNCTIONDECLARATIONREGEX) (depth_budget subject)
       (pattern FUNCTIONDECLARATIONREGEX) (keep (state_at subject e)) = Some [].
Proof.
  intros Hd Hk Hs. rewrite depth_budget_SSS.
  set (A := keep (state_at subject e)).
  assert (HA : rest A = render_decl d ++ LF :: tl)
    by (unfold A; change (rest (keep (state_at subject e)))
          with (rest (state_at subject e)); now rewrite state_at_rest).
  destruct d as [ws sp1 dg sp2 nm | ty sp nm sp2 ps sp3 | ty sp nm sp2 sp3 v sp4];
    [|discriminate|].
  - destruct (decl_ok_engine _ _ _ _ _ Hd) as (Hws & _).
    cbn [render_decl] in HA. rewrite <- !app_assoc in HA.
    apply exec_function_other.
    + rewrite HA. destruct ws as [|y ws]; [reflexivity|].
      cbn in Hws. apply andb_true_iff in Hws. destruct Hws as [Hy _].
      cbn [app stops]. now rewrite is_word_class, (space_not_word y Hy).
    + destruct ws as [|y ws].
      * apply (eat_other _ A (ch "#") _ HA). discriminate.
      * apply (eat_other _ A y _ HA). intros ->.
        cbn in Hws. discriminate.
  - destruct (decl_ok_constant _ _ _ _ _ _ _ Hd)
      as (Hty & _ & Hsp & Hnm & Hsp2 & _).
    cbn [render_decl] in HA.
    apply (exec_function_not_paren _ A ty sp nm sp2 (ch "=")
             (sp3 ++ render v ++ sp4 ++ ch ";" :: LF :: tl));
      auto; try discriminate.
    rewrite HA. repeat (rewrite <- app_assoc || rewrite <- app_comm_cons).
    reflexivity.
Qed.

Lemma function_hit (subject : text) (e : nat) (d : Decl) (tl : text) :
  decl_ok d = true -> of_kind Function d = true ->
  skipn e subject = render_decl d ++ LF :: tl ->
  at_bol (state_at subject e) = true ->
  exists m l,
    exec (groups FUNCTIONDECLARATIONREGEX) (depth_budget subject)
         (pattern FUNCTIONDECLARATIONREGEX) (keep (state_at subject e))
    = Some (m :: l) /\
    e <= start m /\ start m < pos m /\
    pos m = e + List.length (render_decl d) /\
    function_memberW subject m = record_of d.
Proof.
  intros Hd Hk Hs Hbol.
  destruct d as [ws sp1 dg sp2 nm | ty sp nm sp2 ps sp3 | ty sp nm sp2 sp3 v sp4];
    [discriminate| |discriminate].
  destruct (decl_ok_function _ _ _ _ _ _ Hd)
    as (Hty & Hres & _ & Hsp & Hnm & Hsp2 & Hps & Hsp3).
  cbn [render_decl] in *.
  assert (Hs' : skipn e subject
                = ty ++ sp ++ nm ++ sp2
                  ++ ch "(" :: render_params ps ++ ch ")" :: sp3 ++ ch ";" :: LF :: tl)
    by (rewrite Hs; repeat (rewrite <- app_assoc || rewrite <- app_comm_cons);
        reflexivity).
  destruct (name_head ty (sp ++ nm ++ sp2
               ++ ch "(" :: render_params ps ++ ch ")" :: sp3 ++ ch ";" :: LF :: tl)
              Hty) as (x & r & Ex & _).
  rewrite <- Hs' in Ex.
  destruct (at_line_start subject e x r Ex) as (Hp & Hr & Hc & Hle).
  rewrite <- Ex, Hs' in Hr. rewrite depth_budget_SSSS.
  destruct (exec_function_line (List.length subject + 4)
              (keep (state_at subject e)) ty sp nm sp2 ps sp3 (LF :: tl)
              Hr Hbol Hty Hres Hsp Hnm Hsp2 Hps Hsp3)
    as (m & He & Hst & Hpos & Hcaps).
  { change (rest (keep (state_at subject e))) with (rest (state_at subject e)).
    rewrite state_at_rest. pose proof (suffix_length subject e). lia. }
  exists m, []. split; [exact He|]. rewrite Hp in *.
  split; [lia|]. split.
  { rewrite Hst, Hpos. repeat (rewrite length_app || cbn [List.length]). lia. }
  split; [exact Hpos|].
  change (keep (keep (state_at subject e))) with (keep (state_at subject e)) in Hcaps.
  destruct (after_name_named subject e [] ty sp nm sp2
              (ch "(" :: render_params ps ++ ch ")" :: sp3 ++ ch ";" :: LF :: tl)
              [("parametersString",
                (e + List.length (ty ++ sp ++ nm ++ sp2) + 1,
                 e + List.length (ty ++ sp ++ nm ++ sp2) + 1
                 + List.length (render_params ps)))] m Hle Hs' Hcaps eq_refl eq_refl)
    as (Hnt & Hnn & _).
  assert (Hnp : named subject m "parametersString" = render_params ps).
  { unfold named. rewrite Hcaps. cbn [lookup_cap String.eqb].
    replace (e + List.length (ty ++ sp ++ nm ++ sp2) + 1)
      with (e + List.length ((ty ++ sp ++ nm ++ sp2) ++ [ch "("]))
      by (rewrite (length_app (ty ++ sp ++ nm ++ sp2)); simpl; lia).
    apply (slice subject e _ (render_params ps)
             (ch ")" :: sp3 ++ ch ";" :: LF :: tl)).
    rewrite Hs'. repeat (rewrite <- app_assoc || rewrite <- app_comm_cons).
    reflexivity. }
  pose proof (function_parameters (stable_platform []) subject m ps Hnp Hps)
    as [Hpar _].
  unfold function_memberW in *. cbn [sParams] in Hpar.
  rewrite Hnt, Hnn, Hpar. reflexivity.
Qed.

(** *** Constants *)

Lemma constant_not_at_bol (f : nat) (st : MatchState) :
  at_bol st = false ->
  exec (groups CONSTANTREGEX) (S f) (pattern CONSTANTREGEX) (keep st) = Some [].
Proof.
  intros H. rewrite CONSTANTREGEX_parts. cbn [groups CONSTANTREGEX].
  rewrite exec_Seq, exec_Bol.
  change (at_bol (keep st)) with (at_bol st). now rewrite H.
Qed.

Lemma constant_at_end (f : nat) (st : MatchState) :
  rest st = [] ->
  exec (groups CONSTANTREGEX) (S (S (S f))) (pattern CONSTANTREGEX) (keep st)
  = Some [].
Proof.
  intros H. apply exec_constant_dull. change (rest (keep st)) with (rest st).
  now rewrite H.
Qed.

Lemma constant_miss (subject : text) (e : nat) (d : Decl) (tl : text) :
  decl_ok d = true -> of_kind Constant d = false ->
  skipn e subject = render_decl d ++ LF :: tl ->
  exec (groups CONSTANTREGEX) (depth_budget subject) (pattern CONSTANTREGEX)
       (keep (state_at subject e)) = Some [].
Proof.
  intros Hd Hk Hs. rewrite depth_budget_SSS.
  set (A := keep (state_at subject e)).
  assert (HA : rest A = render_decl d ++ LF :: tl)
    by (unfold A; change (rest (keep (state_at subject e)))
          with (rest (state_at subject e)); now rewrite state_at_rest).
  destruct d as [ws sp1 dg sp2 nm | ty sp nm sp2 ps sp3 | ty sp nm sp2 sp3 v sp4];
    [| |discriminate].
  - destruct (decl_ok_engine _ _ _ _ _ Hd) as (Hws & _).
    cbn [render_decl] in HA. rewrite <- !app_assoc in HA.
    apply (exec_constant_other _ A ws (ch "#") _ HA Hws); try reflexivity.
    discriminate.
  - destruct (decl_ok_function _ _ _ _ _ _ Hd)
      as (Hty & _ & Hconst & Hsp & Hnm & Hsp2 & _).
    cbn [render_decl] in HA.
    apply (exec_constant_not_equals _ A ty sp nm sp2 (ch "(")
             (render_params ps ++ ch ")" :: sp3 ++ ch ";" :: LF :: tl));
      auto; try discriminate.
    rewrite HA. repeat (rewrite <- app_assoc || rewrite <- app_comm_cons).
    reflexivity.
Qed.

Lemma constant_hit (subject : text) (e : nat) (d : Decl) (tl : text) :
  decl_ok d = true -> of_kind Constant d = true ->
  skipn e subject = render_decl d ++ LF :: tl ->
  at_bol (state_at subject e) = true ->
  exists m l,
    exec (groups CONSTANTREGEX) (depth_budget subject)
         (pattern CONSTANTREGEX) (keep (state_at subject e)) = Some (m :: l) /\
    e <= start m /\ start m < pos m /\
    pos m = e + List.length (render_decl d) /\
    constant_memberW subject m = record_of d.
Proof.
  intros Hd Hk Hs Hbol.
  destruct d as [ws sp1 dg sp2 nm | ty sp nm sp2 ps sp3 | ty sp nm sp2 sp3 v sp4];
    [discriminate|discriminate|].
  destruct (decl_ok_constant _ _ _ _ _ _ _ Hd)
    as (Hty & Hconst & Hsp & Hnm & Hsp2 & Hsp3 & Hv & Hsp4).
  cbn [render_decl] in *.
  assert (Hs' : skipn e subject
                = ty ++ sp ++ nm ++ sp2
                  ++ ch "=" :: sp3 ++ render v ++ sp4 ++ ch ";" :: LF :: tl)
    by (rewrite Hs; repeat (rewrite <- app_assoc || rewrite <- app_comm_cons);
        reflexivity).
  destruct (name_head ty (sp ++ nm ++ sp2
               ++ ch "=" :: sp3 ++ render v ++ sp4 ++ ch ";" :: LF :: tl)
              Hty) as (x & r & Ex & _).
  rewrite <- Hs' in Ex.
  destruct (at_line_start subject e x r Ex) as (Hp & Hr & Hc & Hle).
  rewrite <- Ex, Hs' in Hr. rewrite depth_budget_SSS.
  destruct (exec_constant_line (List.length subject + 5)
              (keep (state_at subject e)) ty sp nm sp2 sp3 v sp4 (LF :: tl)
              Hr Hbol Hty Hconst Hsp Hnm Hsp2 Hsp3 Hv Hsp4)
    as (m & He & Hst & Hpos & Hcaps).
  { pose proof (nesting_le_length v) as Hn.
    pose proof (suffix_length subject e) as Hl. rewrite Hs' in Hl.
    repeat (rewrite length_app in Hl || cbn [List.length] in Hl). lia. }
  exists m, []. split; [exact He|]. rewrite Hp in *.
  split; [lia|]. split.
  { rewrite Hst, Hpos. repeat (rewrite length_app || cbn [List.length]). lia. }
  split; [exact Hpos|].
  change (keep (keep (state_at subject e))) with (keep (state_at subject e)) in Hcaps.
  destruct (after_name_named subject e [] ty sp nm sp2
              (ch "=" :: sp3 ++ render v ++ sp4 ++ ch ";" :: LF :: tl)
              [("value",
                (e + List.length (ty ++ sp ++ nm ++ sp2) + 1 + List.length sp3,
                 e + List.length (ty ++ sp ++ nm ++ sp2) + 1 + List.length sp3
                 + List.length (render v)))] m Hle Hs' Hcaps eq_refl eq_refl)
    as (Hnt & Hnn & _).
  assert (Hnv : named subject m "value" = render v).
  { unfold named. rewrite Hcaps. cbn [lookup_cap String.eqb].
    replace (e + List.length (ty ++ sp ++ nm ++ sp2) + 1 + List.length sp3)
      with (e + List.length ((ty ++ sp ++ nm ++ sp2) ++ ch "=" :: sp3))
      by (rewrite (length_app (ty ++ sp ++ nm ++ sp2)); simpl; lia).
    apply (slice subject e _ (render v) (sp4 ++ ch ";" :: LF :: tl)).
    rewrite Hs'. repeat (rewrite <- app_assoc || rewrite <- app_comm_cons).
    reflexivity. }
  unfold constant_memberW. rewrite Hnt, Hnn, Hnv. reflexivity.
Qed.

Lemma script_engines (ds : list Decl) :
  forallb decl_ok ds = true ->
  map (engine_memberW (script ds)) (match_all ENGINESTRUCTREGEX (script ds))
  = map record_of (filter (of_kind EngineStruct) ds).
Proof.
  exact (lines_matches ENGINESTRUCTREGEX engine_memberW (of_kind EngineStruct)
           engine_not_at_bol engine_at_end engine_miss engine_hit ds).
Qed.

Lemma script_functions (ds : list Decl) :
  forallb decl_ok ds = true ->
  map (function_memberW (script ds)) (match_all FUNCTIONDECLARATIONREGEX (script ds))
  = map record_of (filter (of_kind Function) ds).
Proof.
  exact (lines_matches FUNCTIONDECLARATIONREGEX function_memberW (of_kind Function)
           function_not_at_bol function_at_end function_miss function_hit ds).
Qed.

Lemma script_constants (ds : list Decl) :
  forallb decl_ok ds = true ->
  map (constant_memberW (script ds)) (match_all CONSTANTREGEX (script ds))
  = map record_of (filter (of_kind Constant) ds).
Proof.
  exact (lines_matches CONSTANTREGEX constant_memberW (of_kind Constant)
           constant_not_at_bol constant_at_end constant_miss constant_hit ds).
Qed.

Lemma wide_script (ds : list Decl) (tail : text) (out : ScriptParseResults) :
  forallb decl_ok ds = true ->
  List.length tail <= 1 ->
  CreateNWScriptStructureW (utf16le (script ds) ++ tail) out = results_of ds out.
Proof.
  intros Hok Ht. unfold CreateNWScriptStructureW, results_of, members_of.
  rewrite (as_wchars_utf16le (script ds) tail Ht).
  cbn [EngineStructuresCount FunctionsCount ConstantsCount Members].
  pose proof (script_engines ds Hok) as He.
  pose proof (script_functions ds Hok) as Hf.
  pose proof (script_constants ds Hok) as Hc.
  assert (Le : List.length (match_all ENGINESTRUCTREGEX (script ds))
               = List.length (filter (of_kind EngineStruct) ds))
    by (rewrite <- (length_map (engine_memberW (script ds))), He;
        apply length_map).
  assert (Lf : List.length (match_all FUNCTIONDECLARATIONREGEX (script ds))
               = List.length (filter (of_kind Function) ds))
    by (rewrite <- (length_map (function_memberW (script ds))), Hf;
        apply length_map).
  assert (Lc : List.length (match_all CONSTANTREGEX (script ds))
               = List.length (filter (of_kind Constant) ds))
    by (rewrite <- (length_map (constant_memberW (script ds))), Hc;
        apply length_map).
  now rewrite Le, Lf, Lc, He, Hf, Hc, <- !app_assoc.
Qed.

(* ================================================================= *)
(** * Margins of controls *)

Lemma LONG_wrap_id (z : Z) : AnchorMap.is_LONG z -> AnchorMap.LONG_wrap z = z.
Proof.
  unfold AnchorMap.is_LONG, AnchorMap.LONG_wrap. intros H.
  rewrite Z.mod_small by lia. lia.
Qed.

Lemma LONG_wrap_add_l (a b : Z) :
  AnchorMap.LONG_wrap (AnchorMap.LONG_wrap a + b) = AnchorMap.LONG_wrap (a + b).
Proof.
  unfold AnchorMap.LONG_wrap. f_equal.
  replace ((a + 2147483648) mod 4294967296 - 2147483648 + b + 2147483648)%Z
    with ((a + 2147483648) mod 4294967296 + b)%Z by lia.
  rewrite Zplus_mod_idemp_l. f_equal. lia.
Qed.

Lemma LONG_wrap_add_r (a b : Z) :
  AnchorMap.LONG_wrap (a + AnchorMap.LONG_wrap b) = AnchorMap.LONG_wrap (a + b).
Proof. now rewrite Z.add_comm, LONG_wrap_add_l, Z.add_comm. Qed.

(** X6: Applying to [a] the margins between [a] and [b] gives [b]: the
    differences [calculateMargins] takes are the ones [applyMargins] adds
    back (both modulo 2^32). *)
Theorem margins_round_trip (a b : AnchorMap.RECT) :
  AnchorMap.RECT_ok b ->
  AnchorMap.applyMargins (AnchorMap.calculateMargins a b) a AnchorMap.MARGIN_ALL = b.
Proof.
  intros (Hl & Ht & Hr & Hb). destruct a as [la ta ra ba], b as [lb tb rb bb].
  cbn in *. unfold AnchorMap.applyMargins, AnchorMap.calculateMargins. cbn.
  rewrite !LONG_wrap_add_r.
  replace (la + (lb - la))%Z with lb by lia.
  replace (ta + (tb - ta))%Z with tb by lia.
  replace (ra + (rb - ra))%Z with rb by lia.
  replace (ba + (bb - ba))%Z with bb by lia.
  now rewrite !LONG_wrap_id.
Qed.

Lemma margins_round_trip_witness :
  AnchorMap.applyMargins
    (AnchorMap.calculateMargins
       (AnchorMap.mkRECT (-2147483648) 0 10 20)
       (AnchorMap.mkRECT 2147483647 5 8 (-3)))
    (AnchorMap.mkRECT (-2147483648) 0 10 20) AnchorMap.MARGIN_ALL
  = AnchorMap.mkRECT 2147483647 5 8 (-3).
Proof.
  apply margins_round_trip. unfold AnchorMap.RECT_ok, AnchorMap.is_LONG. cbn. lia.
Defined.

(** X7: The reverse margins of [a] and [b] are the margins of [b] and [a], and
    the margins of [a] and [b] negated. *)
Theorem reverse_margins_swap (a b : AnchorMap.RECT) :
  AnchorMap.calculateReverseMargins a b = AnchorMap.calculateMargins b a /\
  AnchorMap.calculateReverseMargins a b
  = let m := AnchorMap.calculateMargins a b in
    AnchorMap.mkOFFSETRECT
      (AnchorMap.LONG_wrap (- AnchorMap.leftMargin m))
      (AnchorMap.LONG_wrap (- AnchorMap.topMargin m))
      (AnchorMap.LONG_wrap (- AnchorMap.rightMargin m))
      (AnchorMap.LONG_wrap (- AnchorMap.bottomMargin m)).
Proof.
  split; [reflexivity|].
  assert (Hneg : forall u v,
            AnchorMap.LONG_wrap (u - v)
            = AnchorMap.LONG_wrap (- AnchorMap.LONG_wrap (v - u))).
  { intros u v. unfold AnchorMap.LONG_wrap. f_equal.
    replace (- ((v - u + 2147483648) mod 4294967296 - 2147483648) + 2147483648)%Z
      with (4294967296 - (v - u + 2147483648) mod 4294967296)%Z by lia.
    rewrite Zminus_mod_idemp_r. f_equal. lia. }
  unfold AnchorMap.calculateReverseMargins, AnchorMap.calculateMargins. cbn.
  now rewrite <- !Hneg.
Qed.

(** X8: Inverting twice with the same flags gives the margins back; flags
    without the two low bits invert nothing. *)
Theorem invertOffsetRect_involutive (m : AnchorMap.OFFSETRECT) (flags : Z) :
  AnchorMap.invertOffsetRect (AnchorMap.invertOffsetRect m flags) flags = m /\
  (Z.land flags AnchorMap.INVERT_BOTH = 0%Z -> AnchorMap.invertOffsetRect m flags = m).
Proof.
  destruct m as [l t r b]. unfold AnchorMap.invertOffsetRect, AnchorMap.CopyOffsetRect.
  split.
  - destruct (AnchorMap.has_flag flags AnchorMap.INVERT_HORIZONTAL),
      (AnchorMap.has_flag flags AnchorMap.INVERT_VERTICAL); reflexivity.
  - intros H.
    assert (H1 : AnchorMap.has_flag flags AnchorMap.INVERT_HORIZONTAL = false).
    { unfold AnchorMap.has_flag, AnchorMap.INVERT_HORIZONTAL.
      apply negb_false_iff, Z.eqb_eq.
      change 1%Z with (Z.land AnchorMap.INVERT_BOTH 1).
      now rewrite Z.land_assoc, H. }
    assert (H2 : AnchorMap.has_flag flags AnchorMap.INVERT_VERTICAL = false).
    { unfold AnchorMap.has_flag, AnchorMap.INVERT_VERTICAL.
      apply negb_false_iff, Z.eqb_eq.
      change 2%Z with (Z.land AnchorMap.INVERT_BOTH 2).
      now rewrite Z.land_assoc, H. }
    now rewrite H1, H2.
Qed.

Lemma invertOffsetRect_involutive_witness :
  AnchorMap.invertOffsetRect (AnchorMap.mkOFFSETRECT 1 2 3 4) 4
  = AnchorMap.mkOFFSETRECT 1 2 3 4.
Proof.
  exact (proj2 (invertOffsetRect_involutive (AnchorMap.mkOFFSETRECT 1 2 3 4) 4)
           eq_refl).
Defined.

(** X9: Moving never changes the left margin: the horizontal displacement goes
    to the top and right margins, the vertical one to the top and bottom
    margins.  Moving twice is moving once by the sum. *)
Theorem moveOffsetRect_moves (m : AnchorMap.OFFSETRECT) (d d' : AnchorMap.POINT) :
  AnchorMap.moveOffsetRect m d
  = AnchorMap.mkOFFSETRECT
      (AnchorMap.leftMargin m)
      (AnchorMap.LONG_wrap (AnchorMap.topMargin m + AnchorMap.x d + AnchorMap.y d))
      (AnchorMap.LONG_wrap (AnchorMap.rightMargin m + AnchorMap.x d))
      (AnchorMap.LONG_wrap (AnchorMap.bottomMargin m + AnchorMap.y d)) /\
  AnchorMap.moveOffsetRect (AnchorMap.moveOffsetRect m d) d'
  = AnchorMap.moveOffsetRect m (AnchorMap.add_points d d').
Proof.
  destruct m as [l t r b], d as [dx dy], d' as [ex ey].
  unfold AnchorMap.moveOffsetRect, AnchorMap.add_points. cbn.
  split.
  - now rewrite LONG_wrap_add_l.
  - rewrite !LONG_wrap_add_l, !LONG_wrap_add_r. f_equal.
    + replace (AnchorMap.LONG_wrap (t + dx + dy) + ex + ey)%Z
        with (AnchorMap.LONG_wrap (t + dx + dy) + (ex + ey))%Z by lia.
      replace (t + AnchorMap.LONG_wrap (dx + ex) + (dy + ey))%Z
        with (AnchorMap.LONG_wrap (dx + ex) + (t + (dy + ey)))%Z by lia.
      rewrite !LONG_wrap_add_l. f_equal. lia.
    + f_equal. lia.
    + f_equal. lia.
Qed.

(** X10: Only the four low bits of the flags count, each for its side: a side
    whose bit is clear stays as it is. *)
Theorem applyMargins_by_side (m : AnchorMap.OFFSETRECT) (t : AnchorMap.RECT)
    (flags : Z) :
  AnchorMap.applyMargins m t flags
  = AnchorMap.applyMargins m t (Z.land flags AnchorMap.MARGIN_ALL) /\
  AnchorMap.applyMargins m t flags
  = AnchorMap.mkRECT
      (if Z.testbit flags 0
       then AnchorMap.LONG_wrap (AnchorMap.left t + AnchorMap.leftMargin m)
       else AnchorMap.left t)
      (if Z.testbit flags 1
       then AnchorMap.LONG_wrap (AnchorMap.top t + AnchorMap.topMargin m)
       else AnchorMap.top t)
      (if Z.testbit flags 2
       then AnchorMap.LONG_wrap (AnchorMap.right t + AnchorMap.rightMargin m)
       else AnchorMap.right t)
      (if Z.testbit flags 3
       then AnchorMap.LONG_wrap (AnchorMap.bottom t + AnchorMap.bottomMargin m)
       else AnchorMap.bottom t).
Proof.
  assert (Hbit : forall f k, (0 <= k)%Z ->
            AnchorMap.has_flag f (2 ^ k) = Z.testbit f k).
  { intros f k Hk. unfold AnchorMap.has_flag.
    destruct (Z.testbit f k) eqn:E.
    - apply negb_true_iff, Z.eqb_neq. intros H.
      assert (Hb : Z.testbit (Z.land f (2 ^ k)) k = true)
        by (rewrite Z.land_spec, E, Z.pow2_bits_true; auto).
      rewrite H, Z.bits_0 in Hb. discriminate.
    - apply negb_false_iff, Z.eqb_eq, Z.bits_inj'. intros n Hn.
      rewrite Z.land_spec, Z.bits_0.
      destruct (Z.eq_dec n k) as [->|Hne].
      + now rewrite E.
      + rewrite (Z.pow2_bits_false k n) by congruence. apply andb_false_r. }
  assert (Hall : forall f k, (0 <= k < 4)%Z ->
            Z.testbit (Z.land f AnchorMap.MARGIN_ALL) k = Z.testbit f k).
  { intros f k Hk. rewrite Z.land_spec.
    assert (Hk' : (k = 0 \/ k = 1 \/ k = 2 \/ k = 3)%Z) by lia.
    destruct Hk' as [->|[->|[->| ->]]]; apply andb_true_r. }
  assert (Hflag : forall f,
            AnchorMap.has_flag f AnchorMap.MARGIN_LEFT = Z.testbit f 0 /\
            AnchorMap.has_flag f AnchorMap.MARGIN_TOP = Z.testbit f 1 /\
            AnchorMap.has_flag f AnchorMap.MARGIN_RIGHT = Z.testbit f 2 /\
            AnchorMap.has_flag f AnchorMap.MARGIN_BOTTOM = Z.testbit f 3).
  { intros f. repeat split.
    - exact (Hbit f 0%Z ltac:(lia)).
    - exact (Hbit f 1%Z ltac:(lia)).
    - exact (Hbit f 2%Z ltac:(lia)).
    - exact (Hbit f 3%Z ltac:(lia)). }
  unfold AnchorMap.applyMargins.
  destruct (Hflag flags) as (-> & -> & -> & ->).
  destruct (Hflag (Z.land flags AnchorMap.MARGIN_ALL)) as (-> & -> & -> & ->).
  rewrite !Hall by lia.
  split; [reflexivity|]. destruct t as [l tp r b].
  destruct (Z.testbit flags 0), (Z.testbit flags 1), (Z.testbit flags 2),
    (Z.testbit flags 3); reflexivity.
Qed.

(* ================================================================= *)
(** * The disassembler's output *)

Lemma exec_Dot (defs : string -> Regex) (f : nat) (st : MatchState) :
  exec defs (S f) Dot st = Some (eat not_LF st).
Proof. reflexivity. Qed.

Lemma exec_line_none (f : nat) (st : MatchState) :
  stops not_LF (rest st) = true ->
  exec no_groups (S f) (Plus Dot) st = Some [].
Proof.
  intros H. unfold Plus. rewrite exec_Seq, exec_Dot. now rewrite (eat_stops _ st H).
Qed.

Lemma exec_line (f : nat) (st : MatchState) (w r : text) :
  w <> [] -> rest st = w ++ r -> forallb not_LF w = true -> stops not_LF r = true ->
  exists l, exec no_groups (S f) (Plus Dot) st = Some (skip (List.length w) st :: l).
Proof.
  intros Hne Hr Hw Hs. destruct w as [|x w]; [contradiction|].
  cbn [forallb] in Hw. apply andb_true_iff in Hw. destruct Hw as [Hx Hw].
  unfold Plus. rewrite exec_Seq, exec_Dot. unfold eat. rewrite Hr. cbn [app].
  rewrite Hx, collect_one, exec_Star.
  assert (Hr' : rest (advance st) = w ++ r) by (unfold advance; now rewrite Hr).
  destruct (repeat_run not_LF (exec no_groups (S f) Dot)
              (fun s => exec_Dot no_groups f s) w
              (S (List.length (rest (advance st)))) (advance st) r Hr' Hw Hs)
    as [l Hl]; [lia|].
  exists l. rewrite Hl. reflexivity.
Qed.

Lemma filter_run (p : unit_t -> bool) (w r : text) :
  forallb p w = true -> filter p (w ++ r) = w ++ filter p r.
Proof.
  induction w as [|x w IH]; [reflexivity|]. cbn [forallb app filter].
  rewrite andb_true_iff. intros [-> Hw]. now rewrite IH.
Qed.

Lemma lines_from_here (g : text) :
  forall (b e n : nat),
    List.length (skipn e g) <= b -> b <= n ->
    List.concat (map (whole g)
                     (matches_from FORMATDISASMREGEX g n
                        (pcre2_match FORMATDISASMREGEX g e false)))
    = filter not_LF (skipn e g).
Proof.
  induction b as [|b IH]; intros e n Hb Hn.
  - destruct (skipn e g) as [|x r] eqn:E; [|simpl in Hb; lia].
    rewrite (pcre2_match_end FORMATDISASMREGEX g e E); [reflexivity|].
    rewrite depth_budget_S. apply exec_line_none.
    change (rest (keep (state_at g e))) with (rest (state_at g e)).
    now rewrite state_at_rest, E.
  - destruct (longest_run not_LF (skipn e g)) as (w & r & Er & Hw & Hs).
    destruct w as [|x w].
    + cbn [app] in Er. destruct r as [|y r].
      * rewrite (pcre2_match_end FORMATDISASMREGEX g e Er); [now rewrite Er|].
        rewrite depth_budget_S. apply exec_line_none.
        change (rest (keep (state_at g e))) with (rest (state_at g e)).
        now rewrite state_at_rest, Er.
      * rewrite (pcre2_match_skip FORMATDISASMREGEX g e y r); [| |exact Er].
        -- rewrite Er. cbn [filter]. cbn [stops] in Hs. apply negb_true_iff in Hs.
           rewrite Hs. rewrite <- (skipn_S_cons g e y r Er).
           apply IH; [|lia]. rewrite (skipn_S_cons g e y r Er).
           rewrite Er in Hb. simpl in Hb. lia.
        -- rewrite depth_budget_S. apply exec_line_none.
           change (rest (keep (state_at g e))) with (rest (state_at g e)).
           now rewrite state_at_rest, Er.
    + assert (Hrest : rest (keep (state_at g e)) = (x :: w) ++ r)
        by (change (rest (keep (state_at g e))) with (rest (state_at g e));
            now rewrite state_at_rest).
      destruct (exec_line (List.length g + 7) (keep (state_at g e)) (x :: w) r
                  ltac:(discriminate) Hrest Hw Hs) as [l Hl].
      rewrite <- depth_budget_S in Hl.
      rewrite (pcre2_match_first FORMATDISASMREGEX g e _ l Hl).
      destruct (at_line_start g e x (w ++ r) Er) as (Hp & _ & _ & Hle).
      destruct (skip_over (keep (state_at g e)) (x :: w) r Hrest) as [Hr2 Hp2].
      set (m := skip (List.length (x :: w)) (keep (state_at g e))) in *.
      assert (Hstart : start m = e).
      { unfold m. rewrite skip_start.
        change (start (keep (state_at g e))) with (pos (keep (state_at g e))).
        exact Hp. }
      rewrite Hp in Hp2.
      cbn [matches_from map List.concat].
      destruct n as [|n]; [lia|].
      rewrite match_more_from by (rewrite Hstart, Hp2; simpl; lia).
      rewrite Er, (filter_run not_LF (x :: w) r Hw). f_equal.
      * unfold whole. rewrite Hstart, Hp2, Er.
        replace (e + List.length (x :: w) - e) with (List.length (x :: w) + 0) by lia.
        rewrite firstn_app_2. cbn [firstn]. apply app_nil_r.
      * rewrite Hp2.
        assert (Hsk : skipn (e + List.length (x :: w)) g = r)
          by (rewrite <- skipn_skipn_add, Er, skipn_app, skipn_all, Nat.sub_diag;
              reflexivity).
        rewrite <- Hsk. apply IH; [|lia].
        rewrite Hsk. rewrite Er, length_app in Hb. simpl in Hb. lia.
Qed.

Lemma formatedCode_filter (g : text) : formatedCode g = filter not_LF g.
Proof.
  unfold formatedCode. rewrite match_all_from.
  apply (lines_from_here g (List.length g) 0); simpl; lia.
Qed.

(** X11: Unless the library reports that it could not be initialized, the
    disassembler hands [bufferToFile] the generated code with every line
    feed taken out and everything else, carriage returns too, left in; the
    flag returned is the flag of [bufferToFile]. *)
Theorem disassembly_written_without_line_feeds (D : Disassembler)
    (fileContents : text) :
  NscDisassembleScript D fileContents <> DISASSEMBLY_ERROR ->
  exists log,
    disassembleBinary D fileContents
    = (bufferToFile D (disassembled_path D)
         (filter not_LF (NscDisassembleScript D fileContents)),
       log,
       Some (disassembled_path D,
             filter not_LF (NscDisassembleScript D fileContents))).
Proof.
  intros H. unfold disassembleBinary.
  destruct (list_eq_dec N.eq_dec _ DISASSEMBLY_ERROR) as [E|_]; [contradiction|].
  rewrite formatedCode_filter.
  destruct (bufferToFile D _ _); eexists; reflexivity.
Qed.

Lemma disassembly_written_without_line_feeds_witness :
  exists log,
    disassembleBinary
      (mkDisassembler (fun s => s) (str "out.ncs.pcode") (fun _ _ => true))
      [97%N; 13%N; 10%N; 10%N; 98%N; 13%N; 10%N]
    = (true, log, Some (str "out.ncs.pcode", [97%N; 13%N; 98%N; 13%N])).
Proof.
  apply (disassembly_written_without_line_feeds
           (mkDisassembler (fun s => s) (str "out.ncs.pcode") (fun _ _ => true))
           [97%N; 13%N; 10%N; 10%N; 98%N; 13%N; 10%N]).
  discriminate.
Defined.

(* ================================================================= *)
(** * Compiling a script *)

Lemma testbit_flag (f k : Z) :
  (0 <= k)%Z -> flag_set f (2 ^ k) = Z.testbit f k.
Proof.
  intros Hk. unfold flag_set. destruct (Z.testbit f k) eqn:E.
  - apply Z.eqb_eq, Z.bits_inj'. intros n Hn. rewrite Z.land_spec.
    destruct (Z.eq_dec n k) as [->|Hne].
    + now rewrite E, Z.pow2_bits_true.
    + rewrite (Z.pow2_bits_false k n) by congruence. apply andb_false_r.
  - apply Z.eqb_neq. intros H.
    assert (Hb : Z.testbit (Z.land f (2 ^ k)) k = false)
      by (rewrite Z.land_spec, E; reflexivity).
    rewrite H, Z.pow2_bits_true in Hb by exact Hk. discriminate.
Qed.

Lemma testbit_set (f k n : Z) :
  (0 <= k)%Z -> (0 <= n)%Z ->
  Z.testbit (Z.lor f (2 ^ k)) n = (Z.testbit f n || Z.eqb n k)%bool.
Proof.
  intros Hk Hn. rewrite Z.lor_spec. destruct (Z.eqb_spec n k) as [->|Hne].
  - now rewrite Z.pow2_bits_true.
  - now rewrite (Z.pow2_bits_false k n) by congruence.
Qed.

Lemma testbit_clear (f k n : Z) :
  (0 <= k)%Z -> (0 <= n)%Z ->
  Z.testbit (Z.land f (Z.lnot (2 ^ k))) n = (Z.testbit f n && negb (Z.eqb n k))%bool.
Proof.
  intros Hk Hn. rewrite Z.land_spec, Z.lnot_spec by exact Hn.
  destruct (Z.eqb_spec n k) as [->|Hne].
  - now rewrite Z.pow2_bits_true.
  - now rewrite (Z.pow2_bits_false k n) by congruence.
Qed.

(** X12: The flags [NscCompileScript] is called with: ShowIncludes is always
    set; for a dependency view GenerateMakeDeps and SuppressWarnings are set
    and the optimizer is off, whatever else was asked; for the preprocessor
    output alone they are cleared, ShowPreprocessed is set and the optimizer
    is off; otherwise the flags are those of the settings with ShowIncludes
    and the optimizer is as the settings have it. *)
Theorem compile_options_by_mode (C : Compiler) (S_ : Settings) (fetch view : bool) :
  flags_apart C ->
  let flags := fst (compile_options C S_ fetch view) in
  let bOptimize := snd (compile_options C S_ fetch view) in
  flag_set flags (NscCompilerFlag_ShowIncludes C) = true /\
  (view = true ->
     flag_set flags (NscCompilerFlag_GenerateMakeDeps C) = true /\
     flag_set flags (NscCompilerFlag_SuppressWarnings C) = true /\
     bOptimize = false) /\
  (fetch = true -> view = false ->
     flag_set flags (NscCompilerFlag_GenerateMakeDeps C) = false /\
     flag_set flags (NscCompilerFlag_SuppressWarnings C) = false /\
     flag_set flags (NscCompilerFlag_ShowPreprocessed C) = true /\
     bOptimize = false) /\
  (fetch = false -> view = false ->
     flags = Z.lor (compilerFlags S_) (NscCompilerFlag_ShowIncludes C) /\
     bOptimize = optimizeScript S_).
Proof.
  intros (i & g & s & p & (Hi & Hg & Hs & Hp) & Hig & His & Hip & Hgs & Hgp & Hsp
          & Ei & Eg & Es & Ep).
  unfold compile_options. rewrite Ei, Eg, Es, Ep.
  assert (Hne : forall a b : Z, a <> b -> Z.eqb a b = false)
    by (intros a b H; now apply Z.eqb_neq).
  destruct fetch, view; cbn [fst snd]; rewrite !testbit_flag by assumption;
    repeat first [ rewrite testbit_set by assumption
                 | rewrite testbit_clear by assumption ];
    rewrite ?Z.eqb_refl, ?(Hne i g), ?(Hne i s), ?(Hne i p), ?(Hne g s), ?(Hne g p),
      ?(Hne s p), ?(Hne g i), ?(Hne s i), ?(Hne p i), ?(Hne s g), ?(Hne p g),
      ?(Hne p s) by congruence;
    rewrite ?orb_true_r, ?andb_false_r, ?andb_true_r, ?orb_false_r;
    repeat split; try discriminate; try reflexivity;
    cbn; rewrite ?orb_true_r, ?andb_false_r; auto.
Qed.

Lemma compile_options_by_mode_witness :
  flag_set (fst (compile_options (sample_compiler NscResult_Success)
                   (mkSettings 174 true 0 false) true true)) 2 = true /\
  snd (compile_options (sample_compiler NscResult_Success)
         (mkSettings 174 true 0 false) true true) = false.
Proof.
  assert (Ha : flags_apart (sample_compiler NscResult_Success)).
  { exists 0%Z, 1%Z, 2%Z, 3%Z. cbn. repeat split; try lia; discriminate. }
  destruct (compile_options_by_mode (sample_compiler NscResult_Success)
              (mkSettings 174 true 0 false) true true Ha) as (_ & Hv & _).
  destruct (Hv eq_refl) as (H1 & _ & H3). split; [exact H1 | exact H3].
Defined.

(** X13: What [compileScript] writes.  Unless the library reports success and
    neither the preprocessor output nor the dependency view is asked for,
    no file is written.  Otherwise the compiled code goes first, to the
    stem of the source under the destination directory; every write but the
    last one made has succeeded, and the call returns true exactly when all
    of them have. *)
Theorem compileScript_writes (C : Compiler) (S_ : Settings) (fetch view : bool)
    (fileContents fileResRef : text) :
  let out := compiled C S_ fetch view fileContents fileResRef in
  let r := compileScript C S_ fetch view fileContents fileResRef in
  let W := filter is_write (snd r) in
  (result out <> NscResult_Success \/ fetch = true \/ view = true -> W = []) /\
  (result out = NscResult_Success -> fetch = false -> view = false ->
     (exists rest,
        W = Written (output_path C (compiledScriptSuffix C)) (generatedCode out)
            :: rest) /\
     forallb (succeeded C) (removelast W) = true /\
     fst r = forallb (succeeded C) W).
Proof.
  cbv zeta. unfold compileScript.
  set (out := compiled C S_ fetch view fileContents fileResRef).
  destruct (compile_options C S_ fetch view) as [flags bOptimize].
  split.
  - intros H. destruct (result out) eqn:R.
    + reflexivity.
    + reflexivity.
    + destruct fetch; [reflexivity|]. destruct view; [reflexivity|].
      destruct H as [H | [H | H]]; [now elim H | discriminate | discriminate].
    + reflexivity.
  - intros R -> ->. rewrite R.
    destruct (writes C (output_path C (compiledScriptSuffix C)) (generatedCode out))
      eqn:W1; cbn [negb].
    2:{ cbn [app filter is_write snd fst forallb succeeded removelast].
        rewrite W1. repeat split; eauto. }
    assert (Hdeps : forall done,
      filter is_write done =
        [Written (output_path C (compiledScriptSuffix C)) (generatedCode out)]
      \/ (filter is_write done =
            [Written (output_path C (compiledScriptSuffix C)) (generatedCode out);
             Written (output_path C (debugSymbolsFileSuffix C)) (debugSymbols out)]
          /\ writes C (output_path C (debugSymbolsFileSuffix C)) (debugSymbols out)
             = true) ->
      forall r,
      r = (if negb (Z.eqb (Z.land (compilerFlags S_)
                                  (NscCompilerFlag_GenerateMakeDeps C)) 0)
           then let '(ok, more) := MakeDependenciesFile C (fileDependencies out) in
                (ok, done ++ more)
           else (true, done)) ->
      (exists rest,
         filter is_write (snd r) =
         Written (output_path C (compiledScriptSuffix C)) (generatedCode out) :: rest)
      /\ forallb (succeeded C) (removelast (filter is_write (snd r))) = true
      /\ fst r = forallb (succeeded C) (filter is_write (snd r))).
    { intros done Hdone r ->.
      assert (Hplain :
        (exists rest, filter is_write done =
           Written (output_path C (compiledScriptSuffix C)) (generatedCode out) :: rest)
        /\ forallb (succeeded C) (removelast (filter is_write done)) = true
        /\ true = forallb (succeeded C) (filter is_write done)
        /\ forallb (succeeded C) (filter is_write done) = true).
      { destruct Hdone as [-> | [-> W2]];
          cbn [forallb succeeded removelast andb]; rewrite ?W1, ?W2;
          repeat split; eauto. }
      destruct Hplain as (Hhead & Hlast & Hall & Hall').
      destruct (negb _); [| cbn [fst snd]; auto].
      unfold MakeDependenciesFile. destruct (fileDependencies out) as [|d ds].
      { cbn [fst snd]. rewrite app_nil_r. auto. }
      match goal with |- context [writes C ?p ?t] =>
        destruct (writes C p t) eqn:W3 end;
        cbn [fst snd]; rewrite filter_app;
        cbn [filter is_write];
        (split; [destruct Hhead as [rest ->]; cbn [app]; eauto |]);
        rewrite removelast_last, forallb_app;
        cbn [forallb succeeded]; rewrite W3, Hall'; auto. }
    destruct (generateSymbols S_).
    + destruct (writes C (output_path C (debugSymbolsFileSuffix C)) (debugSymbols out))
        eqn:W2 in |- *; cbn [negb andb].
      2:{ cbn [app filter is_write snd fst forallb succeeded removelast].
          rewrite W1, W2. repeat split; eauto. }
      eapply Hdeps; [| reflexivity]. right. split; [reflexivity | exact W2].
    + cbn [andb]. eapply Hdeps; [| reflexivity]. left. reflexivity.
Qed.

Lemma compileScript_writes_witness :
  filter is_write
    (snd (compileScript (sample_compiler NscResult_Success)
            (mkSettings 174 true 2 true) false false (str "void main(){}") (str "s")))
  = [Written (str "out" ++ BACKSLASH :: str "s.ncs") (str "code");
     Written (str "out" ++ BACKSLASH :: str "s.ndb") (str "symbols");
     Written (str "out" ++ BACKSLASH :: str "s.d")
       (DQUOTE :: str "s" ++ DQUOTE :: str ".ncs: "
        ++ DQUOTE :: str "s" ++ DQUOTE :: str ".nss "
        ++ BACKSLASH :: LF :: str "    a/b" ++ LF :: str "a/b" ++ [LF])]
  /\ fst (compileScript (sample_compiler NscResult_Success)
            (mkSettings 174 true 2 true) false false (str "void main(){}") (str "s"))
     = true.
Proof.
  destruct (compileScript_writes (sample_compiler NscResult_Success)
              (mkSettings 174 true 2 true) false false (str "void main(){}") (str "s"))
    as (_ & H).
  destruct (H eq_refl eq_refl eq_refl) as (_ & _ & E).
  split; [vm_compute; reflexivity | rewrite E; vm_compute; reflexivity].
Defined.

(* ================================================================= *)
(** * Where on its line a declaration stands *)

Section Parts.
Variable defs : string -> Regex.
Variable f : nat.

Lemma seq_In a b st l m :
  exec defs (S f) (Seq a b) st = Some l -> In m l ->
  exists la s lb,
    exec defs (S f) a st = Some la /\ In s la /\
    exec defs (S f) b s = Some lb /\ In m lb.
Proof.
  rewrite exec_Seq. intros H Hm.
  destruct (exec defs (S f) a st) as [la|] eqn:Ea; [|discriminate].
  apply (collect_some _ _ _ H) in Hm. destruct Hm as (s & lb & Hs & Hb & Hm).
  exists la, s, lb. auto.
Qed.

Lemma atomic_In a st l m :
  exec defs (S f) (Atomic a) st = Some l -> In m l ->
  exists la, exec defs (S f) a st = Some la /\ In m la.
Proof.
  rewrite exec_Atomic. intros H Hm.
  destruct (exec defs (S f) a st) as [[|s la]|]; simpl in H; inversion H; subst.
  - contradiction.
  - destruct Hm as [Heq|[]]. exists (s :: la). split; [reflexivity | now left].
Qed.

Lemma bol_In st l m :
  exec defs (S f) Bol st = Some l -> In m l -> m = st /\ at_bol st = true.
Proof.
  rewrite exec_Bol. intros H Hm. inversion H; subst.
  destruct (at_bol st); [|contradiction]. destruct Hm as [<-|[]]. auto.
Qed.

Lemma keep_In st l m :
  exec defs (S f) Keep st = Some l -> In m l -> m = keep st.
Proof.
  rewrite exec_Keep. intros H Hm. inversion H; subst. now destruct Hm as [<-|[]].
Qed.

Lemma capture_In n a st l m :
  exec defs (S f) (Capture n a) st = Some l -> In m l ->
  exists la s, exec defs (S f) a st = Some la /\ In s la /\ m = set_cap n (pos st) s.
Proof.
  rewrite exec_Capture. intros H Hm.
  destruct (exec defs (S f) a st) as [la|] eqn:Ea; [|discriminate].
  inversion H; subst. apply in_map_iff in Hm. destruct Hm as (s & <- & Hs).
  exists la, s. auto.
Qed.

Lemma lit_In x st l m :
  exec defs (S f) (Lit x) st = Some l -> In m l ->
  rest st = x :: rest m /\ pos m = S (pos st).
Proof.
  rewrite exec_Lit. intros H Hm. inversion H; subst. unfold eat in Hm.
  destruct (rest st) as [|y r] eqn:Er; [contradiction|].
  destruct (N.eqb_spec x y) as [->|]; [|contradiction].
  destruct Hm as [<-|[]]. unfold advance. rewrite Er. auto.
Qed.

(** A match adds groups in front of those it found, and only groups that
    the pattern names. *)
Lemma exec_names (n : string) :
  forall r st l, exec defs (S f) r st = Some l ->
  Forall (fun m => exists more, caps m = more ++ caps st /\
                   (names n r = false -> lookup_cap n more = None)) l.
Proof.
  set (R := fun n (a b : MatchState) =>
              exists more, caps b = more ++ caps a /\ lookup_cap n more = None).
  assert (Rrefl : forall a, R n a a) by (intros a; now exists []).
  assert (Happ : forall m1 m2, lookup_cap n m1 = None -> lookup_cap n m2 = None ->
                               lookup_cap n (m2 ++ m1) = None).
  { intros m1 m2 H1. induction m2 as [|[k v] m2 IH]; simpl; auto.
    destruct (String.eqb k n); [discriminate | auto]. }
  assert (Rtrans : forall a b c, R n a b -> R n b c -> R n a c).
  { intros a b c' (m1 & H1 & L1) (m2 & H2 & L2). exists (m2 ++ m1).
    split; [now rewrite H2, H1, app_assoc | now apply Happ]. }
  induction r as [| x | | neg items | a IHa b IHb | a IHa b IHb
                 | lazy a IHa | a IHa | negative a IHa
                 | name a IHa | name | | ]; intros st l H.
  - inversion H; subst. constructor; [|constructor]. exists []. auto.
  - inversion H; subst. apply Forall_forall. intros m Hm.
    unfold eat in Hm. destruct (rest st); [contradiction|].
    destruct (N.eqb x u); [|contradiction]. destruct Hm as [<-|[]].
    exists []. rewrite advance_caps. auto.
  - inversion H; subst. apply Forall_forall. intros m Hm.
    unfold eat in Hm. destruct (rest st); [contradiction|].
    destruct (negb _); [|contradiction]. destruct Hm as [<-|[]].
    exists []. rewrite advance_caps. auto.
  - inversion H; subst. apply Forall_forall. intros m Hm.
    unfold eat in Hm. destruct (rest st); [contradiction|].
    destruct (class_has _ _ _); [|contradiction]. destruct Hm as [<-|[]].
    exists []. rewrite advance_caps. auto.
  - apply Forall_forall. intros m Hm.
    destruct (seq_In _ _ _ _ _ H Hm) as (la & s & lb & Ea & Hs & Eb & Hmb).
    specialize (IHa _ _ Ea). specialize (IHb _ _ Eb).
    rewrite Forall_forall in IHa, IHb.
    destruct (IHa s Hs) as (m1 & Hc1 & L1). destruct (IHb m Hmb) as (m2 & Hc2 & L2).
    exists (m2 ++ m1). split; [now rewrite Hc2, Hc1, app_assoc|].
    cbn [names]. rewrite orb_false_iff. intros [Ha Hb]. apply Happ; auto.
  - rewrite exec_Alt in H.
    destruct (exec defs (S f) a st) as [la|] eqn:Ea; [|discriminate].
    destruct (exec defs (S f) b st) as [lb|] eqn:Eb; [|discriminate].
    inversion H; subst. cbn [names]. apply Forall_app. split.
    + eapply Forall_impl; [|apply (IHa _ _ Ea)]. intros m (more & Hc & Hs).
      exists more. split; [exact Hc|]. rewrite orb_false_iff. intros [Hx _]. auto.
    + eapply Forall_impl; [|apply (IHb _ _ Eb)]. intros m (more & Hc & Hs).
      exists more. split; [exact Hc|]. rewrite orb_false_iff. intros [_ Hx]. auto.
  - rewrite exec_Star in H. cbn [names].
    destruct (names n a) eqn:Na.
    + pose proof (repeat_rel extends lazy (exec defs (S f) a) extends_refl
                    extends_trans) as Hrep.
      assert (Hall : Forall (extends st) l).
      { eapply Hrep; [|exact H]. intros s r Hs.
        eapply Forall_impl; [|apply (IHa _ _ Hs)]. intros m (more & Hc & _).
        now exists more. }
      eapply Forall_impl; [|exact Hall]. intros m [more Hc].
      exists more. split; [exact Hc | discriminate].
    + pose proof (repeat_rel (R n) lazy (exec defs (S f) a) Rrefl Rtrans) as Hrep.
      assert (Hall : Forall (R n st) l).
      { eapply Hrep; [|exact H]. intros s r Hs.
        eapply Forall_impl; [|apply (IHa _ _ Hs)]. intros m (more & Hc & Hl).
        exists more. auto. }
      eapply Forall_impl; [|exact Hall]. intros m (more & Hc & Hl).
      exists more. auto.
  - rewrite exec_Atomic in H.
    destruct (exec defs (S f) a st) as [[|s la]|] eqn:Ea; simpl in H;
      inversion H; subst; [constructor|].
    specialize (IHa _ _ Ea). inversion IHa; subst.
    constructor; [assumption | constructor].
  - rewrite exec_Look in H.
    destruct (exec defs (S f) a st) as [[|s la]|] eqn:Ea; [| |discriminate];
      inversion H; subst; destruct negative.
    + constructor; [|constructor]. exists []. auto.
    + constructor.
    + constructor.
    + specialize (IHa _ _ Ea). inversion IHa as [|? ? (more & Hc & Hl) _]; subst.
      constructor; [|constructor]. exists more. auto.
  - apply Forall_forall. intros m Hm.
    destruct (capture_In _ _ _ _ _ H Hm) as (la & s & Ea & Hs & ->).
    specialize (IHa _ _ Ea). rewrite Forall_forall in IHa.
    destruct (IHa s Hs) as (more & Hc & Hl).
    exists ((name, (pos st, pos s)) :: more). split.
    + unfold set_cap, with_caps; cbn [caps]. now rewrite Hc.
    + cbn [names lookup_cap]. rewrite orb_false_iff. intros [-> Hx]. auto.
  - rewrite exec_Call in H.
    destruct (exec defs f (defs name) st) as [lb|]; [|discriminate].
    inversion H; subst. apply Forall_forall. intros m Hm.
    apply in_map_iff in Hm. destruct Hm as (s & <- & Hs).
    exists []. auto.
  - rewrite exec_Bol in H. inversion H; subst.
    destruct (at_bol st); constructor; [|constructor]. exists []. auto.
  - rewrite exec_Keep in H. inversion H; subst.
    constructor; [|constructor]. exists []. auto.
Qed.
End Parts.

Lemma nth_error_skipn (A : Type) (l : list A) (o : nat) (x : A) (r : list A) :
  skipn o l = x :: r -> nth_error l o = Some x.
Proof.
  revert l. induction o as [|o IH]; intros [|y l] H; simpl in *; try discriminate.
  - now inversion H.
  - now apply IH.
Qed.

Lemma at_bol_begins_line (subject : text) (s : MatchState) :
  on_subject subject s -> at_bol s = true -> begins_line subject (pos s).
Proof.
  intros (Hp & Hprev & _) Hb. unfold begins_line.
  destruct (pos s) as [|o] eqn:Ep; [now left|]. right.
  replace (S o - 1) with o by lia.
  destruct (skipn o subject) as [|x r] eqn:Es.
  { assert (Hlen : List.length (skipn o subject) = 0) by now rewrite Es.
    rewrite length_skipn in Hlen. lia. }
  rewrite (state_at_prev subject o x r Es) in Hprev.
  unfold at_bol in Hb. rewrite Hprev in Hb.
  apply andb_true_iff in Hb. destruct Hb as [Hx _]. apply N.eqb_eq in Hx. subst x.
  exact (nth_error_skipn _ _ _ _ _ Es).
Qed.

(** What comes after \K in the constant pattern, inside its atomic group. *)
Lemma after_keep_type (defs : string -> Regex) (f : nat) (a tail : Regex)
    (st m : MatchState) (l : list MatchState) :
  (forall n, shape false true (defs n) = true) ->
  shape false true a = true -> shape false true tail = true ->
  names "type" tail = false ->
  exec defs (S f) (Seq Keep (Seq (Capture "type" a) tail)) st = Some l ->
  In m l ->
  start m = pos st /\ exists e, lookup_cap "type" (caps m) = Some (pos st, e).
Proof.
  intros Hdefs Ha Htail Hnames H Hm.
  destruct (seq_In _ _ _ _ _ _ _ H Hm) as (l1 & s1 & l2 & E1 & Hs1 & E2 & Hm2).
  apply (keep_In _ _ _ _ _ E1) in Hs1. subst s1.
  destruct (seq_In _ _ _ _ _ _ _ E2 Hm2) as (l3 & s3 & l4 & E3 & Hs3 & E4 & Hm4).
  destruct (capture_In _ _ _ _ _ _ _ E3 Hs3) as (l5 & s5 & E5 & Hs5 & ->).
  pose proof (exec_follows defs false Hdefs (S f) true a _ _ Ha E5) as F5.
  rewrite Forall_forall in F5. destruct (F5 s5 Hs5) as (_ & St5 & _).
  pose proof (exec_follows defs false Hdefs (S f) true tail _ _ Htail E4) as F4.
  rewrite Forall_forall in F4. destruct (F4 m Hm4) as (_ & St4 & _).
  split.
  - rewrite (St4 eq_refl). unfold set_cap, with_caps; cbn [start].
    now rewrite (St5 eq_refl).
  - pose proof (exec_names defs f "type" tail _ _ E4) as N4.
    rewrite Forall_forall in N4. destruct (N4 m Hm4) as (more & Hc & Hl).
    exists (pos s5). rewrite Hc.
    assert (Hfront : forall mo rest_, lookup_cap "type" mo = None ->
              lookup_cap "type" (mo ++ rest_) = lookup_cap "type" rest_).
    { intros mo rest_. induction mo as [|[k v] mo IH]; simpl; auto.
      destruct (String.eqb k "type"); [discriminate | auto]. }
    rewrite (Hfront _ _ (Hl Hnames)). reflexivity.
Qed.

(** X14: the type of every constant the constant pattern finds is the
    first thing on its line: the match begins at the start of the subject
    or right after a line feed, and the type group begins where the match
    does.  A declaration that follows anything on its line, the word const
    too, is not found. *)
Theorem constant_begins_its_line (subject : text) (m : MatchState) :
  In m (match_all CONSTANTREGEX subject) ->
  begins_line subject (start m) /\
  exists e, lookup_cap "type" (caps m) = Some (start m, e).
Proof.
  intros Hm. apply match_all_sound in Hm. destruct Hm as (o & l & He & Hin).
  rewrite CONSTANTREGEX_parts in He. cbn [groups CONSTANTREGEX] in He.
  rewrite depth_budget_S in He. set (f := List.length subject + 7) in *.
  set (A := keep (state_at subject o)) in *.
  assert (HA : on_subject subject A) by apply state_at_on_subject.
  destruct (seq_In _ _ _ _ _ _ _ He Hin) as (l1 & s1 & l2 & E1 & Hs1 & E2 & Hm2).
  pose proof (exec_on_subject _ subject _ _ _ _ HA E1) as O1.
  rewrite Forall_forall in O1. specialize (O1 s1 Hs1).
  destruct (seq_In _ _ _ _ _ _ _ E2 Hm2) as (l3 & s3 & l4 & E3 & Hs3 & E4 & Hm4).
  pose proof (exec_on_subject _ subject _ _ _ _ O1 E3) as O3.
  rewrite Forall_forall in O3. specialize (O3 s3 Hs3).
  destruct (seq_In _ _ _ _ _ _ _ E4 Hm4) as (l5 & s5 & l6 & E5 & Hs5 & E6 & Hm6).
  (* the tail after the atomic group keeps the start and the groups *)
  pose proof (exec_follows BASEREGEX false BASEREGEX_shape (S f) false
                (Seq (G "c") (L ";")) _ _ eq_refl E6) as F6.
  rewrite Forall_forall in F6. destruct (F6 m Hm6) as (_ & St6 & Cp6).
  rewrite (St6 eq_refl), (Cp6 eq_refl).
  destruct (atomic_In _ _ _ _ _ _ E5 Hs5) as (li & Ei & Hsi).
  destruct (seq_In _ _ _ _ _ _ _ Ei Hsi) as (l7 & s7 & l8 & E7 & Hs7 & E8 & Hm8).
  pose proof (exec_on_subject _ subject _ _ _ _ O3 E7) as O7.
  rewrite Forall_forall in O7. specialize (O7 s7 Hs7).
  destruct (seq_In _ _ _ _ _ _ _ E8 Hm8) as (l9 & s9 & l10 & E9 & Hs9 & E10 & Hm10).
  pose proof (exec_on_subject _ subject _ _ _ _ O7 E9) as O9.
  rewrite Forall_forall in O9. specialize (O9 s9 Hs9).
  destruct (seq_In _ _ _ _ _ _ _ E10 Hm10) as (l11 & s11 & l12 & E11 & Hs11 & E12 & Hm12).
  destruct (bol_In _ _ _ _ _ E11 Hs11) as [-> Hbol].
  edestruct (after_keep_type BASEREGEX f) as (Hst & e & Hcap);
    [exact BASEREGEX_shape | | | | exact E12 | exact Hm12 |];
    [reflexivity | reflexivity | reflexivity |].
  rewrite Hst. split; [now apply at_bol_begins_line | now exists e].
Qed.

Lemma constant_begins_its_line_witness :
  match_all CONSTANTREGEX const_script = [const_script_match] /\
  begins_line const_script 17 /\
  exists e, lookup_cap "type" (caps const_script_match) = Some (17, e).
Proof.
  assert (H : match_all CONSTANTREGEX const_script = [const_script_match])
    by (vm_compute; reflexivity).
  split; [exact H|].
  apply (constant_begins_its_line const_script const_script_match).
  rewrite H. left. reflexivity.
Defined.

Lemma only_comments_app (a b : text) :
  only_comments a -> only_comments b -> only_comments (a ++ b).
Proof.
  intros Ha Hb. induction Ha as [|body more Ha IH]; [exact Hb|].
  replace ((str "/*" ++ body ++ str "*/" ++ more) ++ b)
    with (str "/*" ++ body ++ str "*/" ++ (more ++ b))
    by (now rewrite <- !app_assoc).
  now constructor.
Qed.

Lemma any_unit (f : nat) (st : MatchState) :
  exec BASEREGEX (S f) (Atomic (Alt Dot (Lit LF))) st
  = Some (match rest st with [] => [] | _ :: _ => [advance st] end).
Proof.
  rewrite exec_Atomic, exec_Alt, exec_Dot, exec_Lit. unfold eat, not_LF.
  destruct (rest st) as [|x r]; [reflexivity|].
  rewrite (N.eqb_sym LF x). destruct (N.eqb x LF); reflexivity.
Qed.

Lemma close_unit (f : nat) (st : MatchState) :
  exec BASEREGEX (S f) (Seq (L "*") (L "/")) st
  = Some (if prefix_of (str "*/") (rest st) then [advance (advance st)] else []).
Proof.
  rewrite exec_Seq. unfold L. rewrite exec_Lit. unfold eat.
  destruct (rest st) as [|x r] eqn:Er; [reflexivity|].
  cbn [str prefix_of]. destruct (N.eqb (ch "*") x); [|reflexivity].
  rewrite collect_one, exec_Lit. unfold eat.
  assert (Hr : rest (advance st) = r) by (unfold advance; now rewrite Er).
  rewrite Hr. destruct r as [|y r']; [reflexivity|].
  cbn [andb prefix_of]. rewrite andb_true_r.
  destruct (N.eqb (ch "/") y); reflexivity.
Qed.

Lemma prefix_two_head (a b x : unit_t) (t u : text) :
  t <> [] -> prefix_of [a; b] (x :: t ++ u) = prefix_of [a; b] (x :: t).
Proof. destruct t as [|y t]; [congruence | reflexivity]. Qed.

(** The lazy loop of a block comment stops at the first star and slash. *)
Lemma comment_body (f : nat) :
  forall n st l s' l',
    repeat_ true (exec BASEREGEX (S f) (Atomic (Alt Dot (Lit LF)))) n st = Some l ->
    collect (exec BASEREGEX (S f) (Seq (L "*") (L "/"))) l = Some (s' :: l') ->
    exists body,
      closes_first body = true /\
      rest st = body ++ str "*/" ++ rest s' /\
      pos s' = pos st + List.length body + 2.
Proof.
  induction n as [|n IH]; intros st l s' l' H Hc; [discriminate|].
  cbn [repeat_] in H. rewrite any_unit in H.
  destruct (rest st) as [|x r] eqn:Er.
  - cbn [collect] in H. inversion H; subst. rewrite collect_one, close_unit, Er in Hc.
    discriminate.
  - rewrite collect_one, (pos_advance_neq st x r Er) in H.
    destruct (repeat_ true _ n (advance st)) as [more|] eqn:Em; [|discriminate].
    injection H as H. subst l. cbn [collect] in Hc. rewrite close_unit, Er in Hc.
    assert (Hr : rest (advance st) = r) by (unfold advance; now rewrite Er).
    assert (Hp : pos (advance st) = S (pos st)) by (unfold advance; now rewrite Er).
    destruct (prefix_of (str "*/") (x :: r)) eqn:Epre.
    + destruct (collect _ more) as [b|]; [|discriminate].
      cbn [app] in Hc. injection Hc as Hs' _. subst s'.
      exists []. split; [reflexivity|].
      cbn [str prefix_of] in Epre. destruct r as [|y r']; [now rewrite andb_false_r in Epre|].
      cbn [prefix_of] in Epre. rewrite andb_true_r in Epre.
      apply andb_true_iff in Epre. destruct Epre as [Ex Ey].
      apply N.eqb_eq in Ex, Ey. subst x y.
      assert (Hr2 : rest (advance (advance st)) = r')
        by (unfold advance at 1; now rewrite Hr).
      assert (Hp2 : pos (advance (advance st)) = S (S (pos st)))
        by (unfold advance at 1; rewrite Hr; cbn [pos]; now rewrite Hp).
      rewrite Hr2, Hp2. split; [reflexivity | simpl; lia].
    + destruct (collect _ more) as [b|] eqn:Eb; [|discriminate].
      cbn [app] in Hc. injection Hc as Hb. subst b.
      destruct (IH _ _ _ _ Em Eb) as (body & Hcl & Hrest & Hpos).
      exists (x :: body). rewrite Hr in Hrest. split; [|split].
      * cbn [closes_first]. rewrite Hcl, andb_true_r. apply negb_true_iff.
        rewrite Hrest, app_assoc in Epre.
        change (str "*/") with [ch "*"; ch "/"] in *.
        rewrite prefix_two_head in Epre; [exact Epre|].
        destruct body; discriminate.
      * rewrite Hrest. reflexivity.
      * rewrite Hpos, Hp. cbn [List.length]. lia.
Qed.

Lemma went_over_refl (P : text -> Prop) (a : MatchState) :
  P [] -> went_over P a a.
Proof. intros H. exists []. simpl. repeat split; [lia | exact H]. Qed.

Lemma went_over_trans (P : text -> Prop) (a b c : MatchState) :
  (forall u v, P u -> P v -> P (u ++ v)) ->
  went_over P a b -> went_over P b c -> went_over P a c.
Proof.
  intros Happ (g1 & R1 & P1 & Q1) (g2 & R2 & P2 & Q2). exists (g1 ++ g2).
  rewrite R1, R2, P2, P1, length_app, app_assoc. repeat split; [lia | auto].
Qed.

(** A call of the comment group goes over one block comment. *)
Lemma comment_In (f : nat) (st s : MatchState) (l : list MatchState) :
  exec BASEREGEX (S (S f)) (G "comment") st = Some l -> In s l ->
  went_over only_comments st s.
Proof.
  unfold G. rewrite exec_Call. intros H Hs.
  destruct (exec BASEREGEX (S f) (BASEREGEX "comment") st) as [lc|] eqn:Ec;
    [|discriminate].
  inversion H; subst. apply in_map_iff in Hs. destruct Hs as (s' & <- & Hs').
  change (BASEREGEX "comment") with comment in Ec. unfold comment in Ec.
  cbn [Cat] in Ec. rewrite exec_Atomic in Ec.
  destruct (exec BASEREGEX (S f)
              (Seq (L "/") (Seq (L "*")
                 (Seq (StarL (Atomic (Alt Dot (Lit LF)))) (Seq (L "*") (L "/")))))
              st) as [[|s0 li]|] eqn:Ei; simpl in Ec; inversion Ec; subst;
    [contradiction|].
  destruct Hs' as [<-|[]].
  (* the two units that open the comment *)
  rewrite exec_Seq in Ei. unfold L in Ei at 1. rewrite exec_Lit in Ei.
  unfold eat in Ei. destruct (rest st) as [|x r] eqn:Er; [discriminate|].
  destruct (N.eqb_spec (ch "/") x) as [<-|]; [|discriminate].
  rewrite collect_one, exec_Seq in Ei. unfold L in Ei at 1. rewrite exec_Lit in Ei.
  unfold eat in Ei.
  assert (Hr1 : rest (advance st) = r) by (unfold advance; now rewrite Er).
  assert (Hp1 : pos (advance st) = S (pos st)) by (unfold advance; now rewrite Er).
  rewrite Hr1 in Ei. destruct r as [|y r'] eqn:Er'; [discriminate|].
  destruct (N.eqb_spec (ch "*") y) as [<-|]; [|discriminate].
  rewrite collect_one in Ei.
  assert (Hr2 : rest (advance (advance st)) = r')
    by (unfold advance at 1; now rewrite Hr1).
  assert (Hp2 : pos (advance (advance st)) = S (S (pos st)))
    by (unfold advance at 1; rewrite Hr1; cbn [pos]; now rewrite Hp1).
  rewrite exec_Seq in Ei. unfold StarL in Ei. rewrite exec_Star in Ei.
  destruct (repeat_ true _ _ (advance (advance st))) as [lb|] eqn:Eb; [|discriminate].
  destruct (comment_body _ _ _ _ _ _ Eb Ei) as (body & Hcl & Hrest & Hpos).
  rewrite Hr2 in Hrest. rewrite Hp2 in Hpos.
  exists (str "/*" ++ body ++ str "*/" ++ []). split; [|split].
  - cbn [rest with_caps]. rewrite Er, Hrest. cbn [str app].
    now rewrite <- !app_assoc.
  - cbn [pos with_caps]. rewrite Hpos, !length_app. cbn [str List.length]. lia.
  - constructor; [exact Hcl | constructor].
Qed.

(** A run of block comments at the head of a line. *)
Lemma comments_In (f : nat) (st s : MatchState) (l : list MatchState) :
  exec BASEREGEX (S (S f)) (StarP (G "comment")) st = Some l -> In s l ->
  went_over only_comments st s.
Proof.
  intros H Hs. unfold StarP in H.
  destruct (atomic_In _ _ _ _ _ _ H Hs) as (li & Ei & Hi).
  rewrite exec_Star in Ei.
  pose proof (repeat_rel (went_over only_comments) false
                (exec BASEREGEX (S (S f)) (G "comment"))
                (fun a => went_over_refl _ a no_comment)
                (fun a b c' => went_over_trans _ a b c' only_comments_app)) as Hrep.
  assert (Hall : Forall (went_over only_comments st) li).
  { eapply Hrep; [|exact Ei]. intros a r Ha. apply Forall_forall.
    intros b Hb. exact (comment_In _ _ _ _ Ha Hb). }
  rewrite Forall_forall in Hall. auto.
Qed.

(** X15: the type of every function the function pattern finds is the
    first thing on its line but for block comments: between the beginning
    of the line and the type there is nothing, or block comments (each from
    its slash and star to the first star and slash after them) that follow
    one another with nothing between them, not even a blank; the type group
    begins where the match does.  So a declaration that follows another on
    its line, and an indented one, are not found. *)
Theorem function_begins_its_line (subject : text) (m : MatchState) :
  In m (match_all FUNCTIONDECLARATIONREGEX subject) ->
  exists b gap,
    begins_line subject b /\ only_comments gap /\
    firstn (List.length gap) (skipn b subject) = gap /\
    start m = b + List.length gap /\
    exists e, lookup_cap "type" (caps m) = Some (start m, e).
Proof.
  intros Hm. apply match_all_sound in Hm. destruct Hm as (o & l & He & Hin).
  cbn [groups pattern FUNCTIONDECLARATIONREGEX] in He.
  unfold FUNCTIONHEADER, FUNCTIONSIGNATURE in He. cbn [Cat] in He.
  rewrite depth_budget_S in He.
  replace (List.length subject + 7) with (S (List.length subject + 6)) in He by lia.
  set (f := List.length subject + 6) in *.
  set (A := keep (state_at subject o)) in *.
  assert (HA : on_subject subject A) by apply state_at_on_subject.
  destruct (seq_In _ _ _ _ _ _ _ He Hin) as (lh & sh & l0 & Eh & Hsh & E0 & Hm0).
  pose proof (exec_follows BASEREGEX false BASEREGEX_shape (S (S f)) false
                (L ";") _ _ eq_refl E0) as F0.
  rewrite Forall_forall in F0. destruct (F0 m Hm0) as (_ & St0 & Cp0).
  rewrite (St0 eq_refl), (Cp0 eq_refl).
  destruct (seq_In _ _ _ _ _ _ _ Eh Hsh) as (l1 & s1 & l2 & E1 & Hs1 & E2 & Hm2).
  destruct (bol_In _ _ _ _ _ E1 Hs1) as [-> Hbol].
  destruct (seq_In _ _ _ _ _ _ _ E2 Hm2) as (l3 & s3 & l4 & E3 & Hs3 & E4 & Hm4).
  destruct (comments_In _ _ _ _ E3 Hs3) as (gap & Rg & Pg & Og).
  edestruct (after_keep_type BASEREGEX (S f)) as (Hst & e & Hcap);
    [exact BASEREGEX_shape | | | | exact E4 | exact Hm4 |];
    [reflexivity | reflexivity | reflexivity |].
  exists (pos A), gap. split; [now apply at_bol_begins_line|].
  split; [exact Og|]. split.
  - destruct HA as (_ & _ & HR). rewrite state_at_rest in HR.
    rewrite <- HR, Rg. rewrite firstn_app, firstn_all, Nat.sub_diag. simpl.
    apply app_nil_r.
  - split; [now rewrite Hst, Pg | exists e; now rewrite Hst in *].
Qed.

Lemma function_begins_its_line_witness :
  In lines_script_match (match_all FUNCTIONDECLARATIONREGEX lines_script) /\
  exists b gap,
    begins_line lines_script b /\ only_comments gap /\
    firstn (List.length gap) (skipn b lines_script) = gap /\
    32 = b + List.length gap /\
    exists e, lookup_cap "type" (caps lines_script_match) = Some (32, e).
Proof.
  assert (H : In lines_script_match
                (match_all FUNCTIONDECLARATIONREGEX lines_script))
    by (vm_compute; right; left; reflexivity).
  split; [exact H|].
  exact (function_begins_its_line lines_script lines_script_match H).
Defined.

(** X16: an engine structure is found only where nothing but blanks stands
    between the beginning of a line and its #define: the match begins with
    #define, after a run of blanks that begins a line. *)
Theorem engine_structure_begins_its_line (subject : text) (m : MatchState) :
  In m (match_all ENGINESTRUCTREGEX subject) ->
  exists b gap,
    begins_line subject b /\ forallb is_space gap = true /\
    firstn (List.length gap) (skipn b subject) = gap /\
    start m = b + List.length gap /\
    prefix_of (str "#define") (skipn (start m) subject) = true.
Proof.
  intros Hm. apply match_all_sound in Hm. destruct Hm as (o & l & He & Hin).
  cbn [groups pattern ENGINESTRUCTREGEX Cat] in He.
  rewrite depth_budget_S in He. set (f := List.length subject + 7) in *.
  set (A := keep (state_at subject o)) in *.
  assert (HA : on_subject subject A) by apply state_at_on_subject.
  assert (Hdefs : forall n, shape false true (no_groups n) = true)
    by reflexivity.
  destruct (seq_In _ _ _ _ _ _ _ He Hin) as (l1 & s1 & l2 & E1 & Hs1 & E2 & Hm2).
  destruct (bol_In _ _ _ _ _ E1 Hs1) as [-> Hbol].
  destruct (seq_In _ _ _ _ _ _ _ E2 Hm2) as (l3 & s3 & l4 & E3 & Hs3 & E4 & Hm4).
  destruct (longest_run (class_has false [CSpace]) (rest A)) as (w & r' & Hw & Hall & Hstop).
  unfold S_ in E3. rewrite (exec_run_star no_groups f false [CSpace] A w r' Hw Hall Hstop) in E3.
  injection E3 as E3. subst l3. destruct Hs3 as [<-|[]].
  assert (Hlen : List.length w <= List.length (rest A))
    by (rewrite Hw, length_app; lia).
  assert (O3 : on_subject subject (skip (List.length w) A)).
  { apply (ahead_on_subject subject (List.length w) A); [exact HA|].
    unfold ahead. auto. }
  destruct (seq_In _ _ _ _ _ _ _ E4 Hm4) as (l5 & s5 & l6 & E5 & Hs5 & E6 & Hm6).
  apply (keep_In _ _ _ _ _ E5) in Hs5. subst s5.
  assert (F6 : Forall (follows false true (keep (skip (List.length w) A))) l6)
    by (eapply exec_follows; [exact Hdefs | | exact E6]; reflexivity).
  rewrite Forall_forall in F6. destruct (F6 m Hm6) as (_ & St6 & _).
  destruct (seq_In _ _ _ _ _ _ _ E6 Hm6) as (l7 & s7 & l8 & E7 & Hs7 & _ & _).
  destruct (atomic_In _ _ _ _ _ _ E7 Hs7) as (l9 & E9 & Hs9).
  unfold Kw in E9. rewrite exec_Word in E9.
  destruct (prefix_of (str "#define") (rest (keep (skip (List.length w) A))))
    eqn:Epre; [|injection E9 as E9; subst l9; contradiction].
  exists (pos A), w. split; [now apply at_bol_begins_line|].
  split.
  { rewrite <- Hall. clear. induction w as [|x w IH]; [reflexivity|].
    cbn [forallb]. now rewrite IH, is_space_class. }
  assert (HR : rest A = skipn (pos A) subject).
  { destruct HA as (_ & _ & HR). now rewrite state_at_rest in HR. }
  split.
  { rewrite <- HR, Hw, firstn_app, firstn_all, Nat.sub_diag. simpl.
    apply app_nil_r. }
  assert (Hst : start m = pos A + List.length w).
  { rewrite (St6 eq_refl). cbn [start keep]. now apply skip_pos. }
  split; [exact Hst|].
  rewrite Hst. rewrite <- skip_pos by exact Hlen.
  destruct O3 as (_ & _ & HR3). rewrite state_at_rest in HR3.
  rewrite <- HR3. exact Epre.
Qed.

Lemma engine_structure_begins_its_line_witness :
  match_all ENGINESTRUCTREGEX engine_script = [engine_script_match] /\
  exists b gap,
    begins_line engine_script b /\ forallb is_space gap = true /\
    firstn (List.length gap) (skipn b engine_script) = gap /\
    33 = b + List.length gap /\
    prefix_of (str "#define") (skipn 33 engine_script) = true.
Proof.
  assert (H : match_all ENGINESTRUCTREGEX engine_script = [engine_script_match])
    by (vm_compute; reflexivity).
  split; [exact H|].
  apply (engine_structure_begins_its_line engine_script engine_script_match).
  rewrite H. left. reflexivity.
Defined.

(* ================================================================= *)
(** * Matching within the limits of the library *)

(** An attempt that is given up ends the scan with an error; otherwise
    the scan goes as it does without limits. *)
Lemma scan_limited_cases (g : nat -> bool) (re : RegexObj) (fuel : nat)
    (restricted : bool) (from : nat) :
  forall n st,
    scan_limited g re fuel restricted from n st = MatchError \/
    scan_limited g re fuel restricted from n st = scan re fuel restricted from n st.
Proof.
  induction n as [|n IH]; intros st; [now right|].
  cbn [scan_limited scan]. destruct (g (pos st)); [now left|].
  destruct (exec (groups re) fuel (pattern re) (keep st)) as [l|]; [|now right].
  destruct (if restricted then filter _ l else l); [|now right].
  destruct restricted; [now right|].
  destruct (rest st); [now right | apply IH].
Qed.

Lemma scan_limited_calm (g : nat -> bool) (re : RegexObj) (fuel : nat)
    (restricted : bool) (from : nat) :
  (forall o, g o = false) ->
  forall n st,
    scan_limited g re fuel restricted from n st = scan re fuel restricted from n st.
Proof.
  intros Hg. induction n as [|n IH]; intros st; [reflexivity|].
  cbn [scan_limited scan]. rewrite Hg.
  destruct (exec (groups re) fuel (pattern re) (keep st)) as [l|]; [|reflexivity].
  destruct (if restricted then filter _ l else l); [|reflexivity].
  destruct restricted; [reflexivity|].
  destruct (rest st); [reflexivity | apply IH].
Qed.

Lemma match_more_limited_calm (x : Limits) (re : RegexObj) (subject : text) :
  (forall o, x re subject o = false) ->
  forall n ov0 ov1,
    match_more_limited x re subject n ov0 ov1 = match_more re subject n ov0 ov1.
Proof.
  intros Hx. induction n as [|n IH]; intros ov0 ov1; [reflexivity|].
  cbn [match_more_limited match_more].
  unfold pcre2_match_limited, pcre2_match. rewrite (scan_limited_calm _ _ _ _ _ Hx).
  destruct (_ && _)%bool; [reflexivity|].
  destruct (scan re _ _ _ _ _); [now rewrite IH | | reflexivity].
  destruct (Nat.eqb ov0 ov1); [apply IH | reflexivity].
Qed.

(** Where no attempt on the subject is given up, the matches are those of
    the matcher without limits. *)
Lemma match_all_limited_calm (x : Limits) (re : RegexObj) (subject : text) :
  (forall o, x re subject o = false) ->
  match_all_limited x re subject = match_all re subject.
Proof.
  intros Hx. unfold match_all_limited, match_all, pcre2_match_limited, pcre2_match.
  rewrite (scan_limited_calm _ _ _ _ _ Hx).
  destruct (scan re _ _ _ _ _); try reflexivity.
  now rewrite (match_more_limited_calm x re subject Hx).
Qed.

Lemma match_more_limited_prefix (x : Limits) (re : RegexObj) (subject : text) :
  forall n ov0 ov1,
    exists more,
      match_more re subject n ov0 ov1
      = match_more_limited x re subject n ov0 ov1 ++ more.
Proof.
  induction n as [|n IH]; intros ov0 ov1; [now exists []|].
  cbn [match_more_limited match_more].
  destruct (_ && _)%bool; [now exists []|].
  unfold pcre2_match_limited, pcre2_match.
  destruct (scan_limited_cases (x re subject) re (depth_budget subject)
              (Nat.eqb ov0 ov1) ov1
              (S (List.length (rest (state_at subject ov1))))
              (state_at subject ov1)) as [E|E]; rewrite E.
  - eexists. reflexivity.
  - destruct (scan re _ _ _ _ _) as [m| |].
    + destruct (IH (start m) (pos m)) as [more Hm]. exists more.
      now rewrite Hm.
    + destruct (Nat.eqb ov0 ov1); [apply IH | now exists []].
    + now exists [].
Qed.

(** Whatever is given up, the matches found are the first of those the
    matcher without limits finds: limits lose matches and add none. *)
Lemma match_all_limited_prefix (x : Limits) (re : RegexObj) (subject : text) :
  exists more, match_all re subject = match_all_limited x re subject ++ more.
Proof.
  unfold match_all_limited, match_all, pcre2_match_limited, pcre2_match.
  destruct (scan_limited_cases (x re subject) re (depth_budget subject) false 0
              (S (List.length (rest (state_at subject 0))))
              (state_at subject 0)) as [E|E]; rewrite E.
  - eexists. reflexivity.
  - destruct (scan re _ _ _ _ _) as [m| |]; try (now exists []).
    destruct (match_more_limited_prefix x re subject
                (2 * S (List.length subject)) (start m) (pos m)) as [more Hm].
    exists more. now rewrite Hm.
Qed.

Lemma named_part_of (subject : text) (m : MatchState) (n : string) :
  part_of (named subject m n) subject.
Proof.
  unfold named, part_of. destruct (lookup_cap n (caps m)) as [[from to]|].
  - exists (firstn from subject), (skipn (to - from) (skipn from subject)).
    now rewrite firstn_skipn, firstn_skipn.
  - exists [], subject. reflexivity.
Qed.

Lemma part_of_refl (t : text) : part_of t t.
Proof. exists [], []. now rewrite app_nil_r. Qed.

Lemma function_member_limited_calm (x : Limits) (P : Platform) (subject : text)
    (m : MatchState) :
  (forall o, x FUNTIONPARAMETERREGEX (named subject m "parametersString") o = false) ->
  function_member_limited x P subject m = function_member P subject m.
Proof.
  intros Hx. unfold function_member_limited, function_member.
  now rewrite (match_all_limited_calm x _ _ Hx).
Qed.

Lemma function_memberW_limited_calm (x : Limits) (subject : text)
    (m : MatchState) :
  (forall o, x FUNTIONPARAMETERREGEX (named subject m "parametersString") o = false) ->
  function_memberW_limited x subject m = function_memberW subject m.
Proof.
  intros Hx. unfold function_memberW_limited, function_memberW.
  now rewrite (match_all_limited_calm x _ _ Hx).
Qed.

(** Where no attempt on the file or on a piece of it is given up, the
    passes do what they do without limits. *)
Lemma narrow_pass_calm (x : Limits) (P : Platform) (s : text)
    (out : ScriptParseResults) :
  calm x s ->
  CreateNWScriptStructureA_limited x P s out = CreateNWScriptStructureA P s out.
Proof.
  intros Hx. unfold CreateNWScriptStructureA_limited, CreateNWScriptStructureA.
  assert (Hall : forall re, match_all_limited x re s = match_all re s).
  { intros re. apply match_all_limited_calm. intros o. apply Hx, part_of_refl. }
  rewrite !Hall. cbn zeta.
  assert (Hf : map (function_member_limited x P s)
                   (match_all FUNCTIONDECLARATIONREGEX s)
               = map (function_member P s) (match_all FUNCTIONDECLARATIONREGEX s)).
  { apply map_ext. intros m. apply function_member_limited_calm.
    intros o. apply Hx, named_part_of. }
  now rewrite Hf.
Qed.

Lemma wide_pass_calm (x : Limits) (s : text) (out : ScriptParseResults) :
  calm x (as_wchars s) ->
  CreateNWScriptStructureW_limited x s out = CreateNWScriptStructureW s out.
Proof.
  intros Hx. unfold CreateNWScriptStructureW_limited, CreateNWScriptStructureW.
  cbn zeta.
  assert (Hall : forall re,
            match_all_limited x re (as_wchars s) = match_all re (as_wchars s)).
  { intros re. apply match_all_limited_calm. intros o. apply Hx, part_of_refl. }
  rewrite !Hall.
  assert (Hf : map (function_memberW_limited x (as_wchars s))
                   (match_all FUNCTIONDECLARATIONREGEX (as_wchars s))
               = map (function_memberW (as_wchars s))
                     (match_all FUNCTIONDECLARATIONREGEX (as_wchars s))).
  { apply map_ext. intros m. apply function_memberW_limited_calm.
    intros o. apply Hx, named_part_of. }
  now rewrite Hf.
Qed.

(** To see that a matcher with room for [levels] nested calls gives up no
    attempt on a subject, it is enough to try the offsets up to its end. *)
Lemma room_for_checked (levels : nat) (re : RegexObj) (s : text) :
  forallb (fun o => negb (room_for levels re s o)) (seq 0 (S (List.length s)))
  = true ->
  forall o, room_for levels re s o = false.
Proof.
  intros H o. rewrite forallb_forall in H.
  destruct (Nat.le_gt_cases (List.length s) o) as [Hle|Hlt].
  - unfold room_for. rewrite (state_at_beyond s o Hle).
    apply negb_true_iff. apply (H (List.length s)). apply in_seq. lia.
  - apply negb_true_iff. apply H. apply in_seq. lia.
Qed.





